(** * Block cache and page allocator of the xv6 teaching kernel

    A shallow embedding of [kernel/kalloc.c] (reference-counted physical
    page allocator) and of the sharded buffer cache [bio.c], followed by
    the properties the design document states about them.  The cache
    exists in two variants; the design document follows the one whose
    victim search runs under a global lock, and so do the theorems.

    Conventions.
    - C integers are [Z] values; every conversion to a fixed-width type
      is written out ([to_uint], [to_int]).
    - A kernel routine is a function from the machine state to an
      [outcome]: it returns, panics, leaves the defined behaviour of C,
      goes to sleep on a sleep-lock, or fails to finish within the
      supplied number of loop iterations.
    - Spin locks are taken and released inside one routine; the embedding
      runs every routine to completion, so they carry no state here. *)

From Stdlib Require Import ZArith List String Bool Lia.
From stdpp Require Import base list gmap.
Import ListNotations.

Local Open Scope string_scope.
Local Open Scope list_scope.
Local Open Scope Z_scope.

(** ** Machine integers *)

(** Conversion to [uint] (32-bit unsigned). *)
Definition to_uint (x : Z) : Z := x mod 2 ^ 32.

(** Conversion to [int] (32-bit two's complement). *)
Definition to_int (x : Z) : Z := (x + 2 ^ 31) mod 2 ^ 32 - 2 ^ 31.

(** ** Outcomes of a kernel routine *)

Inductive outcome (S A : Type) : Type :=
| Ret (a : A) (s : S)        (* normal return with the new state *)
| Panic (msg : string)       (* panic(msg): the kernel halts *)
| Asleep (s : S)             (* suspended in acquiresleep; [s] is the state left behind *)
| Undef                      (* out-of-bounds index or null dereference *)
| OutOfFuel.                 (* a loop did not finish within its bound *)

Arguments Ret {S A} a s.
Arguments Panic {S A} msg.
Arguments Asleep {S A} s.
Arguments Undef {S A}.
Arguments OutOfFuel {S A}.

Definition bind {S A B} (m : S -> outcome S A) (k : A -> S -> outcome S B)
  : S -> outcome S B :=
  fun s =>
    match m s with
    | Ret a s' => k a s'
    | Panic msg => Panic msg
    | Asleep s' => Asleep s'
    | Undef => Undef
    | OutOfFuel => OutOfFuel
    end.

Definition ret {S A} (a : A) : S -> outcome S A := fun s => Ret a s.
Definition panic {S A} (msg : string) : S -> outcome S A := fun _ => Panic msg.
Definition gets {S A} (f : S -> A) : S -> outcome S A := fun s => Ret (f s) s.

(** Reading through an index or pointer that may be invalid. *)
Definition gets_opt {S A} (f : S -> option A) : S -> outcome S A :=
  fun s => match f s with Some a => Ret a s | None => Undef end.

(** The state a routine returned with ([d] if it did not return). *)
Definition state_of {S A} (o : outcome S A) (d : S) : S :=
  match o with Ret _ s => s | _ => d end.

Definition returned {S A} (o : outcome S A) : bool :=
  match o with Ret _ _ => true | _ => false end.

(** The value a routine returned, if it returned. *)
Definition value_of {S A} (o : outcome S A) : option A :=
  match o with Ret a _ => Some a | _ => None end.

Declare Scope kern_scope.
Delimit Scope kern_scope with kern.
Notation "'let!' x ':=' m 'in' k" := (bind m (fun x => k))
  (at level 10, x name, m at level 100, k at level 200) : kern_scope.
Notation "'do!' m 'in' k" := (bind m (fun _ => k))
  (at level 10, m at level 100, k at level 200) : kern_scope.

(** * Physical page allocator (kernel/kalloc.c) *)

Module Kalloc.

(** Modelled from the spec: the size of a frame ("one fixed-size unit of
    physical memory"); [riscv.h], which defines it, is not among the
    sources, and kalloc.c documents it as "whole 4096-byte pages". *)
Definition PGSIZE : Z := 4096.

(** Modelled from the spec: [PGROUNDUP] of [riscv.h], the first
    page-aligned address at or above [sz] ("every page-aligned address in
    the supplied physical range"). *)
Definition PGROUNDUP (sz : Z) : Z := (sz + PGSIZE - 1) / PGSIZE * PGSIZE.

(** Physical memory: one byte per address. *)
Definition memory := Z -> Z.

(** [memset(dst, c, n)]: [c] is converted to [unsigned char]. *)
Definition memset (m : memory) (dst c n : Z) : memory :=
  fun a => if (dst <=? a) && (a <? dst + n) then c mod 256 else m a.

(** A 64-bit little-endian store, as [r->next = v] performs on RISC-V. *)
Definition store64 (m : memory) (a v : Z) : memory :=
  fun x => if (a <=? x) && (x <? a + 8)
           then (v / 2 ^ (8 * (x - a))) mod 256 else m x.

(** The matching load, [r->next]. *)
Definition load64 (m : memory) (a : Z) : Z :=
  m a + 2 ^ 8 * m (a + 1) + 2 ^ 16 * m (a + 2) + 2 ^ 24 * m (a + 3)
  + 2 ^ 32 * m (a + 4) + 2 ^ 40 * m (a + 5) + 2 ^ 48 * m (a + 6)
  + 2 ^ 56 * m (a + 7).

(** [kmem.freelist], [kref.ref] and the memory the free list is threaded
    through. *)
Record kstate : Type := mkK {
  freelist : Z;
  ref : list Z;
  mem : memory
}.

Definition set_freelist (s : kstate) (p : Z) : kstate :=
  mkK p (ref s) (mem s).
Definition set_mem (s : kstate) (m : memory) : kstate :=
  mkK (freelist s) (ref s) m.

(** [kref.ref[n]]; an index outside the array has no value. *)
Definition ref_at (s : kstate) (n : Z) : option Z :=
  if 0 <=? n then ref s !! Z.to_nat n else None.

(** [kref.ref[n] = v] for an index inside the array. *)
Definition set_ref (s : kstate) (n v : Z) : kstate :=
  mkK (freelist s) (<[Z.to_nat n := v]> (ref s)) (mem s).

Section WithLayout.

(** [end], the first address after the kernel image (set by the linker
    script), and [PHYSTOP] of [memlayout.h]. *)
Variables kend PHYSTOP : Z.

(** The state at boot: zeroed [.bss] (empty free list, all counts 0) and
    whatever the RAM holds. *)
Definition boot (m : memory) : kstate :=
  mkK 0 (replicate (Z.to_nat (PHYSTOP / PGSIZE)) 0) m.

(** [increref(pa, count)]. *)
Definition increref (pa count : Z) : kstate -> outcome kstate Z :=
  fun s =>
    let n := to_int (pa / PGSIZE) in
    match ref_at s n with
    | None => Undef
    | Some c =>
        let temp := to_int (c + count) in
        Ret temp (set_ref s n temp)
    end.

(** The message of the second panic of [kfree]; the C literal ends in a
    line feed. *)
Definition ref_panic_msg : string :=
  "Ref less than or equal 0!" ++ String (Ascii.ascii_of_nat 10) EmptyString.

(** [kfree(pa)]. *)
Definition kfree (pa : Z) : kstate -> outcome kstate unit :=
  fun s =>
    if negb (pa mod PGSIZE =? 0) || (pa <? kend) || (PHYSTOP <=? pa)
    then Panic "kfree"
    else
      let n := to_int (pa / PGSIZE) in
      match ref_at s n with
      | None => Undef
      | Some c =>
          if c <=? 0 then Panic ref_panic_msg
          else
            let temp := c - 1 in      (* c > 0: no overflow *)
            let s1 := set_ref s n temp in
            if 0 <? temp then Ret tt s1
            else
              let m1 := memset (mem s1) pa 1 PGSIZE in
              let m2 := store64 m1 pa (freelist s1) in
              Ret tt (mkK pa (ref s1) m2)
      end.

(** [kalloc()]; the null pointer is 0. *)
Definition kalloc : kstate -> outcome kstate Z :=
  fun s =>
    let r := freelist s in
    if r =? 0 then Ret 0 s
    else
      let s1 := set_freelist s (load64 (mem s) r) in
      let n := to_int (r / PGSIZE) in
      match ref_at s1 n with
      | None => Undef
      | Some c =>
          if negb (c =? 0) then Panic "Alloc a existed page"
          else
            let s2 := set_ref s1 n 1 in
            Ret r (set_mem s2 (memset (mem s2) r 5 PGSIZE))
      end.

(** The loop of [freerange]: one unit of [fuel] per iteration. *)
Fixpoint freerange_loop (fuel : nat) (p pa_end : Z) (s : kstate)
  : outcome kstate unit :=
  if p + PGSIZE <=? pa_end then
    match fuel with
    | O => OutOfFuel
    | S fuel' =>
        let n := p / PGSIZE in
        match ref_at s n with
        | None => Undef
        | Some _ =>
            match kfree p (set_ref s n 1) with
            | Ret _ s' => freerange_loop fuel' (p + PGSIZE) pa_end s'
            | o => o
            end
        end
    end
  else Ret tt s.

(** [freerange(pa_start, pa_end)], with as many iterations allowed as
    there are pages between the two addresses. *)
Definition freerange (pa_start pa_end : Z) : kstate -> outcome kstate unit :=
  freerange_loop (Z.to_nat ((pa_end - pa_start) / PGSIZE))
                 (PGROUNDUP pa_start) pa_end.

(** [kinit()]. *)
Definition kinit : kstate -> outcome kstate unit :=
  freerange kend PHYSTOP.

(** The operations the allocator offers, and a run of several of them. *)
Inductive op : Type :=
| Allocate
| Free (pa : Z)
| AddReference (pa count : Z).

Definition step (o : op) (s : kstate) : outcome kstate unit :=
  match o with
  | Allocate => match kalloc s with
                | Ret _ s' => Ret tt s'
                | Panic msg => Panic msg
                | Asleep s' => Asleep s'
                | Undef => Undef
                | OutOfFuel => OutOfFuel
                end
  | Free pa => kfree pa s
  | AddReference pa count =>
      match increref pa count s with
      | Ret _ s' => Ret tt s'
      | Panic msg => Panic msg
      | Asleep s' => Asleep s'
      | Undef => Undef
      | OutOfFuel => OutOfFuel
      end
  end.

Fixpoint run (ops : list op) (s : kstate) : outcome kstate unit :=
  match ops with
  | [] => Ret tt s
  | o :: ops' =>
      match step o s with
      | Ret _ s' => run ops' s'
      | other => other
      end
  end.

(** A frame is on the free list when following [next] links from the
    head reaches it before the null pointer. *)
Inductive on_freelist (m : memory) : Z -> Z -> Prop :=
| fl_here h : h <> 0 -> on_freelist m h h
| fl_next h p : h <> 0 -> on_freelist m (load64 m h) p -> on_freelist m h p.

(** The free list read off as a list of addresses, head first. *)
Fixpoint free_frames (fuel : nat) (m : memory) (h : Z) : option (list Z) :=
  if h =? 0 then Some []
  else match fuel with
       | O => None
       | S fuel' => cons h <$> free_frames fuel' m (load64 m h)
       end.

(** The two allocator invariants of the design: no count is negative,
    and a frame on the free list has count 0. *)
Definition counts_nonneg (s : kstate) : Prop :=
  forall n c, ref_at s n = Some c -> 0 <= c.

Definition free_unreferenced (s : kstate) : Prop :=
  forall p, on_freelist (mem s) (freelist s) p ->
            ref_at s (p / PGSIZE) = Some 0.

(** The free list as a null-terminated chain of [next] links. *)
Fixpoint lseg (m : memory) (h : Z) (l : list Z) : Prop :=
  match l with
  | [] => h = 0
  | p :: l' => h = p /\ p <> 0 /\ lseg m (load64 m p) l'
  end.

(** The representation invariant of the allocator: [l] lists the frames
    of the free list, each once, each a frame of the managed range with
    count 0, and no count is negative. *)
Record kinv (s : kstate) (l : list Z) : Prop := mk_kinv {
  inv_len : length (ref s) = Z.to_nat (PHYSTOP / PGSIZE);
  inv_list : lseg (mem s) (freelist s) l;
  inv_nodup : NoDup l;
  inv_frames : forall p, p ∈ l ->
      kend <= p < PHYSTOP /\ p mod PGSIZE = 0 /\
      ref_at s (p / PGSIZE) = Some 0;
  inv_counts : forall n c, ref_at s n = Some c -> 0 <= c
}.

(** The discipline a caller of [increref] keeps: the frame is not on the
    free list and the count the call returns is not negative. *)
Definition add_reference_ok (pa count : Z) (s : kstate) : Prop :=
  (forall p, on_freelist (mem s) (freelist s) p ->
             p / PGSIZE <> to_int (pa / PGSIZE)) /\
  (forall c, ref_at s (to_int (pa / PGSIZE)) = Some c ->
             0 <= to_int (c + count)).

Fixpoint disciplined (ops : list op) (s : kstate) : Prop :=
  match ops with
  | [] => True
  | o :: ops' =>
      match o with
      | AddReference pa count => add_reference_ok pa count s
      | _ => True
      end /\
      match step o s with
      | Ret _ s' => disciplined ops' s'
      | _ => True
      end
  end.

(** A decision procedure for the discipline, reading the free list with
    [free_frames]. *)
Definition add_reference_okb (fuel : nat) (pa count : Z) (s : kstate) : bool :=
  let n := to_int (pa / PGSIZE) in
  match free_frames fuel (mem s) (freelist s) with
  | None => false
  | Some l =>
      forallb (fun p => negb (p / PGSIZE =? n)) l &&
      match ref_at s n with
      | Some c => 0 <=? to_int (c + count)
      | None => true
      end
  end.

Fixpoint disciplinedb (fuel : nat) (ops : list op) (s : kstate) : bool :=
  match ops with
  | [] => true
  | o :: ops' =>
      match o with
      | AddReference pa count => add_reference_okb fuel pa count s
      | _ => true
      end &&
      match step o s with
      | Ret _ s' => disciplinedb fuel ops' s'
      | _ => true
      end
  end.

(** What the layout constants satisfy on the machine: the kernel image
    ends above address 0, and physical memory ends on a page boundary
    low enough for a frame number to fit an [int]. *)
Definition layout_ok : Prop :=
  0 < kend /\ PHYSTOP mod PGSIZE = 0 /\ PHYSTOP <= 2 ^ 31 * PGSIZE.

End WithLayout.

(** A machine small enough to compute with: the kernel image ends
    inside the page below frame A, and physical memory holds four
    frames A, B, C, D after it. *)
Definition ex_end : Z := 0x1f38.
Definition ex_PHYSTOP : Z := 0x6000.
Definition frameA : Z := 0x2000.
Definition frameB : Z := 0x3000.
Definition frameC : Z := 0x4000.
Definition frameD : Z := 0x5000.

(** RAM holding zeroes. *)
Definition zero_mem : memory := fun _ => 0.

(** The state of the small machine after [kinit], and after a run of
    operations on it. *)
Definition ex_init : kstate :=
  state_of (kinit ex_end ex_PHYSTOP (boot ex_PHYSTOP zero_mem))
           (boot ex_PHYSTOP zero_mem).

Definition ex_state (ops : list op) : kstate :=
  state_of (run ex_end ex_PHYSTOP ops ex_init) ex_init.

End Kalloc.

(** * Buffer cache (bio.c, the variant with the global eviction lock) *)

Module Bio.

Definition NBUCKETS : Z := 13.

(** [haskBlock(int block)]: the block number arrives as an [int], and
    [%] truncates toward zero. *)
Definition haskBlock (block : Z) : Z := Z.rem (to_int block) NBUCKETS.

(** Addresses of [struct buf] objects: a pool slot [&bcache.buf[i]], a
    bucket head [&bcache.buckets[i]], [&bcache.head], or null. *)
Inductive ptr : Type :=
| NULL
| BUF (i : nat)
| BUCKET (i : nat)
| HEAD.

#[global] Instance ptr_eq_dec : EqDecision ptr.
Proof. solve_decision. Defined.

(** Modelled from the spec: [struct buf] of [buf.h], which is not among
    the sources ("device identifier, block number, validity flag,
    reference count, a last-used timestamp, a fixed-size data payload,
    and an exclusive-use lock"), with the list links [prev] and [next]
    the code goes through.  [refcnt] is taken to be a [uint], like
    [dev] and [blockno] (the parameters of [bget] are [uint]) and like
    [ticks], which is copied from the kernel's [uint] tick counter;
    increments and decrements of an [int] field produce the same 32
    bits, and where the sign of the count matters it is read as a signed
    number.  [valid] is an [int].  The sleep-lock is represented by its
    holder: [None] when free, [Some pid] when process [pid] holds it. *)
Record buf : Type := mkBuf {
  valid : Z;
  dev : Z;
  blockno : Z;
  lock : option Z;
  refcnt : Z;
  prev : ptr;
  next : ptr;
  ticks : Z;
  data : list Z
}.

Definition set_valid (v : Z) (b : buf) : buf :=
  mkBuf v (dev b) (blockno b) (lock b) (refcnt b) (prev b) (next b)
        (ticks b) (data b).
Definition set_dev (v : Z) (b : buf) : buf :=
  mkBuf (valid b) v (blockno b) (lock b) (refcnt b) (prev b) (next b)
        (ticks b) (data b).
Definition set_blockno (v : Z) (b : buf) : buf :=
  mkBuf (valid b) (dev b) v (lock b) (refcnt b) (prev b) (next b)
        (ticks b) (data b).
Definition set_lock (v : option Z) (b : buf) : buf :=
  mkBuf (valid b) (dev b) (blockno b) v (refcnt b) (prev b) (next b)
        (ticks b) (data b).
Definition set_refcnt (v : Z) (b : buf) : buf :=
  mkBuf (valid b) (dev b) (blockno b) (lock b) v (prev b) (next b)
        (ticks b) (data b).
Definition set_prev (v : ptr) (b : buf) : buf :=
  mkBuf (valid b) (dev b) (blockno b) (lock b) (refcnt b) v (next b)
        (ticks b) (data b).
Definition set_next (v : ptr) (b : buf) : buf :=
  mkBuf (valid b) (dev b) (blockno b) (lock b) (refcnt b) (prev b) v
        (ticks b) (data b).
Definition set_ticks (v : Z) (b : buf) : buf :=
  mkBuf (valid b) (dev b) (blockno b) (lock b) (refcnt b) (prev b) (next b)
        v (data b).
Definition set_data (v : list Z) (b : buf) : buf :=
  mkBuf (valid b) (dev b) (blockno b) (lock b) (refcnt b) (prev b) (next b)
        (ticks b) v.

(** A request sent to the block device. *)
Inductive io : Type :=
| DiskRead (dev blockno : Z)
| DiskWrite (dev blockno : Z).

(** The [bcache] object, the contents of the block device, and the
    requests the driver has served so far. *)
Record bcache : Type := mkCache {
  bufs : list buf;
  head : buf;
  buckets : list buf;
  disk : gmap (Z * Z) (list Z);
  iolog : list io
}.

(** [*p] *)
Definition get (s : bcache) (p : ptr) : option buf :=
  match p with
  | NULL => None
  | BUF i => bufs s !! i
  | BUCKET i => buckets s !! i
  | HEAD => Some (head s)
  end.

(** [*p = b] for a valid [p] *)
Definition put (s : bcache) (p : ptr) (b : buf) : bcache :=
  match p with
  | NULL => s
  | BUF i => mkCache (<[i := b]> (bufs s)) (head s) (buckets s) (disk s) (iolog s)
  | BUCKET i => mkCache (bufs s) (head s) (<[i := b]> (buckets s)) (disk s) (iolog s)
  | HEAD => mkCache (bufs s) b (buckets s) (disk s) (iolog s)
  end.

Local Open Scope kern_scope.

Definition deref (p : ptr) : bcache -> outcome bcache buf :=
  gets_opt (fun s => get s p).

(** [p->field = v], written as a change [f] of the object at [p]. *)
Definition upd (p : ptr) (f : buf -> buf) : bcache -> outcome bcache unit :=
  fun s => match get s p with
           | Some b => Ret tt (put s p (f b))
           | None => Undef
           end.

(** The number of [struct buf] objects: no loop over a list that ends
    can take more steps. *)
Definition nodes (s : bcache) : nat :=
  length (bufs s) + length (buckets s) + 1.

(** Modelled from the spec: the sleep-lock primitive of [sleeplock.c]
    ("an exclusive-use lock ... the holder may suspend rather than
    spin").  [acquiresleep] suspends the caller while the lock is taken. *)
Definition holdingsleep (pid : Z) (b : buf) : bool :=
  bool_decide (lock b = Some pid).

Definition acquiresleep (pid : Z) (p : ptr) : bcache -> outcome bcache unit :=
  fun s => match get s p with
           | None => Undef
           | Some b =>
               match lock b with
               | Some _ => Asleep s
               | None => Ret tt (put s p (set_lock (Some pid) b))
               end
           end.

Definition releasesleep (p : ptr) : bcache -> outcome bcache unit :=
  upd p (set_lock None).

Definition initsleeplock (p : ptr) : bcache -> outcome bcache unit :=
  upd p (set_lock None).

(** Modelled from the spec: the block-device driver
    ("[read(device, block_number, buffer)] and
    [write(device, block_number, buffer)], both synchronous ...
    operating on the buffer's fixed-size payload in place"), called as
    [virtio_disk_rw(b, write)]. *)
Definition BSIZE : nat := 1024.

Definition virtio_disk_rw (p : ptr) (write : bool)
  : bcache -> outcome bcache unit :=
  fun s =>
    match get s p with
    | None => Undef
    | Some b =>
        if write then
          Ret tt (mkCache (bufs s) (head s) (buckets s)
                          (<[(dev b, blockno b) := data b]> (disk s))
                          (iolog s ++ [DiskWrite (dev b) (blockno b)]))
        else
          let s1 := put s p (set_data
                     (default (replicate BSIZE 0) (disk s !! (dev b, blockno b)))
                     b) in
          Ret tt (mkCache (bufs s1) (head s1) (buckets s1) (disk s1)
                          (iolog s1 ++ [DiskRead (dev b) (blockno b)]))
    end.

(** [&bcache.buckets[hashId]] for an [int] index. *)
Definition bucket_ptr (hashId : Z) : bcache -> outcome bcache ptr :=
  fun s => if (0 <=? hashId) && (hashId <? NBUCKETS)
           then Ret (BUCKET (Z.to_nat hashId)) s
           else Undef.

(** The loop of [binit] over the bucket heads. *)
Fixpoint binit_buckets (ids : list nat) : bcache -> outcome bcache unit :=
  match ids with
  | [] => ret tt
  | i :: ids' =>
      do! upd (BUCKET i) (set_prev (BUCKET i)) in
      do! upd (BUCKET i) (set_next (BUCKET i)) in
      binit_buckets ids'
  end.

(** The body of the loop of [binit] over the pool. *)
Definition binit_buf (now : Z) (i : nat) : bcache -> outcome bcache unit :=
  let b := BUF i in
  let! bb := deref b in
  let! h := bucket_ptr (haskBlock (blockno bb)) in
  let! hd := deref h in
  do! upd b (set_next (next hd)) in
  do! upd b (set_prev h) in
  do! initsleeplock b in
  let! hd := deref h in
  do! upd (next hd) (set_prev b) in
  do! upd h (set_next b) in
  upd b (set_ticks now).

Fixpoint binit_bufs (now : Z) (ids : list nat) : bcache -> outcome bcache unit :=
  match ids with
  | [] => ret tt
  | i :: ids' => do! binit_buf now i in binit_bufs now ids'
  end.

(** [binit()], run when the tick counter reads [now]. *)
Definition binit (now : Z) : bcache -> outcome bcache unit :=
  fun s =>
    (do! binit_buckets (seq 0 (Z.to_nat NBUCKETS)) in
     binit_bufs now (seq 0 (length (bufs s)))) s.

(** The loop "is the block already cached?" of [bget], from node [p] to
    the bucket head [stop]. *)
Fixpoint scan_cached (fuel : nat) (stop : ptr) (d bn : Z) (p : ptr)
  : bcache -> outcome bcache (option ptr) :=
  fun s =>
    if decide (p = stop) then Ret None s
    else match fuel with
         | O => OutOfFuel
         | S fuel' =>
             match get s p with
             | None => Undef
             | Some b =>
                 if (dev b =? d) && (blockno b =? bn) then Ret (Some p) s
                 else scan_cached fuel' stop d bn (next b) s
             end
         end.

(** The local variables of the victim search of [bget]. *)
Record search : Type := mkSearch {
  bMin : ptr;
  minTicks : Z;
  found : Z;       (* the local [valid] *)
  minId : Z
}.

(** [b->refcnt == 0 && b->ticks < minTicks]: the [int] is converted to
    [uint] for the comparison. *)
Definition better (b : buf) (st : search) : bool :=
  (refcnt b =? 0) && (ticks b <? to_uint (minTicks st)).

(** The inner loop of the victim search, over bucket [i]. *)
Fixpoint scan_bucket (fuel : nat) (stop : ptr) (i : Z) (p : ptr) (st : search)
  : bcache -> outcome bcache search :=
  fun s =>
    if decide (p = stop) then Ret st s
    else match fuel with
         | O => OutOfFuel
         | S fuel' =>
             match get s p with
             | None => Undef
             | Some b =>
                 let st' := if better b st
                            then mkSearch p (to_int (ticks b)) 1 i
                            else st in
                 scan_bucket fuel' stop i (next b) st' s
             end
         end.

(** The outer loop of the victim search. *)
Fixpoint scan_buckets (fuel : nat) (ids : list nat) (st : search)
  : bcache -> outcome bcache search :=
  match ids with
  | [] => ret st
  | i :: ids' =>
      let! hd := deref (BUCKET i) in
      let! st' := scan_bucket fuel (BUCKET i) (Z.of_nat i) (next hd)
                              (mkSearch (bMin st) (minTicks st) 0 (minId st)) in
      scan_buckets fuel ids' st'
  end.

(** The hit path of [bget]. *)
Definition bget_hit (pid : Z) (b : ptr) : bcache -> outcome bcache ptr :=
  do! upd b (fun bb => set_refcnt (to_uint (refcnt bb + 1)) bb) in
  do! acquiresleep pid b in
  ret b.

(** One look through the bucket at [h] for the block. *)
Definition lookup (fuel : nat) (h : ptr) (d bn : Z)
  : bcache -> outcome bcache (option ptr) :=
  let! hd := deref h in
  scan_cached fuel h d bn (next hd).

(** The victim search over all buckets; [~0] is the [int] -1. *)
Definition find_victim (fuel : nat) : bcache -> outcome bcache search :=
  scan_buckets fuel (seq 0 (Z.to_nat NBUCKETS))
               (mkSearch NULL (to_int (Z.lnot 0)) 0 0).


(** The victim takes the identity of the requested block. *)
Definition rebind (d bn now : Z) (b : ptr) : bcache -> outcome bcache unit :=
  do! upd b (set_dev d) in
  do! upd b (set_blockno bn) in
  do! upd b (set_valid 0) in
  do! upd b (set_refcnt 1) in
  upd b (set_ticks now).

(** [bMin->prev->next = bMin->next; bMin->next->prev = bMin->prev;] *)
Definition unlink (b : ptr) : bcache -> outcome bcache unit :=
  let! bb := deref b in
  do! upd (prev bb) (set_next (next bb)) in
  let! bb := deref b in
  upd (next bb) (set_prev (prev bb)).

(** The victim is linked in right after the bucket head [h]. *)
Definition link_first (h b : ptr) : bcache -> outcome bcache unit :=
  let! hd := deref h in
  do! upd b (set_next (next hd)) in
  do! upd h (set_next b) in
  let! bb := deref b in
  do! upd (next bb) (set_prev b) in
  upd b (set_prev h).

(** The miss path of [bget], entered after both looks have failed. *)
Definition bget_miss (pid d bn now : Z) (fuel : nat) (hashId : Z) (h : ptr)
  : bcache -> outcome bcache ptr :=
  let! st := find_victim fuel in
  if decide (bMin st = NULL) then panic "bget: no buffers"
  else
    let b := bMin st in
    do! rebind d bn now b in
    do! (if negb (minId st =? hashId) then unlink b else ret tt) in
    do! (if negb (minId st =? hashId) then link_first h b else ret tt) in
    do! acquiresleep pid b in
    ret b.

(** [bget(dev, blockno)], called by process [pid] when the tick counter
    reads [now]. *)
Definition bget (pid d bn now : Z) : bcache -> outcome bcache ptr :=
  let hashId := haskBlock bn in
  let! fuel := gets nodes in
  let! h := bucket_ptr hashId in
  let! hit := lookup fuel h d bn in
  match hit with
  | Some b => bget_hit pid b
  | None =>
      let! hit := lookup fuel h d bn in
      match hit with
      | Some b => bget_hit pid b
      | None => bget_miss pid d bn now fuel hashId h
      end
  end.

(** [bread(dev, blockno)]. *)
Definition bread (pid d bn now : Z) : bcache -> outcome bcache ptr :=
  let! b := bget pid d bn now in
  let! bb := deref b in
  do! (if valid bb =? 0 then
         do! virtio_disk_rw b false in
         upd b (set_valid 1)
       else ret tt) in
  ret b.

(** [bwrite(b)]. *)
Definition bwrite (pid : Z) (b : ptr) : bcache -> outcome bcache unit :=
  let! bb := deref b in
  if negb (holdingsleep pid bb) then panic "bwrite"
  else virtio_disk_rw b true.

(** [brelse(b)]. *)
Definition brelse (pid : Z) (b : ptr) (now : Z) : bcache -> outcome bcache unit :=
  let! bb := deref b in
  if negb (holdingsleep pid bb) then panic "brelse"
  else
    do! releasesleep b in
    let! bb := deref b in
    let! _ := bucket_ptr (haskBlock (blockno bb)) in
    do! upd b (fun bb => set_refcnt (to_uint (refcnt bb - 1)) bb) in
    let! bb := deref b in
    if refcnt bb =? 0 then upd b (set_ticks now) else ret tt.

(** [bpin(b)] and [bunpin(b)]. *)
Definition bpin (b : ptr) : bcache -> outcome bcache unit :=
  let! bb := deref b in
  let! _ := bucket_ptr (haskBlock (blockno bb)) in
  upd b (fun bb => set_refcnt (to_uint (refcnt bb + 1)) bb).

Definition bunpin (b : ptr) : bcache -> outcome bcache unit :=
  let! bb := deref b in
  let! _ := bucket_ptr (haskBlock (blockno bb)) in
  upd b (fun bb => set_refcnt (to_uint (refcnt bb - 1)) bb).

(** The [bcache] object as the loader leaves it: zeroed [.bss].  The
    size [nbuf] of the pool is [NBUF] of [param.h], which is not among
    the sources. *)
Definition zero_buf : buf :=
  mkBuf 0 0 0 None 0 NULL NULL 0 (replicate BSIZE 0).

Definition boot (nbuf : nat) : bcache :=
  mkCache (replicate nbuf zero_buf) zero_buf
          (replicate (Z.to_nat NBUCKETS) zero_buf) ∅ [].

(** ** Reading the lists *)

(** The nodes from [p] up to the bucket head [stop], following [next]. *)
Fixpoint chain (fuel : nat) (stop p : ptr) (s : bcache) : option (list ptr) :=
  if decide (p = stop) then Some []
  else match fuel with
       | O => None
       | S fuel' =>
           match get s p with
           | None => None
           | Some b => cons p <$> chain fuel' stop (next b) s
           end
       end.

(** The addresses at which an object of the cache lives. *)
Definition objects (s : bcache) : list ptr :=
  map BUF (seq 0 (length (bufs s))) ++
  map BUCKET (seq 0 (length (buckets s))) ++ [HEAD].

(** The buffers of shard [i], first to last. *)
Definition shard (s : bcache) (i : nat) : option (list ptr) :=
  match get s (BUCKET i) with
  | None => None
  | Some hd => chain (nodes s) (BUCKET i) (next hd) s
  end.

(** The buffers of the shards [ids] in the order the victim search
    meets them, each with the number of its shard. *)
Fixpoint pool_of (s : bcache) (ids : list nat) : option (list (nat * ptr)) :=
  match ids with
  | [] => Some []
  | i :: ids' =>
      match shard s i, pool_of s ids' with
      | Some l, Some r => Some (map (pair i) l ++ r)
      | _, _ => None
      end
  end.

Definition pool (s : bcache) : option (list (nat * ptr)) :=
  pool_of s (seq 0 (Z.to_nat NBUCKETS)).

(** Both looks of [bget] for the block fail. *)
Definition miss (d bn : Z) (s : bcache) : Prop :=
  exists h, bucket_ptr (haskBlock bn) s = Ret h s /\
            lookup (nodes s) h d bn s = Ret None s.

(** One step of the victim search, at node [p] of shard [i]. *)
Definition consider (s : bcache) (st : search) (ip : nat * ptr) : search :=
  match get s (snd ip) with
  | Some b => if better b st
              then mkSearch (snd ip) (to_int (ticks b)) 1 (Z.of_nat (fst ip))
              else st
  | None => st
  end.

(** Two search records that name the same victim. *)
Definition same_choice (a b : search) : Prop :=
  bMin a = bMin b /\ minTicks a = minTicks b /\ minId a = minId b.

(** The search record at the start of the victim search. *)
Definition no_victim : search := mkSearch NULL (to_int (Z.lnot 0)) 0 0.

(** A buffer nobody holds a reference to, and its timestamp. *)
Definition unreferenced (s : bcache) (p : ptr) : Prop :=
  exists b, get s p = Some b /\ refcnt b = 0.

Definition stamp (s : bcache) (p : ptr) : Z :=
  match get s p with Some b => ticks b | None => 0 end.

(** [p], met in shard [i], is the least recently used unreferenced
    buffer of the scan [L], and the first one met among those with the
    same timestamp. *)
Definition lru_first (s : bcache) (L : list (nat * ptr)) (i : nat) (p : ptr)
  : Prop :=
  exists La Lb,
    L = La ++ (i, p) :: Lb /\ unreferenced s p /\
    (forall j q, (j, q) ∈ La -> unreferenced s q -> stamp s p < stamp s q) /\
    (forall j q, (j, q) ∈ Lb -> unreferenced s q -> stamp s p <= stamp s q).

(** ** Runs of cache operations *)

Inductive op : Type :=
| Acquire (pid d bn now : Z)         (* bget *)
| ReadThrough (pid d bn now : Z)     (* bread *)
| WriteBack (pid : Z) (b : ptr)      (* bwrite *)
| Release (pid : Z) (b : ptr) (now : Z)   (* brelse *)
| Pin (b : ptr)
| Unpin (b : ptr).

(** The state an operation leaves for the rest of the system: the one it
    returns with, or the one it goes to sleep in; none after a panic. *)
Definition left_by {A} (o : outcome bcache A) : option bcache :=
  match o with
  | Ret _ s => Some s
  | Asleep s => Some s
  | _ => None
  end.

Definition step (o : op) (s : bcache) : option bcache :=
  match o with
  | Acquire pid d bn now => left_by (bget pid d bn now s)
  | ReadThrough pid d bn now => left_by (bread pid d bn now s)
  | WriteBack pid b => left_by (bwrite pid b s)
  | Release pid b now => left_by (brelse pid b now s)
  | Pin b => left_by (bpin b s)
  | Unpin b => left_by (bunpin b s)
  end.

Fixpoint run (ops : list op) (s : bcache) : option bcache :=
  match ops with
  | [] => Some s
  | o :: ops' =>
      match step o s with
      | Some s' => run ops' s'
      | None => None
      end
  end.

(** [bread] followed by [brelse] of the buffer it returned. *)
Definition use_block (pid d bn now later : Z) : bcache -> outcome bcache unit :=
  let! b := bread pid d bn now in
  brelse pid b later.

(** ** Properties of states and routines *)

(** The buffer [bb] after a [brelse] by its holder at tick [now]. *)
Definition released (now : Z) (bb : buf) : buf :=
  let r := to_uint (refcnt bb - 1) in
  mkBuf (valid bb) (dev bb) (blockno bb) None r (prev bb) (next bb)
        (if r =? 0 then now else ticks bb) (data bb).

(** The victim [bb] after it has been rebound to block [(d, bn)] at
    tick [now]. *)
Definition rebound (d bn now : Z) (bb : buf) : buf :=
  mkBuf 0 d bn (lock bb) 1 (prev bb) (next bb) now (data bb).

(** The object at [b] keeps validity, identity and reference count. *)
Definition keeps_identity (b : ptr) (s s' : bcache) : Prop :=
  forall bb, get s b = Some bb ->
    exists bb', get s' b = Some bb' /\ valid bb' = valid bb /\
                dev bb' = dev bb /\ blockno bb' = blockno bb /\
                refcnt bb' = refcnt bb.

(** The device and its request log are as before. *)
Definition same_device (s s' : bcache) : Prop :=
  iolog s' = iolog s /\ disk s' = disk s.

(** The state after the driver has written the buffer [bb] out. *)
Definition written (s : bcache) (bb : buf) : bcache :=
  mkCache (bufs s) (head s) (buckets s)
          (<[(dev bb, blockno bb) := data bb]> (disk s))
          (iolog s ++ [DiskWrite (dev bb) (blockno bb)]).

(** Every [refcnt] holds a [uint] value. *)
Definition refcnt_ok (s : bcache) : Prop :=
  forall p b, get s p = Some b -> 0 <= refcnt b < 2 ^ 32.

(** Every [ticks] holds a [uint] value. *)
Definition ticks_ok (s : bcache) : Prop :=
  forall p b, get s p = Some b -> 0 <= ticks b < 2 ^ 32.

(** A routine that starts with all reference counts in range ends with
    all of them in range. *)
Definition refcnt_kept (s s' : bcache) : Prop := refcnt_ok s -> refcnt_ok s'.

(** A change of one object that keeps its reference count in range. *)
Definition refcnt_safe (f : buf -> buf) : Prop :=
  forall b, 0 <= refcnt b < 2 ^ 32 -> 0 <= refcnt (f b) < 2 ^ 32.

(** A routine relates the state it starts in to the state it leaves. *)
Definition preserves {A} (R : bcache -> bcache -> Prop)
           (m : bcache -> outcome bcache A) : Prop :=
  forall s, match m s with
            | Ret _ s' => R s s'
            | Asleep s' => R s s'
            | _ => True
            end.

(** The spec's reading of the initial placement: buffer [k] of the pool
    starts in shard [k mod NBUCKETS]. *)
Definition spec_round_robin (s : bcache) : Prop :=
  forall k, (k < length (bufs s))%nat ->
            exists l, shard s (k mod Z.to_nat NBUCKETS) = Some l /\ BUF k ∈ l.

(** The first node of shard 0 once [binit] has linked in the buffers
    [0 .. k-1], which is also the node after buffer [k]. *)
Definition first_linked (k : nat) : ptr :=
  match k with
  | O => BUCKET 0
  | S k' => BUF k'
  end.

(** The state of [binit] with [k] buffers linked in: every bucket other
    than 0 empty, the buffers [k-1 .. 0] chained from bucket 0, and all
    buffers still carrying block number 0. *)
Record linked (n k : nat) (s : bcache) : Prop := mk_linked {
  lk_bufs : length (bufs s) = n;
  lk_buckets : length (buckets s) = Z.to_nat NBUCKETS;
  lk_blockno : forall j, (j < n)%nat -> blockno <$> get s (BUF j) = Some 0;
  lk_head : next <$> get s (BUCKET 0) = Some (first_linked k);
  lk_next : forall j, (j < k)%nat ->
                      next <$> get s (BUF j) = Some (first_linked j);
  lk_empty : forall i, (1 <= i < Z.to_nat NBUCKETS)%nat ->
                       next <$> get s (BUCKET i) = Some (BUCKET i)
}.

(** ** A pool of three buffers for worked examples *)

Definition after {A} (m : bcache -> outcome bcache A) (s : bcache) : bcache :=
  state_of (m s) s.

(** The pool after [binit] at tick 0. *)
Definition ex_pool : bcache := after (binit 0) (boot 3).

(** The pool after blocks 1, 2 and 3 of device 1 have each been read at
    tick 5 and released at tick [2^32 - 1]. *)
Definition ex_stale : bcache :=
  after (use_block 7 1 3 5 (2 ^ 32 - 1))
    (after (use_block 7 1 2 5 (2 ^ 32 - 1))
       (after (use_block 7 1 1 5 (2 ^ 32 - 1)) ex_pool)).

(** The pool after process 7 has read block 1 of device 1 at tick 5,
    and after it has released the buffer again at tick 9. *)
Definition ex_read : bcache := after (bread 7 1 1 5) ex_pool.
Definition ex_released : bcache := after (brelse 7 (BUF 2) 9) ex_read.

(** The pool with all three buffers held: blocks 1, 2 and 3 of device 1
    read and not released. *)
Definition ex_held : bcache :=
  after (bread 7 1 3 5) (after (bread 7 1 2 5) ex_read).

End Bio.

(** * Buffer cache, the per-shard variant (kernel/bio.c)

    [kernel/bio.c] differs from the variant above in [bget], which
    searches for a victim without the global lock and leaves the victim
    in the shard it was found in, and in [brelse], which relinks the
    buffer instead of stamping it.  Everything else is shared. *)

Module BioLocal.
Import Bio.
Local Open Scope kern_scope.

(** [b->refcnt == 0 && (b->ticks <= bMin->ticks)], the timestamp of the
    current candidate being read through the pointer. *)
Fixpoint scan_bucket (fuel : nat) (stop : ptr) (i : Z) (p : ptr) (st : search)
  : bcache -> outcome bcache search :=
  fun s =>
    if decide (p = stop) then Ret st s
    else match fuel with
         | O => OutOfFuel
         | S fuel' =>
             match get s p, get s (bMin st) with
             | Some b, Some m =>
                 let st' := if (refcnt b =? 0) && (ticks b <=? ticks m)
                            then mkSearch p (minTicks st) 1 i
                            else st in
                 scan_bucket fuel' stop i (next b) st' s
             | _, _ => Undef
             end
         end.

Fixpoint scan_buckets (fuel : nat) (ids : list nat) (st : search)
  : bcache -> outcome bcache search :=
  match ids with
  | [] => ret st
  | i :: ids' =>
      let! hd := deref (BUCKET i) in
      let! st' := scan_bucket fuel (BUCKET i) (Z.of_nat i) (next hd) st in
      scan_buckets fuel ids' st'
  end.

(** [bget(dev, blockno)] of [kernel/bio.c]: the search starts with
    [bMin = &bcache.buckets[hashId]]. *)
Definition bget (pid d bn now : Z) : bcache -> outcome bcache ptr :=
  let hashId := haskBlock bn in
  let! fuel := gets nodes in
  let! h := bucket_ptr hashId in
  let! hit := lookup fuel h d bn in
  match hit with
  | Some b => bget_hit pid b
  | None =>
      let! st := scan_buckets fuel (seq 0 (Z.to_nat NBUCKETS))
                              (mkSearch h 0 0 0) in
      if found st =? 0 then panic "bget: no buffers"
      else
        let b := bMin st in
        do! rebind d bn now b in
        do! acquiresleep pid b in
        ret b
  end.

(** [brelse(b)] of [kernel/bio.c]. *)
Definition brelse (pid : Z) (b : ptr) : bcache -> outcome bcache unit :=
  let! bb := deref b in
  if negb (holdingsleep pid bb) then panic "brelse"
  else
    do! releasesleep b in
    let! bb := deref b in
    let! h := bucket_ptr (haskBlock (blockno bb)) in
    do! upd b (fun bb => set_refcnt (to_uint (refcnt bb - 1)) bb) in
    let! bb := deref b in
    if refcnt bb =? 0 then
      do! upd (next bb) (set_prev (prev bb)) in
      let! bb := deref b in
      do! upd (prev bb) (set_next (next bb)) in
      let! hd0 := deref HEAD in
      do! upd b (set_next (next hd0)) in
      do! upd b (set_prev HEAD) in
      let! hd := deref h in
      do! upd (next hd) (set_prev b) in
      upd h (set_next b)
    else ret tt.

End BioLocal.
(** * Further definitions for the page allocator *)

Module KallocExt.
Import Kalloc.

(** The frames [p], [p + PGSIZE], ... ([n] of them). *)
Definition frames_from (p : Z) (n : nat) : list Z :=
  map (fun k => p + PGSIZE * Z.of_nat k) (seq 0 n).

(** The frames the loop of [freerange] goes through, in the order in
    which it leaves them on the free list: each [kfree] pushes in
    front, so the last frame swept comes first. *)
Definition swept (pa_start pa_end : Z) : list Z :=
  rev (frames_from (PGROUNDUP pa_start)
                   (Z.to_nat ((pa_end - PGROUNDUP pa_start) / PGSIZE))).

(** Every count is 0. *)
Definition all_unreferenced (s : kstate) : Prop :=
  forall n c, ref_at s n = Some c -> c = 0.

(** The states of the allocator in use: [kinit] at boot, then a run of
    calls that returned, the callers of [increref] keeping their
    discipline. *)
Definition reachable (kend PHYSTOP : Z) (s : kstate) : Prop :=
  exists m ops s0,
    kinit kend PHYSTOP (boot PHYSTOP m) = Ret tt s0 /\
    disciplined kend PHYSTOP ops s0 /\
    run kend PHYSTOP ops s0 = Ret tt s.

(** A caller that shares a frame adds references to it. *)
Definition sharing (o : op) : Prop :=
  match o with
  | AddReference _ count => 0 < count < 2 ^ 31
  | _ => True
  end.

(** The book-keeping of the allocator in a state with free list [l]:
    every count is an [int], and a frame of the managed range with
    count 0 is on the free list. *)
Definition tracked (kend PHYSTOP : Z) (s : kstate) (l : list Z) : Prop :=
  (forall n c, ref_at s n = Some c -> c < 2 ^ 31) /\
  (forall p, p mod PGSIZE = 0 -> kend <= p < PHYSTOP ->
             ref_at s (p / PGSIZE) = Some 0 -> p ∈ l).

End KallocExt.

(** * Further definitions for the buffer cache *)

Module BioExt.
Import Bio.

(** The object at [p] carries the identity of block [bn] of device [d]:
    the test [b->dev == dev && b->blockno == blockno] of [bget]. *)
Definition caches (s : bcache) (d bn : Z) (p : ptr) : bool :=
  match get s p with
  | Some b => (dev b =? d) && (blockno b =? bn)
  | None => false
  end.

(** ** The shape of the shards *)

(** [p->next] and [p->prev]. *)
Definition next_of (s : bcache) (p : ptr) : option ptr := next <$> get s p.
Definition prev_of (s : bcache) (p : ptr) : option ptr := prev <$> get s p.

(** Everything a [struct buf] holds but its two links. *)
Definition payload (b : buf) : Z * Z * Z * option Z * Z * Z * list Z :=
  (valid b, dev b, blockno b, lock b, refcnt b, ticks b, data b).

Section Paths.

(** The links read as two maps. *)
Variables N P : ptr -> option ptr.

(** [a] and [b] are neighbours: [a->next == b] and [b->prev == a]. *)
Definition link (a b : ptr) : Prop := N a = Some b /\ P b = Some a.

(** The nodes [l] lie between [a] and [c], each linked to the next. *)
Fixpoint path (a : ptr) (l : list ptr) (c : ptr) : Prop :=
  match l with
  | [] => link a c
  | x :: l' => link a x /\ path x l' c
  end.

End Paths.

(** Shard [i] is a ring: from the bucket head through the buffers [ks]
    and back to the bucket head, with [prev] the inverse of [next]. *)
Definition ring (s : bcache) (i : nat) (ks : list nat) : Prop :=
  path (next_of s) (prev_of s) (BUCKET i) (map BUF ks) (BUCKET i).

(** The shards [sh 0 .. sh 12] are rings that share the buffers of the
    pool out between them, and every buffer is in the shard of its
    block number. *)
Record wf (s : bcache) (sh : nat -> list nat) : Prop := mk_wf {
  wf_buckets : length (buckets s) = Z.to_nat NBUCKETS;
  wf_ring : forall i, (i < Z.to_nat NBUCKETS)%nat -> ring s i (sh i);
  wf_nodup : forall i, (i < Z.to_nat NBUCKETS)%nat -> NoDup (sh i);
  wf_apart : forall i j k, (i < Z.to_nat NBUCKETS)%nat ->
                           (j < Z.to_nat NBUCKETS)%nat ->
                           k ∈ sh i -> k ∈ sh j -> i = j;
  wf_inside : forall i k, (i < Z.to_nat NBUCKETS)%nat -> k ∈ sh i ->
                          (k < length (bufs s))%nat;
  wf_cover : forall k, (k < length (bufs s))%nat ->
                       exists i, (i < Z.to_nat NBUCKETS)%nat /\ k ∈ sh i;
  wf_hash : forall i k bb, (i < Z.to_nat NBUCKETS)%nat -> k ∈ sh i ->
                           get s (BUF k) = Some bb ->
                           haskBlock (blockno bb) = Z.of_nat i
}.

(** The shards while [binit] is at buffer [k]: the buffers before [k]
    in shard 0, the last one first, the other shards empty, and every
    block number still 0. *)
Definition built (n k : nat) (s : bcache) : Prop :=
  length (bufs s) = n /\ length (buckets s) = Z.to_nat NBUCKETS /\
  ring s 0 (rev (seq 0 k)) /\
  (forall i, (1 <= i < Z.to_nat NBUCKETS)%nat -> ring s i []) /\
  (forall j, (j < n)%nat -> blockno <$> get s (BUF j) = Some 0).

(** Two states that differ in links only. *)
Definition same_payload (s s' : bcache) : Prop :=
  length (bufs s') = length (bufs s) /\
  length (buckets s') = length (buckets s) /\
  disk s' = disk s /\ iolog s' = iolog s /\
  forall q, payload <$> get s' q = payload <$> get s q.

(** The shards after buffer [k] has been moved from shard [i], where it
    sat between [l1] and [l2], to the front of shard [t]. *)
Definition moved (sh : nat -> list nat) (i t k : nat) (l1 l2 : list nat)
  : nat -> list nat :=
  fun j => if decide (j = i) then l1 ++ l2
           else if decide (j = t) then k :: sh t
           else sh j.

(** A routine keeps the pool and the shape of the shards. *)
Definition keeps_wf (s s' : bcache) : Prop :=
  (exists sh, wf s sh) ->
  length (bufs s') = length (bufs s) /\ exists sh', wf s' sh'.

(** How [bget] ends on the buffer [b] it has chosen, which was [old]
    before the call and is [new] after it: with the sleep-lock taken
    for the caller when the lock was free, and asleep, the lock still
    with its holder, when it was not. *)
Definition taken (pid : Z) (o : outcome bcache ptr) (b : ptr) (s' : bcache)
           (old new : buf) : Prop :=
  (lock old = None /\ o = Ret b s' /\ lock new = Some pid) \/
  (lock old <> None /\ o = Asleep s' /\ lock new = lock old).

(** Two states with the same links. *)
Definition same_links (s s' : bcache) : Prop :=
  nodes s' = nodes s /\
  forall q, next_of s' q = next_of s q /\ prev_of s' q = prev_of s q.

(** A check of [ticks_ok] that can be run. *)
Definition ticks_okb (s : bcache) : bool :=
  forallb (fun b => (0 <=? ticks b) && (ticks b <? 2 ^ 32))
          (bufs s ++ buckets s ++ [head s]).

(** The states of the cache in use: [binit] at boot, then a run of
    calls, each of which returned or went to sleep. *)
Definition reachable (s : bcache) : Prop :=
  exists nbuf now ops s0,
    binit now (boot nbuf) = Ret tt s0 /\ run ops s0 = Some s.

(** ** References held *)

(** [b->refcnt] as a number of references: the field read as a signed
    32-bit value.  [buf.h] is not among the sources; for an [int] field
    this is the value of the field, and for the [uint] field of the
    model it is the reading under which a decrement at 0 shows as -1
    (the field itself then holds [2^32 - 1]). *)
Definition count_of (b : buf) : Z := to_int (refcnt b).

(** 1 while the sleep-lock of the buffer is held. *)
Definition locked (b : buf) : Z :=
  match lock b with Some _ => 1 | None => 0 end.

(** What the call [o] adds to the pins of the object at [p]. *)
Definition pin_delta (o : op) (p : ptr) : Z :=
  match o with
  | Pin b => if decide (b = p) then 1 else 0
  | Unpin b => if decide (b = p) then -1 else 0
  | _ => 0
  end.

(** The pins of [p] that the calls [ops] leave outstanding: the calls
    of [bpin(p)] less the calls of [bunpin(p)]. *)
Fixpoint pins (ops : list op) (p : ptr) : Z :=
  match ops with
  | [] => 0
  | o :: ops' => pin_delta o p + pins ops' p
  end.

(** Every [bunpin] of the run undoes an earlier [bpin] of the same
    buffer: at no point of the run has a buffer been unpinned more
    often than pinned. *)
Definition matched (ops : list op) : Prop :=
  forall n p, 0 <= pins (take n ops) p.

(** After the calls [ops] every count covers the references that are
    held, a pin or a sleep-lock each, and is no more than the number of
    calls. *)
Definition accounted (ops : list op) (s : bcache) : Prop :=
  forall p b, get s p = Some b ->
    pins ops p + locked b <= refcnt b <= Z.of_nat (length ops).

(** The calls leave the count and the sleep-lock of every object but
    [p] alone. *)
Definition same_holders_but (p : ptr) (s s' : bcache) : Prop :=
  forall q, q <> p ->
    refcnt <$> get s' q = refcnt <$> get s q /\
    lock <$> get s' q = lock <$> get s q.

End BioExt.
Lemma to_uint_range x : 0 <= to_uint x < 2 ^ 32.
Proof. unfold to_uint. apply Z.mod_pos_bound. lia. Qed.

Lemma to_uint_id x : 0 <= x < 2 ^ 32 -> to_uint x = x.
Proof. intros H. unfold to_uint. apply Z.mod_small. exact H. Qed.

Lemma to_int_range x : - 2 ^ 31 <= to_int x < 2 ^ 31.
Proof.
  unfold to_int.
  pose proof (Z.mod_pos_bound (x + 2 ^ 31) (2 ^ 32)) as H. lia.
Qed.

Lemma to_int_id x : - 2 ^ 31 <= x < 2 ^ 31 -> to_int x = x.
Proof.
  intros H. unfold to_int. rewrite Z.mod_small; lia.
Qed.

(** An [int] holding a converted [uint] converts back to the same [uint]. *)
Lemma to_uint_to_int x : to_uint (to_int x) = to_uint x.
Proof.
  unfold to_uint, to_int.
  rewrite Zminus_mod_idemp_l. f_equal. lia.
Qed.


(** ** Outcomes *)

Lemma returned_state {S} (o : outcome S unit) (d : S) :
  returned o = true -> o = Ret tt (state_of o d).
Proof. destruct o as [[] s| | | |]; simpl; intros H; congruence. Qed.

Lemma value_state {S A} (o : outcome S A) (a : A) (d : S) :
  value_of o = Some a -> o = Ret a (state_of o d).
Proof. destruct o; simpl; intros H; congruence. Qed.

(** * Proofs about the page allocator *)

Module KallocProofs.
Import Kalloc.

(** ** Memory *)

Lemma byte_split v :
  0 <= v < 2 ^ 64 ->
  v = v mod 256 + 2 ^ 8 * ((v / 2 ^ 8) mod 256)
      + 2 ^ 16 * ((v / 2 ^ 16) mod 256) + 2 ^ 24 * ((v / 2 ^ 24) mod 256)
      + 2 ^ 32 * ((v / 2 ^ 32) mod 256) + 2 ^ 40 * ((v / 2 ^ 40) mod 256)
      + 2 ^ 48 * ((v / 2 ^ 48) mod 256) + 2 ^ 56 * ((v / 2 ^ 56) mod 256).
Proof.
  intros Hv.
  assert (Hstep : forall x, x = x mod 256 + 256 * (x / 256)).
  { intros x. pose proof (Z.div_mod x 256). lia. }
  assert (Hdd : forall j k, 0 < j -> 0 < k -> v / (j * 256) = v / j / 256).
  { intros j k Hj Hk. rewrite Z.div_div by lia. reflexivity. }
  pose proof (Hstep v) as S0.
  pose proof (Hstep (v / 2 ^ 8)) as S1.
  pose proof (Hstep (v / 2 ^ 16)) as S2.
  pose proof (Hstep (v / 2 ^ 24)) as S3.
  pose proof (Hstep (v / 2 ^ 32)) as S4.
  pose proof (Hstep (v / 2 ^ 40)) as S5.
  pose proof (Hstep (v / 2 ^ 48)) as S6.
  pose proof (Hstep (v / 2 ^ 56)) as S7.
  rewrite <- (Hdd (2 ^ 8) 1) in S1 by lia.
  rewrite <- (Hdd (2 ^ 16) 1) in S2 by lia.
  rewrite <- (Hdd (2 ^ 24) 1) in S3 by lia.
  rewrite <- (Hdd (2 ^ 32) 1) in S4 by lia.
  rewrite <- (Hdd (2 ^ 40) 1) in S5 by lia.
  rewrite <- (Hdd (2 ^ 48) 1) in S6 by lia.
  rewrite <- (Hdd (2 ^ 56) 1) in S7 by lia.
  change (2 ^ 8 * 256) with (2 ^ 16) in S1.
  change (2 ^ 16 * 256) with (2 ^ 24) in S2.
  change (2 ^ 24 * 256) with (2 ^ 32) in S3.
  change (2 ^ 32 * 256) with (2 ^ 40) in S4.
  change (2 ^ 40 * 256) with (2 ^ 48) in S5.
  change (2 ^ 48 * 256) with (2 ^ 56) in S6.
  change (2 ^ 56 * 256) with (2 ^ 64) in S7.
  change (v / 256) with (v / 2 ^ 8) in S0.
  assert (Htop : v / 2 ^ 64 = 0) by (apply Z.div_small; lia).
  rewrite Htop in S7.
  lia.
Qed.

Lemma store64_inside m a v i :
  0 <= i < 8 -> store64 m a v (a + i) = (v / 2 ^ (8 * i)) mod 256.
Proof.
  intros Hi. unfold store64.
  replace (a + i - a) with i by lia.
  destruct (Z.leb_spec a (a + i)); [|lia].
  destruct (Z.ltb_spec (a + i) (a + 8)); [|lia].
  reflexivity.
Qed.

Lemma store64_outside m a v x :
  x < a \/ a + 8 <= x -> store64 m a v x = m x.
Proof.
  intros Hx. unfold store64.
  destruct (Z.leb_spec a x); destruct (Z.ltb_spec x (a + 8)); simpl;
    try reflexivity; lia.
Qed.

Lemma memset_inside m dst c n x :
  dst <= x < dst + n -> memset m dst c n x = c mod 256.
Proof.
  intros Hx. unfold memset.
  destruct (Z.leb_spec dst x); destruct (Z.ltb_spec x (dst + n)); simpl;
    try reflexivity; lia.
Qed.

Lemma memset_outside m dst c n x :
  x < dst \/ dst + n <= x -> memset m dst c n x = m x.
Proof.
  intros Hx. unfold memset.
  destruct (Z.leb_spec dst x); destruct (Z.ltb_spec x (dst + n)); simpl;
    try reflexivity; lia.
Qed.

(** A pointer written by [r->next = v] is read back unchanged. *)
Lemma load64_store64 m a v :
  0 <= v < 2 ^ 64 -> load64 (store64 m a v) a = v.
Proof.
  intros Hv. unfold load64.
  assert (H0 : store64 m a v a = v mod 256).
  { pose proof (store64_inside m a v 0 ltac:(lia)) as H.
    rewrite Z.add_0_r in H. rewrite H.
    change (2 ^ (8 * 0)) with 1. rewrite Z.div_1_r. reflexivity. }
  rewrite H0, !store64_inside by lia.
  symmetry. apply (byte_split v Hv).
Qed.

(** A load depends on its eight bytes only. *)
Lemma load64_ext m m' a :
  (forall x, a <= x < a + 8 -> m' x = m x) -> load64 m' a = load64 m a.
Proof.
  intros H. unfold load64.
  rewrite !H by lia. reflexivity.
Qed.

(** ** The reference-count array *)

Lemma ref_at_nonneg s n c : ref_at s n = Some c -> 0 <= n.
Proof.
  unfold ref_at. destruct (Z.leb_spec 0 n); [lia | discriminate].
Qed.

Lemma ref_at_lt s n c :
  ref_at s n = Some c -> n < Z.of_nat (length (ref s)).
Proof.
  unfold ref_at. destruct (Z.leb_spec 0 n) as [Hle|Hlt]; [|discriminate].
  intros H. apply lookup_lt_Some in H. lia.
Qed.

Lemma ref_at_set_ref_eq s n v c :
  ref_at s n = Some c -> ref_at (set_ref s n v) n = Some v.
Proof.
  unfold ref_at, set_ref; simpl.
  destruct (Z.leb_spec 0 n) as [Hle|Hlt]; [|discriminate].
  intros H. apply list_lookup_insert_eq. eapply lookup_lt_Some, H.
Qed.

Lemma ref_at_set_ref_ne s n v n' :
  0 <= n -> n <> n' -> ref_at (set_ref s n v) n' = ref_at s n'.
Proof.
  intros Hn Hne. unfold ref_at, set_ref; simpl.
  destruct (Z.leb_spec 0 n'); [|reflexivity].
  apply list_lookup_insert_ne. lia.
Qed.

Lemma ref_at_in_range s n :
  0 <= n < Z.of_nat (length (ref s)) -> exists c, ref_at s n = Some c.
Proof.
  intros Hn. unfold ref_at.
  destruct (Z.leb_spec 0 n); [|lia].
  destruct (lookup_lt_is_Some_2 (ref s) (Z.to_nat n)) as [c Hc]; [lia|].
  exists c. exact Hc.
Qed.

(** ** Pages *)

Lemma page_base p : p mod PGSIZE = 0 -> p = PGSIZE * (p / PGSIZE).
Proof.
  intros H. pose proof (Z.div_mod p PGSIZE ltac:(unfold PGSIZE; lia)). lia.
Qed.

Lemma pages_apart p q :
  p mod PGSIZE = 0 -> q mod PGSIZE = 0 -> p <> q ->
  p + PGSIZE <= q \/ q + PGSIZE <= p.
Proof.
  intros Hp Hq Hne.
  pose proof (page_base p Hp). pose proof (page_base q Hq).
  unfold PGSIZE in *. lia.
Qed.

Lemma page_index_inj p q :
  p mod PGSIZE = 0 -> q mod PGSIZE = 0 -> p / PGSIZE = q / PGSIZE -> p = q.
Proof.
  intros Hp Hq E.
  rewrite (page_base p Hp), (page_base q Hq), E. reflexivity.
Qed.

(** ** The free list as a chain *)

Lemma lseg_ext m m' h l :
  lseg m h l ->
  (forall p x, p ∈ l -> p <= x < p + 8 -> m' x = m x) ->
  lseg m' h l.
Proof.
  revert h. induction l as [|q l IH]; intros h Hl Hext; simpl in *.
  - exact Hl.
  - destruct Hl as (-> & Hq & Hl). repeat split; [exact Hq|].
    rewrite (load64_ext m m' q).
    + apply IH; [exact Hl|]. intros p x Hp Hx. apply (Hext p x); [|exact Hx].
      apply elem_of_cons. right. exact Hp.
    + intros x Hx. apply (Hext q x); [|exact Hx]. apply elem_of_cons. left.
      reflexivity.
Qed.

Lemma on_freelist_lseg m h l p :
  lseg m h l -> on_freelist m h p -> p ∈ l.
Proof.
  intros Hl Hon. revert l Hl.
  induction Hon as [h Hh | h p Hh Hon IH]; intros l Hl.
  - destruct l as [|q l]; simpl in Hl; [contradiction|].
    destruct Hl as (-> & _ & _). apply elem_of_cons. left. reflexivity.
  - destruct l as [|q l]; simpl in Hl; [contradiction|].
    destruct Hl as (-> & _ & Hl). apply elem_of_cons. right.
    apply IH, Hl.
Qed.

Lemma lseg_on_freelist m h l p :
  lseg m h l -> p ∈ l -> on_freelist m h p.
Proof.
  revert h. induction l as [|q l IH]; intros h Hl Hp; simpl in Hl.
  - apply elem_of_nil in Hp. contradiction.
  - destruct Hl as (-> & Hq & Hl). apply elem_of_cons in Hp as [-> | Hp].
    + apply fl_here, Hq.
    + apply fl_next; [exact Hq|]. apply IH; assumption.
Qed.

(** The executable reading of the free list agrees with the chain. *)
Lemma free_frames_lseg fuel m h l :
  free_frames fuel m h = Some l -> lseg m h l.
Proof.
  revert h l. induction fuel as [|fuel IH]; intros h l; simpl.
  - destruct (Z.eqb_spec h 0); [|discriminate].
    intros [= <-]. exact e.
  - destruct (Z.eqb_spec h 0) as [e|ne].
    + intros [= <-]. exact e.
    + destruct (free_frames fuel m (load64 m h)) as [l'|] eqn:E;
        [|discriminate].
      simpl. intros [= <-]. simpl. repeat split; [exact ne|].
      apply IH, E.
Qed.

Lemma add_reference_okb_sound fuel pa count s :
  add_reference_okb fuel pa count s = true -> add_reference_ok pa count s.
Proof.
  unfold add_reference_okb, add_reference_ok.
  destruct (free_frames fuel (mem s) (freelist s)) as [l|] eqn:E;
    [|discriminate].
  intros H. apply andb_true_iff in H as [Hall Hres]. split.
  - intros p Hp.
    apply (on_freelist_lseg _ _ l) in Hp; [|eapply free_frames_lseg, E].
    rewrite forallb_forall in Hall.
    apply list_elem_of_In in Hp. apply Hall in Hp.
    destruct (Z.eqb_spec (p / PGSIZE) (to_int (pa / PGSIZE)));
      [discriminate | assumption].
  - intros c Hc. rewrite Hc in Hres. apply Z.leb_le. exact Hres.
Qed.

(** ** Preservation of the representation invariant *)

Section Invariant.

Variables kend PHYSTOP : Z.
Hypothesis Hlayout : layout_ok kend PHYSTOP.

Local Abbreviation kinv := (Kalloc.kinv kend PHYSTOP).
Local Abbreviation kfree := (Kalloc.kfree kend PHYSTOP).

Lemma frame_in_range p :
  kend <= p < PHYSTOP ->
  0 <= p / PGSIZE < PHYSTOP / PGSIZE /\ to_int (p / PGSIZE) = p / PGSIZE.
Proof.
  destruct Hlayout as (Hk & Hm & Hb). intros Hp.
  assert (H0 : 0 <= p / PGSIZE) by (apply Z.div_pos; unfold PGSIZE; lia).
  assert (H1 : p / PGSIZE < PHYSTOP / PGSIZE).
  { apply Z.div_lt_upper_bound; [unfold PGSIZE; lia|].
    rewrite <- (page_base PHYSTOP Hm). lia. }
  assert (H2 : PHYSTOP / PGSIZE <= 2 ^ 31).
  { apply Z.div_le_upper_bound; [unfold PGSIZE; lia|]. lia. }
  split; [lia|]. apply to_int_id. lia.
Qed.

Lemma frame_count s p :
  length (ref s) = Z.to_nat (PHYSTOP / PGSIZE) ->
  kend <= p < PHYSTOP ->
  exists c, ref_at s (p / PGSIZE) = Some c.
Proof.
  intros Hlen Hp. destruct (frame_in_range p Hp) as [Hr _].
  apply ref_at_in_range. rewrite Hlen. lia.
Qed.

Lemma kinv_boot m : kinv (boot PHYSTOP m) [].
Proof.
  constructor; simpl.
  - apply length_replicate.
  - reflexivity.
  - constructor.
  - intros p Hp. apply elem_of_nil in Hp. contradiction.
  - intros n c. unfold ref_at; simpl.
    destruct (0 <=? n); [|discriminate].
    intros H. apply lookup_replicate in H. lia.
Qed.

(** Changing the count of a frame that is not on the free list. *)
Lemma kinv_set_ref s l n v c :
  kinv s l -> ref_at s n = Some c ->
  (forall p, p ∈ l -> p / PGSIZE <> n) -> 0 <= v ->
  kinv (set_ref s n v) l.
Proof.
  intros [Hlen Hl Hnd Hfr Hc] Hn Hnot Hv.
  pose proof (ref_at_nonneg _ _ _ Hn) as Hn0.
  constructor.
  - simpl. rewrite length_insert. exact Hlen.
  - exact Hl.
  - exact Hnd.
  - intros p Hp. destruct (Hfr p Hp) as (? & ? & ?).
    split; [assumption|]. split; [assumption|].
    rewrite ref_at_set_ref_ne; [assumption | exact Hn0 |].
    intros E. apply (Hnot p Hp). symmetry. exact E.
  - intros n' c'. destruct (Z.eq_dec n n') as [<- | Hne].
    + rewrite (ref_at_set_ref_eq s n v c Hn). intros [= <-]. exact Hv.
    + rewrite ref_at_set_ref_ne by assumption. apply Hc.
Qed.

(** Pushing a frame whose count has just dropped to 0. *)
Lemma kinv_push s l pa :
  kinv s l -> kend <= pa < PHYSTOP -> pa mod PGSIZE = 0 ->
  pa ∉ l -> ref_at s (pa / PGSIZE) = Some 0 ->
  kinv (mkK pa (ref s)
            (store64 (memset (mem s) pa 1 PGSIZE) pa (freelist s))) (pa :: l).
Proof.
  intros [Hlen Hl Hnd Hfr Hc] Hpa Hal Hnin H0.
  destruct Hlayout as (Hk & Hm & Hb).
  assert (Hhead : 0 <= freelist s < 2 ^ 64).
  { destruct l as [|q l]; simpl in Hl.
    - rewrite Hl. lia.
    - destruct Hl as (-> & _ & _).
      destruct (Hfr q) as (? & _ & _); [apply elem_of_cons; left; reflexivity|].
      unfold PGSIZE in Hb. lia. }
  constructor; simpl.
  - exact Hlen.
  - repeat split; [lia|].
    rewrite load64_store64 by exact Hhead.
    apply (lseg_ext (mem s)); [exact Hl|].
    intros p x Hp Hx.
    destruct (Hfr p Hp) as (_ & Hpal & _).
    assert (p <> pa) by (intros ->; contradiction).
    destruct (pages_apart p pa Hpal Hal ltac:(assumption)); unfold PGSIZE in *.
    + rewrite store64_outside by lia. apply memset_outside. lia.
    + rewrite store64_outside by lia. apply memset_outside. lia.
  - apply NoDup_cons. split; assumption.
  - intros p Hp. apply elem_of_cons in Hp as [-> | Hp].
    + split; [lia|]. split; assumption.
    + apply Hfr in Hp. exact Hp.
  - exact Hc.
Qed.

(** [kfree] keeps the invariant; the frame joins the list exactly when
    its count was 1. *)
Lemma kfree_kinv s l pa s' :
  kinv s l -> kfree pa s = Ret tt s' ->
  exists c, ref_at s (pa / PGSIZE) = Some c /\
    ((1 < c /\ kinv s' l) \/ (c = 1 /\ (pa ∉ l) /\ kinv s' (pa :: l))).
Proof.
  intros Hinv. unfold Kalloc.kfree.
  destruct (Z.eqb_spec (pa mod PGSIZE) 0) as [Hal|]; simpl; [|discriminate].
  destruct (Z.ltb_spec pa kend); simpl; [discriminate|].
  destruct (Z.leb_spec PHYSTOP pa); simpl; [discriminate|].
  destruct (frame_in_range pa ltac:(lia)) as [Hr ->].
  destruct (ref_at s (pa / PGSIZE)) as [c|] eqn:Hc; [|discriminate].
  destruct (Z.leb_spec c 0); [discriminate|].
  assert (Hnin : pa ∉ l).
  { intros Hin. destruct (inv_frames _ _ _ _ Hinv pa Hin) as (_ & _ & E).
    rewrite Hc in E. injection E as ->. lia. }
  assert (Hothers : forall p, p ∈ l -> p / PGSIZE <> pa / PGSIZE).
  { intros p Hp E. destruct (inv_frames _ _ _ _ Hinv p Hp) as (_ & Hpal & _).
    apply page_index_inj in E; [|assumption..]. subst p. contradiction. }
  pose proof (kinv_set_ref s l (pa / PGSIZE) (c - 1) c Hinv Hc Hothers
                ltac:(lia)) as Hinv1.
  destruct (Z.ltb_spec 0 (c - 1)).
  - intros [= <-]. exists c. split; [reflexivity|]. left. split; [lia|].
    exact Hinv1.
  - intros [= <-]. exists c. split; [reflexivity|]. right.
    assert (c = 1) as -> by lia.
    split; [reflexivity|]. split; [exact Hnin|].
    apply (kinv_push (set_ref s (pa / PGSIZE) (1 - 1)) l pa Hinv1);
      [lia | exact Hal | exact Hnin |].
    apply (ref_at_set_ref_eq s _ _ 1 Hc).
Qed.

(** [kalloc] pops the head of the list, or reports an empty list; under
    the invariant it never panics. *)
Lemma kalloc_kinv s l :
  kinv s l ->
  (l = [] /\ kalloc s = Ret 0 s) \/
  (exists r l' s', l = r :: l' /\ r <> 0 /\ kalloc s = Ret r s' /\
                   kinv s' l' /\ ref_at s' (r / PGSIZE) = Some 1).
Proof.
  intros Hinv. pose proof Hinv as [Hlen Hl Hnd Hfr Hc].
  destruct l as [|r l']; simpl in Hl.
  - left. split; [reflexivity|]. unfold kalloc. rewrite Hl. reflexivity.
  - right. destruct Hl as (Hhd & Hr & Hl).
    destruct (Hfr r) as (Hrng & Hal & H0);
      [apply elem_of_cons; left; reflexivity|].
    apply NoDup_cons in Hnd as [Hnin Hnd'].
    destruct (frame_in_range r Hrng) as [_ Hidx].
    exists r, l'. eexists. split; [reflexivity|]. split; [exact Hr|].
    unfold kalloc. rewrite Hhd.
    destruct (Z.eqb_spec r 0) as [|_]; [contradiction|].
    rewrite Hidx.
    change (ref_at (set_freelist s (load64 (mem s) r)) (r / PGSIZE))
      with (ref_at s (r / PGSIZE)).
    rewrite H0. simpl. split; [reflexivity|].
    set (s1 := set_ref (set_freelist s (load64 (mem s) r)) (r / PGSIZE) 1).
    assert (Href : forall n, ref_at (set_mem s1 (memset (mem s1) r 5 PGSIZE)) n
                             = ref_at (set_ref s (r / PGSIZE) 1) n)
      by reflexivity.
    split; [|rewrite Href; apply (ref_at_set_ref_eq _ _ _ 0); exact H0].
    pose proof (ref_at_nonneg _ _ _ H0) as Hn0.
    constructor.
    + simpl. rewrite length_insert. exact Hlen.
    + simpl. apply (lseg_ext (mem s)); [exact Hl|].
      intros p x Hp Hx.
      destruct (Hfr p) as (_ & Hpal & _); [apply elem_of_cons; right; exact Hp|].
      assert (Hpr : p <> r) by (intros ->; contradiction).
      apply memset_outside.
      destruct (pages_apart p r Hpal Hal Hpr); unfold PGSIZE in *; lia.
    + exact Hnd'.
    + intros p Hp.
      destruct (Hfr p) as (Hprng & Hpal & Hp0);
        [apply elem_of_cons; right; exact Hp|].
      split; [assumption|]. split; [assumption|].
      assert (Hpr : p <> r) by (intros ->; contradiction).
      rewrite Href, ref_at_set_ref_ne; [exact Hp0 | exact Hn0 |].
      intros E. apply page_index_inj in E; [|assumption..]. congruence.
    + intros k c. rewrite Href.
      destruct (Z.eq_dec (r / PGSIZE) k) as [<- | Hne].
      * rewrite (ref_at_set_ref_eq s _ 1 0 H0). intros [= <-]. lia.
      * rewrite ref_at_set_ref_ne by assumption. apply Hc.
Qed.

Lemma increref_kinv s l pa count c' s' :
  kinv s l -> add_reference_ok pa count s ->
  increref pa count s = Ret c' s' -> kinv s' l.
Proof.
  intros Hinv [Hoff Hres]. unfold increref.
  destruct (ref_at s (to_int (pa / PGSIZE))) as [c|] eqn:Hc; [|discriminate].
  intros [= <- <-].
  apply (kinv_set_ref s l _ _ c Hinv Hc).
  - intros p Hp. apply Hoff.
    apply (lseg_on_freelist _ _ l); [apply (inv_list _ _ _ _ Hinv) | exact Hp].
  - apply Hres. reflexivity.
Qed.

Lemma disciplinedb_sound fuel ops : forall s,
  disciplinedb kend PHYSTOP fuel ops s = true ->
  disciplined kend PHYSTOP ops s.
Proof.
  induction ops as [|o ops IH]; intros s H; simpl in *; [exact I|].
  apply andb_true_iff in H as [Ho Hrest]. split.
  - destruct o; try exact I. apply (add_reference_okb_sound fuel), Ho.
  - destruct (step kend PHYSTOP o s); try exact I. apply IH, Hrest.
Qed.

(** A run of disciplined operations keeps the invariant. *)
Lemma run_kinv ops : forall s l s',
  kinv s l -> disciplined kend PHYSTOP ops s ->
  run kend PHYSTOP ops s = Ret tt s' -> exists l', kinv s' l'.
Proof.
  induction ops as [|o ops IH]; intros s l s' Hinv Hd Hrun; simpl in *.
  - injection Hrun as <-. exists l. exact Hinv.
  - destruct Hd as [Hok Hd].
    destruct (step kend PHYSTOP o s) as [[] s1| | | |] eqn:Hstep;
      try discriminate.
    assert (exists l1, kinv s1 l1) as [l1 Hinv1].
    { destruct o as [|pa|pa count]; simpl in Hstep.
      - destruct (kalloc_kinv s l Hinv) as [[_ E] | (r & l' & s2 & _ & _ & E & H2 & _)];
          rewrite E in Hstep; injection Hstep as <-; eauto.
      - destruct (kfree_kinv s l pa s1 Hinv Hstep) as (c & _ & [[_ H]|(_ & _ & H)]);
          eauto.
      - destruct (increref pa count s) as [c1 s2| | | |] eqn:E; try discriminate.
        injection Hstep as <-. exists l.
        apply (increref_kinv s l pa count c1 s2 Hinv Hok E). }
    apply (IH s1 l1 s' Hinv1 Hd Hrun).
Qed.

(** The invariant gives the two properties of the design. *)
Lemma kinv_safe s l :
  kinv s l -> counts_nonneg s /\ free_unreferenced s.
Proof.
  intros Hinv. split.
  - exact (inv_counts _ _ _ _ Hinv).
  - intros p Hp.
    apply (on_freelist_lseg _ _ l) in Hp; [|apply (inv_list _ _ _ _ Hinv)].
    apply (inv_frames _ _ _ _ Hinv p Hp).
Qed.

(** [kfree] of a valid frame with a positive count returns. *)
Lemma kfree_returns s pa c :
  length (ref s) = Z.to_nat (PHYSTOP / PGSIZE) ->
  pa mod PGSIZE = 0 -> kend <= pa < PHYSTOP ->
  ref_at s (pa / PGSIZE) = Some c -> 0 < c ->
  exists s', kfree pa s = Ret tt s'.
Proof.
  intros Hlen Hal Hrng Hc Hpos. unfold Kalloc.kfree.
  destruct (Z.eqb_spec (pa mod PGSIZE) 0) as [_|]; [|contradiction].
  destruct (Z.ltb_spec pa kend) as [|_]; [lia|].
  destruct (Z.leb_spec PHYSTOP pa) as [|_]; [lia|]. simpl.
  destruct (frame_in_range pa Hrng) as [_ ->]. rewrite Hc.
  destruct (Z.leb_spec c 0) as [|_]; [lia|].
  destruct (0 <? c - 1); eauto.
Qed.

Lemma PGROUNDUP_aligned x : PGROUNDUP x mod PGSIZE = 0.
Proof. unfold PGROUNDUP. apply Z.mod_mul. unfold PGSIZE. lia. Qed.

Lemma PGROUNDUP_ge x : x <= PGROUNDUP x.
Proof.
  unfold PGROUNDUP, PGSIZE.
  pose proof (Z.div_mod (x + 4096 - 1) 4096 ltac:(lia)).
  pose proof (Z.mod_pos_bound (x + 4096 - 1) 4096 ltac:(lia)). lia.
Qed.

(** The sweep of [freerange] finishes and establishes the invariant. *)
Lemma freerange_loop_kinv fuel pa_end : forall p s l,
  kinv s l -> p mod PGSIZE = 0 -> kend <= p -> pa_end <= PHYSTOP ->
  (forall q, q ∈ l -> q < p) ->
  pa_end - p < PGSIZE * (Z.of_nat fuel + 1) ->
  exists s' l', freerange_loop kend PHYSTOP fuel p pa_end s = Ret tt s'
                /\ kinv s' l'.
Proof.
  induction fuel as [|fuel IH]; intros p s l Hinv Hal Hlo Hhi Hbelow Hfuel.
  - simpl. destruct (Z.leb_spec (p + PGSIZE) pa_end); [unfold PGSIZE in *; lia|].
    eauto.
  - cbn [freerange_loop].
    destruct (Z.leb_spec (p + PGSIZE) pa_end) as [Hgo|]; [|eauto].
    assert (Hrng : kend <= p < PHYSTOP) by (unfold PGSIZE in *; lia).
    destruct (frame_count s p (inv_len _ _ _ _ Hinv) Hrng) as [c Hc].
    rewrite Hc.
    assert (Hfresh : forall q, q ∈ l -> q / PGSIZE <> p / PGSIZE).
    { intros q Hq E. destruct (inv_frames _ _ _ _ Hinv q Hq) as (_ & Hqal & _).
      apply page_index_inj in E; [|assumption..]. apply Hbelow in Hq. lia. }
    pose proof (kinv_set_ref s l (p / PGSIZE) 1 c Hinv Hc Hfresh ltac:(lia))
      as Hinv1.
    pose proof (ref_at_set_ref_eq s (p / PGSIZE) 1 c Hc) as Hc1.
    destruct (kfree_returns (set_ref s (p / PGSIZE) 1) p 1
                (inv_len _ _ _ _ Hinv1) Hal Hrng Hc1 ltac:(lia)) as [s2 E].
    rewrite E.
    destruct (kfree_kinv _ l p s2 Hinv1 E) as (c2 & Hc2 & Hcase).
    rewrite Hc1 in Hc2. injection Hc2 as <-.
    destruct Hcase as [[? _] | (_ & _ & Hinv2)]; [lia|].
    apply (IH (p + PGSIZE) s2 (p :: l) Hinv2).
    + rewrite <- Zplus_mod_idemp_l, Hal. reflexivity.
    + unfold PGSIZE. lia.
    + exact Hhi.
    + intros q Hq. apply elem_of_cons in Hq as [-> | Hq].
      * unfold PGSIZE. lia.
      * apply Hbelow in Hq. unfold PGSIZE. lia.
    + unfold PGSIZE in *. lia.
Qed.

(** [kinit] returns, and the state it leaves satisfies the invariant. *)
Lemma kinit_kinv m :
  exists s0 l0, kinit kend PHYSTOP (boot PHYSTOP m) = Ret tt s0 /\ kinv s0 l0.
Proof.
  unfold kinit, freerange.
  apply (freerange_loop_kinv _ PHYSTOP (PGROUNDUP kend) (boot PHYSTOP m) []).
  - apply kinv_boot.
  - apply PGROUNDUP_aligned.
  - apply PGROUNDUP_ge.
  - lia.
  - intros q Hq. apply elem_of_nil in Hq. contradiction.
  - pose proof (PGROUNDUP_ge kend).
    destruct (Z_lt_le_dec (PHYSTOP - kend) 0).
    + unfold PGSIZE. lia.
    + rewrite Z2Nat.id by (apply Z.div_pos; unfold PGSIZE; lia).
      pose proof (Z.div_mod (PHYSTOP - kend) PGSIZE ltac:(unfold PGSIZE; lia)).
      pose proof (Z.mod_pos_bound (PHYSTOP - kend) PGSIZE
                    ltac:(unfold PGSIZE; lia)).
      lia.
Qed.

(** C3: [kfree] panics on an address that is not page-aligned, lies
    below the end of the kernel image or at or above [PHYSTOP]; on a
    valid address it panics when the count is already at most 0;
    otherwise it decrements the count, and returns with free list and
    memory untouched when the result is positive, while at result 0 it
    fills the page with the byte 1 and links it in as the new head of the
    free list, in front of the old head. *)
Theorem kfree_cases (pa : Z) (s : kstate) :
  length (ref s) = Z.to_nat (PHYSTOP / PGSIZE) ->
  0 <= freelist s < 2 ^ 64 ->
  ((pa mod PGSIZE <> 0 \/ pa < kend \/ PHYSTOP <= pa) ->
     kfree pa s = Panic "kfree") /\
  (pa mod PGSIZE = 0 -> kend <= pa < PHYSTOP ->
     exists c, ref_at s (pa / PGSIZE) = Some c /\
       (c <= 0 -> kfree pa s = Panic ref_panic_msg) /\
       (1 < c -> kfree pa s = Ret tt (set_ref s (pa / PGSIZE) (c - 1))) /\
       (c = 1 ->
          let s' := mkK pa (<[Z.to_nat (pa / PGSIZE) := 0]> (ref s))
                        (store64 (memset (mem s) pa 1 PGSIZE) pa (freelist s)) in
          kfree pa s = Ret tt s' /\
          ref_at s' (pa / PGSIZE) = Some 0 /\
          load64 (mem s') pa = freelist s /\
          (forall x, pa + 8 <= x < pa + PGSIZE -> mem s' x = 1) /\
          (forall x, x < pa \/ pa + PGSIZE <= x -> mem s' x = mem s x))).
Proof.
  intros Hlen Hhead. split.
  - intros Hbad. unfold Kalloc.kfree.
    destruct (Z.eqb_spec (pa mod PGSIZE) 0); simpl; [|reflexivity].
    destruct (Z.ltb_spec pa kend); simpl; [reflexivity|].
    destruct (Z.leb_spec PHYSTOP pa); simpl; [reflexivity|]. lia.
  - intros Hal Hrng.
    destruct (frame_count s pa Hlen Hrng) as [c Hc]. exists c.
    split; [exact Hc|].
    assert (Hunfold :
      kfree pa s =
      (if c <=? 0 then Panic ref_panic_msg
       else if 0 <? c - 1 then Ret tt (set_ref s (pa / PGSIZE) (c - 1))
       else Ret tt (mkK pa (ref (set_ref s (pa / PGSIZE) (c - 1)))
                        (store64 (memset (mem s) pa 1 PGSIZE) pa (freelist s))))).
    { unfold Kalloc.kfree.
      destruct (Z.eqb_spec (pa mod PGSIZE) 0) as [_|]; [|contradiction].
      destruct (Z.ltb_spec pa kend) as [|_]; [lia|].
      destruct (Z.leb_spec PHYSTOP pa) as [|_]; [lia|]. simpl.
      destruct (frame_in_range pa Hrng) as [_ ->]. rewrite Hc. reflexivity. }
    rewrite Hunfold. split; [|split].
    + intros Hle. destruct (Z.leb_spec c 0); [reflexivity | lia].
    + intros Hgt. destruct (Z.leb_spec c 0); [lia|].
      destruct (Z.ltb_spec 0 (c - 1)); [reflexivity | lia].
    + intros ->. simpl. split; [reflexivity|]. split.
      { unfold ref_at in *. simpl.
        destruct (Z.leb_spec 0 (pa / PGSIZE)); [|discriminate].
        apply list_lookup_insert_eq. eapply lookup_lt_Some, Hc. }
      split; [apply load64_store64, Hhead|]. split.
      * intros x Hx. rewrite store64_outside by lia.
        rewrite memset_inside by lia. reflexivity.
      * intros x Hx. unfold PGSIZE in Hx.
        rewrite store64_outside by lia. apply memset_outside.
        unfold PGSIZE. lia.
Qed.

(** C4: [kalloc] returns the null pointer, and changes nothing, when the
    free list is empty; otherwise it takes the head frame off the list
    and panics if that frame's count is not 0, else sets the count to 1,
    fills the page with the byte 5 and returns the frame. *)
Theorem kalloc_cases (s : kstate) :
  length (ref s) = Z.to_nat (PHYSTOP / PGSIZE) ->
  (freelist s = 0 -> kalloc s = Ret 0 s) /\
  (freelist s <> 0 -> kend <= freelist s < PHYSTOP ->
     exists c, ref_at s (freelist s / PGSIZE) = Some c /\
       (c <> 0 -> kalloc s = Panic "Alloc a existed page") /\
       (c = 0 ->
          exists s', kalloc s = Ret (freelist s) s' /\
            freelist s' = load64 (mem s) (freelist s) /\
            ref_at s' (freelist s / PGSIZE) = Some 1 /\
            (forall n, n <> freelist s / PGSIZE -> ref_at s' n = ref_at s n) /\
            (forall x, freelist s <= x < freelist s + PGSIZE -> mem s' x = 5) /\
            (forall x, x < freelist s \/ freelist s + PGSIZE <= x ->
                       mem s' x = mem s x))).
Proof.
  intros Hlen. split.
  - intros H0. unfold kalloc. rewrite H0. reflexivity.
  - intros Hne Hrng.
    destruct (frame_count s _ Hlen Hrng) as [c Hc]. exists c.
    split; [exact Hc|].
    pose proof (ref_at_nonneg _ _ _ Hc) as Hn0.
    destruct (frame_in_range _ Hrng) as [_ Hidx].
    unfold kalloc.
    destruct (Z.eqb_spec (freelist s) 0) as [|_]; [contradiction|].
    rewrite Hidx.
    change (ref_at (set_freelist s (load64 (mem s) (freelist s)))
                   (freelist s / PGSIZE))
      with (ref_at s (freelist s / PGSIZE)).
    rewrite Hc. split.
    + intros Hc0. destruct (Z.eqb_spec c 0); [contradiction | reflexivity].
    + intros ->. simpl. eexists. split; [reflexivity|]. simpl.
      split; [reflexivity|].
      set (n := freelist s / PGSIZE) in *.
      assert (Href : forall s1 k,
        ref s1 = <[Z.to_nat n := 1]> (ref s) ->
        ref_at s1 k = ref_at (set_ref s n 1) k).
      { intros s1 k E. unfold ref_at, set_ref. simpl. rewrite E. reflexivity. }
      split; [rewrite Href by reflexivity;
              apply (ref_at_set_ref_eq s n 1 0 Hc)|].
      split; [intros k Hk; rewrite Href by reflexivity;
              apply ref_at_set_ref_ne; [exact Hn0 | congruence]|].
      split.
      * intros x Hx. apply memset_inside. exact Hx.
      * intros x Hx. apply memset_outside. exact Hx.
Qed.

(** C2 (amended): starting from the state [kinit] leaves, after every
    run of [kalloc], [kfree] and [increref] calls in which each
    [increref] targets a frame that is not on the free list and returns
    a non-negative count, no count is negative and every frame on the
    free list has count 0. *)
Theorem disciplined_runs_safe (m : memory) (ops : list op) (s0 s : kstate) :
  kinit kend PHYSTOP (boot PHYSTOP m) = Ret tt s0 ->
  disciplined kend PHYSTOP ops s0 ->
  run kend PHYSTOP ops s0 = Ret tt s ->
  counts_nonneg s /\ free_unreferenced s.
Proof.
  intros Hinit Hd Hrun.
  destruct (kinit_kinv m) as (s0' & l0 & E & Hinv).
  rewrite E in Hinit. injection Hinit as ->.
  destruct (run_kinv ops s0 l0 s Hinv Hd Hrun) as [l Hinv'].
  apply (kinv_safe s l Hinv').
Qed.

End Invariant.

(** ** Worked examples on the small machine *)

Lemma ex_layout_ok : layout_ok ex_end ex_PHYSTOP.
Proof.
  unfold layout_ok. split; [reflexivity|]. split; [reflexivity|].
  intros E. discriminate E.
Defined.

Lemma ex_kinit :
  kinit ex_end ex_PHYSTOP (boot ex_PHYSTOP zero_mem) = Ret tt ex_init.
Proof.
  destruct (kinit_kinv ex_end ex_PHYSTOP ex_layout_ok zero_mem)
    as (s0 & l0 & E & _).
  unfold ex_init. rewrite E. reflexivity.
Defined.

Lemma ex_run ops :
  returned (run ex_end ex_PHYSTOP ops ex_init) = true ->
  run ex_end ex_PHYSTOP ops ex_init = Ret tt (ex_state ops).
Proof. apply returned_state. Defined.

(** [kinit] threads the four frames onto the free list, last frame
    first, each with count 0. *)
Example ex_kinit_free_list :
  free_frames 10 (mem ex_init) (freelist ex_init)
  = Some [frameD; frameC; frameB; frameA] /\
  ref ex_init = [0; 0; 0; 0; 0; 0].
Proof. split; vm_compute; reflexivity. Qed.

(** allocate, share, free twice, allocate again: the frame comes back
    only after the second free. *)
Example ex_share_and_free :
  let free_list s := free_frames 10 (mem s) (freelist s) in
  value_of (kalloc ex_init) = Some frameD /\
  value_of (increref frameD 1 (ex_state [Allocate])) = Some 2 /\
  free_list (ex_state [Allocate; AddReference frameD 1; Free frameD])
  = Some [frameC; frameB; frameA] /\
  free_list (ex_state [Allocate; AddReference frameD 1; Free frameD;
                       Free frameD])
  = Some [frameD; frameC; frameB; frameA] /\
  value_of (kalloc (ex_state [Allocate; AddReference frameD 1; Free frameD;
                              Free frameD]))
  = Some frameD.
Proof.
  intros free_list.
  split; [vm_compute; reflexivity|]. split; [vm_compute; reflexivity|].
  split; [vm_compute; reflexivity|]. split; vm_compute; reflexivity.
Qed.

Lemma kfree_cases_witness :
  let s := ex_state [Allocate] in
  length (ref s) = Z.to_nat (ex_PHYSTOP / PGSIZE) /\
  0 <= freelist s < 2 ^ 64 /\
  ref_at s (frameD / PGSIZE) = Some 1 /\
  kfree ex_end ex_PHYSTOP frameD s
  = Ret tt (mkK frameD (<[Z.to_nat (frameD / PGSIZE) := 0]> (ref s))
                (store64 (memset (mem s) frameD 1 PGSIZE) frameD (freelist s))).
Proof.
  intros s.
  assert (Hlen : length (ref s) = Z.to_nat (ex_PHYSTOP / PGSIZE))
    by (vm_compute; reflexivity).
  assert (Hhead : 0 <= freelist s < 2 ^ 64)
    by (vm_compute; split; [intros E; discriminate E | reflexivity]).
  assert (Hc1 : ref_at s (frameD / PGSIZE) = Some 1)
    by (vm_compute; reflexivity).
  split; [exact Hlen|]. split; [exact Hhead|]. split; [exact Hc1|].
  destruct (kfree_cases ex_end ex_PHYSTOP ex_layout_ok frameD s Hlen Hhead)
    as [_ Hvalid].
  destruct Hvalid as (c & Hc & _ & _ & Hone).
  - reflexivity.
  - split; [intros E; discriminate E | reflexivity].
  - rewrite Hc1 in Hc. injection Hc as <-.
    destruct (Hone eq_refl) as [E _]. exact E.
Defined.

Lemma kalloc_cases_witness :
  length (ref ex_init) = Z.to_nat (ex_PHYSTOP / PGSIZE) /\
  freelist ex_init = frameD /\
  ref_at ex_init (frameD / PGSIZE) = Some 0 /\
  exists s', kalloc ex_init = Ret frameD s' /\
             freelist s' = frameC /\
             ref_at s' (frameD / PGSIZE) = Some 1 /\
             (forall x, frameD <= x < frameD + PGSIZE -> mem s' x = 5).
Proof.
  assert (Hlen : length (ref ex_init) = Z.to_nat (ex_PHYSTOP / PGSIZE))
    by (vm_compute; reflexivity).
  assert (Hhd : freelist ex_init = frameD) by (vm_compute; reflexivity).
  assert (Hc0 : ref_at ex_init (frameD / PGSIZE) = Some 0)
    by (vm_compute; reflexivity).
  assert (Hnx : load64 (mem ex_init) frameD = frameC)
    by (vm_compute; reflexivity).
  split; [exact Hlen|]. split; [exact Hhd|]. split; [exact Hc0|].
  destruct (kalloc_cases ex_end ex_PHYSTOP ex_layout_ok ex_init Hlen)
    as [_ Hpop].
  rewrite Hhd in Hpop.
  destruct Hpop as (c & Hc & _ & Hzero).
  - discriminate.
  - split; [intros E; discriminate E | reflexivity].
  - rewrite Hc0 in Hc. injection Hc as <-.
    destruct (Hzero eq_refl) as (s' & E & Hnext & Hcnt & _ & Hfill & _).
    exists s'.
    split; [exact E|]. split; [|split; [exact Hcnt | exact Hfill]].
    rewrite Hnext. exact Hnx.
Defined.

Lemma disciplined_runs_safe_witness :
  let ops := [Allocate; AddReference frameD 1; Free frameD; Free frameD;
              Allocate] in
  kinit ex_end ex_PHYSTOP (boot ex_PHYSTOP zero_mem) = Ret tt ex_init /\
  disciplined ex_end ex_PHYSTOP ops ex_init /\
  run ex_end ex_PHYSTOP ops ex_init = Ret tt (ex_state ops) /\
  counts_nonneg (ex_state ops) /\ free_unreferenced (ex_state ops).
Proof.
  intros ops.
  assert (Hd : disciplined ex_end ex_PHYSTOP ops ex_init)
    by (apply (disciplinedb_sound _ _ 10); vm_compute; reflexivity).
  assert (Hrun : run ex_end ex_PHYSTOP ops ex_init = Ret tt (ex_state ops))
    by (apply ex_run; vm_compute; reflexivity).
  split; [exact ex_kinit|]. split; [exact Hd|]. split; [exact Hrun|].
  exact (disciplined_runs_safe ex_end ex_PHYSTOP ex_layout_ok zero_mem ops
           ex_init (ex_state ops) ex_kinit Hd Hrun).
Defined.

(** C2, as stated, fails: one [increref] on a frame that sits on the
    free list leaves that frame on the list with count 1. *)
Lemma undisciplined_run_unsafe :
  kinit ex_end ex_PHYSTOP (boot ex_PHYSTOP zero_mem) = Ret tt ex_init /\
  ~ (forall ops s, run ex_end ex_PHYSTOP ops ex_init = Ret tt s ->
                   counts_nonneg s /\ free_unreferenced s).
Proof.
  split; [exact ex_kinit|].
  intros H.
  set (ops := [AddReference frameD 1]).
  assert (Hrun : run ex_end ex_PHYSTOP ops ex_init = Ret tt (ex_state ops))
    by (apply ex_run; vm_compute; reflexivity).
  destruct (H ops (ex_state ops) Hrun) as [_ Hfree].
  assert (Hon : on_freelist (mem (ex_state ops)) (freelist (ex_state ops))
                            frameD).
  { apply (lseg_on_freelist _ _ [frameD; frameC; frameB; frameA]).
    - apply (free_frames_lseg 10). vm_compute. reflexivity.
    - apply elem_of_cons. left. reflexivity. }
  apply Hfree in Hon. vm_compute in Hon. discriminate Hon.
Qed.

(** A negative delta drives a count below 0 just as directly. *)
Example ex_negative_count :
  value_of (increref frameD (-1) ex_init) = Some (-1) /\
  ref_at (ex_state [AddReference frameD (-1)]) (frameD / PGSIZE) = Some (-1).
Proof. split; vm_compute; reflexivity. Qed.

End KallocProofs.

(** * Proofs about the buffer cache *)

Module BioProofs.
Import Bio.
Local Open Scope kern_scope.

(** ** The store *)

Lemma get_put_eq s p b b0 : get s p = Some b0 -> get (put s p b) p = Some b.
Proof.
  destruct p as [|i|i|]; simpl; intros H.
  - discriminate.
  - apply list_lookup_insert_eq. eapply lookup_lt_Some, H.
  - apply list_lookup_insert_eq. eapply lookup_lt_Some, H.
  - reflexivity.
Qed.

Lemma get_put_ne s p q b : p <> q -> get (put s p b) q = get s q.
Proof.
  intros Hne. destruct p as [|i|i|], q as [|j|j|]; simpl; try reflexivity.
  - apply list_lookup_insert_ne. congruence.
  - apply list_lookup_insert_ne. congruence.
  - congruence.
Qed.

Lemma put_put s p b1 b2 : put (put s p b1) p b2 = put s p b2.
Proof.
  destruct p as [|i|i|]; simpl; try reflexivity.
  - rewrite list_insert_insert_eq. reflexivity.
  - rewrite list_insert_insert_eq. reflexivity.
Qed.

Lemma iolog_put s p b : iolog (put s p b) = iolog s.
Proof. destruct p; reflexivity. Qed.

Lemma disk_put s p b : disk (put s p b) = disk s.
Proof. destruct p; reflexivity. Qed.

Lemma nodes_put s p b : nodes (put s p b) = nodes s.
Proof.
  destruct p; unfold nodes; simpl; try reflexivity;
    rewrite length_insert; reflexivity.
Qed.

Lemma upd_ok s p f b : get s p = Some b -> upd p f s = Ret tt (put s p (f b)).
Proof. intros H. unfold upd. rewrite H. reflexivity. Qed.

Lemma deref_ok s p b : get s p = Some b -> deref p s = Ret b s.
Proof. intros H. unfold deref, gets_opt. rewrite H. reflexivity. Qed.

(** ** Bucket numbers *)

Lemma haskBlock_range bn : 0 <= bn < 2 ^ 31 -> 0 <= haskBlock bn < NBUCKETS.
Proof.
  intros H. unfold haskBlock, NBUCKETS.
  rewrite to_int_id by lia.
  rewrite Z.rem_mod_nonneg by lia.
  apply Z.mod_pos_bound. lia.
Qed.

Lemma bucket_ptr_ok s bn :
  0 <= bn < 2 ^ 31 ->
  bucket_ptr (haskBlock bn) s = Ret (BUCKET (Z.to_nat (haskBlock bn))) s.
Proof.
  intros H. pose proof (haskBlock_range bn H) as Hr. unfold bucket_ptr.
  destruct (Z.leb_spec 0 (haskBlock bn)); [|lia].
  destruct (Z.ltb_spec (haskBlock bn) NBUCKETS); [|lia]. reflexivity.
Qed.

(** ** Release and write-back *)

Lemma brelse_not_holding pid b now s bb :
  get s b = Some bb -> lock bb <> Some pid ->
  brelse pid b now s = Panic "brelse".
Proof.
  intros Hb Hl. unfold brelse, bind. rewrite (deref_ok s b bb Hb).
  unfold holdingsleep. rewrite bool_decide_eq_false_2 by exact Hl.
  reflexivity.
Qed.

Lemma brelse_holding pid b now s bb :
  get s b = Some bb -> lock bb = Some pid -> 0 <= blockno bb < 2 ^ 31 ->
  brelse pid b now s = Ret tt (put s b (released now bb)).
Proof.
  intros Hb Hl Hbn. unfold brelse, bind. rewrite (deref_ok s b bb Hb).
  unfold holdingsleep. rewrite bool_decide_eq_true_2 by exact Hl. simpl.
  unfold releasesleep. rewrite (upd_ok s b _ bb Hb).
  set (s1 := put s b (set_lock None bb)).
  assert (H1 : get s1 b = Some (set_lock None bb))
    by (apply (get_put_eq s b _ bb Hb)).
  rewrite (deref_ok s1 b _ H1).
  rewrite (bucket_ptr_ok s1 (blockno (set_lock None bb)) Hbn).
  rewrite (upd_ok s1 b _ _ H1).
  set (b2 := set_refcnt _ _).
  set (s2 := put s1 b b2).
  assert (H2 : get s2 b = Some b2) by (apply (get_put_eq s1 b _ _ H1)).
  rewrite (deref_ok s2 b _ H2).
  unfold released. subst b2. simpl.
  destruct (to_uint (refcnt bb - 1) =? 0).
  - rewrite (upd_ok s2 b _ _ H2). subst s2 s1.
    rewrite !put_put. reflexivity.
  - unfold ret. subst s2 s1. rewrite !put_put. reflexivity.
Qed.

Lemma bwrite_not_holding pid b s bb :
  get s b = Some bb -> lock bb <> Some pid -> bwrite pid b s = Panic "bwrite".
Proof.
  intros Hb Hl. unfold bwrite, bind. rewrite (deref_ok s b bb Hb).
  unfold holdingsleep. rewrite bool_decide_eq_false_2 by exact Hl.
  reflexivity.
Qed.

Lemma bwrite_holding pid b s bb :
  get s b = Some bb -> lock bb = Some pid ->
  bwrite pid b s = Ret tt (written s bb).
Proof.
  intros Hb Hl. unfold bwrite, bind. rewrite (deref_ok s b bb Hb).
  unfold holdingsleep. rewrite bool_decide_eq_true_2 by exact Hl. simpl.
  unfold virtio_disk_rw. rewrite Hb. reflexivity.
Qed.

(** C9: [bwrite] and [brelse] panic when the caller does not hold the
    buffer's sleep-lock; when it does, [bwrite] hands the buffer to the
    driver for writing, and [brelse] decrements the reference count and
    leaves the lock free. *)
Theorem sleep_lock_required (pid : Z) (b : ptr) (now : Z) (s : bcache) (bb : buf) :
  get s b = Some bb ->
  (lock bb <> Some pid ->
     bwrite pid b s = Panic "bwrite" /\ brelse pid b now s = Panic "brelse") /\
  (lock bb = Some pid ->
     bwrite pid b s = Ret tt (written s bb) /\
     iolog (written s bb) = iolog s ++ [DiskWrite (dev bb) (blockno bb)] /\
     (0 <= blockno bb < 2 ^ 31 ->
        exists s' bb', brelse pid b now s = Ret tt s' /\
                       get s' b = Some bb' /\ lock bb' = None /\
                       refcnt bb' = to_uint (refcnt bb - 1))).
Proof.
  intros Hb. split.
  - intros Hl. split.
    + apply (bwrite_not_holding pid b s bb Hb Hl).
    + apply (brelse_not_holding pid b now s bb Hb Hl).
  - intros Hl. split; [apply (bwrite_holding pid b s bb Hb Hl)|].
    split; [reflexivity|].
    intros Hbn. exists (put s b (released now bb)), (released now bb).
    split; [apply (brelse_holding pid b now s bb Hb Hl Hbn)|].
    split; [apply (get_put_eq s b _ bb Hb)|]. split; reflexivity.
Qed.

(** C5: [brelse] by the holder of the lock changes the released buffer
    only: its reference count is decremented, its links [prev] and
    [next], like those of every other node, stay as they were, its
    timestamp becomes the current tick exactly when the decremented
    count is 0, and device, block number, validity and payload are
    unchanged. *)
Theorem brelse_effect (pid : Z) (b : ptr) (now : Z) (s : bcache) (bb : buf) :
  get s b = Some bb -> lock bb = Some pid -> 0 <= blockno bb < 2 ^ 31 ->
  exists s' bb',
    brelse pid b now s = Ret tt s' /\ get s' b = Some bb' /\
    refcnt bb' = to_uint (refcnt bb - 1) /\
    (refcnt bb' = 0 -> ticks bb' = now) /\
    (refcnt bb' <> 0 -> ticks bb' = ticks bb) /\
    dev bb' = dev bb /\ blockno bb' = blockno bb /\
    valid bb' = valid bb /\ data bb' = data bb /\
    (forall q, q <> b -> get s' q = get s q) /\
    (forall q, next <$> get s' q = next <$> get s q) /\
    (forall q, prev <$> get s' q = prev <$> get s q) /\
    (forall fuel stop p, chain fuel stop p s' = chain fuel stop p s).
Proof.
  intros Hb Hl Hbn.
  exists (put s b (released now bb)), (released now bb).
  split; [apply (brelse_holding pid b now s bb Hb Hl Hbn)|].
  split; [apply (get_put_eq s b _ bb Hb)|].
  assert (Hnext : forall q, next <$> get (put s b (released now bb)) q
                            = next <$> get s q).
  { intros q. destruct (decide (b = q)) as [<-|Hne].
    - rewrite (get_put_eq s b _ bb Hb), Hb. reflexivity.
    - rewrite get_put_ne by exact Hne. reflexivity. }
  split; [reflexivity|].
  split; [unfold released; simpl; intros ->; reflexivity|].
  split; [unfold released; simpl; intros Hr;
          destruct (Z.eqb_spec (to_uint (refcnt bb - 1)) 0);
          [contradiction | reflexivity]|].
  do 4 (split; [reflexivity|]).
  split; [intros q Hq; apply get_put_ne; congruence|].
  split; [exact Hnext|].
  split.
  - intros q. destruct (decide (b = q)) as [<-|Hne].
    + rewrite (get_put_eq s b _ bb Hb), Hb. reflexivity.
    + rewrite get_put_ne by exact Hne. reflexivity.
  - intros fuel stop. induction fuel as [|fuel IH]; intros p; simpl.
    + reflexivity.
    + destruct (decide (p = stop)); [reflexivity|].
      pose proof (Hnext p) as Hn.
      destruct (get (put s b (released now bb)) p) as [x|],
               (get s p) as [y|]; simpl in Hn; try discriminate;
        [|reflexivity].
      injection Hn as ->. rewrite IH. reflexivity.
Qed.

(** ** What a routine preserves *)

Section Preserves.

Variable R : bcache -> bcache -> Prop.
Hypothesis Rrefl : forall s, R s s.
Hypothesis Rtrans : forall a b c, R a b -> R b c -> R a c.

Lemma pres_ret {A} (a : A) : preserves R (ret a).
Proof. intros s. apply Rrefl. Qed.

Lemma pres_panic {A} msg : preserves R (@panic bcache A msg).
Proof. intros s. exact I. Qed.

Lemma pres_gets {A} (f : bcache -> A) : preserves R (gets f).
Proof. intros s. apply Rrefl. Qed.

Lemma pres_deref p : preserves R (deref p).
Proof. intros s. unfold deref, gets_opt. destruct (get s p); [apply Rrefl | exact I]. Qed.

Lemma pres_bucket_ptr i : preserves R (bucket_ptr i).
Proof.
  intros s. unfold bucket_ptr.
  destruct ((0 <=? i) && (i <? NBUCKETS)); [apply Rrefl | exact I].
Qed.

Lemma pres_bind {A B} (m : bcache -> outcome bcache A)
      (k : A -> bcache -> outcome bcache B) :
  preserves R m -> (forall a, preserves R (k a)) -> preserves R (bind m k).
Proof.
  intros Hm Hk s. unfold bind. specialize (Hm s).
  destruct (m s) as [a s1| |s1| |]; try exact I.
  - specialize (Hk a s1).
    destruct (k a s1) as [b s2| |s2| |]; try exact I;
      apply (Rtrans _ s1); assumption.
  - exact Hm.
Qed.

Lemma pres_scan_cached fuel stop d bn : forall p,
  preserves R (scan_cached fuel stop d bn p).
Proof.
  induction fuel as [|fuel IH]; intros p s; simpl.
  - destruct (decide (p = stop)); [apply Rrefl | exact I].
  - destruct (decide (p = stop)); [apply Rrefl|].
    destruct (get s p) as [b|]; [|exact I].
    destruct ((dev b =? d) && (blockno b =? bn)); [apply Rrefl | apply IH].
Qed.

Lemma pres_scan_bucket fuel stop i : forall p st,
  preserves R (scan_bucket fuel stop i p st).
Proof.
  induction fuel as [|fuel IH]; intros p st s; simpl.
  - destruct (decide (p = stop)); [apply Rrefl | exact I].
  - destruct (decide (p = stop)); [apply Rrefl|].
    destruct (get s p) as [b|]; [|exact I]. apply IH.
Qed.

Lemma pres_scan_buckets fuel ids : forall st,
  preserves R (scan_buckets fuel ids st).
Proof.
  induction ids as [|i ids IH]; intros st; simpl.
  - apply pres_ret.
  - apply pres_bind; [apply pres_deref|]. intros hd.
    apply pres_bind; [apply pres_scan_bucket|]. intros st'. apply IH.
Qed.

Lemma pres_lookup fuel h d bn : preserves R (lookup fuel h d bn).
Proof.
  unfold lookup. apply pres_bind; [apply pres_deref|]. intros hd.
  apply pres_scan_cached.
Qed.

Lemma pres_find_victim fuel : preserves R (find_victim fuel).
Proof. apply pres_scan_buckets. Qed.

(** Routines that write: [good f] singles out the changes of one
    [struct buf] that [R] tolerates. *)
Variable good : (buf -> buf) -> Prop.
Hypothesis Rput :
  forall s p b f, good f -> get s p = Some b -> R s (put s p (f b)).

Lemma pres_upd p f : good f -> preserves R (upd p f).
Proof.
  intros Hf s. unfold upd. destruct (get s p) as [b|] eqn:E; [|exact I].
  apply Rput; assumption.
Qed.

Hypothesis good_next : forall v, good (set_next v).
Hypothesis good_prev : forall v, good (set_prev v).
Hypothesis good_lock : forall v, good (set_lock v).

Lemma pres_acquiresleep pid p : preserves R (acquiresleep pid p).
Proof.
  intros s. unfold acquiresleep. destruct (get s p) as [b|] eqn:E; [|exact I].
  destruct (lock b); [apply Rrefl|]. apply Rput; [apply good_lock | exact E].
Qed.

Lemma pres_unlink b : preserves R (unlink b).
Proof.
  unfold unlink.
  apply pres_bind; [apply pres_deref|]. intros bb.
  apply pres_bind; [apply pres_upd, good_next|]. intros _.
  apply pres_bind; [apply pres_deref|]. intros bb'.
  apply pres_upd, good_prev.
Qed.

Lemma pres_link_first h b : preserves R (link_first h b).
Proof.
  unfold link_first.
  apply pres_bind; [apply pres_deref|]. intros hd.
  apply pres_bind; [apply pres_upd, good_next|]. intros _.
  apply pres_bind; [apply pres_upd, good_next|]. intros _.
  apply pres_bind; [apply pres_deref|]. intros bb.
  apply pres_bind; [apply pres_upd, good_prev|]. intros _.
  apply pres_upd, good_prev.
Qed.

(** The tail of the miss path, after the victim has been rebound. *)
Lemma pres_relink pid (moved : bool) h b :
  preserves R
    (do! (if moved then unlink b else ret tt) in
     do! (if moved then link_first h b else ret tt) in
     do! acquiresleep pid b in
     ret b).
Proof.
  apply pres_bind; [destruct moved; [apply pres_unlink | apply pres_ret]|].
  intros _.
  apply pres_bind; [destruct moved; [apply pres_link_first | apply pres_ret]|].
  intros _.
  apply pres_bind; [apply pres_acquiresleep|]. intros _. apply pres_ret.
Qed.

Hypothesis good_dev : forall v, good (set_dev v).
Hypothesis good_blockno : forall v, good (set_blockno v).
Hypothesis good_valid : forall v, good (set_valid v).
Hypothesis good_ticks : forall v, good (set_ticks v).
Hypothesis good_one : good (set_refcnt 1).
Hypothesis good_incr : good (fun bb => set_refcnt (to_uint (refcnt bb + 1)) bb).
Hypothesis good_decr : good (fun bb => set_refcnt (to_uint (refcnt bb - 1)) bb).

Lemma pres_rebind d bn now b : preserves R (rebind d bn now b).
Proof.
  unfold rebind.
  apply pres_bind; [apply pres_upd, good_dev|]. intros _.
  apply pres_bind; [apply pres_upd, good_blockno|]. intros _.
  apply pres_bind; [apply pres_upd, good_valid|]. intros _.
  apply pres_bind; [apply pres_upd, good_one|]. intros _.
  apply pres_upd, good_ticks.
Qed.

Lemma pres_bget_hit pid b : preserves R (bget_hit pid b).
Proof.
  unfold bget_hit.
  apply pres_bind; [apply pres_upd, good_incr|]. intros _.
  apply pres_bind; [apply pres_acquiresleep|]. intros _. apply pres_ret.
Qed.

Lemma pres_bget_miss pid d bn now fuel hashId h :
  preserves R (bget_miss pid d bn now fuel hashId h).
Proof.
  unfold bget_miss.
  apply pres_bind; [apply pres_find_victim|]. intros st.
  destruct (decide (bMin st = NULL)); [apply pres_panic|].
  apply pres_bind; [apply pres_rebind|]. intros _.
  apply pres_relink.
Qed.

Lemma pres_bget pid d bn now : preserves R (bget pid d bn now).
Proof.
  unfold bget.
  apply pres_bind; [apply pres_gets|]. intros fuel.
  apply pres_bind; [apply pres_bucket_ptr|]. intros h.
  apply pres_bind; [apply pres_lookup|]. intros [b|]; [apply pres_bget_hit|].
  apply pres_bind; [apply pres_lookup|]. intros [b|]; [apply pres_bget_hit|].
  apply pres_bget_miss.
Qed.

Lemma pres_bpin b : preserves R (bpin b).
Proof.
  unfold bpin.
  apply pres_bind; [apply pres_deref|]. intros bb.
  apply pres_bind; [apply pres_bucket_ptr|]. intros _.
  apply pres_upd, good_incr.
Qed.

Lemma pres_bunpin b : preserves R (bunpin b).
Proof.
  unfold bunpin.
  apply pres_bind; [apply pres_deref|]. intros bb.
  apply pres_bind; [apply pres_bucket_ptr|]. intros _.
  apply pres_upd, good_decr.
Qed.

Lemma pres_brelse pid b now : preserves R (brelse pid b now).
Proof.
  unfold brelse.
  apply pres_bind; [apply pres_deref|]. intros bb.
  destruct (negb (holdingsleep pid bb)); [apply pres_panic|].
  apply pres_bind; [apply pres_upd, good_lock|]. intros _.
  apply pres_bind; [apply pres_deref|]. intros bb1.
  apply pres_bind; [apply pres_bucket_ptr|]. intros _.
  apply pres_bind; [apply pres_upd, good_decr|]. intros _.
  apply pres_bind; [apply pres_deref|]. intros bb2.
  destruct (refcnt bb2 =? 0); [apply pres_upd, good_ticks | apply pres_ret].
Qed.

Lemma pres_binit_buckets ids : preserves R (binit_buckets ids).
Proof.
  induction ids as [|i ids IH]; simpl; [apply pres_ret|].
  apply pres_bind; [apply pres_upd, good_prev|]. intros _.
  apply pres_bind; [apply pres_upd, good_next|]. intros _. exact IH.
Qed.

Lemma pres_binit_buf now i : preserves R (binit_buf now i).
Proof.
  unfold binit_buf.
  apply pres_bind; [apply pres_deref|]. intros bb.
  apply pres_bind; [apply pres_bucket_ptr|]. intros h.
  apply pres_bind; [apply pres_deref|]. intros hd.
  apply pres_bind; [apply pres_upd, good_next|]. intros _.
  apply pres_bind; [apply pres_upd, good_prev|]. intros _.
  apply pres_bind; [apply pres_upd, good_lock|]. intros _.
  apply pres_bind; [apply pres_deref|]. intros hd'.
  apply pres_bind; [apply pres_upd, good_prev|]. intros _.
  apply pres_bind; [apply pres_upd, good_next|]. intros _.
  apply pres_upd, good_ticks.
Qed.

Lemma pres_binit_bufs now ids : preserves R (binit_bufs now ids).
Proof.
  induction ids as [|i ids IH]; simpl; [apply pres_ret|].
  apply pres_bind; [apply pres_binit_buf|]. intros _. exact IH.
Qed.

Lemma pres_binit now : preserves R (binit now).
Proof.
  intros s. unfold binit.
  apply (pres_bind (binit_buckets (seq 0 (Z.to_nat NBUCKETS)))
                   (fun _ => binit_bufs now (seq 0 (length (bufs s))))).
  - apply pres_binit_buckets.
  - intros _. apply pres_binit_bufs.
Qed.

(** The driver. *)
Hypothesis good_data : forall v, good (set_data v).
Hypothesis Rdriver :
  forall s dk lg, R s (mkCache (bufs s) (head s) (buckets s) dk lg).

Lemma pres_virtio_disk_rw p w : preserves R (virtio_disk_rw p w).
Proof.
  intros s. unfold virtio_disk_rw. destruct (get s p) as [b|] eqn:E; [|exact I].
  destruct w; [apply Rdriver|].
  eapply Rtrans; [|apply Rdriver].
  apply (Rput s p b (set_data _) (good_data _) E).
Qed.

Lemma pres_bread pid d bn now : preserves R (bread pid d bn now).
Proof.
  unfold bread.
  apply pres_bind; [apply pres_bget|]. intros b.
  apply pres_bind; [apply pres_deref|]. intros bb.
  apply pres_bind; [|intros _; apply pres_ret].
  destruct (valid bb =? 0); [|apply pres_ret].
  apply pres_bind; [apply pres_virtio_disk_rw|]. intros _.
  apply pres_upd, good_valid.
Qed.

Lemma pres_bwrite pid b : preserves R (bwrite pid b).
Proof.
  unfold bwrite.
  apply pres_bind; [apply pres_deref|]. intros bb.
  destruct (negb (holdingsleep pid bb)); [apply pres_panic|].
  apply pres_virtio_disk_rw.
Qed.

End Preserves.

(** ** Reading-only routines leave the state alone *)

Lemma bind_Ret_inv {A B} (m : bcache -> outcome bcache A)
      (k : A -> bcache -> outcome bcache B) s b s' :
  bind m k s = Ret b s' -> exists a s1, m s = Ret a s1 /\ k a s1 = Ret b s'.
Proof.
  unfold bind. destruct (m s) as [a s1| | | |]; try discriminate. eauto.
Qed.

Lemma same_state {A} (m : bcache -> outcome bcache A) s a s' :
  preserves eq m -> m s = Ret a s' -> s' = s.
Proof. intros Hm E. specialize (Hm s). rewrite E in Hm. symmetry. exact Hm. Qed.

Lemma find_victim_state fuel s st s' :
  find_victim fuel s = Ret st s' -> s' = s.
Proof.
  apply same_state, pres_find_victim; [reflexivity | intros; congruence].
Qed.

Lemma lookup_state fuel h d bn s r s' :
  lookup fuel h d bn s = Ret r s' -> s' = s.
Proof.
  apply same_state, pres_lookup; [reflexivity | intros; congruence].
Qed.

(** ** Walking a list: [nodes s] steps are enough *)

Lemma chain_mono f stop s : forall f' p l,
  chain f stop p s = Some l -> (f <= f')%nat -> chain f' stop p s = Some l.
Proof.
  induction f as [|f IH]; intros f' p l; simpl.
  - destruct (decide (p = stop)) as [->|Hne]; [|discriminate].
    intros [= <-] _. destruct f'; simpl;
      (destruct (decide (stop = stop)); [reflexivity | contradiction]).
  - destruct (decide (p = stop)) as [->|Hne].
    + intros [= <-] _. destruct f'; simpl;
        (destruct (decide (stop = stop)); [reflexivity | contradiction]).
    + destruct (get s p) as [b|] eqn:Hb; [|discriminate].
      destruct (chain f stop (next b) s) as [l'|] eqn:Hc; [|discriminate].
      simpl. intros [= <-] Hle. destruct f' as [|f']; [lia|]. simpl.
      destruct (decide (p = stop)); [contradiction|].
      rewrite Hb, (IH f' _ l' Hc) by lia. reflexivity.
Qed.

Lemma chain_det f f' stop p s l l' :
  chain f stop p s = Some l -> chain f' stop p s = Some l' -> l = l'.
Proof.
  intros H H'.
  pose proof (chain_mono f stop s (max f f') p l H ltac:(lia)) as E.
  pose proof (chain_mono f' stop s (max f f') p l' H' ltac:(lia)) as E'.
  congruence.
Qed.

Lemma chain_cons_inv f stop p s q l :
  chain f stop p s = Some (q :: l) ->
  q = p /\ p <> stop /\
  exists b, get s p = Some b /\ chain (pred f) stop (next b) s = Some l.
Proof.
  destruct f as [|f]; simpl.
  - destruct (decide (p = stop)); discriminate.
  - destruct (decide (p = stop)); [discriminate|].
    destruct (get s p) as [b|] eqn:Hb; [|discriminate].
    destruct (chain f stop (next b) s) as [l'|] eqn:Hc; [|discriminate].
    simpl. intros [= <- <-]. split; [reflexivity|]. split; [assumption|].
    exists b. split; [reflexivity | exact Hc].
Qed.

(** The walk from any node of a walk is the rest of that walk. *)
Lemma chain_suffix stop s : forall l1 f p q l2,
  chain f stop p s = Some (l1 ++ q :: l2) ->
  exists f', chain f' stop q s = Some (q :: l2).
Proof.
  induction l1 as [|x l1 IH]; intros f p q l2 H; simpl in H.
  - destruct (chain_cons_inv _ _ _ _ _ _ H) as (-> & _). eauto.
  - destruct (chain_cons_inv _ _ _ _ _ _ H) as (_ & _ & b & _ & Hc).
    apply (IH _ _ _ _ Hc).
Qed.

Lemma chain_NoDup stop s : forall l f p,
  chain f stop p s = Some l -> NoDup l.
Proof.
  induction l as [|x l IH]; intros f p H; [constructor|].
  destruct (chain_cons_inv _ _ _ _ _ _ H) as (-> & Hne & b & Hb & Hc).
  apply NoDup_cons. split; [|apply (IH _ _ Hc)].
  intros Hin. apply list_elem_of_split in Hin as (l1 & l2 & ->).
  destruct (chain_suffix stop s l1 _ _ p l2 Hc) as [f' Hs].
  pose proof (chain_det _ _ _ _ _ _ _ H Hs) as E.
  apply (f_equal (@length ptr)) in E. simpl in E.
  rewrite length_app in E. simpl in E. lia.
Qed.

Lemma chain_objects stop s : forall l f p q,
  chain f stop p s = Some l -> q ∈ l -> q ∈ objects s.
Proof.
  induction l as [|x l IH]; intros f p q H Hq.
  - apply elem_of_nil in Hq. contradiction.
  - destruct (chain_cons_inv _ _ _ _ _ _ H) as (-> & Hne & b & Hb & Hc).
    apply elem_of_cons in Hq as [->|Hq]; [|apply (IH _ _ _ Hc Hq)].
    unfold objects. destruct p as [|i|i|]; simpl in Hb.
    + discriminate.
    + apply elem_of_app. left. apply list_elem_of_fmap. exists i.
      split; [reflexivity|]. apply elem_of_seq.
      apply lookup_lt_Some in Hb. lia.
    + apply elem_of_app. right. apply elem_of_app. left.
      apply list_elem_of_fmap. exists i.
      split; [reflexivity|]. apply elem_of_seq.
      apply lookup_lt_Some in Hb. lia.
    + apply elem_of_app. right. apply elem_of_app. right.
      apply elem_of_cons. left. reflexivity.
Qed.

Lemma length_objects s : length (objects s) = nodes s.
Proof.
  unfold objects, nodes.
  rewrite !length_app, !length_map, !length_seq. simpl. lia.
Qed.

Lemma chain_exact stop s : forall l f p,
  chain f stop p s = Some l -> chain (length l) stop p s = Some l.
Proof.
  induction l as [|x l IH]; intros f p H.
  - destruct f; simpl in *;
      (destruct (decide (p = stop)); [reflexivity|]); try discriminate.
    destruct (get s p) as [b|]; [|discriminate].
    destruct (chain f stop (next b) s); discriminate.
  - destruct (chain_cons_inv _ _ _ _ _ _ H) as (-> & Hne & b & Hb & Hc).
    simpl. destruct (decide (p = stop)); [contradiction|].
    rewrite Hb, (IH _ _ Hc). reflexivity.
Qed.

(** A walk that ends with some amount of fuel ends with [nodes s]: the
    loops of [bget] are cut short only where the C loop does not end. *)
Lemma chain_fuel_enough f stop p s l :
  chain f stop p s = Some l -> chain (nodes s) stop p s = Some l.
Proof.
  intros H. apply (chain_mono (length l)); [apply (chain_exact _ _ _ _ _ H)|].
  rewrite <- length_objects.
  apply NoDup_incl_length.
  - apply NoDup_ListNoDup, (chain_NoDup _ _ _ _ _ H).
  - intros q Hq. apply list_elem_of_In. apply list_elem_of_In in Hq.
    apply (chain_objects _ _ _ _ _ _ H Hq).
Qed.

(** ** The victim search as a fold over the pool *)

Lemma consider_same_choice s a b x :
  same_choice a b -> same_choice (consider s a x) (consider s b x).
Proof.
  intros (H1 & H2 & H3). unfold consider, better.
  destruct (get s (snd x)) as [c|]; [|repeat split; assumption].
  rewrite H2.
  destruct ((refcnt c =? 0) && (ticks c <? to_uint (minTicks b)));
    repeat split; assumption.
Qed.

Lemma fold_same_choice s L : forall a b,
  same_choice a b ->
  same_choice (fold_left (consider s) L a) (fold_left (consider s) L b).
Proof.
  induction L as [|x L IH]; intros a b H; simpl; [exact H|].
  apply IH, consider_same_choice, H.
Qed.

Lemma scan_bucket_chain fuel stop i s : forall p st l,
  chain fuel stop p s = Some l ->
  scan_bucket fuel stop (Z.of_nat i) p st s
  = Ret (fold_left (consider s) (map (pair i) l) st) s.
Proof.
  induction fuel as [|fuel IH]; intros p st l; simpl.
  - destruct (decide (p = stop)); [|discriminate].
    intros [= <-]. reflexivity.
  - destruct (decide (p = stop)); [intros [= <-]; reflexivity|].
    destruct (get s p) as [b|] eqn:Hb; [|discriminate].
    destruct (chain fuel stop (next b) s) as [l'|] eqn:Hc; [|discriminate].
    simpl. intros [= <-].
    assert (Hcons : consider s st (i, p)
                    = if better b st
                      then mkSearch p (to_int (ticks b)) 1 (Z.of_nat i)
                      else st)
      by (unfold consider; simpl; rewrite Hb; reflexivity).
    simpl. rewrite Hcons. apply IH, Hc.
Qed.

Lemma scan_buckets_pool s ids : forall st L,
  pool_of s ids = Some L ->
  exists st', scan_buckets (nodes s) ids st s = Ret st' s /\
              same_choice st' (fold_left (consider s) L st).
Proof.
  induction ids as [|i ids IH]; intros st L; simpl.
  - intros [= <-]. exists st. split; [reflexivity|]. repeat split.
  - unfold shard.
    destruct (get s (BUCKET i)) as [hd|] eqn:Hhd; [|discriminate].
    destruct (chain (nodes s) (BUCKET i) (next hd) s) as [l|] eqn:Hl;
      [|discriminate].
    destruct (pool_of s ids) as [r|] eqn:Hr; [|discriminate].
    intros [= <-].
    unfold bind. rewrite (deref_ok s _ hd Hhd).
    rewrite (scan_bucket_chain _ _ i s _ _ l Hl).
    destruct (IH (fold_left (consider s) (map (pair i) l)
                    (mkSearch (bMin st) (minTicks st) 0 (minId st))) r eq_refl)
      as (st' & E & Hsame).
    exists st'. split; [exact E|].
    rewrite fold_left_app.
    destruct Hsame as (H1 & H2 & H3).
    pose proof (fold_same_choice s r _ _
                  (fold_same_choice s (map (pair i) l)
                     (mkSearch (bMin st) (minTicks st) 0 (minId st)) st
                     ltac:(repeat split))) as (G1 & G2 & G3).
    repeat split; congruence.
Qed.

(** Nothing but an unreferenced buffer of the pool is ever chosen. *)
Lemma fold_consider_unreferenced s L : forall st,
  (bMin st = NULL \/ unreferenced s (bMin st)) ->
  (bMin (fold_left (consider s) L st) = bMin st \/
   exists i, (i, bMin (fold_left (consider s) L st)) ∈ L) /\
  (bMin (fold_left (consider s) L st) = NULL \/
   unreferenced s (bMin (fold_left (consider s) L st))).
Proof.
  induction L as [|[j q] L IH]; intros st Hst; simpl.
  - split; [left; reflexivity | exact Hst].
  - assert (Hstep : (bMin (consider s st (j, q)) = bMin st \/
                     bMin (consider s st (j, q)) = q) /\
                    (bMin (consider s st (j, q)) = NULL \/
                     unreferenced s (bMin (consider s st (j, q))))).
    { unfold consider, better; simpl.
      destruct (get s q) as [c|] eqn:Hc; [|split; [left; reflexivity | exact Hst]].
      destruct (Z.eqb_spec (refcnt c) 0) as [Hz|]; simpl;
        [|split; [left; reflexivity | exact Hst]].
      destruct (ticks c <? to_uint (minTicks st));
        [|split; [left; reflexivity | exact Hst]].
      simpl. split; [right; reflexivity|]. right. exists c. split; assumption. }
    destruct Hstep as [Hwho Hun].
    destruct (IH _ Hun) as [Hmem Hres]. split; [|exact Hres].
    destruct Hmem as [E | (i & Hi)].
    + rewrite E. destruct Hwho as [E' | E'].
      * left. exact E'.
      * right. exists j. rewrite E'. apply elem_of_cons. left. reflexivity.
    + right. exists i. apply elem_of_cons. right. exact Hi.
Qed.

(** With no unreferenced buffer in the pool the search record never
    changes. *)
Lemma fold_consider_none s L : forall st,
  (forall i p, (i, p) ∈ L -> ~ unreferenced s p) ->
  fold_left (consider s) L st = st.
Proof.
  induction L as [|[j q] L IH]; intros st Hnone; simpl; [reflexivity|].
  assert (E : consider s st (j, q) = st).
  { unfold consider, better; simpl.
    destruct (get s q) as [c|] eqn:Hc; [|reflexivity].
    destruct (Z.eqb_spec (refcnt c) 0) as [Hz|]; simpl; [|reflexivity].
    exfalso. apply (Hnone j q); [apply elem_of_cons; left; reflexivity|].
    exists c. split; assumption. }
  rewrite E. apply IH. intros i p Hp. apply (Hnone i).
  apply elem_of_cons. right. exact Hp.
Qed.

Lemma no_victim_ticks : to_uint (minTicks no_victim) = 2 ^ 32 - 1.
Proof. reflexivity. Qed.

Lemma unreferenced_get s q c :
  get s q = Some c -> unreferenced s q -> refcnt c = 0.
Proof. intros Hc (b & Hb & H0). congruence. Qed.

Lemma stamp_get s q c : get s q = Some c -> stamp s q = ticks c.
Proof. intros Hc. unfold stamp. rewrite Hc. reflexivity. Qed.

(** The victim search picks the least recently used unreferenced
    buffer, the first one in scan order among equals, provided one with
    a timestamp below [2^32 - 1] exists; otherwise it picks none. *)
Lemma fold_consider_lru s L :
  ticks_ok s ->
  forall st, st = fold_left (consider s) L no_victim ->
  (bMin st = NULL /\ to_uint (minTicks st) = 2 ^ 32 - 1 /\
   forall i p, (i, p) ∈ L -> unreferenced s p -> stamp s p = 2 ^ 32 - 1) \/
  (exists i, lru_first s L i (bMin st) /\ minId st = Z.of_nat i /\
             to_uint (minTicks st) = stamp s (bMin st) /\
             stamp s (bMin st) < 2 ^ 32 - 1).
Proof.
  intros Hticks. induction L as [|[j q] L IH] using rev_ind; intros st' ->.
  - left. split; [reflexivity|]. split; [reflexivity|].
    intros i p Hp. apply elem_of_nil in Hp. contradiction.
  - specialize (IH _ eq_refl). rewrite fold_left_app. simpl.
    remember (fold_left (consider s) L no_victim) as st eqn:Est.
    unfold consider; simpl.
    destruct (get s q) as [c|] eqn:Hc.
    2:{ (* a dangling pointer is never considered *)
      destruct IH as [(Hn & Hm & Hall) | (i & Hlru & Hid & Hm & Hlt)].
      - left. split; [exact Hn|]. split; [exact Hm|].
        intros i p Hp Hu. apply elem_of_app in Hp as [Hp|Hp]; [eauto|].
        apply list_elem_of_singleton in Hp. injection Hp as -> ->.
        destruct Hu as (b & Hb & _). congruence.
      - right. exists i. split; [|auto].
        destruct Hlru as (La & Lb & -> & Hu & Hbefore & Hafter).
        exists La, (Lb ++ [(j, q)]). rewrite <- app_assoc. simpl.
        split; [reflexivity|]. split; [exact Hu|]. split; [exact Hbefore|].
        intros j' q' Hq' Hu'. apply elem_of_app in Hq' as [Hq'|Hq']; [eauto|].
        apply list_elem_of_singleton in Hq'. injection Hq' as -> ->.
        destruct Hu' as (b & Hb & _). congruence. }
    pose proof (Hticks q c Hc) as Hrange.
    pose proof (stamp_get s q c Hc) as Hstamp.
    unfold better.
    destruct (Z.eqb_spec (refcnt c) 0) as [Hz|Hnz]; simpl.
    2:{ (* referenced: skipped *)
      destruct IH as [(Hn & Hm & Hall) | (i & Hlru & Hid & Hm & Hlt)].
      - left. split; [exact Hn|]. split; [exact Hm|].
        intros i p Hp Hu. apply elem_of_app in Hp as [Hp|Hp]; [eauto|].
        apply list_elem_of_singleton in Hp. injection Hp as -> ->.
        pose proof (unreferenced_get s q c Hc Hu). contradiction.
      - right. exists i. split; [|auto].
        destruct Hlru as (La & Lb & -> & Hu & Hbefore & Hafter).
        exists La, (Lb ++ [(j, q)]). rewrite <- app_assoc. simpl.
        split; [reflexivity|]. split; [exact Hu|]. split; [exact Hbefore|].
        intros j' q' Hq' Hu'. apply elem_of_app in Hq' as [Hq'|Hq']; [eauto|].
        apply list_elem_of_singleton in Hq'. injection Hq' as -> ->.
        pose proof (unreferenced_get s q c Hc Hu'). contradiction. }
    destruct (Z.ltb_spec (ticks c) (to_uint (minTicks st))) as [Hlt|Hge].
    + (* strictly older than the best so far: the new victim *)
      right. exists j. simpl.
      pose proof (to_uint_range (minTicks st)) as Hmt.
      split; [|split; [reflexivity|split; [|lia]]].
      2:{ rewrite to_uint_to_int, to_uint_id by exact Hrange.
          symmetry. exact Hstamp. }
      exists L, []. split; [reflexivity|].
      split; [exists c; split; assumption|].
      split; [|intros j' q' Hq'; apply elem_of_nil in Hq'; contradiction].
      intros j' q' Hq' Hu'. rewrite Hstamp.
      destruct IH as [(Hn & Hm & Hall) | (i & Hlru & Hid & Hm & Hlt')].
      * rewrite (Hall j' q' Hq' Hu'). lia.
      * destruct Hlru as (La & Lb & HL & Hu & Hbefore & Hafter).
        rewrite HL in Hq'. apply elem_of_app in Hq' as [Hq'|Hq'].
        -- pose proof (Hbefore j' q' Hq' Hu'). lia.
        -- apply elem_of_cons in Hq' as [Hq'|Hq'].
           ++ injection Hq' as -> ->. lia.
           ++ pose proof (Hafter j' q' Hq' Hu'). lia.
    + (* not older: the choice stands *)
      destruct IH as [(Hn & Hm & Hall) | (i & Hlru & Hid & Hm & Hlt')].
      * left. split; [exact Hn|]. split; [exact Hm|].
        intros i p Hp Hu. apply elem_of_app in Hp as [Hp|Hp]; [eauto|].
        apply list_elem_of_singleton in Hp. injection Hp as -> ->.
        rewrite Hstamp. lia.
      * right. exists i. split; [|auto].
        destruct Hlru as (La & Lb & -> & Hu & Hbefore & Hafter).
        exists La, (Lb ++ [(j, q)]). rewrite <- app_assoc. simpl.
        split; [reflexivity|]. split; [exact Hu|]. split; [exact Hbefore|].
        intros j' q' Hq' Hu'. apply elem_of_app in Hq' as [Hq'|Hq']; [eauto|].
        apply list_elem_of_singleton in Hq'. injection Hq' as -> ->.
        rewrite Hstamp. lia.
Qed.

(** ** The paths of [bget] *)

Lemma bget_on_miss pid d bn now s :
  miss d bn s ->
  exists h, bget pid d bn now s
            = bget_miss pid d bn now (nodes s) (haskBlock bn) h s.
Proof.
  intros (h & Hh & Hlook). exists h.
  unfold bget, bind, gets. rewrite Hh, Hlook, Hlook. reflexivity.
Qed.

Lemma bget_on_hit pid d bn now s h b :
  bucket_ptr (haskBlock bn) s = Ret h s ->
  lookup (nodes s) h d bn s = Ret (Some b) s ->
  bget pid d bn now s = bget_hit pid b s.
Proof.
  intros Hh Hlook. unfold bget, bind, gets. rewrite Hh, Hlook. reflexivity.
Qed.

Lemma bget_hit_free pid b s bb :
  get s b = Some bb -> lock bb = None ->
  bget_hit pid b s
  = Ret b (put s b (set_lock (Some pid)
                      (set_refcnt (to_uint (refcnt bb + 1)) bb))).
Proof.
  intros Hb Hl. unfold bget_hit, bind. rewrite (upd_ok s b _ bb Hb).
  unfold acquiresleep. rewrite (get_put_eq s b _ bb Hb). simpl. rewrite Hl.
  rewrite put_put. reflexivity.
Qed.

Lemma rebind_inv d bn now b s s1 :
  rebind d bn now b s = Ret tt s1 ->
  exists bb, get s b = Some bb /\ s1 = put s b (rebound d bn now bb).
Proof.
  unfold rebind, bind, upd.
  destruct (get s b) as [bb|] eqn:Hb; [|discriminate].
  rewrite (get_put_eq s b _ bb Hb).
  rewrite (get_put_eq _ b _ _ (get_put_eq s b _ bb Hb)).
  rewrite (get_put_eq _ b _ _ (get_put_eq _ b _ _ (get_put_eq s b _ bb Hb))).
  rewrite (get_put_eq _ b _ _
             (get_put_eq _ b _ _ (get_put_eq _ b _ _ (get_put_eq s b _ bb Hb)))).
  rewrite !put_put. intros [= <-]. exists bb. split; reflexivity.
Qed.

Lemma keeps_identity_refl b s : keeps_identity b s s.
Proof. intros bb Hb. exists bb. repeat split. exact Hb. Qed.

Lemma keeps_identity_trans b s1 s2 s3 :
  keeps_identity b s1 s2 -> keeps_identity b s2 s3 -> keeps_identity b s1 s3.
Proof.
  intros H12 H23 bb Hb. destruct (H12 bb Hb) as (b2 & Hb2 & ? & ? & ? & ?).
  destruct (H23 b2 Hb2) as (b3 & Hb3 & ? & ? & ? & ?).
  exists b3. repeat split; congruence.
Qed.

Lemma keeps_identity_put b s p x f :
  (forall y, valid (f y) = valid y /\ dev (f y) = dev y /\
             blockno (f y) = blockno y /\ refcnt (f y) = refcnt y) ->
  get s p = Some x -> keeps_identity b s (put s p (f x)).
Proof.
  intros Hf Hx bb Hb. destruct (decide (p = b)) as [->|Hne].
  - rewrite Hx in Hb. injection Hb as <-. exists (f x).
    split; [apply (get_put_eq s b _ x Hx) | apply Hf].
  - exists bb. rewrite get_put_ne by exact Hne. repeat split. exact Hb.
Qed.

(** Moving the victim to its new shard and locking it leaves its new
    identity in place, and hands the victim back. *)
Lemma relink_result pid (moved : bool) h b s b' s' :
  (do! (if moved then unlink b else ret tt) in
   do! (if moved then link_first h b else ret tt) in
   do! acquiresleep pid b in
   ret b) s = Ret b' s' ->
  b' = b /\ keeps_identity b s s'.
Proof.
  intros E. split.
  - apply bind_Ret_inv in E as (_ & s1 & _ & E).
    apply bind_Ret_inv in E as (_ & s2 & _ & E).
    apply bind_Ret_inv in E as (_ & s3 & _ & E).
    injection E as -> _. reflexivity.
  - pose proof (pres_relink (keeps_identity b) (keeps_identity_refl b)
                  (keeps_identity_trans b)
                  (fun f => forall y, valid (f y) = valid y /\ dev (f y) = dev y /\
                                      blockno (f y) = blockno y /\
                                      refcnt (f y) = refcnt y)
                  (fun s p x f Hf Hx => keeps_identity_put b s p x f Hf Hx)
                  ltac:(intros v y; repeat split)
                  ltac:(intros v y; repeat split)
                  ltac:(intros v y; repeat split)
                  pid moved h b s) as H.
    simpl in H. rewrite E in H. exact H.
Qed.

(** What the miss path returns: the victim, bound to the requested
    block, not valid, with one reference. *)
Lemma bget_miss_result pid d bn now fuel hashId h s b s' :
  bget_miss pid d bn now fuel hashId h s = Ret b s' ->
  exists st bb bb',
    find_victim fuel s = Ret st s /\ bMin st = b /\ b <> NULL /\
    get s b = Some bb /\ get s' b = Some bb' /\
    valid bb' = 0 /\ dev bb' = d /\ blockno bb' = bn /\ refcnt bb' = 1.
Proof.
  unfold bget_miss. intros E.
  apply bind_Ret_inv in E as (st & s0 & Hfind & E).
  pose proof (find_victim_state _ _ _ _ Hfind) as ->.
  destruct (decide (bMin st = NULL)) as [|Hnn]; [discriminate|].
  apply bind_Ret_inv in E as ([] & s1 & Hre & E).
  apply rebind_inv in Hre as (bb & Hbb & ->).
  apply relink_result in E as [-> Hkeep].
  destruct (Hkeep _ (get_put_eq s _ (rebound d bn now bb) bb Hbb))
    as (bb' & Hbb' & Hv & Hd & Hn & Hr).
  exists st, bb, bb'. repeat split; assumption.
Qed.

Lemma bget_miss_panic pid d bn now fuel hashId h s st :
  find_victim fuel s = Ret st s -> bMin st = NULL ->
  bget_miss pid d bn now fuel hashId h s = Panic "bget: no buffers".
Proof.
  intros Hfind Hn. unfold bget_miss, bind. rewrite Hfind.
  destruct (decide (bMin st = NULL)); [reflexivity | contradiction].
Qed.

Lemma find_victim_pool s L :
  pool s = Some L ->
  exists st, find_victim (nodes s) s = Ret st s /\
             same_choice st (fold_left (consider s) L no_victim).
Proof. intros HL. apply (scan_buckets_pool s _ no_victim L HL). Qed.

(** [bget] never talks to the device. *)
Lemma bget_same_device pid d bn now : preserves same_device (bget pid d bn now).
Proof.
  apply (pres_bget same_device) with (good := fun _ => True); try (intros; exact I).
  - intros s. split; reflexivity.
  - intros a b c [H1 H2] [H3 H4]. split; congruence.
  - intros s p b f _ _. split; [apply iolog_put | apply disk_put].
Qed.

Lemma get_logged s dk lg p :
  get (mkCache (bufs s) (head s) (buckets s) dk lg) p = get s p.
Proof. destruct p; reflexivity. Qed.

(** [bread] once [bget] has returned. *)
Lemma bread_valid pid d bn now s b s1 bb :
  bget pid d bn now s = Ret b s1 -> get s1 b = Some bb -> valid bb <> 0 ->
  bread pid d bn now s = Ret b s1.
Proof.
  intros E Hb Hv. unfold bread, bind. rewrite E, (deref_ok s1 b bb Hb).
  destruct (Z.eqb_spec (valid bb) 0); [contradiction | reflexivity].
Qed.

Lemma bread_invalid pid d bn now s b s1 bb :
  bget pid d bn now s = Ret b s1 -> get s1 b = Some bb -> valid bb = 0 ->
  exists s2 bb2,
    bread pid d bn now s = Ret b s2 /\
    iolog s2 = iolog s1 ++ [DiskRead (dev bb) (blockno bb)] /\
    get s2 b = Some bb2 /\ valid bb2 = 1 /\
    dev bb2 = dev bb /\ blockno bb2 = blockno bb.
Proof.
  intros E Hb Hv. unfold bread, bind. rewrite E, (deref_ok s1 b bb Hb).
  rewrite Hv. simpl. unfold bind, virtio_disk_rw. rewrite Hb.
  set (bb1 := set_data _ bb).
  set (s1' := put s1 b bb1).
  set (sv := mkCache (bufs s1') (head s1') (buckets s1') (disk s1')
                     (iolog s1' ++ [DiskRead (dev bb) (blockno bb)])).
  assert (Hsv : get sv b = Some bb1).
  { unfold sv. rewrite get_logged. apply (get_put_eq s1 b _ bb Hb). }
  rewrite (upd_ok sv b _ bb1 Hsv). unfold ret.
  exists (put sv b (set_valid 1 bb1)), (set_valid 1 bb1).
  split; [reflexivity|]. split.
  - rewrite iolog_put. unfold sv, s1'. simpl. rewrite iolog_put. reflexivity.
  - split; [apply (get_put_eq sv b _ bb1 Hsv)|]. repeat split.
Qed.

(** C8: when [bget] misses and no buffer of the pool has reference
    count 0, it panics with "bget: no buffers"; and whatever buffer
    [bget] returns after a miss had reference count 0. *)
Theorem bget_pool_exhausted (pid d bn now : Z) (s : bcache) (L : list (nat * ptr)) :
  miss d bn s -> pool s = Some L ->
  ((forall i p, (i, p) ∈ L -> ~ unreferenced s p) ->
     bget pid d bn now s = Panic "bget: no buffers") /\
  (forall b s', bget pid d bn now s = Ret b s' ->
                unreferenced s b /\ exists i, (i, b) ∈ L).
Proof.
  intros Hmiss HL.
  destruct (bget_on_miss pid d bn now s Hmiss) as [h ->].
  destruct (find_victim_pool s L HL) as (st & Hfind & Hsame & _).
  split.
  - intros Hnone. apply (bget_miss_panic _ _ _ _ _ _ _ _ st Hfind).
    rewrite Hsame, (fold_consider_none s L no_victim Hnone). reflexivity.
  - intros b s' E.
    apply bget_miss_result in E
      as (st' & bb & bb' & Hfind' & Hb & Hnn & _).
    rewrite Hfind in Hfind'. injection Hfind' as <-.
    destruct (fold_consider_unreferenced s L no_victim (or_introl eq_refl))
      as [Hmem Hun].
    rewrite <- Hsame, Hb in Hmem, Hun.
    split.
    + destruct Hun as [|Hun]; [contradiction | exact Hun].
    + destruct Hmem as [|Hmem]; [contradiction | exact Hmem].
Qed.

(** The choice of [bget] after a miss: the returned buffer is the least
    recently used unreferenced buffer of the whole pool, the first in
    scan order among equals; and the panic "bget: no buffers" occurs
    exactly when every unreferenced buffer carries the timestamp
    [2^32 - 1]. *)
Lemma bget_victim_lru pid d bn now s L :
  ticks_ok s -> miss d bn s -> pool s = Some L ->
  (forall b s', bget pid d bn now s = Ret b s' ->
                exists i, lru_first s L i b /\ stamp s b < 2 ^ 32 - 1) /\
  ((forall i p, (i, p) ∈ L -> unreferenced s p -> stamp s p = 2 ^ 32 - 1) ->
   bget pid d bn now s = Panic "bget: no buffers").
Proof.
  intros Hticks Hmiss HL.
  destruct (bget_on_miss pid d bn now s Hmiss) as [h ->].
  destruct (find_victim_pool s L HL) as (st & Hfind & Hsame & _).
  pose proof (fold_consider_lru s L Hticks _ eq_refl) as Hlru.
  rewrite <- Hsame in Hlru.
  split.
  - intros b s' E.
    apply bget_miss_result in E
      as (st' & bb & bb' & Hfind' & Hb & Hnn & _).
    rewrite Hfind in Hfind'. injection Hfind' as <-.
    destruct Hlru as [(Hn & _) | (i & Hi & _ & _ & Hlt)]; [congruence|].
    rewrite Hb in Hi, Hlt. exists i. split; assumption.
  - intros Hall. apply (bget_miss_panic _ _ _ _ _ _ _ _ st Hfind).
    destruct Hlru as [(Hn & _) | (i & Hi & _ & _ & Hlt)]; [exact Hn|].
    destruct Hi as (La & Lb & HLeq & Hu & _).
    rewrite (Hall i (bMin st)) in Hlt; [lia | | exact Hu].
    rewrite HLeq. apply elem_of_app. right. apply elem_of_cons. left.
    reflexivity.
Qed.

(** C10: [bread] asks the device for the block only if the buffer that
    [bget] returned is not valid, and then marks it valid; on a cached,
    valid binding it performs no I/O; after a miss the rebound buffer is
    read in exactly once. *)
Theorem bread_reads_once (pid d bn now : Z) (s : bcache) :
  (forall b s1 bb,
     bget pid d bn now s = Ret b s1 -> get s1 b = Some bb ->
     iolog s1 = iolog s /\
     (valid bb <> 0 -> bread pid d bn now s = Ret b s1) /\
     (valid bb = 0 ->
        exists s2 bb2,
          bread pid d bn now s = Ret b s2 /\
          iolog s2 = iolog s ++ [DiskRead (dev bb) (blockno bb)] /\
          get s2 b = Some bb2 /\ valid bb2 = 1)) /\
  (forall h b bb,
     bucket_ptr (haskBlock bn) s = Ret h s ->
     lookup (nodes s) h d bn s = Ret (Some b) s ->
     get s b = Some bb -> lock bb = None -> valid bb <> 0 ->
     exists s', bread pid d bn now s = Ret b s' /\ iolog s' = iolog s) /\
  (miss d bn s ->
   forall b s', bread pid d bn now s = Ret b s' ->
     iolog s' = iolog s ++ [DiskRead d bn] /\
     exists bb', get s' b = Some bb' /\ valid bb' = 1 /\
                 dev bb' = d /\ blockno bb' = bn).
Proof.
  assert (Hlog : forall b s1, bget pid d bn now s = Ret b s1 ->
                              iolog s1 = iolog s).
  { intros b s1 E. pose proof (bget_same_device pid d bn now s) as H.
    rewrite E in H. apply H. }
  split; [|split].
  - intros b s1 bb E Hb. split; [apply (Hlog b s1 E)|]. split.
    + apply (bread_valid pid d bn now s b s1 bb E Hb).
    + intros Hv.
      destruct (bread_invalid pid d bn now s b s1 bb E Hb Hv)
        as (s2 & bb2 & E2 & Hio & Hb2 & Hv2 & _).
      exists s2, bb2. rewrite (Hlog b s1 E) in Hio. repeat split; assumption.
  - intros h b bb Hh Hlook Hb Hfree Hv.
    pose proof (bget_on_hit pid d bn now s h b Hh Hlook) as E.
    rewrite (bget_hit_free pid b s bb Hb Hfree) in E.
    eexists. split.
    + apply (bread_valid pid d bn now s b _ _ E (get_put_eq s b _ bb Hb)).
      exact Hv.
    + apply iolog_put.
  - intros Hmiss b s' E.
    apply bind_Ret_inv in E as (b1 & s1 & Hget & E).
    pose proof Hget as Hget'.
    destruct (bget_on_miss pid d bn now s Hmiss) as [h Eb].
    rewrite Eb in Hget'.
    apply bget_miss_result in Hget'
      as (st & bb & bb1 & _ & _ & _ & _ & Hb1 & Hv & Hd & Hn & _).
    destruct (bread_invalid pid d bn now s b1 s1 bb1 Hget Hb1 Hv)
      as (s2 & bb2 & E2 & Hio & Hb2 & Hv2 & Hd2 & Hn2).
    assert (E' : bread pid d bn now s = Ret b s').
    { unfold bread, bind. rewrite Hget. exact E. }
    rewrite E2 in E'. injection E' as <- <-.
    rewrite (Hlog b1 s1 Hget), Hd, Hn in Hio. split; [exact Hio|].
    exists bb2. repeat split; congruence.
Qed.

(** ** Reference counts stay in range *)

Lemma refcnt_kept_refl s : refcnt_kept s s.
Proof. intros H. exact H. Qed.

Lemma refcnt_kept_trans a b c :
  refcnt_kept a b -> refcnt_kept b c -> refcnt_kept a c.
Proof. unfold refcnt_kept. auto. Qed.

Lemma refcnt_kept_put s p b f :
  refcnt_safe f -> get s p = Some b -> refcnt_kept s (put s p (f b)).
Proof.
  intros Hf Hb Hok q x Hx. destruct (decide (p = q)) as [<-|Hne].
  - rewrite (get_put_eq s p _ b Hb) in Hx. injection Hx as <-.
    apply Hf, (Hok p b Hb).
  - rewrite get_put_ne in Hx by exact Hne. apply (Hok q x Hx).
Qed.

Lemma refcnt_kept_driver s dk lg :
  refcnt_kept s (mkCache (bufs s) (head s) (buckets s) dk lg).
Proof. intros Hok q x Hx. rewrite get_logged in Hx. apply (Hok q x Hx). Qed.

Ltac refcnt_safe_goals :=
  try exact refcnt_kept_refl; try exact refcnt_kept_trans;
  try exact refcnt_kept_put; try exact refcnt_kept_driver;
  try (intros ? ? ?; simpl; assumption);
  try (intros ? ?; simpl; first [apply to_uint_range | lia]).

Lemma bget_refcnt pid d bn now : preserves refcnt_kept (bget pid d bn now).
Proof. apply (pres_bget refcnt_kept) with (good := refcnt_safe); refcnt_safe_goals. Qed.

Lemma bread_refcnt pid d bn now : preserves refcnt_kept (bread pid d bn now).
Proof. apply (pres_bread refcnt_kept) with (good := refcnt_safe); refcnt_safe_goals. Qed.

Lemma bwrite_refcnt pid b : preserves refcnt_kept (bwrite pid b).
Proof. apply (pres_bwrite refcnt_kept) with (good := refcnt_safe); refcnt_safe_goals. Qed.

Lemma brelse_refcnt pid b now : preserves refcnt_kept (brelse pid b now).
Proof. apply (pres_brelse refcnt_kept) with (good := refcnt_safe); refcnt_safe_goals. Qed.

Lemma bpin_refcnt b : preserves refcnt_kept (bpin b).
Proof. apply (pres_bpin refcnt_kept) with (good := refcnt_safe); refcnt_safe_goals. Qed.

Lemma bunpin_refcnt b : preserves refcnt_kept (bunpin b).
Proof. apply (pres_bunpin refcnt_kept) with (good := refcnt_safe); refcnt_safe_goals. Qed.

Lemma binit_refcnt now : preserves refcnt_kept (binit now).
Proof. apply (pres_binit refcnt_kept) with (good := refcnt_safe); refcnt_safe_goals. Qed.

Lemma left_by_refcnt {A} (m : bcache -> outcome bcache A) s s' :
  preserves refcnt_kept m -> left_by (m s) = Some s' ->
  refcnt_ok s -> refcnt_ok s'.
Proof.
  intros Hm E. specialize (Hm s).
  destruct (m s); simpl in E; try discriminate; injection E as <-; exact Hm.
Qed.

Lemma step_refcnt o s s' : step o s = Some s' -> refcnt_ok s -> refcnt_ok s'.
Proof.
  destruct o; simpl; apply left_by_refcnt.
  - apply bget_refcnt.
  - apply bread_refcnt.
  - apply bwrite_refcnt.
  - apply brelse_refcnt.
  - apply bpin_refcnt.
  - apply bunpin_refcnt.
Qed.

Lemma run_refcnt ops : forall s s',
  run ops s = Some s' -> refcnt_ok s -> refcnt_ok s'.
Proof.
  induction ops as [|o ops IH]; intros s s'; simpl.
  - intros [= <-] H. exact H.
  - destruct (step o s) as [s1|] eqn:E; [|discriminate].
    intros Hrun Hok. apply (IH s1 s' Hrun), (step_refcnt o s s1 E Hok).
Qed.

Lemma boot_get n p b : get (boot n) p = Some b -> b = zero_buf.
Proof.
  destruct p as [|i|i|]; unfold get, boot; cbn [bufs buckets head]; intros H.
  - discriminate.
  - apply lookup_replicate in H as [-> _]. reflexivity.
  - apply lookup_replicate in H as [-> _]. reflexivity.
  - congruence.
Qed.

Lemma boot_refcnt_ok n : refcnt_ok (boot n).
Proof. intros p b H. apply boot_get in H as ->. simpl. lia. Qed.

(** Whatever sequence of [bget], [bread], [bwrite], [brelse], [bpin] and
    [bunpin] calls follows [binit], the [refcnt] field of the model
    holds a [uint] value; a decrement at 0 wraps around to [2^32 - 1]. *)
Lemma refcnt_in_range (nbuf : nat) (now : Z) (ops : list op)
        (s0 s : bcache) (p : ptr) (b : buf) :
  binit now (boot nbuf) = Ret tt s0 ->
  run ops s0 = Some s ->
  get s p = Some b ->
  0 <= refcnt b < 2 ^ 32.
Proof.
  intros Hinit Hrun Hb.
  assert (H0 : refcnt_ok s0).
  { pose proof (binit_refcnt now (boot nbuf)) as H. rewrite Hinit in H.
    apply H, boot_refcnt_ok. }
  apply (run_refcnt ops s0 s Hrun H0 p b Hb).
Qed.

(** ** Initialization *)

Lemma get_put_if s p b b0 q :
  get s p = Some b0 ->
  get (put s p b) q = if decide (p = q) then Some b else get s q.
Proof.
  intros H. destruct (decide (p = q)) as [<-|Hne].
  - apply (get_put_eq s p b b0 H).
  - apply get_put_ne, Hne.
Qed.

Lemma length_bufs_put s p b : length (bufs (put s p b)) = length (bufs s).
Proof. destruct p; simpl; try reflexivity. apply length_insert. Qed.

Lemma length_buckets_put s p b :
  length (buckets (put s p b)) = length (buckets s).
Proof. destruct p; simpl; try reflexivity. apply length_insert. Qed.

(** One turn of the second loop of [binit], on a buffer whose block
    number is 0: the buffer is linked in right after the head of
    bucket 0. *)
Lemma binit_buf_effect now k s bk hd X x :
  get s (BUF k) = Some bk -> blockno bk = 0 ->
  get s (BUCKET 0) = Some hd -> next hd = X -> get s X = Some x ->
  X <> BUF k ->
  exists s', binit_buf now k s = Ret tt s' /\
    (forall q, next <$> get s' q
               = if decide (q = BUF k) then Some X
                 else if decide (q = BUCKET 0) then Some (BUF k)
                 else next <$> get s q) /\
    (forall q, blockno <$> get s' q = blockno <$> get s q) /\
    length (bufs s') = length (bufs s) /\
    length (buckets s') = length (buckets s).
Proof.
  intros Hbk Hbn Hhd Hnx Hx HX.
  set (b3 := set_lock None (set_prev (BUCKET 0) (set_next X bk))).
  set (s3 := put s (BUF k) b3).
  assert (G3 : forall q, get s3 q = if decide (BUF k = q) then Some b3
                                    else get s q)
    by (intros q; apply (get_put_if s _ _ bk), Hbk).
  set (s4 := put s3 X (set_prev (BUF k) x)).
  assert (H3X : get s3 X = Some x).
  { rewrite G3. destruct (decide (BUF k = X)); [congruence | exact Hx]. }
  assert (G4 : forall q, get s4 q = if decide (X = q)
                                    then Some (set_prev (BUF k) x)
                                    else get s3 q)
    by (intros q; apply (get_put_if s3 _ _ x), H3X).
  assert (H4h : exists hd4, get s4 (BUCKET 0) = Some hd4 /\
                            blockno hd4 = blockno hd).
  { rewrite G4. destruct (decide (X = BUCKET 0)) as [E|_].
    - exists (set_prev (BUF k) x). split; [reflexivity|].
      rewrite E in Hx. simpl. congruence.
    - exists hd. rewrite G3.
      destruct (decide (BUF k = BUCKET 0)); [discriminate|]. split; auto. }
  destruct H4h as (hd4 & H4h & Hbn4).
  set (s5 := put s4 (BUCKET 0) (set_next (BUF k) hd4)).
  assert (G5 : forall q, get s5 q = if decide (BUCKET 0 = q)
                                    then Some (set_next (BUF k) hd4)
                                    else get s4 q)
    by (intros q; apply (get_put_if s4 _ _ hd4), H4h).
  assert (H5k : get s5 (BUF k) = Some b3).
  { rewrite G5, G4, G3.
    destruct (decide (BUCKET 0 = BUF k)); [discriminate|].
    destruct (decide (X = BUF k)); [contradiction|].
    destruct (decide (BUF k = BUF k)); [reflexivity | contradiction]. }
  set (s6 := put s5 (BUF k) (set_ticks now b3)).
  assert (G6 : forall q, get s6 q = if decide (BUF k = q)
                                    then Some (set_ticks now b3)
                                    else get s5 q)
    by (intros q; apply (get_put_if s5 _ _ b3), H5k).
  exists s6. split; [|split; [|split; [|split]]].
  - unfold binit_buf, bind. rewrite (deref_ok s _ bk Hbk), Hbn.
    change (bucket_ptr (haskBlock 0) s) with (Ret (S := bcache) (BUCKET 0) s).
    cbv beta iota.
    rewrite (deref_ok s _ hd Hhd), Hnx.
    rewrite (upd_ok s _ _ bk Hbk).
    rewrite (upd_ok _ _ _ _ (get_put_eq s _ (set_next X bk) bk Hbk)).
    rewrite put_put.
    unfold initsleeplock.
    rewrite (upd_ok _ _ _ _
               (get_put_eq s _ (set_prev (BUCKET 0) (set_next X bk)) bk Hbk)).
    rewrite put_put. fold b3. fold s3.
    assert (H3h : get s3 (BUCKET 0) = Some hd).
    { rewrite G3. destruct (decide (BUF k = BUCKET 0)); [discriminate|].
      exact Hhd. }
    rewrite (deref_ok s3 _ hd H3h), Hnx.
    rewrite (upd_ok s3 _ _ x H3X). fold s4.
    rewrite (upd_ok s4 _ _ hd4 H4h). fold s5.
    rewrite (upd_ok s5 _ _ b3 H5k). reflexivity.
  - intros q. rewrite G6, G5, G4, G3.
    destruct (decide (q = BUF k)) as [->|Hq].
    + destruct (decide (BUF k = BUF k)); [reflexivity | contradiction].
    + destruct (decide (BUF k = q)); [congruence|].
      destruct (decide (q = BUCKET 0)) as [->|Hq0].
      * destruct (decide (BUCKET 0 = BUCKET 0)); [reflexivity | contradiction].
      * destruct (decide (BUCKET 0 = q)); [congruence|].
        destruct (decide (X = q)) as [<-|]; [|reflexivity].
        rewrite Hx. reflexivity.
  - intros q. rewrite G6, G5, G4, G3.
    destruct (decide (BUF k = q)) as [<-|Hq].
    + rewrite Hbk. reflexivity.
    + destruct (decide (BUCKET 0 = q)) as [<-|Hq0].
      * rewrite Hhd. simpl. congruence.
      * destruct (decide (X = q)) as [<-|]; [|reflexivity].
        rewrite Hx. reflexivity.
  - unfold s6, s5, s4, s3. rewrite !length_bufs_put. reflexivity.
  - unfold s6, s5, s4, s3. rewrite !length_buckets_put. reflexivity.
Qed.

Lemma fmap_Some_get {A} (f : buf -> A) s p a :
  f <$> get s p = Some a -> exists b, get s p = Some b /\ f b = a.
Proof.
  destruct (get s p) as [b|]; simpl; [|discriminate].
  intros [= <-]. exists b. split; reflexivity.
Qed.

(** The first loop of [binit] leaves every bucket empty. *)
Lemma binit_buckets_boot n :
  exists s1, binit_buckets (seq 0 (Z.to_nat NBUCKETS)) (boot n) = Ret tt s1 /\
             linked n 0 s1.
Proof.
  exists (mkCache (replicate n zero_buf) zero_buf
            (map (fun i => set_next (BUCKET i) (set_prev (BUCKET i) zero_buf))
                 (seq 0 (Z.to_nat NBUCKETS)))
            ∅ []).
  split; [reflexivity|].
  constructor.
  - apply length_replicate.
  - reflexivity.
  - intros j Hj. cbn [get bufs].
    rewrite (lookup_replicate_2 n zero_buf j Hj). reflexivity.
  - reflexivity.
  - intros j Hj. lia.
  - intros i Hi.
    unfold NBUCKETS in Hi.
    do 13 (destruct i as [|i]; [first [lia | reflexivity]|]).
    lia.
Qed.

(** The second loop links the buffers in one after the other. *)
Lemma binit_bufs_linked now n : forall m k s,
  (k + m = n)%nat -> linked n k s ->
  exists s', binit_bufs now (seq k m) s = Ret tt s' /\ linked n n s'.
Proof.
  induction m as [|m IH]; intros k s Hkm Hl.
  - exists s. split; [reflexivity|].
    assert (k = n) as <- by lia. exact Hl.
  - destruct Hl as [Hbufs Hbuckets Hblk Hhead Hnext Hempty].
    destruct (fmap_Some_get _ _ _ _ (Hblk k ltac:(lia))) as (bk & Hbk & Hbn).
    destruct (fmap_Some_get _ _ _ _ Hhead) as (hd & Hhd & Hnx).
    assert (HX : exists x, get s (first_linked k) = Some x).
    { destruct k as [|k']; simpl; [eauto|].
      destruct (fmap_Some_get _ _ _ _ (Hblk k' ltac:(lia))) as (x & Hx & _).
      eauto. }
    destruct HX as [x Hx].
    assert (Hne : first_linked k <> BUF k).
    { destruct k as [|k']; simpl; [discriminate|]. intros [= E]. lia. }
    destruct (binit_buf_effect now k s bk hd _ x Hbk Hbn Hhd Hnx Hx Hne)
      as (s1 & E1 & Gnext & Gblk & Glen1 & Glen2).
    destruct (IH (S k) s1 ltac:(lia)) as (s' & E' & Hl').
    + constructor.
      * congruence.
      * congruence.
      * intros j Hj. rewrite Gblk. apply Hblk, Hj.
      * rewrite Gnext.
        destruct (decide (BUCKET 0 = BUF k)); [discriminate|].
        destruct (decide (BUCKET 0 = BUCKET 0)); [reflexivity | contradiction].
      * intros j Hj. rewrite Gnext.
        destruct (decide (BUF j = BUF k)) as [[= ->]|Hjk]; [reflexivity|].
        destruct (decide (BUF j = BUCKET 0)); [discriminate|].
        apply Hnext. assert (j <> k) by congruence. lia.
      * intros i Hi. rewrite Gnext.
        destruct (decide (BUCKET i = BUF k)); [discriminate|].
        destruct (decide (BUCKET i = BUCKET 0)) as [[= ->]|]; [lia|].
        apply Hempty, Hi.
    + exists s'. split; [|exact Hl'].
      change (seq k (S m)) with (k :: seq (S k) m).
      cbn [binit_bufs]. unfold bind. rewrite E1. exact E'.
Qed.

Lemma binit_linked now n :
  exists s, binit now (boot n) = Ret tt s /\ linked n n s.
Proof.
  destruct (binit_buckets_boot n) as (s1 & E1 & Hl1).
  destruct (binit_bufs_linked now n n 0 s1 eq_refl Hl1) as (s & E & Hl).
  exists s. split; [|exact Hl].
  unfold binit, bind. rewrite E1.
  replace (length (bufs (boot n))) with n
    by (symmetry; apply length_replicate).
  exact E.
Qed.

(** Reading shard 0 of a fully linked pool. *)
Lemma chain_linked n s : linked n n s -> forall j fuel,
  (j <= n)%nat -> (j <= fuel)%nat ->
  chain fuel (BUCKET 0) (first_linked j) s = Some (map BUF (rev (seq 0 j))).
Proof.
  intros Hl. induction j as [|j IH]; intros fuel Hj Hf.
  - destruct fuel; reflexivity.
  - destruct fuel as [|fuel]; [lia|]. cbn [chain first_linked].
    destruct (decide (BUF j = BUCKET 0)); [discriminate|].
    destruct (fmap_Some_get _ _ _ _ (lk_next _ _ _ Hl j ltac:(lia)))
      as (b & Hb & Hnx).
    rewrite Hb, Hnx, (IH fuel) by lia.
    rewrite seq_S, rev_app_distr. reflexivity.
Qed.

(** C6 (amended): [binit] links every buffer at the head of the shard
    that the hash of its initial block number selects; the pool is
    zeroed storage, so that block number is 0 for every buffer, and all
    buffers end up in shard 0, the last one first, while the other
    twelve shards start empty. *)
Theorem binit_links_all_into_shard_zero (nbuf : nat) (now : Z) :
  exists s, binit now (boot nbuf) = Ret tt s /\
    shard s 0 = Some (map BUF (rev (seq 0 nbuf))) /\
    (forall i, (1 <= i < Z.to_nat NBUCKETS)%nat -> shard s i = Some []) /\
    (forall k bb, get (boot nbuf) (BUF k) = Some bb ->
                  haskBlock (blockno bb) = 0).
Proof.
  destruct (binit_linked now nbuf) as (s & E & Hl).
  exists s. split; [exact E|]. split; [|split].
  - unfold shard.
    destruct (fmap_Some_get _ _ _ _ (lk_head _ _ _ Hl)) as (hd & Hhd & Hnx).
    rewrite Hhd, Hnx. apply (chain_linked nbuf s Hl); [lia|].
    unfold nodes. rewrite (lk_bufs _ _ _ Hl). lia.
  - intros i Hi. unfold shard.
    destruct (fmap_Some_get _ _ _ _ (lk_empty _ _ _ Hl i Hi))
      as (hd & Hhd & Hnx).
    rewrite Hhd, Hnx. unfold nodes.
    replace (length (bufs s) + length (buckets s) + 1)%nat
      with (S (length (bufs s) + length (buckets s))) by lia.
    cbn [chain]. destruct (decide (BUCKET i = BUCKET i)); [reflexivity|].
    contradiction.
  - intros k bb Hbb. apply boot_get in Hbb as ->. reflexivity.
Qed.

(** ** Worked examples on the pool of three buffers *)

Lemma ex_binit : binit 0 (boot 3) = Ret tt ex_pool.
Proof. vm_compute. reflexivity. Defined.

(** After [binit] the three buffers sit in shard 0, last one first. *)
Example ex_pool_shards :
  pool ex_pool = Some [(0, BUF 2); (0, BUF 1); (0, BUF 0)]%nat.
Proof. vm_compute. reflexivity. Qed.

(** A miss takes the first unreferenced buffer of the scan with the
    smallest timestamp and moves it to the shard of the new block. *)
Example ex_first_miss :
  bread 7 1 1 5 ex_pool = Ret (BUF 2) ex_read /\
  pool ex_read = Some [(0, BUF 1); (0, BUF 0); (1, BUF 2)]%nat /\
  iolog ex_read = [DiskRead 1 1].
Proof.
  split; [vm_compute; reflexivity|]. split; vm_compute; reflexivity.
Qed.

(** C6, as stated, fails: [binit] on a pool of three buffers puts all of
    them into shard 0; buffer 1 is not in shard 1, which is empty. *)
Lemma binit_not_round_robin :
  binit 0 (boot 3) = Ret tt ex_pool /\
  shard ex_pool 0 = Some [BUF 2; BUF 1; BUF 0] /\
  shard ex_pool 1 = Some [] /\
  ~ spec_round_robin ex_pool.
Proof.
  split; [exact ex_binit|].
  split; [vm_compute; reflexivity|].
  split; [vm_compute; reflexivity|].
  intros H. destruct (H 1%nat) as (l & Hl & Hin).
  - vm_compute. lia.
  - vm_compute in Hl. injection Hl as <-.
    apply elem_of_nil in Hin. exact Hin.
Qed.

Lemma binit_links_all_into_shard_zero_witness :
  shard ex_pool 0 = Some [BUF 2; BUF 1; BUF 0] /\
  shard ex_pool 12 = Some [].
Proof.
  destruct (binit_links_all_into_shard_zero 3 0) as (s & E & H0 & Hrest & _).
  rewrite ex_binit in E. injection E as <-.
  split; [exact H0|]. apply Hrest. unfold NBUCKETS. lia.
Defined.

(** C1 (failing input): all three buffers of the pool are unreferenced
    and were released at tick [2^32 - 1]; the next miss finds no victim
    and panics although the least recently used unreferenced buffer
    exists. *)
Theorem bget_passes_over_max_stamp :
  pool ex_stale = Some [(1, BUF 2); (2, BUF 1); (3, BUF 0)]%nat /\
  Forall (fun p => unreferenced ex_stale p /\ stamp ex_stale p = 2 ^ 32 - 1)
         [BUF 2; BUF 1; BUF 0] /\
  miss 1 4 ex_stale /\
  bget 9 1 4 0 ex_stale = Panic "bget: no buffers".
Proof.
  split; [vm_compute; reflexivity|]. split; [|split].
  - assert (H : forall p, returned (deref p ex_stale) = true ->
                 refcnt (default zero_buf (get ex_stale p)) = 0 ->
                 unreferenced ex_stale p).
    { intros p Hp H0. unfold deref, gets_opt in Hp.
      destruct (get ex_stale p) as [b|] eqn:E; [|discriminate].
      exists b. split; [exact E | exact H0]. }
    constructor; [|constructor; [|constructor; [|constructor]]];
      (split; [apply H; vm_compute; reflexivity | vm_compute; reflexivity]).
  - exists (BUCKET 4). split; vm_compute; reflexivity.
  - vm_compute. reflexivity.
Qed.

Lemma brelse_effect_witness :
  exists bb s' bb',
    get ex_read (BUF 2) = Some bb /\ lock bb = Some 7 /\
    brelse 7 (BUF 2) 9 ex_read = Ret tt s' /\ get s' (BUF 2) = Some bb' /\
    refcnt bb' = 0 /\ ticks bb' = 9 /\
    chain 5 (BUCKET 1) (BUF 2) s' = Some [BUF 2].
Proof.
  set (bb := default zero_buf (get ex_read (BUF 2))).
  assert (Hb : get ex_read (BUF 2) = Some bb) by (vm_compute; reflexivity).
  assert (Hl : lock bb = Some 7) by (vm_compute; reflexivity).
  assert (Hbn : 0 <= blockno bb < 2 ^ 31)
    by (vm_compute; split; [intros E; discriminate E | reflexivity]).
  destruct (brelse_effect 7 (BUF 2) 9 ex_read bb Hb Hl Hbn)
    as (s' & bb' & E & Hb' & Hr & Ht & _ & _ & _ & _ & _ & _ & _ & _ & Hch).
  exists bb, s', bb'.
  assert (Hr0 : refcnt bb' = 0) by (rewrite Hr; vm_compute; reflexivity).
  split; [exact Hb|]. split; [exact Hl|]. split; [exact E|].
  split; [exact Hb'|]. split; [exact Hr0|]. split; [exact (Ht Hr0)|].
  rewrite Hch. vm_compute. reflexivity.
Defined.

Lemma sleep_lock_required_witness :
  exists bb,
    get ex_read (BUF 2) = Some bb /\ lock bb = Some 7 /\
    bwrite 8 (BUF 2) ex_read = Panic "bwrite" /\
    brelse 8 (BUF 2) 9 ex_read = Panic "brelse" /\
    bwrite 7 (BUF 2) ex_read = Ret tt (written ex_read bb) /\
    exists s' bb', brelse 7 (BUF 2) 9 ex_read = Ret tt s' /\
                   get s' (BUF 2) = Some bb' /\ lock bb' = None.
Proof.
  set (bb := default zero_buf (get ex_read (BUF 2))).
  assert (Hb : get ex_read (BUF 2) = Some bb) by (vm_compute; reflexivity).
  assert (Hl : lock bb = Some 7) by (vm_compute; reflexivity).
  assert (Hl8 : lock bb <> Some 8) by (rewrite Hl; intros E; discriminate E).
  assert (Hbn : 0 <= blockno bb < 2 ^ 31)
    by (vm_compute; split; [intros E; discriminate E | reflexivity]).
  destruct (sleep_lock_required 8 (BUF 2) 9 ex_read bb Hb) as [Hno _].
  destruct (sleep_lock_required 7 (BUF 2) 9 ex_read bb Hb) as [_ Hyes].
  destruct (Hno Hl8) as [Hw8 Hr8].
  destruct (Hyes Hl) as (Hw7 & _ & Hr7).
  destruct (Hr7 Hbn) as (s' & bb' & E & Hb' & Hl' & _).
  exists bb. split; [exact Hb|]. split; [exact Hl|]. split; [exact Hw8|].
  split; [exact Hr8|]. split; [exact Hw7|].
  exists s', bb'. split; [exact E|]. split; [exact Hb' | exact Hl'].
Defined.

Lemma bget_pool_exhausted_witness :
  miss 1 4 ex_held /\
  pool ex_held = Some [(1, BUF 2); (2, BUF 1); (3, BUF 0)]%nat /\
  bget 8 1 4 6 ex_held = Panic "bget: no buffers".
Proof.
  assert (Hmiss : miss 1 4 ex_held)
    by (exists (BUCKET 4); split; vm_compute; reflexivity).
  assert (HL : pool ex_held = Some [(1, BUF 2); (2, BUF 1); (3, BUF 0)]%nat)
    by (vm_compute; reflexivity).
  split; [exact Hmiss|]. split; [exact HL|].
  destruct (bget_pool_exhausted 8 1 4 6 ex_held _ Hmiss HL) as [Hpanic _].
  apply Hpanic. intros i p Hin (b & Hb & H0).
  assert (Hone : refcnt (default zero_buf (get ex_held p)) = 1).
  { repeat (apply elem_of_cons in Hin as [Hin|Hin];
            [injection Hin as -> ->; vm_compute; reflexivity|]).
    apply elem_of_nil in Hin. contradiction. }
  rewrite Hb in Hone. simpl in Hone. rewrite H0 in Hone. discriminate Hone.
Defined.

Lemma bread_reads_once_witness :
  miss 1 1 ex_pool /\
  bread 7 1 1 5 ex_pool = Ret (BUF 2) ex_read /\
  iolog ex_read = iolog ex_pool ++ [DiskRead 1 1] /\
  exists s', bread 8 1 1 12 ex_released = Ret (BUF 2) s' /\
             iolog s' = iolog ex_released.
Proof.
  assert (Hmiss : miss 1 1 ex_pool)
    by (exists (BUCKET 1); split; vm_compute; reflexivity).
  assert (Hread : bread 7 1 1 5 ex_pool = Ret (BUF 2) ex_read)
    by (vm_compute; reflexivity).
  destruct (bread_reads_once 7 1 1 5 ex_pool) as (_ & _ & Hrebound).
  destruct (Hrebound Hmiss (BUF 2) ex_read Hread) as [Hio _].
  split; [exact Hmiss|]. split; [exact Hread|]. split; [exact Hio|].
  destruct (bread_reads_once 8 1 1 12 ex_released) as (_ & Hcached & _).
  set (bb := default zero_buf (get ex_released (BUF 2))).
  apply (Hcached (BUCKET 1) (BUF 2) bb).
  - vm_compute. reflexivity.
  - vm_compute. reflexivity.
  - vm_compute. reflexivity.
  - vm_compute. reflexivity.
  - vm_compute. intros E. discriminate E.
Defined.

End BioProofs.

(** * The per-shard variant on the pool of three buffers *)

Module BioLocalProofs.
Import Bio.

(** [brelse] of [kernel/bio.c] leaves the timestamp alone and relinks
    the buffer; its [next] link is taken from [bcache.head], which
    [binit] never sets up, and ends up null. *)
Example local_brelse_relinks :
  let s := after (BioLocal.brelse 7 (BUF 2)) ex_read in
  returned (BioLocal.brelse 7 (BUF 2) ex_read) = true /\
  (ticks <$> get ex_read (BUF 2) = Some 5 /\
   ticks <$> get s (BUF 2) = Some 5) /\
  (next <$> get ex_read (BUF 2) = Some (BUCKET 1) /\
   next <$> get s (BUF 2) = Some NULL) /\
  shard s 1 = None.
Proof.
  split; [vm_compute; reflexivity|].
  split; [split; vm_compute; reflexivity|].
  split; [split; vm_compute; reflexivity|].
  vm_compute. reflexivity.
Qed.

(** The victim search of [kernel/bio.c] compares with the timestamp of
    the bucket head first, which is 0: among buffers never used it
    takes the last one met, and once every unreferenced buffer carries
    a timestamp above 0 it finds none. *)
Example local_bget_victims :
  value_of (BioLocal.bget 7 1 1 5 ex_pool) = Some (BUF 0) /\
  value_of (bget 7 1 1 5 ex_pool) = Some (BUF 2) /\
  unreferenced ex_released (BUF 2) /\
  BioLocal.bget 8 1 14 12
    (after (bread 7 1 3 5) (after (bread 7 1 2 5) ex_released))
  = Panic "bget: no buffers".
Proof.
  split; [vm_compute; reflexivity|].
  split; [vm_compute; reflexivity|].
  split.
  - exists (default zero_buf (get ex_released (BUF 2))).
    split; vm_compute; reflexivity.
  - vm_compute. reflexivity.
Qed.

End BioLocalProofs.

(** * Further properties of the page allocator *)

Module KallocExtProofs.
Import Kalloc KallocProofs KallocExt.

Lemma to_int_add_idemp x y : to_int (to_int x + y) = to_int (x + y).
Proof.
  unfold to_int.
  replace ((x + 2 ^ 31) mod 2 ^ 32 - 2 ^ 31 + y + 2 ^ 31)
    with ((x + 2 ^ 31) mod 2 ^ 32 + y) by lia.
  rewrite Zplus_mod_idemp_l. f_equal. f_equal. lia.
Qed.

Lemma set_ref_set_ref s n x y : set_ref (set_ref s n x) n y = set_ref s n y.
Proof. unfold set_ref; simpl. rewrite list_insert_insert_eq. reflexivity. Qed.

Lemma set_ref_same s n c : ref_at s n = Some c -> set_ref s n c = s.
Proof.
  unfold ref_at, set_ref. destruct (0 <=? n); [|discriminate].
  intros H. rewrite (list_insert_id _ _ _ H). destruct s; reflexivity.
Qed.

(** X1: Two adjustments of a count by [increref] amount to one adjustment
    by the sum of the deltas, in [int] arithmetic; so an adjustment
    followed by the opposite one gives back the count and leaves the
    state as it was. *)
Theorem increref_compose (pa a b : Z) (s : kstate) :
  bind (increref pa a) (fun _ => increref pa b) s = increref pa (a + b) s /\
  (forall c, ref_at s (to_int (pa / PGSIZE)) = Some c ->
             - 2 ^ 31 <= c < 2 ^ 31 ->
             bind (increref pa a) (fun _ => increref pa (- a)) s = Ret c s).
Proof.
  assert (Hcomp : forall b', bind (increref pa a) (fun _ => increref pa b') s
                             = increref pa (a + b') s).
  { intros b'. unfold bind, increref.
    destruct (ref_at s (to_int (pa / PGSIZE))) as [c|] eqn:Hc; [|reflexivity].
    rewrite (ref_at_set_ref_eq s _ _ c Hc).
    rewrite set_ref_set_ref, to_int_add_idemp.
    replace (c + a + b') with (c + (a + b')) by lia. reflexivity. }
  split; [apply Hcomp|].
  intros c Hc Hrange. rewrite Hcomp. unfold increref. rewrite Hc.
  replace (c + (a + - a)) with c by lia.
  rewrite (to_int_id c Hrange), (set_ref_same s _ c Hc). reflexivity.
Qed.

Lemma increref_compose_witness :
  ref_at ex_init (to_int (frameD / PGSIZE)) = Some 0 /\
  bind (increref frameD 3) (fun _ => increref frameD (- 3)) ex_init
  = Ret 0 ex_init.
Proof.
  assert (H : ref_at ex_init (to_int (frameD / PGSIZE)) = Some 0)
    by (vm_compute; reflexivity).
  split; [exact H|].
  destruct (increref_compose frameD 3 0 ex_init) as [_ Hundo].
  apply (Hundo 0 H). lia.
Defined.

(** ** What [kfree] computes on a valid frame *)

Section Layout.

Variables kend PHYSTOP : Z.
Hypothesis Hlayout : layout_ok kend PHYSTOP.

Local Abbreviation kinv := (Kalloc.kinv kend PHYSTOP).
Local Abbreviation kfree := (Kalloc.kfree kend PHYSTOP).
Local Abbreviation run := (Kalloc.run kend PHYSTOP).

Lemma kfree_unfold s pa c :
  pa mod PGSIZE = 0 -> kend <= pa < PHYSTOP ->
  ref_at s (pa / PGSIZE) = Some c ->
  kfree pa s =
  (if c <=? 0 then Panic ref_panic_msg
   else if 0 <? c - 1 then Ret tt (set_ref s (pa / PGSIZE) (c - 1))
   else Ret tt (mkK pa (ref (set_ref s (pa / PGSIZE) (c - 1)))
                    (store64 (memset (mem s) pa 1 PGSIZE) pa (freelist s)))).
Proof.
  intros Hal Hrng Hc. unfold Kalloc.kfree.
  destruct (Z.eqb_spec (pa mod PGSIZE) 0) as [_|]; [|contradiction].
  destruct (Z.ltb_spec pa kend) as [|_]; [lia|].
  destruct (Z.leb_spec PHYSTOP pa) as [|_]; [lia|]. simpl.
  destruct (frame_in_range kend PHYSTOP Hlayout pa Hrng) as [_ ->].
  rewrite Hc. reflexivity.
Qed.

Lemma reachable_kinv s : reachable kend PHYSTOP s -> exists l, kinv s l.
Proof.
  intros (m & ops & s0 & Hinit & Hd & Hrun).
  destruct (kinit_kinv kend PHYSTOP Hlayout m) as (s0' & l0 & E & Hinv0).
  rewrite E in Hinit. injection Hinit as ->.
  apply (run_kinv kend PHYSTOP Hlayout ops s0 l0 s Hinv0 Hd Hrun).
Qed.

Lemma kinv_on_freelist s l p :
  kinv s l -> on_freelist (mem s) (freelist s) p <-> p ∈ l.
Proof.
  intros Hinv. pose proof (inv_list _ _ _ _ Hinv) as Hl. split.
  - apply (on_freelist_lseg _ _ _ _ Hl).
  - apply (lseg_on_freelist _ _ _ _ Hl).
Qed.

Lemma kfree_on_list s l pa :
  kinv s l -> pa ∈ l -> kfree pa s = Panic ref_panic_msg.
Proof.
  intros Hinv Hin.
  destruct (inv_frames _ _ _ _ Hinv pa Hin) as (Hrng & Hal & H0).
  rewrite (kfree_unfold s pa 0 Hal Hrng H0). reflexivity.
Qed.

Lemma kfree_last s pa :
  pa mod PGSIZE = 0 -> kend <= pa < PHYSTOP ->
  ref_at s (pa / PGSIZE) = Some 1 ->
  kfree pa s
  = Ret tt (mkK pa (ref (set_ref s (pa / PGSIZE) 0))
                (store64 (memset (mem s) pa 1 PGSIZE) pa (freelist s))).
Proof.
  intros Hal Hrng H1. rewrite (kfree_unfold s pa 1 Hal Hrng H1). reflexivity.
Qed.

Lemma kalloc_head s r l' :
  kinv s (r :: l') ->
  exists s', kalloc s = Ret r s' /\ r <> 0 /\ freelist s = r /\ kinv s' l' /\
             ref s' = ref (set_ref s (r / PGSIZE) 1) /\
             ref_at s (r / PGSIZE) = Some 0 /\
             kend <= r < PHYSTOP /\ r mod PGSIZE = 0 /\ r ∉ l'.
Proof.
  intros Hinv.
  destruct (kalloc_kinv kend PHYSTOP Hlayout s _ Hinv)
    as [[Hnil _] | (r0 & l0 & s' & Hl & Hr & E & Hinv' & _)]; [discriminate|].
  injection Hl as <- <-.
  exists s'. split; [exact E|]. split; [exact Hr|].
  pose proof (inv_list _ _ _ _ Hinv) as Hl. simpl in Hl.
  destruct Hl as (Hhd & _ & _).
  destruct (inv_frames _ _ _ _ Hinv r) as (Hrng & Hal & H0);
    [apply elem_of_cons; left; reflexivity|].
  pose proof (inv_nodup _ _ _ _ Hinv) as Hnd.
  apply NoDup_cons in Hnd as [Hnin _].
  split; [exact Hhd|]. split; [exact Hinv'|].
  split; [|auto].
  unfold kalloc in E. rewrite Hhd in E.
  destruct (Z.eqb_spec r 0) as [|_]; [contradiction|].
  destruct (frame_in_range kend PHYSTOP Hlayout r Hrng) as [_ Hidx].
  rewrite Hidx in E.
  change (ref_at (set_freelist s (load64 (mem s) r)) (r / PGSIZE))
    with (ref_at s (r / PGSIZE)) in E.
  rewrite H0 in E. cbn [Z.eqb negb] in E. injection E as <-. reflexivity.
Qed.

Lemma ref_at_ref s s' n : ref s' = ref s -> ref_at s' n = ref_at s n.
Proof. intros H. unfold ref_at. rewrite H. reflexivity. Qed.

(** X2: A second [kfree] of a frame is caught: a frame on the free list has
    count 0 and [kfree] panics on it; in particular the [kfree] that
    follows the [kfree] of the last reference panics. *)
Theorem double_free_panics (s : kstate) (pa : Z) :
  reachable kend PHYSTOP s ->
  (on_freelist (mem s) (freelist s) pa ->
   kfree pa s = Panic ref_panic_msg) /\
  (forall s1, ref_at s (pa / PGSIZE) = Some 1 -> kfree pa s = Ret tt s1 ->
              kfree pa s1 = Panic ref_panic_msg).
Proof.
  intros Hreach. destruct (reachable_kinv s Hreach) as [l Hinv].
  split.
  - intros Hon. apply (kfree_on_list s l pa Hinv).
    apply (kinv_on_freelist s l pa Hinv), Hon.
  - intros s1 H1 E.
    destruct (kfree_kinv kend PHYSTOP Hlayout s l pa s1 Hinv E)
      as (c & Hc & [[Hgt _] | (_ & _ & Hinv1)]).
    + rewrite H1 in Hc. injection Hc as <-. lia.
    + apply (kfree_on_list s1 (pa :: l) pa Hinv1).
      apply elem_of_cons. left. reflexivity.
Qed.

(** ** The sweep of [freerange] *)

Lemma frames_from_S p n :
  frames_from p (S n) = p :: frames_from (p + PGSIZE) n.
Proof.
  unfold frames_from. rewrite <- cons_seq, <- seq_shift. simpl.
  rewrite map_map. f_equal; [unfold PGSIZE; lia|].
  apply map_ext. intros k. unfold PGSIZE. lia.
Qed.

Lemma sweep_count p pa_end :
  p + PGSIZE <= pa_end ->
  Z.to_nat ((pa_end - p) / PGSIZE)
  = S (Z.to_nat ((pa_end - (p + PGSIZE)) / PGSIZE)).
Proof.
  intros H. unfold PGSIZE in *.
  replace (pa_end - p) with (pa_end - (p + 4096) + 1 * 4096) by lia.
  rewrite Z.div_add by lia.
  assert (0 <= (pa_end - (p + 4096)) / 4096) by (apply Z.div_pos; lia).
  lia.
Qed.

Lemma freerange_loop_list fuel pa_end : forall p s l,
  kinv s l -> all_unreferenced s ->
  p mod PGSIZE = 0 -> kend <= p -> pa_end <= PHYSTOP ->
  (forall q, q ∈ l -> q < p) ->
  pa_end - p < PGSIZE * (Z.of_nat fuel + 1) ->
  exists s', freerange_loop kend PHYSTOP fuel p pa_end s = Ret tt s' /\
    kinv s' (rev (frames_from p (Z.to_nat ((pa_end - p) / PGSIZE))) ++ l) /\
    all_unreferenced s'.
Proof.
  induction fuel as [|fuel IH]; intros p s l Hinv Hzero Hal Hlo Hhi Hbelow Hfuel.
  - simpl. destruct (Z.leb_spec (p + PGSIZE) pa_end) as [|Hstop];
      [unfold PGSIZE in *; lia|].
    exists s. split; [reflexivity|].
    replace (Z.to_nat ((pa_end - p) / PGSIZE)) with 0%nat; [auto|].
    unfold PGSIZE in *. symmetry.
    assert ((pa_end - p) / 4096 < 1) by (apply Z.div_lt_upper_bound; lia).
    lia.
  - cbn [freerange_loop].
    destruct (Z.leb_spec (p + PGSIZE) pa_end) as [Hgo|Hstop].
    2:{ exists s. split; [reflexivity|].
        replace (Z.to_nat ((pa_end - p) / PGSIZE)) with 0%nat; [auto|].
        unfold PGSIZE in *. symmetry.
        assert ((pa_end - p) / 4096 < 1) by (apply Z.div_lt_upper_bound; lia).
        lia. }
    assert (Hrng : kend <= p < PHYSTOP) by (unfold PGSIZE in *; lia).
    destruct (frame_count kend PHYSTOP Hlayout s p
                (inv_len _ _ _ _ Hinv) Hrng) as [c Hc].
    rewrite Hc.
    assert (Hfresh : forall q, q ∈ l -> q / PGSIZE <> p / PGSIZE).
    { intros q Hq E. destruct (inv_frames _ _ _ _ Hinv q Hq) as (_ & Hqal & _).
      apply page_index_inj in E; [|assumption..]. apply Hbelow in Hq. lia. }
    pose proof (kinv_set_ref kend PHYSTOP s l (p / PGSIZE) 1 c Hinv Hc Hfresh
                  ltac:(lia)) as Hinv1.
    pose proof (ref_at_set_ref_eq s (p / PGSIZE) 1 c Hc) as Hc1.
    pose proof (kfree_last (set_ref s (p / PGSIZE) 1) p Hal Hrng Hc1) as E.
    rewrite E.
    destruct (kfree_kinv kend PHYSTOP Hlayout _ l p _ Hinv1 E)
      as (c2 & Hc2 & Hcase).
    rewrite Hc1 in Hc2. injection Hc2 as <-.
    destruct Hcase as [[? _] | (_ & _ & Hinv2)]; [lia|].
    rewrite (sweep_count p pa_end Hgo), frames_from_S. simpl.
    rewrite <- app_assoc. simpl.
    apply (IH (p + PGSIZE) _ (p :: l) Hinv2).
    + intros n c' Hn. rewrite set_ref_set_ref in Hn.
      change (ref_at (set_ref s (p / PGSIZE) 0) n = Some c') in Hn.
      destruct (Z.eq_dec (p / PGSIZE) n) as [<-|Hne].
      * rewrite (ref_at_set_ref_eq s _ 0 c Hc) in Hn. congruence.
      * rewrite ref_at_set_ref_ne in Hn;
          [apply (Hzero n c' Hn) | apply (ref_at_nonneg _ _ _ Hc) | exact Hne].
    + rewrite <- Zplus_mod_idemp_l, Hal. reflexivity.
    + unfold PGSIZE. lia.
    + exact Hhi.
    + intros q Hq. apply elem_of_cons in Hq as [-> | Hq].
      * unfold PGSIZE. lia.
      * apply Hbelow in Hq. unfold PGSIZE. lia.
    + unfold PGSIZE in *. lia.
Qed.

Lemma boot_unreferenced m : all_unreferenced (boot PHYSTOP m).
Proof.
  intros n c. unfold ref_at; simpl.
  destruct (0 <=? n); [|discriminate].
  intros H. apply lookup_replicate in H as [-> _]. reflexivity.
Qed.

Lemma kinit_state m :
  exists s0, kinit kend PHYSTOP (boot PHYSTOP m) = Ret tt s0 /\
             kinv s0 (swept kend PHYSTOP) /\ all_unreferenced s0.
Proof.
  unfold kinit, freerange, swept.
  destruct (freerange_loop_list
              (Z.to_nat ((PHYSTOP - kend) / PGSIZE)) PHYSTOP (PGROUNDUP kend)
              (boot PHYSTOP m) [] (kinv_boot kend PHYSTOP m)
              (boot_unreferenced m) (PGROUNDUP_aligned kend)
              (PGROUNDUP_ge kend) ltac:(lia))
    as (s0 & E & Hinv & Hzero).
  - intros q Hq. apply elem_of_nil in Hq. contradiction.
  - pose proof (PGROUNDUP_ge kend).
    destruct (Z_lt_le_dec (PHYSTOP - kend) 0).
    + unfold PGSIZE. lia.
    + rewrite Z2Nat.id by (apply Z.div_pos; unfold PGSIZE; lia).
      pose proof (Z.div_mod (PHYSTOP - kend) PGSIZE ltac:(unfold PGSIZE; lia)).
      pose proof (Z.mod_pos_bound (PHYSTOP - kend) PGSIZE
                    ltac:(unfold PGSIZE; lia)).
      lia.
  - exists s0. rewrite app_nil_r in Hinv. auto.
Qed.

Lemma elem_of_frames_from p n q :
  q ∈ frames_from p n <->
  exists k, (k < n)%nat /\ q = p + PGSIZE * Z.of_nat k.
Proof.
  unfold frames_from. rewrite list_elem_of_fmap. split.
  - intros (k & -> & Hk). apply elem_of_seq in Hk. exists k. split; [lia|].
    reflexivity.
  - intros (k & Hk & ->). exists k. split; [reflexivity|].
    apply elem_of_seq. lia.
Qed.

Lemma elem_of_swept q :
  q ∈ swept kend PHYSTOP <->
  q mod PGSIZE = 0 /\ kend <= q /\ q + PGSIZE <= PHYSTOP.
Proof.
  unfold swept.
  rewrite list_elem_of_In, <- in_rev, <- list_elem_of_In.
  rewrite elem_of_frames_from.
  pose proof (PGROUNDUP_ge kend) as Hge.
  pose proof (PGROUNDUP_aligned kend) as Hal0.
  set (p0 := PGROUNDUP kend) in *.
  assert (Hp0 : p0 < kend + PGSIZE).
  { unfold p0, PGROUNDUP, PGSIZE.
    pose proof (Z.div_mod (kend + 4096 - 1) 4096 ltac:(lia)).
    pose proof (Z.mod_pos_bound (kend + 4096 - 1) 4096 ltac:(lia)). lia. }
  split.
  + intros (k & Hk & ->).
    assert (Hk' : Z.of_nat k < (PHYSTOP - p0) / PGSIZE) by lia.
    assert (Z.of_nat k + 1 <= (PHYSTOP - p0) / PGSIZE) by lia.
    assert (PGSIZE * (Z.of_nat k + 1) <= PHYSTOP - p0).
    { pose proof (Z.mul_div_le (PHYSTOP - p0) PGSIZE ltac:(unfold PGSIZE; lia)).
      unfold PGSIZE in *. nia. }
    split; [|unfold PGSIZE in *; lia].
    replace (p0 + PGSIZE * Z.of_nat k) with (p0 + Z.of_nat k * PGSIZE) by lia.
    rewrite Z.mod_add by (unfold PGSIZE; lia).
    exact Hal0.
  + intros (Hal & Hlo & Hhi).
    pose proof (page_base q Hal) as Hq. pose proof (page_base p0 Hal0) as Hp.
    assert (Hle : p0 <= q) by (unfold PGSIZE in *; lia).
    exists (Z.to_nat (q / PGSIZE - p0 / PGSIZE)). split.
    * apply Z2Nat.inj_lt; [unfold PGSIZE in *; lia|
                           apply Z.div_pos; unfold PGSIZE in *; lia|].
      assert (q / PGSIZE - p0 / PGSIZE + 1 <= (PHYSTOP - p0) / PGSIZE)
        by (apply Z.div_le_lower_bound; unfold PGSIZE in *; lia).
      lia.
    * rewrite Z2Nat.id by (unfold PGSIZE in *; lia).
      unfold PGSIZE in *. lia.
Qed.

(** X3: [kinit] returns and leaves on the free list exactly the page-aligned
    frames that lie whole between the end of the kernel image and
    [PHYSTOP], the highest address first, with every count at 0. *)
Theorem kinit_free_list (m : memory) :
  exists s0, kinit kend PHYSTOP (boot PHYSTOP m) = Ret tt s0 /\
    lseg (mem s0) (freelist s0) (swept kend PHYSTOP) /\
    all_unreferenced s0 /\
    (forall q, q ∈ swept kend PHYSTOP <->
               q mod PGSIZE = 0 /\ kend <= q /\ q + PGSIZE <= PHYSTOP) /\
    (forall l1 a b l2, swept kend PHYSTOP = l1 ++ a :: b :: l2 ->
                       a = b + PGSIZE).
Proof.
  destruct (kinit_state m) as (s0 & E & Hinv & Hzero).
  exists s0. split; [exact E|]. split; [apply (inv_list _ _ _ _ Hinv)|].
  split; [exact Hzero|]. split.
  - apply elem_of_swept.
  - intros l1 a b l2 Hsplit. unfold swept in Hsplit.
    apply (f_equal (@rev Z)) in Hsplit. rewrite rev_involutive in Hsplit.
    rewrite rev_app_distr in Hsplit. simpl in Hsplit.
    rewrite <- !app_assoc in Hsplit. simpl in Hsplit.
    revert Hsplit. generalize (rev l2) as pre. generalize (rev l1) as post.
    generalize (Z.to_nat ((PHYSTOP - PGROUNDUP kend) / PGSIZE)) as n.
    generalize (PGROUNDUP kend) as p.
    intros p n. revert p.
    induction n as [|n IH]; intros p post pre Hsplit.
    + destruct pre; discriminate.
    + rewrite frames_from_S in Hsplit.
      destruct pre as [|x pre]; simpl in Hsplit.
      * injection Hsplit as -> Hrest.
        destruct n as [|n]; [discriminate|].
        rewrite frames_from_S in Hrest. injection Hrest as -> _. reflexivity.
      * injection Hsplit as _ Hrest. apply (IH _ _ _ Hrest).
Qed.

(** ** Allocation and release *)

(** X4: [kalloc] never panics in use: it returns null exactly when the free
    list is empty, and otherwise the head of the free list, a
    page-aligned frame of the managed range whose count was 0 and is
    now 1, and which has left the free list. *)
Theorem kalloc_never_panics (s : kstate) :
  reachable kend PHYSTOP s ->
  exists r s', kalloc s = Ret r s' /\
    (r = 0 <-> freelist s = 0) /\
    (r = 0 -> s' = s) /\
    (r <> 0 ->
       r = freelist s /\ r mod PGSIZE = 0 /\ kend <= r < PHYSTOP /\
       ref_at s (r / PGSIZE) = Some 0 /\ ref_at s' (r / PGSIZE) = Some 1 /\
       ~ on_freelist (mem s') (freelist s') r).
Proof.
  intros Hreach. destruct (reachable_kinv s Hreach) as [l Hinv].
  destruct l as [|r l'].
  - destruct (kalloc_kinv kend PHYSTOP Hlayout s _ Hinv)
      as [[_ E] | (r0 & l0 & s' & Hl & _)]; [|discriminate].
    exists 0, s. split; [exact E|].
    pose proof (inv_list _ _ _ _ Hinv) as Hl. simpl in Hl.
    split; [tauto|]. split; [reflexivity|]. intros H. contradiction.
  - destruct (kalloc_head s r l' Hinv)
      as (s' & E & Hr & Hhd & Hinv' & Href & H0 & Hrng & Hal & Hnin).
    exists r, s'. split; [exact E|]. split; [rewrite Hhd; tauto|].
    split; [intros H; contradiction|]. intros _.
    split; [symmetry; exact Hhd|]. split; [exact Hal|]. split; [exact Hrng|].
    split; [exact H0|]. split.
    + rewrite (ref_at_ref _ _ _ Href). apply (ref_at_set_ref_eq s _ 1 0 H0).
    + intros Hon. apply Hnin. apply (kinv_on_freelist s' l' r Hinv'), Hon.
Qed.

(** X5: [kfree] undoes [kalloc]: freeing the frame [kalloc] just returned
    puts it back at the head of the free list, with the counts and the
    frames of the free list as they were, and the next [kalloc] returns
    the same frame. *)
Theorem kalloc_kfree_round_trip (s s1 : kstate) (r : Z) :
  reachable kend PHYSTOP s -> kalloc s = Ret r s1 -> r <> 0 ->
  exists s2 s3, kfree r s1 = Ret tt s2 /\
    freelist s2 = freelist s /\ ref s2 = ref s /\
    (forall p, on_freelist (mem s2) (freelist s2) p <->
               on_freelist (mem s) (freelist s) p) /\
    kalloc s2 = Ret r s3.
Proof.
  intros Hreach E Hr. destruct (reachable_kinv s Hreach) as [l Hinv].
  destruct l as [|r0 l'].
  { destruct (kalloc_kinv kend PHYSTOP Hlayout s _ Hinv)
      as [[_ E0] | (? & ? & ? & Hl & _)]; [|discriminate].
    rewrite E0 in E. injection E as <- _. contradiction. }
  destruct (kalloc_head s r0 l' Hinv)
    as (s' & E' & _ & Hhd & Hinv1 & Href & H0 & Hrng & Hal & Hnin).
  rewrite E' in E. injection E as -> ->.
  assert (H1 : ref_at s1 (r / PGSIZE) = Some 1).
  { rewrite (ref_at_ref _ _ _ Href). apply (ref_at_set_ref_eq s _ 1 0 H0). }
  pose proof (kfree_last s1 r Hal Hrng H1) as Efree.
  destruct (kfree_kinv kend PHYSTOP Hlayout s1 l' r _ Hinv1 Efree)
    as (c & Hc & [[Hgt _] | (_ & _ & Hinv2)]).
  { rewrite H1 in Hc. injection Hc as <-. lia. }
  destruct (kalloc_head _ r l' Hinv2) as (s3 & E3 & _).
  eexists. exists s3. split; [exact Efree|].
  split; [symmetry; exact Hhd|]. split.
  - cbn [ref set_ref]. rewrite Href. cbn [ref set_ref].
    rewrite list_insert_insert_eq. apply list_insert_id.
    unfold ref_at in H0. destruct (0 <=? r / PGSIZE); [exact H0 | discriminate].
  - split; [|exact E3]. intros p.
    rewrite (kinv_on_freelist _ _ p Hinv2), (kinv_on_freelist _ _ p Hinv).
    reflexivity.
Qed.

Lemma run_app ops1 : forall ops2 s,
  run (ops1 ++ ops2) s
  = match run ops1 s with Ret _ s' => run ops2 s' | other => other end.
Proof.
  induction ops1 as [|o ops1 IH]; intros ops2 s; simpl; [reflexivity|].
  destruct (step kend PHYSTOP o s); try reflexivity. apply IH.
Qed.

Lemma frees_keep pa l : forall k s c,
  kinv s l -> pa mod PGSIZE = 0 -> kend <= pa < PHYSTOP ->
  ref_at s (pa / PGSIZE) = Some c -> Z.of_nat k < c ->
  exists s', run (replicate k (Free pa)) s = Ret tt s' /\ kinv s' l /\
             ref_at s' (pa / PGSIZE) = Some (c - Z.of_nat k) /\
             freelist s' = freelist s.
Proof.
  induction k as [|k IH]; intros s c Hinv Hal Hrng Hc Hk.
  - exists s. split; [reflexivity|]. split; [exact Hinv|].
    split; [|reflexivity]. rewrite Hc. f_equal. lia.
  - cbn [replicate Kalloc.run step].
    assert (E : kfree pa s = Ret tt (set_ref s (pa / PGSIZE) (c - 1))).
    { rewrite (kfree_unfold s pa c Hal Hrng Hc).
      destruct (Z.leb_spec c 0) as [|_]; [lia|].
      destruct (Z.ltb_spec 0 (c - 1)) as [_|]; [reflexivity | lia]. }
    rewrite E.
    destruct (kfree_kinv kend PHYSTOP Hlayout s l pa _ Hinv E)
      as (c' & Hc' & [[_ Hinv1] | (-> & _)]);
      [|rewrite Hc in Hc'; injection Hc' as ->; lia].
    destruct (IH _ (c - 1) Hinv1 Hal Hrng
                (ref_at_set_ref_eq s _ (c - 1) c Hc) ltac:(lia))
      as (s' & Hrun & Hinv' & Hc1 & Hfl).
    exists s'. split; [exact Hrun|]. split; [exact Hinv'|].
    split; [rewrite Hc1; f_equal; lia | exact Hfl].
Qed.

(** X6: A frame with [c] references goes back to the free list at the
    [c]-th [kfree] and not before: fewer calls only count down and
    leave the free list alone, the [c]-th pushes the frame in front of
    the free list with count 0. *)
Theorem shared_frame_freed_last (s : kstate) (pa c : Z) :
  reachable kend PHYSTOP s ->
  pa mod PGSIZE = 0 -> kend <= pa < PHYSTOP ->
  ref_at s (pa / PGSIZE) = Some c -> 1 <= c ->
  (forall k, Z.of_nat k < c ->
     exists s', run (replicate k (Free pa)) s = Ret tt s' /\
       ref_at s' (pa / PGSIZE) = Some (c - Z.of_nat k) /\
       freelist s' = freelist s /\
       forall p, on_freelist (mem s') (freelist s') p <->
                 on_freelist (mem s) (freelist s) p) /\
  (exists s', run (replicate (Z.to_nat c) (Free pa)) s = Ret tt s' /\
     ref_at s' (pa / PGSIZE) = Some 0 /\
     freelist s' = pa /\
     forall p, on_freelist (mem s') (freelist s') p <->
               p = pa \/ on_freelist (mem s) (freelist s) p).
Proof.
  intros Hreach Hal Hrng Hc Hpos.
  destruct (reachable_kinv s Hreach) as [l Hinv]. split.
  - intros k Hk.
    destruct (frees_keep pa l k s c Hinv Hal Hrng Hc Hk)
      as (s' & Hrun & Hinv' & Hc' & Hfl).
    exists s'. split; [exact Hrun|]. split; [exact Hc'|].
    split; [exact Hfl|]. intros p.
    rewrite (kinv_on_freelist _ _ p Hinv'), (kinv_on_freelist _ _ p Hinv).
    reflexivity.
  - replace (Z.to_nat c) with (S (Z.to_nat (c - 1))) by lia.
    rewrite replicate_S_end, run_app.
    destruct (frees_keep pa l (Z.to_nat (c - 1)) s c Hinv Hal Hrng Hc
                ltac:(lia)) as (s1 & Hrun & Hinv1 & Hc1 & Hfl).
    rewrite Hrun. cbn [Kalloc.run step].
    replace (c - Z.of_nat (Z.to_nat (c - 1))) with 1 in Hc1 by lia.
    pose proof (kfree_last s1 pa Hal Hrng Hc1) as E. rewrite E.
    destruct (kfree_kinv kend PHYSTOP Hlayout s1 l pa _ Hinv1 E)
      as (c' & Hc' & [[Hgt _] | (_ & _ & Hinv2)]);
      [rewrite Hc1 in Hc'; injection Hc' as <-; lia|].
    eexists. split; [reflexivity|]. split.
    + destruct (inv_frames _ _ _ _ Hinv2 pa) as (_ & _ & H0);
        [apply elem_of_cons; left; reflexivity | exact H0].
    + split; [reflexivity|]. intros p.
      rewrite (kinv_on_freelist _ _ p Hinv2), (kinv_on_freelist _ _ p Hinv).
      apply elem_of_cons.
Qed.

Lemma step_free_list o s l s' :
  kinv s l -> (match o with AddReference pa count => add_reference_ok pa count s
                          | _ => True end) ->
  step kend PHYSTOP o s = Ret tt s' ->
  exists l', kinv s' l' /\
    forall p, p ∈ l' -> p ∈ l \/ o = Free p.
Proof.
  intros Hinv Hok Hstep. destruct o as [|pa|pa count]; simpl in Hstep.
  - destruct (kalloc_kinv kend PHYSTOP Hlayout s l Hinv)
      as [[_ E] | (r & l' & s2 & -> & _ & E & H2 & _)];
      rewrite E in Hstep; injection Hstep as <-.
    + exists l. split; [exact Hinv|]. auto.
    + exists l'. split; [exact H2|]. intros p Hp. left.
      apply elem_of_cons. right. exact Hp.
  - destruct (kfree_kinv kend PHYSTOP Hlayout s l pa s' Hinv Hstep)
      as (c & _ & [[_ H] | (_ & _ & H)]).
    + exists l. split; [exact H|]. auto.
    + exists (pa :: l). split; [exact H|]. intros p Hp.
      apply elem_of_cons in Hp as [-> | Hp]; [right; reflexivity | left; exact Hp].
  - destruct (increref pa count s) as [c1 s2| | | |] eqn:E; try discriminate.
    injection Hstep as <-. exists l.
    split; [apply (increref_kinv kend PHYSTOP s l pa count c1 s2 Hinv Hok E)|].
    auto.
Qed.

Lemma run_free_list ops : forall s l s',
  kinv s l -> disciplined kend PHYSTOP ops s -> run ops s = Ret tt s' ->
  exists l', kinv s' l' /\
    forall p, p ∈ l' -> p ∈ l \/ Free p ∈ ops.
Proof.
  induction ops as [|o ops IH]; intros s l s' Hinv Hd Hrun; simpl in *.
  - injection Hrun as <-. exists l. split; [exact Hinv|]. auto.
  - destruct Hd as [Hok Hd].
    destruct (step kend PHYSTOP o s) as [[] s1| | | |] eqn:Hstep;
      try discriminate.
    destruct (step_free_list o s l s1 Hinv Hok Hstep) as (l1 & Hinv1 & Hsub1).
    destruct (IH s1 l1 s' Hinv1 Hd Hrun) as (l' & Hinv' & Hsub).
    exists l'. split; [exact Hinv'|]. intros p Hp.
    destruct (Hsub p Hp) as [H1 | Hin].
    + destruct (Hsub1 p H1) as [Hl | ->]; [left; exact Hl|].
      right. apply elem_of_cons. left. reflexivity.
    + right. apply elem_of_cons. right. exact Hin.
Qed.

(** X7: A frame handed out by [kalloc] stays the caller's until it is
    freed: whatever else is allocated, shared and freed in between by
    calls that keep the discipline of [increref], as long as no [kfree]
    names this frame it is not on the free list and no later [kalloc]
    returns it. *)
Theorem frame_stays_allocated (s s1 s2 : kstate) (r : Z) (ops : list op) :
  reachable kend PHYSTOP s -> kalloc s = Ret r s1 -> r <> 0 ->
  Free r ∉ ops ->
  disciplined kend PHYSTOP ops s1 -> run ops s1 = Ret tt s2 ->
  ~ on_freelist (mem s2) (freelist s2) r /\
  (forall r2 s3, kalloc s2 = Ret r2 s3 -> r2 <> r).
Proof.
  intros Hreach E Hr Hnofree Hd Hrun.
  destruct (reachable_kinv s Hreach) as [l Hinv].
  destruct l as [|r0 l'].
  { destruct (kalloc_kinv kend PHYSTOP Hlayout s _ Hinv)
      as [[_ E0] | (? & ? & ? & Hl & _)]; [|discriminate].
    rewrite E0 in E. injection E as <- _. contradiction. }
  destruct (kalloc_head s r0 l' Hinv)
    as (s' & E' & _ & _ & Hinv1 & _ & _ & _ & _ & Hnin).
  rewrite E' in E. injection E as -> ->.
  destruct (run_free_list ops s1 l' s2 Hinv1 Hd Hrun) as (l2 & Hinv2 & Hsub).
  assert (Hoff : r ∉ l2).
  { intros Hin. destruct (Hsub r Hin) as [H | H]; contradiction. }
  split.
  - intros Hon. apply Hoff, (kinv_on_freelist s2 l2 r Hinv2), Hon.
  - intros r2 s3 E2 ->.
    destruct l2 as [|h l2'].
    + destruct (kalloc_kinv kend PHYSTOP Hlayout s2 _ Hinv2)
        as [[_ E0] | (? & ? & ? & Hl & _)]; [|discriminate].
      rewrite E0 in E2. injection E2 as <- _. contradiction.
    + destruct (kalloc_head s2 h l2' Hinv2) as (s4 & E4 & _).
      rewrite E4 in E2. injection E2 as -> _.
      apply Hoff. apply elem_of_cons. left. reflexivity.
Qed.

(** ** No frame is lost *)

Lemma kfree_valid s pa s' :
  kfree pa s = Ret tt s' -> pa mod PGSIZE = 0 /\ kend <= pa < PHYSTOP.
Proof.
  unfold Kalloc.kfree.
  destruct (Z.eqb_spec (pa mod PGSIZE) 0) as [Hal|]; [|discriminate].
  destruct (Z.ltb_spec pa kend) as [|Hlo]; [discriminate|].
  destruct (Z.leb_spec PHYSTOP pa) as [|Hhi]; [discriminate|].
  intros _. split; [exact Hal | lia].
Qed.

Lemma to_int_sum_nonzero c count :
  1 <= c < 2 ^ 31 -> 0 < count < 2 ^ 31 -> to_int (c + count) <> 0.
Proof.
  intros Hc Hn. unfold to_int.
  destruct (Z_lt_le_dec (c + count + 2 ^ 31) (2 ^ 32)) as [Hlt|Hge].
  - rewrite Z.mod_small by lia. lia.
  - replace (c + count + 2 ^ 31)
      with (c + count + 2 ^ 31 - 2 ^ 32 + 1 * 2 ^ 32) by lia.
    rewrite Z.mod_add by lia. rewrite Z.mod_small by lia. lia.
Qed.

Lemma step_tracked o s l s' :
  kinv s l -> tracked kend PHYSTOP s l -> sharing o ->
  (match o with AddReference pa count => add_reference_ok pa count s
              | _ => True end) ->
  step kend PHYSTOP o s = Ret tt s' ->
  exists l', kinv s' l' /\ tracked kend PHYSTOP s' l'.
Proof.
  intros Hinv [Hint Hfree] Hsh Hok Hstep.
  destruct o as [|pa|pa count]; simpl in Hstep.
  - destruct l as [|r l'].
    + destruct (kalloc_kinv kend PHYSTOP Hlayout s _ Hinv)
        as [[_ E] | (? & ? & ? & Hl & _)]; [|discriminate].
      rewrite E in Hstep. injection Hstep as <-.
      exists []. split; [exact Hinv|]. split; assumption.
    + destruct (kalloc_head s r l' Hinv)
        as (s1 & E & _ & _ & Hinv1 & Href & H0 & Hrng & Hal & Hnin).
      rewrite E in Hstep. injection Hstep as <-.
      exists l'. split; [exact Hinv1|].
      pose proof (ref_at_nonneg _ _ _ H0) as Hn0.
      split.
      * intros n c. rewrite (ref_at_ref _ _ _ Href).
        destruct (Z.eq_dec (r / PGSIZE) n) as [<-|Hne].
        -- rewrite (ref_at_set_ref_eq s _ 1 0 H0). intros [= <-]. lia.
        -- rewrite ref_at_set_ref_ne by assumption. apply Hint.
      * intros p Hpal Hprng. rewrite (ref_at_ref _ _ _ Href).
        destruct (Z.eq_dec (r / PGSIZE) (p / PGSIZE)) as [Heq|Hne].
        -- rewrite <- Heq, (ref_at_set_ref_eq s _ 1 0 H0). discriminate.
        -- rewrite ref_at_set_ref_ne by assumption. intros Hp0.
           specialize (Hfree p Hpal Hprng Hp0).
           apply elem_of_cons in Hfree as [-> | Hin];
             [contradiction | exact Hin].
  - destruct (kfree_valid s pa s' Hstep) as [Hal Hrng].
    destruct (kfree_kinv kend PHYSTOP Hlayout s l pa s' Hinv Hstep)
      as (c & Hc & Hcase).
    pose proof (ref_at_nonneg _ _ _ Hc) as Hn0.
    rewrite (kfree_unfold s pa c Hal Hrng Hc) in Hstep.
    assert (Href : ref s' = ref (set_ref s (pa / PGSIZE) (c - 1))).
    { destruct (c <=? 0); [discriminate|].
      destruct (0 <? c - 1); injection Hstep as <-; reflexivity. }
    assert (Hcnt : forall n c', ref_at s' n = Some c' -> c' < 2 ^ 31).
    { intros n c'. rewrite (ref_at_ref _ _ _ Href).
      destruct (Z.eq_dec (pa / PGSIZE) n) as [<-|Hne].
      - rewrite (ref_at_set_ref_eq s _ (c - 1) c Hc). intros [= <-].
        specialize (Hint _ _ Hc). lia.
      - rewrite ref_at_set_ref_ne by assumption. apply Hint. }
    destruct Hcase as [[Hgt Hinv'] | (-> & Hnin & Hinv')].
    + exists l. split; [exact Hinv'|]. split; [exact Hcnt|].
      intros p Hpal Hprng. rewrite (ref_at_ref _ _ _ Href).
      destruct (Z.eq_dec (pa / PGSIZE) (p / PGSIZE)) as [Heq|Hne].
      * rewrite <- Heq, (ref_at_set_ref_eq s _ (c - 1) c Hc).
        intros [= E]. lia.
      * rewrite ref_at_set_ref_ne by assumption. apply Hfree; assumption.
    + exists (pa :: l). split; [exact Hinv'|]. split; [exact Hcnt|].
      intros p Hpal Hprng. rewrite (ref_at_ref _ _ _ Href).
      destruct (Z.eq_dec (pa / PGSIZE) (p / PGSIZE)) as [Heq|Hne].
      * intros _. apply page_index_inj in Heq; [|assumption..].
        apply elem_of_cons. left. symmetry. exact Heq.
      * rewrite ref_at_set_ref_ne by assumption. intros Hp0.
        apply elem_of_cons. right. apply Hfree; assumption.
  - destruct (increref pa count s) as [c1 s2| | | |] eqn:E; try discriminate.
    injection Hstep as <-.
    pose proof (increref_kinv kend PHYSTOP s l pa count c1 s2 Hinv Hok E)
      as Hinv'.
    exists l. split; [exact Hinv'|].
    unfold increref in E.
    destruct (ref_at s (to_int (pa / PGSIZE))) as [c|] eqn:Hc; [|discriminate].
    injection E as _ <-.
    pose proof (ref_at_nonneg _ _ _ Hc) as Hn0.
    split.
    + intros n c'.
      destruct (Z.eq_dec (to_int (pa / PGSIZE)) n) as [<-|Hne].
      * rewrite (ref_at_set_ref_eq s _ _ c Hc). intros [= <-].
        apply to_int_range.
      * rewrite ref_at_set_ref_ne by assumption. apply Hint.
    + intros p Hpal Hprng.
      destruct (Z.eq_dec (to_int (pa / PGSIZE)) (p / PGSIZE)) as [Heq|Hne].
      * rewrite <- Heq, (ref_at_set_ref_eq s _ _ c Hc). intros [= E0].
        exfalso. destruct Hok as [Hoff _].
        assert (Hc1 : 1 <= c).
        { pose proof (inv_counts _ _ _ _ Hinv _ _ Hc) as Hge.
          destruct (Z.eq_dec c 0) as [->|]; [|lia].
          rewrite Heq in Hc. specialize (Hfree p Hpal Hprng Hc).
          exfalso. apply (Hoff p); [|symmetry; exact Heq].
          apply (kinv_on_freelist s l p Hinv), Hfree. }
        apply (to_int_sum_nonzero c count); [|exact Hsh | exact E0].
        split; [exact Hc1 | apply (Hint _ _ Hc)].
      * rewrite ref_at_set_ref_ne by assumption. apply Hfree; assumption.
Qed.

Lemma run_tracked ops : forall s l s',
  kinv s l -> tracked kend PHYSTOP s l -> Forall sharing ops ->
  disciplined kend PHYSTOP ops s -> run ops s = Ret tt s' ->
  exists l', kinv s' l' /\ tracked kend PHYSTOP s' l'.
Proof.
  induction ops as [|o ops IH]; intros s l s' Hinv Htr Hsh Hd Hrun;
    simpl in *.
  - injection Hrun as <-. exists l. split; assumption.
  - destruct Hd as [Hok Hd]. apply Forall_cons in Hsh as [Ho Hsh].
    destruct (step kend PHYSTOP o s) as [[] s1| | | |] eqn:Hstep;
      try discriminate.
    destruct (step_tracked o s l s1 Hinv Htr Ho Hok Hstep)
      as (l1 & Hinv1 & Htr1).
    apply (IH s1 l1 s' Hinv1 Htr1 Hsh Hd Hrun).
Qed.

(** X8: No frame is lost: as long as callers free what they allocate and
    share frames by adding references, a frame of the managed range has
    count 0 exactly when it is on the free list; a frame that no one
    refers to can be allocated again. *)
Theorem no_frame_lost (m : memory) (ops : list op) (s0 s : kstate) :
  kinit kend PHYSTOP (boot PHYSTOP m) = Ret tt s0 ->
  disciplined kend PHYSTOP ops s0 -> Forall sharing ops ->
  run ops s0 = Ret tt s ->
  forall p, p mod PGSIZE = 0 -> kend <= p < PHYSTOP ->
    (on_freelist (mem s) (freelist s) p <-> ref_at s (p / PGSIZE) = Some 0).
Proof.
  intros Hinit Hd Hsh Hrun p Hal Hrng.
  destruct (kinit_state m) as (s0' & E & Hinv0 & Hzero).
  rewrite E in Hinit. injection Hinit as ->.
  assert (Htr0 : tracked kend PHYSTOP s0 (swept kend PHYSTOP)).
  { split.
    - intros n c Hc. rewrite (Hzero n c Hc). lia.
    - intros q Hqal Hqrng _. apply elem_of_swept.
      split; [exact Hqal|]. split; [lia|].
      destruct Hlayout as (_ & Hm & _).
      pose proof (page_base q Hqal). pose proof (page_base PHYSTOP Hm).
      unfold PGSIZE in *. lia. }
  destruct (run_tracked ops s0 _ s Hinv0 Htr0 Hsh Hd Hrun)
    as (l & Hinv & _ & Hfree).
  rewrite (kinv_on_freelist s l p Hinv). split.
  - intros Hin. apply (inv_frames _ _ _ _ Hinv p Hin).
  - apply Hfree; assumption.
Qed.

End Layout.

(** ** The theorems on the small machine *)

Lemma ex_reachable ops :
  disciplinedb ex_end ex_PHYSTOP 10 ops ex_init = true ->
  returned (run ex_end ex_PHYSTOP ops ex_init) = true ->
  reachable ex_end ex_PHYSTOP (ex_state ops).
Proof.
  intros Hd Hrun. exists zero_mem, ops, ex_init.
  split; [exact ex_kinit|].
  split; [apply (disciplinedb_sound _ _ 10), Hd | apply ex_run, Hrun].
Defined.

Lemma ex_on_freelist s l p :
  free_frames 10 (mem s) (freelist s) = Some l -> p ∈ l ->
  on_freelist (mem s) (freelist s) p.
Proof.
  intros Hl Hp. apply (lseg_on_freelist _ _ l); [|exact Hp].
  apply (free_frames_lseg 10), Hl.
Defined.

Lemma double_free_panics_witness :
  let s := ex_state [Allocate] in
  let s1 := state_of (kfree ex_end ex_PHYSTOP frameD s) s in
  reachable ex_end ex_PHYSTOP s /\
  on_freelist (mem s) (freelist s) frameC /\
  kfree ex_end ex_PHYSTOP frameC s = Panic ref_panic_msg /\
  ref_at s (frameD / PGSIZE) = Some 1 /\
  kfree ex_end ex_PHYSTOP frameD s = Ret tt s1 /\
  kfree ex_end ex_PHYSTOP frameD s1 = Panic ref_panic_msg.
Proof.
  intros s s1.
  assert (Hreach : reachable ex_end ex_PHYSTOP s)
    by (apply ex_reachable; vm_compute; reflexivity).
  assert (Hon : on_freelist (mem s) (freelist s) frameC).
  { apply (ex_on_freelist s [frameC; frameB; frameA]);
      [vm_compute; reflexivity|].
    apply elem_of_cons. left. reflexivity. }
  assert (H1 : ref_at s (frameD / PGSIZE) = Some 1)
    by (vm_compute; reflexivity).
  assert (E : kfree ex_end ex_PHYSTOP frameD s = Ret tt s1)
    by (apply returned_state; vm_compute; reflexivity).
  split; [exact Hreach|]. split; [exact Hon|].
  destruct (double_free_panics ex_end ex_PHYSTOP ex_layout_ok s frameC Hreach)
    as [Hlist _].
  destruct (double_free_panics ex_end ex_PHYSTOP ex_layout_ok s frameD Hreach)
    as [_ Hagain].
  split; [exact (Hlist Hon)|]. split; [exact H1|]. split; [exact E|].
  exact (Hagain s1 H1 E).
Defined.

Lemma kinit_free_list_witness :
  layout_ok ex_end ex_PHYSTOP /\
  exists s0, kinit ex_end ex_PHYSTOP (boot ex_PHYSTOP zero_mem) = Ret tt s0 /\
             lseg (mem s0) (freelist s0) [frameD; frameC; frameB; frameA] /\
             all_unreferenced s0.
Proof.
  split; [exact ex_layout_ok|].
  destruct (kinit_free_list ex_end ex_PHYSTOP ex_layout_ok zero_mem)
    as (s0 & E & Hl & Hzero & _).
  exists s0. split; [exact E|]. split; [exact Hl | exact Hzero].
Defined.

Lemma kalloc_never_panics_witness :
  let s := ex_state [Allocate; Allocate] in
  reachable ex_end ex_PHYSTOP s /\
  exists r s', kalloc s = Ret r s' /\ (r = 0 <-> freelist s = 0).
Proof.
  intros s.
  assert (Hreach : reachable ex_end ex_PHYSTOP s)
    by (apply ex_reachable; vm_compute; reflexivity).
  split; [exact Hreach|].
  destruct (kalloc_never_panics ex_end ex_PHYSTOP ex_layout_ok s Hreach)
    as (r & s' & E & Hnull & _).
  exists r, s'. split; [exact E | exact Hnull].
Defined.

Lemma kalloc_kfree_round_trip_witness :
  let s1 := state_of (kalloc ex_init) ex_init in
  reachable ex_end ex_PHYSTOP ex_init /\
  kalloc ex_init = Ret frameD s1 /\
  exists s2 s3, kfree ex_end ex_PHYSTOP frameD s1 = Ret tt s2 /\
                ref s2 = ref ex_init /\ kalloc s2 = Ret frameD s3.
Proof.
  intros s1.
  assert (Hreach : reachable ex_end ex_PHYSTOP ex_init)
    by (apply (ex_reachable []); vm_compute; reflexivity).
  assert (E : kalloc ex_init = Ret frameD s1)
    by (apply value_state; vm_compute; reflexivity).
  split; [exact Hreach|]. split; [exact E|].
  destruct (kalloc_kfree_round_trip ex_end ex_PHYSTOP ex_layout_ok
              ex_init s1 frameD Hreach E)
    as (s2 & s3 & Efree & _ & Href & _ & Eagain).
  - intros H. discriminate H.
  - exists s2, s3. split; [exact Efree|]. split; [exact Href | exact Eagain].
Defined.

Lemma shared_frame_freed_last_witness :
  let s := ex_state [Allocate; AddReference frameD 1] in
  reachable ex_end ex_PHYSTOP s /\
  ref_at s (frameD / PGSIZE) = Some 2 /\
  (exists s', run ex_end ex_PHYSTOP [Free frameD] s = Ret tt s' /\
              freelist s' = freelist s) /\
  (exists s', run ex_end ex_PHYSTOP [Free frameD; Free frameD] s = Ret tt s' /\
              freelist s' = frameD).
Proof.
  intros s.
  assert (Hreach : reachable ex_end ex_PHYSTOP s)
    by (apply ex_reachable; vm_compute; reflexivity).
  assert (H2 : ref_at s (frameD / PGSIZE) = Some 2)
    by (vm_compute; reflexivity).
  split; [exact Hreach|]. split; [exact H2|].
  destruct (shared_frame_freed_last ex_end ex_PHYSTOP ex_layout_ok s frameD 2
              Hreach) as [Hbefore Hlast].
  - reflexivity.
  - split; [intros H; discriminate H | reflexivity].
  - exact H2.
  - lia.
  - split.
    + destruct (Hbefore 1%nat) as (s' & Hrun & _ & Hfl & _); [lia|].
      exists s'. split; [exact Hrun | exact Hfl].
    + destruct Hlast as (s' & Hrun & _ & Hfl & _).
      exists s'. split; [exact Hrun | exact Hfl].
Defined.

Lemma frame_stays_allocated_witness :
  let ops := [Allocate; AddReference frameD 1; Free frameC; Allocate] in
  let s1 := state_of (kalloc ex_init) ex_init in
  let s2 := state_of (run ex_end ex_PHYSTOP ops s1) s1 in
  reachable ex_end ex_PHYSTOP ex_init /\
  kalloc ex_init = Ret frameD s1 /\
  (Free frameD ∉ ops) /\
  disciplined ex_end ex_PHYSTOP ops s1 /\
  run ex_end ex_PHYSTOP ops s1 = Ret tt s2 /\
  ~ on_freelist (mem s2) (freelist s2) frameD.
Proof.
  intros ops s1 s2.
  assert (Hreach : reachable ex_end ex_PHYSTOP ex_init)
    by (apply (ex_reachable []); vm_compute; reflexivity).
  assert (E : kalloc ex_init = Ret frameD s1)
    by (apply value_state; vm_compute; reflexivity).
  assert (Hno : Free frameD ∉ ops).
  { intros H. apply list_elem_of_In in H. simpl in H.
    destruct H as [H | [H | [H | [H | []]]]]; discriminate H. }
  assert (Hd : disciplined ex_end ex_PHYSTOP ops s1)
    by (apply (disciplinedb_sound _ _ 10); vm_compute; reflexivity).
  assert (Hrun : run ex_end ex_PHYSTOP ops s1 = Ret tt s2)
    by (apply returned_state; vm_compute; reflexivity).
  split; [exact Hreach|]. split; [exact E|]. split; [exact Hno|].
  split; [exact Hd|]. split; [exact Hrun|].
  destruct (frame_stays_allocated ex_end ex_PHYSTOP ex_layout_ok
              ex_init s1 s2 frameD ops Hreach E) as [Hoff _].
  - intros H. discriminate H.
  - exact Hno.
  - exact Hd.
  - exact Hrun.
  - exact Hoff.
Defined.


Lemma no_frame_lost_witness :
  let ops := [Allocate; AddReference frameD 1; Free frameD; Free frameD;
              Allocate; Allocate] in
  kinit ex_end ex_PHYSTOP (boot ex_PHYSTOP zero_mem) = Ret tt ex_init /\
  disciplined ex_end ex_PHYSTOP ops ex_init /\ Forall sharing ops /\
  run ex_end ex_PHYSTOP ops ex_init = Ret tt (ex_state ops) /\
  ref_at (ex_state ops) (frameB / PGSIZE) = Some 0 /\
  on_freelist (mem (ex_state ops)) (freelist (ex_state ops)) frameB.
Proof.
  intros ops.
  assert (Hd : disciplined ex_end ex_PHYSTOP ops ex_init)
    by (apply (disciplinedb_sound _ _ 10); vm_compute; reflexivity).
  assert (Hsh : Forall sharing ops).
  { repeat (apply Forall_cons; split; [try exact I|]);
      [simpl; lia | apply Forall_nil_2]. }
  assert (Hrun : run ex_end ex_PHYSTOP ops ex_init = Ret tt (ex_state ops))
    by (apply ex_run; vm_compute; reflexivity).
  assert (H0 : ref_at (ex_state ops) (frameB / PGSIZE) = Some 0)
    by (vm_compute; reflexivity).
  split; [exact ex_kinit|]. split; [exact Hd|]. split; [exact Hsh|].
  split; [exact Hrun|]. split; [exact H0|].
  apply (no_frame_lost ex_end ex_PHYSTOP ex_layout_ok zero_mem ops ex_init
           (ex_state ops) ex_kinit Hd Hsh Hrun frameB).
  - reflexivity.
  - split; [intros H; discriminate H | reflexivity].
  - exact H0.
Defined.

End KallocExtProofs.

(** * Further properties of the buffer cache *)

Module BioExtProofs.
Import Bio BioProofs BioExt.
Local Open Scope kern_scope.

(** ** Small facts about the store and the counters *)

Lemma put_same s p b : get s p = Some b -> put s p b = s.
Proof.
  destruct s as [bs hd bk dk lg], p as [|i|i|]; simpl; intros H.
  - reflexivity.
  - rewrite (list_insert_id _ _ _ H). reflexivity.
  - rewrite (list_insert_id _ _ _ H). reflexivity.
  - injection H as ->. reflexivity.
Qed.

Lemma to_uint_incr_decr r : to_uint (to_uint (r + 1) - 1) = to_uint r.
Proof. unfold to_uint. rewrite Zminus_mod_idemp_l. f_equal. lia. Qed.

Lemma to_uint_decr_incr r : to_uint (to_uint (r - 1) + 1) = to_uint r.
Proof. unfold to_uint. rewrite Zplus_mod_idemp_l. f_equal. lia. Qed.

Lemma bucket_ptr_hash s h :
  0 <= h < NBUCKETS -> bucket_ptr h s = Ret (BUCKET (Z.to_nat h)) s.
Proof.
  intros Hr. unfold bucket_ptr.
  destruct (Z.leb_spec 0 h); [|lia].
  destruct (Z.ltb_spec h NBUCKETS); [|lia]. reflexivity.
Qed.

Lemma bpin_ok s b bb :
  get s b = Some bb -> 0 <= haskBlock (blockno bb) < NBUCKETS ->
  bpin b s = Ret tt (put s b (set_refcnt (to_uint (refcnt bb + 1)) bb)).
Proof.
  intros Hb Hh. unfold bpin, bind. rewrite (deref_ok s b bb Hb).
  rewrite (bucket_ptr_hash s _ Hh).
  apply (upd_ok s b (fun x => set_refcnt _ x) bb Hb).
Qed.

Lemma bunpin_ok s b bb :
  get s b = Some bb -> 0 <= haskBlock (blockno bb) < NBUCKETS ->
  bunpin b s = Ret tt (put s b (set_refcnt (to_uint (refcnt bb - 1)) bb)).
Proof.
  intros Hb Hh. unfold bunpin, bind. rewrite (deref_ok s b bb Hb).
  rewrite (bucket_ptr_hash s _ Hh).
  apply (upd_ok s b (fun x => set_refcnt _ x) bb Hb).
Qed.

(** X9: [bpin] and [bunpin] undo each other, in either order: the state
    after the pair is the state before it.  In the order [bunpin],
    [bpin] this holds at count 0 as well, where the count passes
    through [2^32 - 1]. *)
Theorem bpin_bunpin_round_trip (s : bcache) (b : ptr) (bb : buf) :
  get s b = Some bb ->
  0 <= haskBlock (blockno bb) < NBUCKETS ->
  0 <= refcnt bb < 2 ^ 32 ->
  bind (bpin b) (fun _ => bunpin b) s = Ret tt s /\
  bind (bunpin b) (fun _ => bpin b) s = Ret tt s /\
  (refcnt bb = 0 ->
   exists s1 bb1, bunpin b s = Ret tt s1 /\ get s1 b = Some bb1 /\
                  refcnt bb1 = 2 ^ 32 - 1).
Proof.
  intros Hb Hh Hr.
  split; [|split].
  - unfold bind at 1. rewrite (bpin_ok s b bb Hb Hh).
    set (b1 := set_refcnt (to_uint (refcnt bb + 1)) bb).
    rewrite (bunpin_ok (put s b b1) b b1 (get_put_eq s b b1 bb Hb) Hh).
    rewrite put_put. subst b1. cbn [refcnt set_refcnt].
    rewrite to_uint_incr_decr, (to_uint_id _ Hr).
    f_equal. destruct bb; apply put_same, Hb.
  - unfold bind at 1. rewrite (bunpin_ok s b bb Hb Hh).
    set (b1 := set_refcnt (to_uint (refcnt bb - 1)) bb).
    rewrite (bpin_ok (put s b b1) b b1 (get_put_eq s b b1 bb Hb) Hh).
    rewrite put_put. subst b1. cbn [refcnt set_refcnt].
    rewrite to_uint_decr_incr, (to_uint_id _ Hr).
    f_equal. destruct bb; apply put_same, Hb.
  - intros H0. eexists. eexists.
    split; [apply (bunpin_ok s b bb Hb Hh)|].
    split; [apply (get_put_eq s b _ bb Hb)|].
    cbn [refcnt set_refcnt]. rewrite H0. reflexivity.
Qed.

(** ** Block numbers and bucket numbers *)

Lemma haskBlock_high bn :
  2 ^ 31 <= bn < 2 ^ 32 -> haskBlock bn = - ((2 ^ 32 - bn) mod NBUCKETS).
Proof.
  intros H. unfold haskBlock, NBUCKETS.
  assert (E : to_int bn = - (2 ^ 32 - bn)).
  { unfold to_int.
    replace (bn + 2 ^ 31) with (bn - 2 ^ 31 + 1 * 2 ^ 32) by lia.
    rewrite Z.mod_add by lia. rewrite Z.mod_small by lia. lia. }
  rewrite E, Z.rem_opp_l by lia. rewrite Z.rem_mod_nonneg by lia. reflexivity.
Qed.

(** X10: The block number is hashed as an [int]: a block number from
    [2^31] up gives a bucket number that is 0 or negative, and with a
    negative one [bget], and so [bread], index the array of buckets
    below its start. *)
Theorem bget_high_block_number (pid d bn now : Z) (s : bcache) :
  2 ^ 31 <= bn < 2 ^ 32 ->
  - NBUCKETS < haskBlock bn <= 0 /\
  ((2 ^ 32 - bn) mod NBUCKETS <> 0 ->
   bget pid d bn now s = Undef /\ bread pid d bn now s = Undef).
Proof.
  intros H. rewrite (haskBlock_high bn H).
  pose proof (Z.mod_pos_bound (2 ^ 32 - bn) NBUCKETS ltac:(reflexivity)) as Hm.
  split; [lia|]. intros Hne.
  assert (E : bget pid d bn now s = Undef).
  { unfold bget, bind, gets, bucket_ptr. rewrite (haskBlock_high bn H).
    destruct (Z.leb_spec 0 (- ((2 ^ 32 - bn) mod NBUCKETS))) as [|_]; [lia|].
    reflexivity. }
  split; [exact E|]. unfold bread, bind. rewrite E. reflexivity.
Qed.

Lemma bget_high_block_number_witness :
  haskBlock (2 ^ 32 - 1) = - 1 /\
  bget 7 1 (2 ^ 32 - 1) 5 ex_pool = Undef /\
  bread 7 1 (2 ^ 32 - 1) 5 ex_pool = Undef.
Proof.
  split; [reflexivity|].
  destruct (bget_high_block_number 7 1 (2 ^ 32 - 1) 5 ex_pool) as [_ H];
    [lia|].
  apply H. intros E. discriminate E.
Defined.

(** ** The look through a shard *)

Lemma scan_cached_chain fuel stop d bn s : forall p l,
  chain fuel stop p s = Some l ->
  scan_cached fuel stop d bn p s = Ret (find (caches s d bn) l) s.
Proof.
  induction fuel as [|fuel IH]; intros p l; simpl.
  - destruct (decide (p = stop)); [|discriminate].
    intros [= <-]. reflexivity.
  - destruct (decide (p = stop)); [intros [= <-]; reflexivity|].
    destruct (get s p) as [b|] eqn:Hb; [|discriminate].
    destruct (chain fuel stop (next b) s) as [l'|] eqn:Hc; [|discriminate].
    simpl. intros [= <-]. simpl. unfold caches at 1. rewrite Hb.
    destruct ((dev b =? d) && (blockno b =? bn)); [reflexivity|].
    apply IH, Hc.
Qed.

Lemma lookup_shard s i d bn l :
  shard s i = Some l ->
  lookup (nodes s) (BUCKET i) d bn s = Ret (find (caches s d bn) l) s.
Proof.
  unfold shard, lookup, bind.
  destruct (get s (BUCKET i)) as [hd|] eqn:Hhd; [|discriminate].
  intros Hl. rewrite (deref_ok s _ hd Hhd).
  apply scan_cached_chain, Hl.
Qed.

Lemma find_caches s d bn l b :
  find (caches s d bn) l = Some b ->
  b ∈ l /\ exists bb, get s b = Some bb /\ dev bb = d /\ blockno bb = bn.
Proof.
  intros H. apply find_some in H as [Hin Hc]. split.
  - apply list_elem_of_In, Hin.
  - unfold caches in Hc. destruct (get s b) as [bb|]; [|discriminate].
    apply andb_true_iff in Hc as [Hd Hn].
    exists bb. split; [reflexivity|]. split; lia.
Qed.

Lemma bget_hit_held pid b s bb q :
  get s b = Some bb -> lock bb = Some q ->
  bget_hit pid b s
  = Asleep (put s b (set_refcnt (to_uint (refcnt bb + 1)) bb)).
Proof.
  intros Hb Hl. unfold bget_hit, bind.
  rewrite (upd_ok s b (fun x => set_refcnt _ x) bb Hb).
  unfold acquiresleep. rewrite (get_put_eq s b _ bb Hb). simpl. rewrite Hl.
  reflexivity.
Qed.

(** X11: A block that is cached is not looked for twice: [bget] takes the
    first buffer of the block's shard that carries the block's
    identity, counts the caller's reference, and then takes the
    sleep-lock, so that a caller who has to wait for the lock is already
    counted.  Nothing else of the cache changes; the timestamp is not
    touched. *)
Theorem bget_cached (pid d bn now : Z) (s : bcache) (l : list ptr)
        (b : ptr) (bb : buf) :
  0 <= haskBlock bn < NBUCKETS ->
  shard s (Z.to_nat (haskBlock bn)) = Some l ->
  find (caches s d bn) l = Some b ->
  get s b = Some bb ->
  dev bb = d /\ blockno bb = bn /\
  (lock bb = None ->
   bget pid d bn now s
   = Ret b (put s b (set_lock (Some pid)
                       (set_refcnt (to_uint (refcnt bb + 1)) bb)))) /\
  (forall q, lock bb = Some q ->
   bget pid d bn now s
   = Asleep (put s b (set_refcnt (to_uint (refcnt bb + 1)) bb))).
Proof.
  intros Hh Hl Hfind Hb.
  destruct (find_caches s d bn l b Hfind) as (_ & bb' & Hb' & Hd & Hn).
  rewrite Hb in Hb'. injection Hb' as <-.
  split; [exact Hd|]. split; [exact Hn|].
  pose proof (bucket_ptr_hash s _ Hh) as Hptr.
  pose proof (lookup_shard s _ d bn l Hl) as Hlook. rewrite Hfind in Hlook.
  rewrite (bget_on_hit pid d bn now s _ b Hptr Hlook).
  split.
  - intros Hfree. apply (bget_hit_free pid b s bb Hb Hfree).
  - intros q Hheld. apply (bget_hit_held pid b s bb q Hb Hheld).
Qed.

Lemma chain_same_next s s' :
  (forall q, next <$> get s' q = next <$> get s q) ->
  forall fuel stop p, chain fuel stop p s' = chain fuel stop p s.
Proof.
  intros Hnext fuel stop. induction fuel as [|fuel IH]; intros p; simpl.
  - reflexivity.
  - destruct (decide (p = stop)); [reflexivity|].
    pose proof (Hnext p) as Hn.
    destruct (get s' p) as [x|], (get s p) as [y|]; simpl in Hn;
      try discriminate; [|reflexivity].
    injection Hn as ->. rewrite IH. reflexivity.
Qed.

Lemma put_same_next s b bb bb' :
  get s b = Some bb -> next bb' = next bb ->
  forall q, next <$> get (put s b bb') q = next <$> get s q.
Proof.
  intros Hb Hn q. destruct (decide (b = q)) as [<-|Hne].
  - rewrite (get_put_eq s b _ bb Hb), Hb. simpl. rewrite Hn. reflexivity.
  - rewrite get_put_ne by exact Hne. reflexivity.
Qed.

Lemma shard_put_same_next s b bb bb' i :
  get s b = Some bb -> next bb' = next bb ->
  shard (put s b bb') i = shard s i.
Proof.
  intros Hb Hn. unfold shard. rewrite nodes_put.
  pose proof (put_same_next s b bb bb' Hb Hn (BUCKET i)) as Hhd.
  destruct (get (put s b bb') (BUCKET i)) as [x|], (get s (BUCKET i)) as [y|];
    simpl in Hhd; try discriminate; [|reflexivity].
  injection Hhd as ->.
  apply (chain_same_next s (put s b bb') (put_same_next s b bb bb' Hb Hn)).
Qed.

Lemma find_ext_in {A} (f g : A -> bool) l :
  (forall x, x ∈ l -> f x = g x) -> find f l = find g l.
Proof.
  induction l as [|x l IH]; intros H; simpl; [reflexivity|].
  rewrite <- (H x) by (apply elem_of_cons; left; reflexivity).
  destruct (f x); [reflexivity|].
  apply IH. intros y Hy. apply H. apply elem_of_cons. right. exact Hy.
Qed.

Lemma caches_put s b bb bb' d bn q :
  get s b = Some bb -> dev bb' = dev bb -> blockno bb' = blockno bb ->
  caches (put s b bb') d bn q = caches s d bn q.
Proof.
  intros Hb Hd Hn. unfold caches. destruct (decide (b = q)) as [<-|Hne].
  - rewrite (get_put_eq s b _ bb Hb), Hb, Hd, Hn. reflexivity.
  - rewrite get_put_ne by exact Hne. reflexivity.
Qed.

(** X12: A buffer that is released stays cached: the [bget] for its block
    that follows the [brelse] finds the same buffer, with the reference
    count, the validity flag and the data it had, and without a request
    to the device; so a [bread] of a valid buffer that was released
    costs no disk read. *)
Theorem brelse_then_bget (pid pid2 d bn now now2 : Z) (s : bcache)
        (l : list ptr) (b : ptr) (bb : buf) :
  0 <= bn < 2 ^ 31 ->
  shard s (Z.to_nat (haskBlock bn)) = Some l ->
  find (caches s d bn) l = Some b ->
  get s b = Some bb -> lock bb = Some pid -> 0 <= refcnt bb < 2 ^ 32 ->
  exists s1 s2 bb2,
    brelse pid b now s = Ret tt s1 /\
    bget pid2 d bn now2 s1 = Ret b s2 /\
    get s2 b = Some bb2 /\ lock bb2 = Some pid2 /\
    refcnt bb2 = refcnt bb /\ valid bb2 = valid bb /\ data bb2 = data bb /\
    iolog s2 = iolog s /\
    (valid bb <> 0 -> bread pid2 d bn now2 s1 = Ret b s2).
Proof.
  intros Hbn Hl Hfind Hb Hlock Hr.
  destruct (find_caches s d bn l b Hfind) as (_ & bb' & Hb' & Hd & Hn).
  rewrite Hb in Hb'. injection Hb' as <-.
  assert (Hbn' : 0 <= blockno bb < 2 ^ 31) by (rewrite Hn; exact Hbn).
  pose proof (brelse_holding pid b now s bb Hb Hlock Hbn') as Erel.
  set (s1 := put s b (released now bb)) in *.
  assert (Hb1 : get s1 b = Some (released now bb))
    by (apply (get_put_eq s b _ bb Hb)).
  assert (Hl1 : shard s1 (Z.to_nat (haskBlock bn)) = Some l).
  { unfold s1. rewrite (shard_put_same_next s b bb (released now bb) _ Hb eq_refl).
    exact Hl. }
  assert (Hfind1 : find (caches s1 d bn) l = Some b).
  { rewrite <- Hfind. apply find_ext_in. intros q _.
    apply (caches_put s b bb (released now bb) d bn q Hb); reflexivity. }
  destruct (bget_cached pid2 d bn now2 s1 l b _ (haskBlock_range bn Hbn)
              Hl1 Hfind1 Hb1) as (_ & _ & Hfree & _).
  specialize (Hfree eq_refl).
  eexists. eexists. eexists.
  split; [exact Erel|]. split; [exact Hfree|].
  split; [apply (get_put_eq s1 b _ _ Hb1)|].
  split; [reflexivity|].
  split; [cbn [refcnt set_lock set_refcnt released];
          rewrite to_uint_decr_incr; apply to_uint_id, Hr|].
  split; [reflexivity|]. split; [reflexivity|].
  split; [unfold s1; rewrite !iolog_put; reflexivity|].
  intros Hv.
  apply (bread_valid pid2 d bn now2 s1 b _ _ Hfree (get_put_eq s1 b _ _ Hb1)).
  exact Hv.
Qed.

(** ** Paths of linked nodes *)

Ltac list_mem :=
  repeat (rewrite elem_of_cons in * || rewrite elem_of_app in * ||
          rewrite elem_of_nil in * );
  intuition (subst; auto; congruence).

Lemma last_cons {A} (l : list A) : forall y a,
  List.last (y :: l) a = List.last l y.
Proof.
  induction l as [|z l IH]; intros y a; [reflexivity|].
  change (List.last (y :: z :: l) a) with (List.last (z :: l) a).
  rewrite (IH z a), (IH z y). reflexivity.
Qed.

Lemma last_elem {A} (l : list A) : forall a, List.last l a ∈ a :: l.
Proof.
  induction l as [|y l IH]; intros a; [list_mem|].
  rewrite last_cons. specialize (IH y). list_mem.
Qed.

Lemma hd_elem {A} (l : list A) c : List.hd c l ∈ l ++ [c].
Proof. destruct l; simpl; list_mem. Qed.

Section PathFacts.

Variables N P N' P' : ptr -> option ptr.

Lemma path_ext a l c :
  (forall x, x ∈ a :: l -> N' x = N x) ->
  (forall y, y ∈ l ++ [c] -> P' y = P y) ->
  path N P a l c -> path N' P' a l c.
Proof.
  revert a. induction l as [|x l IH]; intros a HN HP; simpl.
  - intros [H1 H2]. split.
    + rewrite HN by list_mem. exact H1.
    + rewrite HP by list_mem. exact H2.
  - intros [[H1 H2] Hp]. split; [split|].
    + rewrite HN by list_mem. exact H1.
    + rewrite HP by list_mem. exact H2.
    + apply IH; [intros y Hy; apply HN | intros y Hy; apply HP | exact Hp];
        list_mem.
Qed.

Lemma path_ends b c l2 : forall l1 a,
  path N P a (l1 ++ b :: l2) c ->
  N (List.last l1 a) = Some b /\ P b = Some (List.last l1 a) /\
  N b = Some (List.hd c l2) /\ P (List.hd c l2) = Some b.
Proof.
  induction l1 as [|y l1 IH]; intros a Hp.
  - simpl in Hp. destruct Hp as [[H1 H2] Hp]. split; [exact H1|].
    split; [exact H2|]. destruct l2 as [|x l2]; simpl in *.
    + exact Hp.
    + destruct Hp as [Hl _]. exact Hl.
  - destruct Hp as [_ Hp]. specialize (IH y Hp).
    rewrite last_cons. exact IH.
Qed.

(** Taking [b] out: its neighbours are linked to each other. *)
Lemma path_unlink b c l2 : forall l1 a,
  NoDup (a :: l1 ++ b :: l2) -> NoDup (l1 ++ b :: l2 ++ [c]) ->
  N' (List.last l1 a) = Some (List.hd c l2) ->
  (forall q, q <> List.last l1 a -> N' q = N q) ->
  P' (List.hd c l2) = Some (List.last l1 a) ->
  (forall q, q <> List.hd c l2 -> P' q = P q) ->
  path N P a (l1 ++ b :: l2) c -> path N' P' a (l1 ++ l2) c.
Proof.
  induction l1 as [|y l1 IH]; intros a HS HT HN1 HN HP1 HP Hp.
  - simpl in *. destruct Hp as [_ Hp].
    apply NoDup_cons in HS as [Ha HS]. apply NoDup_cons in HT as [Hb HT].
    destruct l2 as [|x l2]; simpl in *.
    + split; assumption.
    + destruct Hp as [_ Hp]. split; [split; assumption|].
      apply NoDup_cons in HT as [Hx HT].
      apply (path_ext x l2 c); [| |exact Hp].
      * intros z Hz. apply HN. intros ->. apply Ha. list_mem.
      * intros z Hz. apply HP. intros ->. apply Hx, Hz.
  - rewrite last_cons in *.
    change ((y :: l1) ++ b :: l2) with (y :: (l1 ++ b :: l2)) in *.
    change ((y :: l1) ++ l2) with (y :: (l1 ++ l2)).
    destruct Hp as [[H1 H2] Hp].
    apply NoDup_cons in HS as [Ha HS].
    pose proof HT as HT0.
    change ((y :: l1) ++ b :: l2 ++ [c]) with (y :: (l1 ++ b :: l2 ++ [c])) in HT.
    apply NoDup_cons in HT as [Hy HT].
    split; [split|].
    + rewrite HN; [exact H1|]. intros ->. apply Ha.
      pose proof (last_elem l1 y). list_mem.
    + rewrite HP; [exact H2|]. intros ->. apply Hy.
      pose proof (hd_elem l2 c). list_mem.
    + apply (IH y HS HT HN1 HN HP1 HP Hp).
Qed.

(** Putting [b] in right after the head [h] of a ring. *)
Lemma path_link_first h b lt :
  b ∉ h :: lt -> NoDup (h :: lt) ->
  N' h = Some b -> N' b = Some (List.hd h lt) ->
  (forall q, q <> h -> q <> b -> N' q = N q) ->
  P' b = Some h -> P' (List.hd h lt) = Some b ->
  (forall q, q <> b -> q <> List.hd h lt -> P' q = P q) ->
  path N P h lt h -> path N' P' h (b :: lt) h.
Proof.
  intros Hb Hnd HNh HNb HN HPb HPf HP Hp.
  split; [split; assumption|].
  destruct lt as [|x lt]; simpl in *.
  - split; assumption.
  - destruct Hp as [_ Hp]. split; [split; assumption|].
    apply NoDup_cons in Hnd as [Hh Hnd]. apply NoDup_cons in Hnd as [Hx Hnd].
    apply (path_ext x lt h); [| |exact Hp].
    + intros z Hz. apply HN; intros ->; list_mem.
    + intros z Hz. apply HP; intros ->; list_mem.
Qed.

End PathFacts.

(** ** How the updates of links change a state *)

Lemma fmap_get_put {A} (g : buf -> A) s p b b0 q :
  get s p = Some b0 ->
  g <$> get (put s p b) q
  = if decide (q = p) then Some (g b) else g <$> get s q.
Proof.
  intros H. rewrite (get_put_if s p b b0 q H).
  destruct (decide (p = q)) as [->|Hne].
  - rewrite decide_True by reflexivity. reflexivity.
  - rewrite decide_False by congruence. reflexivity.
Qed.

Lemma fmap_get_put_same {A} (g : buf -> A) s p b b0 q :
  get s p = Some b0 -> g b = g b0 ->
  g <$> get (put s p b) q = g <$> get s q.
Proof.
  intros H Hg. rewrite (fmap_get_put g s p b b0 q H).
  destruct (decide (q = p)) as [->|]; [|reflexivity].
  rewrite H. simpl. rewrite Hg. reflexivity.
Qed.

Lemma put_defined s p b b0 q z :
  get s p = Some b0 -> get s q = Some z -> exists z', get (put s p b) q = Some z'.
Proof.
  intros H Hq. rewrite (get_put_if s p b b0 q H).
  destruct (decide (p = q)); eauto.
Qed.

Lemma next_of_set_next s p v b0 q :
  get s p = Some b0 ->
  next_of (put s p (set_next v b0)) q
  = if decide (q = p) then Some v else next_of s q.
Proof. intros H. exact (fmap_get_put next s p (set_next v b0) b0 q H). Qed.

Lemma next_of_set_prev s p v b0 q :
  get s p = Some b0 -> next_of (put s p (set_prev v b0)) q = next_of s q.
Proof.
  intros H. exact (fmap_get_put_same next s p (set_prev v b0) b0 q H eq_refl).
Qed.

Lemma prev_of_set_prev s p v b0 q :
  get s p = Some b0 ->
  prev_of (put s p (set_prev v b0)) q
  = if decide (q = p) then Some v else prev_of s q.
Proof. intros H. exact (fmap_get_put prev s p (set_prev v b0) b0 q H). Qed.

Lemma prev_of_set_next s p v b0 q :
  get s p = Some b0 -> prev_of (put s p (set_next v b0)) q = prev_of s q.
Proof.
  intros H. exact (fmap_get_put_same prev s p (set_next v b0) b0 q H eq_refl).
Qed.

Lemma same_payload_refl s : same_payload s s.
Proof. repeat split. Qed.

Lemma same_payload_trans a b c :
  same_payload a b -> same_payload b c -> same_payload a c.
Proof.
  intros (A1 & A2 & A3 & A4 & A5) (B1 & B2 & B3 & B4 & B5).
  split; [congruence|]. split; [congruence|]. split; [congruence|].
  split; [congruence|]. intros q. rewrite B5. apply A5.
Qed.

Lemma same_payload_put s p b b0 :
  get s p = Some b0 -> payload b = payload b0 -> same_payload s (put s p b).
Proof.
  intros H Hp.
  split; [apply length_bufs_put|]. split; [apply length_buckets_put|].
  split; [apply disk_put|]. split; [apply iolog_put|].
  intros q. apply (fmap_get_put_same payload s p b b0 q H Hp).
Qed.

Lemma unlink_effect s b bb x y :
  get s b = Some bb -> get s (prev bb) = Some x -> get s (next bb) = Some y ->
  prev bb <> b ->
  exists s', unlink b s = Ret tt s' /\
    (forall q, next_of s' q
               = if decide (q = prev bb) then Some (next bb) else next_of s q) /\
    (forall q, prev_of s' q
               = if decide (q = next bb) then Some (prev bb) else prev_of s q) /\
    same_payload s s'.
Proof.
  intros Hb Hx Hy Hne. unfold unlink, bind.
  rewrite (deref_ok s b bb Hb), (upd_ok s (prev bb) _ x Hx).
  set (s1 := put s (prev bb) (set_next (next bb) x)).
  assert (Hb1 : get s1 b = Some bb)
    by (unfold s1; rewrite get_put_ne by exact Hne; exact Hb).
  rewrite (deref_ok s1 b bb Hb1).
  destruct (put_defined s (prev bb) (set_next (next bb) x) x (next bb) y Hx Hy)
    as [y1 Hy1].
  fold s1 in Hy1. rewrite (upd_ok s1 (next bb) _ y1 Hy1).
  eexists. split; [reflexivity|]. split; [|split].
  - intros q. rewrite (next_of_set_prev s1 _ _ y1 q Hy1).
    apply (next_of_set_next s _ _ x q Hx).
  - intros q. rewrite (prev_of_set_prev s1 _ _ y1 q Hy1).
    destruct (decide (q = next bb)); [reflexivity|].
    apply (prev_of_set_next s _ _ x q Hx).
  - apply (same_payload_trans _ s1).
    + apply (same_payload_put s _ _ x Hx). reflexivity.
    + apply (same_payload_put s1 _ _ y1 Hy1). reflexivity.
Qed.

Lemma link_first_effect s h b hd bb y :
  get s h = Some hd -> get s b = Some bb -> get s (next hd) = Some y ->
  b <> h ->
  exists s', link_first h b s = Ret tt s' /\
    (forall q, next_of s' q
               = if decide (q = h) then Some b
                 else if decide (q = b) then Some (next hd)
                 else next_of s q) /\
    (forall q, prev_of s' q
               = if decide (q = b) then Some h
                 else if decide (q = next hd) then Some b
                 else prev_of s q) /\
    same_payload s s'.
Proof.
  intros Hh Hb Hy Hne. unfold link_first, bind.
  rewrite (deref_ok s h hd Hh), (upd_ok s b _ bb Hb).
  set (s1 := put s b (set_next (next hd) bb)).
  destruct (put_defined s b (set_next (next hd) bb) bb h hd Hb Hh) as [hd1 Hh1].
  fold s1 in Hh1. rewrite (upd_ok s1 h _ hd1 Hh1).
  set (s2 := put s1 h (set_next b hd1)).
  assert (Hnext2 : forall q, next_of s2 q
                     = if decide (q = h) then Some b
                       else if decide (q = b) then Some (next hd)
                       else next_of s q).
  { intros q. unfold s2. rewrite (next_of_set_next s1 h b hd1 q Hh1).
    destruct (decide (q = h)); [reflexivity|].
    apply (next_of_set_next s b _ bb q Hb). }
  assert (Hprev2 : forall q, prev_of s2 q = prev_of s q).
  { intros q. unfold s2. rewrite (prev_of_set_next s1 h b hd1 q Hh1).
    apply (prev_of_set_next s b _ bb q Hb). }
  assert (Hn2 : next <$> get s2 b = Some (next hd)).
  { pose proof (Hnext2 b) as E. unfold next_of in E. rewrite E.
    rewrite decide_False by exact Hne. rewrite decide_True by reflexivity.
    reflexivity. }
  destruct (fmap_Some_get next s2 b _ Hn2) as (bb2 & Hb2 & Hnx2).
  rewrite (deref_ok s2 b bb2 Hb2), Hnx2.
  destruct (put_defined s b (set_next (next hd) bb) bb (next hd) y Hb Hy)
    as [y1 Hy1].
  fold s1 in Hy1.
  destruct (put_defined s1 h (set_next b hd1) hd1 (next hd) y1 Hh1 Hy1)
    as [y2 Hy2].
  fold s2 in Hy2. rewrite (upd_ok s2 (next hd) _ y2 Hy2).
  set (s3 := put s2 (next hd) (set_prev b y2)).
  destruct (put_defined s2 (next hd) (set_prev b y2) y2 b bb2 Hy2 Hb2)
    as [bb3 Hb3].
  fold s3 in Hb3. rewrite (upd_ok s3 b _ bb3 Hb3).
  eexists. split; [reflexivity|]. split; [|split].
  - intros q. rewrite (next_of_set_prev s3 _ _ bb3 q Hb3).
    unfold s3. rewrite (next_of_set_prev s2 _ _ y2 q Hy2). apply Hnext2.
  - intros q. rewrite (prev_of_set_prev s3 _ _ bb3 q Hb3).
    destruct (decide (q = b)); [reflexivity|].
    unfold s3. rewrite (prev_of_set_prev s2 _ _ y2 q Hy2).
    destruct (decide (q = next hd)); [reflexivity|]. apply Hprev2.
  - apply (same_payload_trans _ s1);
      [apply (same_payload_put s _ _ bb Hb); reflexivity|].
    apply (same_payload_trans _ s2);
      [apply (same_payload_put s1 _ _ hd1 Hh1); reflexivity|].
    apply (same_payload_trans _ s3);
      [apply (same_payload_put s2 _ _ y2 Hy2); reflexivity|].
    apply (same_payload_put s3 _ _ bb3 Hb3). reflexivity.
Qed.

(** ** Rings and the lists the loops go through *)

Lemma path_first N P a l c : path N P a l c -> N a = Some (List.hd c l).
Proof. destruct l; simpl; [intros [H _] | intros [[H _] _]]; exact H. Qed.

Lemma path_chain s c : forall l a p fuel,
  path (next_of s) (prev_of s) a l c -> c ∉ l -> next_of s a = Some p ->
  (length l <= fuel)%nat -> chain fuel c p s = Some l.
Proof.
  induction l as [|x l IH]; intros a p fuel Hp Hc Ha Hfuel.
  - destruct Hp as [H _]. rewrite H in Ha. injection Ha as <-.
    destruct fuel; simpl; rewrite decide_True by reflexivity; reflexivity.
  - destruct Hp as [[H _] Hp]. rewrite H in Ha. injection Ha as <-.
    destruct fuel as [|fuel]; [simpl in Hfuel; lia|]. simpl.
    rewrite decide_False by (intros ->; apply Hc; list_mem).
    pose proof (path_first _ _ _ _ _ Hp) as Hx.
    destruct (fmap_Some_get next s x _ Hx) as (bx & Hbx & Hnx).
    rewrite Hbx.
    rewrite (IH x (next bx) fuel Hp);
      [reflexivity | list_mem | |simpl in Hfuel; lia].
    unfold next_of. rewrite Hbx. reflexivity.
Qed.

Lemma ring_shard s i ks : ring s i ks -> shard s i = Some (map BUF ks).
Proof.
  intros Hr. unfold shard.
  pose proof (path_first _ _ _ _ _ Hr) as Hh.
  destruct (fmap_Some_get next s _ _ Hh) as (hd & Hhd & Hn).
  rewrite Hhd.
  apply (chain_fuel_enough (length (map BUF ks))).
  apply (path_chain s _ _ (BUCKET i)); [exact Hr | | |reflexivity].
  - intros Hin. apply list_elem_of_fmap in Hin as (k & E & _). discriminate E.
  - unfold next_of. rewrite Hhd. reflexivity.
Qed.

(** The scan list of the victim search. *)
Lemma pool_of_rings s (sh : nat -> list nat) : forall ids,
  (forall i, i ∈ ids -> ring s i (sh i)) ->
  exists L, pool_of s ids = Some L /\
    forall i p, (i, p) ∈ L <-> i ∈ ids /\ exists k, p = BUF k /\ k ∈ sh i.
Proof.
  induction ids as [|i ids IH]; intros Hr.
  - exists []. split; [reflexivity|]. intros j p. list_mem.
  - destruct IH as (L & HL & Hmem); [intros j Hj; apply Hr; list_mem|].
    exists (map (pair i) (map BUF (sh i)) ++ L). split.
    + simpl. rewrite (ring_shard s i (sh i)) by (apply Hr; list_mem).
      rewrite HL. reflexivity.
    + intros j p. rewrite elem_of_app, Hmem, elem_of_cons. split.
      * intros [Hin | (Hj & k & -> & Hk)].
        -- apply list_elem_of_fmap in Hin as (q & E & Hq). injection E as -> ->.
           apply list_elem_of_fmap in Hq as (k & -> & Hk). eauto.
        -- eauto.
      * intros ([-> | Hj] & k & -> & Hk).
        -- left. apply list_elem_of_fmap. exists (BUF k). split; [reflexivity|].
           apply list_elem_of_fmap. eauto.
        -- right. eauto.
Qed.

Lemma wf_pool s sh :
  wf s sh ->
  exists L, pool s = Some L /\
    forall i p, (i, p) ∈ L <->
                (i < Z.to_nat NBUCKETS)%nat /\ exists k, p = BUF k /\ k ∈ sh i.
Proof.
  intros Hwf.
  destruct (pool_of_rings s sh (seq 0 (Z.to_nat NBUCKETS))) as (L & HL & Hmem).
  - intros i Hi. apply elem_of_seq in Hi. apply (wf_ring s sh Hwf). lia.
  - exists L. split; [exact HL|]. intros i p. rewrite Hmem, elem_of_seq.
    split; intros [Hi Hk]; (split; [lia | exact Hk]).
Qed.

(** Where the victim search has its candidate from. *)
Lemma fold_consider_origin s L : forall st,
  (bMin (fold_left (consider s) L st) = bMin st /\
   minId (fold_left (consider s) L st) = minId st) \/
  (exists i, (i, bMin (fold_left (consider s) L st)) ∈ L /\
             minId (fold_left (consider s) L st) = Z.of_nat i).
Proof.
  induction L as [|x L IH]; intros st; simpl; [left; split; reflexivity|].
  destruct (IH (consider s st x)) as [[Hb Hm] | (i & Hin & Hm)].
  - rewrite Hb, Hm. unfold consider.
    destruct (get s (snd x)) as [b|]; [|left; split; reflexivity].
    destruct (better b st); [|left; split; reflexivity].
    right. exists (fst x). simpl. split; [|reflexivity].
    destruct x. simpl. list_mem.
  - right. exists i. split; [list_mem | exact Hm].
Qed.

(** ** Changes that leave the shards alone *)

Lemma wf_same_links s s' sh :
  wf s sh ->
  (forall q, next_of s' q = next_of s q) ->
  (forall q, prev_of s' q = prev_of s q) ->
  length (bufs s') = length (bufs s) ->
  length (buckets s') = length (buckets s) ->
  (forall k, blockno <$> get s' (BUF k) = blockno <$> get s (BUF k)) ->
  wf s' sh.
Proof.
  intros [W1 W2 W3 W4 W5 W6 W7] HN HP Hb Hk Hbn. constructor.
  - rewrite Hk. exact W1.
  - intros i Hi. apply (path_ext (next_of s) (prev_of s)); [| |apply W2, Hi].
    + intros x _. apply HN.
    + intros x _. apply HP.
  - exact W3.
  - exact W4.
  - intros i k Hi Hin. rewrite Hb. apply (W5 i k Hi Hin).
  - intros k Hlt. rewrite Hb in Hlt. apply (W6 k Hlt).
  - intros i k bb Hi Hin Hget. specialize (Hbn k). rewrite Hget in Hbn.
    destruct (get s (BUF k)) as [b0|] eqn:H0; [|discriminate].
    simpl in Hbn. injection Hbn as Hbn. rewrite Hbn. apply (W7 i k b0 Hi Hin H0).
Qed.

Lemma wf_put s sh p b b0 :
  wf s sh -> get s p = Some b0 ->
  next b = next b0 -> prev b = prev b0 -> blockno b = blockno b0 ->
  wf (put s p b) sh.
Proof.
  intros Hwf Hp Hn Hv Hbn. apply (wf_same_links s); [exact Hwf|..].
  - intros q. apply (fmap_get_put_same next s p b b0 q Hp Hn).
  - intros q. apply (fmap_get_put_same prev s p b b0 q Hp Hv).
  - apply length_bufs_put.
  - apply length_buckets_put.
  - intros k. apply (fmap_get_put_same blockno s p b b0 (BUF k) Hp Hbn).
Qed.

(** ** [binit] builds the shards *)

Lemma binit_buckets_built n :
  exists s1, binit_buckets (seq 0 (Z.to_nat NBUCKETS)) (boot n) = Ret tt s1 /\
             built n 0 s1.
Proof.
  exists (mkCache (replicate n zero_buf) zero_buf
            (map (fun i => set_next (BUCKET i) (set_prev (BUCKET i) zero_buf))
                 (seq 0 (Z.to_nat NBUCKETS)))
            ∅ []).
  split; [reflexivity|].
  split; [apply length_replicate|]. split; [reflexivity|].
  split; [split; reflexivity|]. split.
  - intros i Hi. unfold NBUCKETS in Hi.
    do 13 (destruct i as [|i]; [first [lia | split; reflexivity]|]).
    lia.
  - intros j Hj. cbn [get bufs].
    rewrite (lookup_replicate_2 n zero_buf j Hj). reflexivity.
Qed.

Lemma binit_buf_links now k s bk X :
  get s (BUF k) = Some bk -> blockno bk = 0 ->
  next_of s (BUCKET 0) = Some X -> X <> BUF k ->
  (exists x, get s X = Some x) ->
  exists s', binit_buf now k s = Ret tt s' /\
    (forall q, next_of s' q
               = if decide (q = BUCKET 0) then Some (BUF k)
                 else if decide (q = BUF k) then Some X
                 else next_of s q) /\
    (forall q, prev_of s' q
               = if decide (q = X) then Some (BUF k)
                 else if decide (q = BUF k) then Some (BUCKET 0)
                 else prev_of s q) /\
    (forall q, blockno <$> get s' q = blockno <$> get s q) /\
    length (bufs s') = length (bufs s) /\
    length (buckets s') = length (buckets s).
Proof.
  intros Hbk Hbn HX Hne [x Hx].
  destruct (fmap_Some_get next s _ _ HX) as (hd & Hhd & Hnx).
  set (b := BUF k). set (h := BUCKET 0).
  unfold binit_buf, bind. rewrite (deref_ok s _ bk Hbk), Hbn.
  change (bucket_ptr (haskBlock 0) s) with (Ret (S := bcache) h s).
  cbv beta iota. fold b.
  rewrite (deref_ok s h hd Hhd), Hnx.
  rewrite (upd_ok s b _ bk Hbk).
  set (s1 := put s b (set_next X bk)).
  pose proof (get_put_eq s b (set_next X bk) bk Hbk) as Hb1. fold s1 in Hb1.
  rewrite (upd_ok s1 b _ _ Hb1).
  set (s2 := put s1 b (set_prev h (set_next X bk))).
  pose proof (get_put_eq s1 b (set_prev h (set_next X bk)) _ Hb1) as Hb2.
  fold s2 in Hb2.
  unfold initsleeplock. rewrite (upd_ok s2 b _ _ Hb2).
  set (b3 := set_lock None (set_prev h (set_next X bk))).
  set (s3 := put s2 b b3).
  pose proof (get_put_eq s2 b b3 _ Hb2) as Hb3. fold s3 in Hb3.
  assert (Hh3 : get s3 h = Some hd).
  { unfold s3, s2, s1. rewrite !get_put_ne by discriminate. exact Hhd. }
  rewrite (deref_ok s3 h hd Hh3), Hnx.
  assert (Hx3 : get s3 X = Some x).
  { unfold s3, s2, s1.
    rewrite !get_put_ne by (intros E; apply Hne; symmetry; exact E).
    exact Hx. }
  rewrite (upd_ok s3 X _ x Hx3).
  set (s4 := put s3 X (set_prev b x)).
  destruct (put_defined s3 X (set_prev b x) x h hd Hx3 Hh3) as [hd4 Hh4].
  fold s4 in Hh4. rewrite (upd_ok s4 h _ hd4 Hh4).
  set (s5 := put s4 h (set_next b hd4)).
  assert (Hb5 : get s5 b = Some b3).
  { unfold s5, s4.
    rewrite !get_put_ne by (first [discriminate | exact Hne]).
    exact Hb3. }
  rewrite (upd_ok s5 b _ b3 Hb5).
  set (s6 := put s5 b (set_ticks now b3)).
  assert (N1 : forall q, next_of s1 q
                         = if decide (q = b) then Some X else next_of s q)
    by (intros q; exact (next_of_set_next s b X bk q Hbk)).
  assert (N2 : forall q, next_of s2 q = next_of s1 q)
    by (intros q; exact (next_of_set_prev s1 b h _ q Hb1)).
  assert (N3 : forall q, next_of s3 q = next_of s2 q)
    by (intros q; exact (fmap_get_put_same next s2 b b3 _ q Hb2 eq_refl)).
  assert (N4 : forall q, next_of s4 q = next_of s3 q)
    by (intros q; exact (next_of_set_prev s3 X b x q Hx3)).
  assert (N5 : forall q, next_of s5 q
                         = if decide (q = h) then Some b else next_of s4 q)
    by (intros q; exact (next_of_set_next s4 h b hd4 q Hh4)).
  assert (N6 : forall q, next_of s6 q = next_of s5 q)
    by (intros q;
        exact (fmap_get_put_same next s5 b (set_ticks now b3) b3 q Hb5 eq_refl)).
  assert (P1 : forall q, prev_of s1 q = prev_of s q)
    by (intros q; exact (prev_of_set_next s b X bk q Hbk)).
  assert (P2 : forall q, prev_of s2 q
                         = if decide (q = b) then Some h else prev_of s1 q)
    by (intros q; exact (prev_of_set_prev s1 b h _ q Hb1)).
  assert (P3 : forall q, prev_of s3 q = prev_of s2 q)
    by (intros q; exact (fmap_get_put_same prev s2 b b3 _ q Hb2 eq_refl)).
  assert (P4 : forall q, prev_of s4 q
                         = if decide (q = X) then Some b else prev_of s3 q)
    by (intros q; exact (prev_of_set_prev s3 X b x q Hx3)).
  assert (P5 : forall q, prev_of s5 q = prev_of s4 q)
    by (intros q; exact (prev_of_set_next s4 h b hd4 q Hh4)).
  assert (P6 : forall q, prev_of s6 q = prev_of s5 q)
    by (intros q;
        exact (fmap_get_put_same prev s5 b (set_ticks now b3) b3 q Hb5 eq_refl)).
  exists s6. split; [reflexivity|].
  split; [|split; [|split; [|split]]].
  - intros q. rewrite N6, N5.
    destruct (decide (q = h)); [reflexivity|].
    rewrite N4, N3, N2, N1. reflexivity.
  - intros q. rewrite P6, P5, P4.
    destruct (decide (q = X)); [reflexivity|].
    rewrite P3, P2. destruct (decide (q = b)); [reflexivity|]. apply P1.
  - intros q. unfold s6.
    rewrite (fmap_get_put_same blockno s5 b (set_ticks now b3) b3 q Hb5 eq_refl).
    unfold s5.
    rewrite (fmap_get_put_same blockno s4 h (set_next b hd4) hd4 q Hh4 eq_refl).
    unfold s4.
    rewrite (fmap_get_put_same blockno s3 X (set_prev b x) x q Hx3 eq_refl).
    unfold s3.
    rewrite (fmap_get_put_same blockno s2 b b3 _ q Hb2 eq_refl).
    unfold s2.
    rewrite (fmap_get_put_same blockno s1 b (set_prev h (set_next X bk)) _ q
               Hb1 eq_refl).
    exact (fmap_get_put_same blockno s b (set_next X bk) bk q Hbk eq_refl).
  - unfold s6, s5, s4, s3, s2, s1. rewrite !length_bufs_put. reflexivity.
  - unfold s6, s5, s4, s3, s2, s1. rewrite !length_buckets_put. reflexivity.
Qed.

Lemma rev_seq_S k : rev (seq 0 (S k)) = k :: rev (seq 0 k).
Proof. rewrite seq_S, rev_app_distr. reflexivity. Qed.

Lemma elem_of_rev_seq k j : j ∈ rev (seq 0 k) <-> (j < k)%nat.
Proof.
  rewrite list_elem_of_In, <- in_rev, <- list_elem_of_In, elem_of_seq. lia.
Qed.

Lemma NoDup_rev_seq k : NoDup (rev (seq 0 k)).
Proof. apply NoDup_ListNoDup, List.NoDup_rev, List.seq_NoDup. Qed.

Lemma NoDup_ring_nodes i ks :
  NoDup ks -> NoDup (BUCKET i :: map BUF ks).
Proof.
  intros H. apply NoDup_cons. split.
  - intros Hin. apply list_elem_of_fmap in Hin as (k & E & _). discriminate E.
  - apply NoDup_fmap_2; [|exact H]. intros x y E. injection E as ->. reflexivity.
Qed.

Lemma binit_bufs_built now n : forall m k s,
  (k + m = n)%nat -> built n k s ->
  exists s', binit_bufs now (seq k m) s = Ret tt s' /\ built n n s'.
Proof.
  induction m as [|m IH]; intros k s Hkm Hb.
  - exists s. split; [reflexivity|].
    assert (k = n) as <- by lia. exact Hb.
  - destruct Hb as (Hbufs & Hbuckets & Hr0 & Hempty & Hblk).
    destruct (fmap_Some_get _ _ _ _ (Hblk k ltac:(lia))) as (bk & Hbk & Hbn).
    pose proof (path_first _ _ _ _ _ Hr0) as HX.
    set (X := List.hd (BUCKET 0) (map BUF (rev (seq 0 k)))) in *.
    assert (HXin : X ∈ map BUF (rev (seq 0 k)) ++ [BUCKET 0])
      by apply hd_elem.
    assert (Hne : X <> BUF k).
    { intros E. rewrite E in HXin. apply elem_of_app in HXin as [Hin | Hin].
      - apply list_elem_of_fmap in Hin as (j & [= <-] & Hj).
        apply elem_of_rev_seq in Hj. lia.
      - apply elem_of_cons in Hin as [Hin | Hin]; [discriminate|].
        apply elem_of_nil in Hin. contradiction. }
    assert (Hdef : exists x, get s X = Some x).
    { apply elem_of_app in HXin as [Hin | Hin].
      - apply list_elem_of_fmap in Hin as (j & -> & Hj).
        apply elem_of_rev_seq in Hj.
        destruct (fmap_Some_get _ _ _ _ (Hblk j ltac:(lia))) as (x & Hx & _).
        eauto.
      - apply elem_of_cons in Hin as [-> | Hin];
          [|apply elem_of_nil in Hin; contradiction].
        destruct (fmap_Some_get _ _ _ _ HX) as (x & Hx & _). eauto. }
    destruct (binit_buf_links now k s bk X Hbk Hbn HX Hne Hdef)
      as (s1 & E1 & GN & GP & Gblk & Glen1 & Glen2).
    destruct (IH (S k) s1 ltac:(lia)) as (s' & E' & Hb').
    + split; [congruence|]. split; [congruence|].
      split; [|split].
      * unfold ring. rewrite rev_seq_S. cbn [map].
        apply (path_link_first (next_of s) (prev_of s)); [| | | | | | |
          |exact Hr0].
        -- intros Hin. apply elem_of_cons in Hin as [Hin | Hin];
             [discriminate|].
           apply list_elem_of_fmap in Hin as (j & [= <-] & Hj).
           apply elem_of_rev_seq in Hj. lia.
        -- apply NoDup_ring_nodes, NoDup_rev_seq.
        -- rewrite GN. rewrite decide_True by reflexivity. reflexivity.
        -- rewrite GN. rewrite decide_False by discriminate.
           rewrite decide_True by reflexivity. reflexivity.
        -- intros q Hq1 Hq2. rewrite GN.
           rewrite decide_False by exact Hq1.
           rewrite decide_False by exact Hq2. reflexivity.
        -- rewrite GP. rewrite decide_False by congruence.
           rewrite decide_True by reflexivity. reflexivity.
        -- rewrite GP. rewrite decide_True by reflexivity. reflexivity.
        -- intros q Hq1 Hq2. rewrite GP.
           rewrite decide_False by exact Hq2.
           rewrite decide_False by exact Hq1. reflexivity.
      * intros i Hi. specialize (Hempty i Hi). destruct Hempty as [H1 H2].
        assert (HXi : X <> BUCKET i).
        { intros E. rewrite E in HXin.
          apply elem_of_app in HXin as [Hin | Hin].
          - apply list_elem_of_fmap in Hin as (j & Ej & _). discriminate Ej.
          - apply elem_of_cons in Hin as [[= ->] | Hin]; [lia|].
            apply elem_of_nil in Hin. contradiction. }
        split.
        -- rewrite GN. rewrite decide_False by (intros [= ->]; lia).
           rewrite decide_False by discriminate. exact H1.
        -- rewrite GP. rewrite decide_False by congruence.
           rewrite decide_False by discriminate. exact H2.
      * intros j Hj. rewrite Gblk. apply Hblk, Hj.
    + exists s'. split; [|exact Hb'].
      change (seq k (S m)) with (k :: seq (S k) m).
      cbn [binit_bufs]. unfold bind. rewrite E1. exact E'.
Qed.

Lemma binit_wf now n :
  exists s, binit now (boot n) = Ret tt s /\ length (bufs s) = n /\
            wf s (fun i => match i with O => rev (seq 0 n) | _ => [] end).
Proof.
  destruct (binit_buckets_built n) as (s1 & E1 & Hb1).
  destruct (binit_bufs_built now n n 0 s1 eq_refl Hb1)
    as (s & E & Hbufs & Hbuckets & Hr0 & Hempty & Hblk).
  exists s. split; [|split; [exact Hbufs|]].
  { unfold binit, bind. rewrite E1.
    replace (length (bufs (boot n))) with n
      by (symmetry; apply length_replicate).
    exact E. }
  constructor.
  - exact Hbuckets.
  - intros [|i] Hi; [exact Hr0 | apply Hempty; lia].
  - intros [|i] _; [apply NoDup_rev_seq | apply NoDup_nil_2].
  - intros [|i] [|j] k _ _ Hi Hj; try reflexivity;
      apply elem_of_nil in Hi || apply elem_of_nil in Hj; contradiction.
  - intros [|i] k _ Hk; [|apply elem_of_nil in Hk; contradiction].
    apply elem_of_rev_seq in Hk. lia.
  - intros k Hk. exists 0%nat. split; [unfold NBUCKETS; lia|].
    apply elem_of_rev_seq. lia.
  - intros [|i] k bb _ Hk Hget; [|apply elem_of_nil in Hk; contradiction].
    apply elem_of_rev_seq in Hk. specialize (Hblk k ltac:(lia)).
    rewrite Hget in Hblk. injection Hblk as ->. reflexivity.
Qed.

(** ** Moving a buffer to another shard *)

Section Move.

Variables N P N3 P3 : ptr -> option ptr.
Variable sh : nat -> list nat.
Variables i t k : nat.
Variables l1 l2 : list nat.

Let nb := Z.to_nat NBUCKETS.
Let b := BUF k.
Let h := BUCKET t.
Let pr := List.last (map BUF l1) (BUCKET i).
Let nx := List.hd (BUCKET i) (map BUF l2).
Let f := List.hd (BUCKET t) (map BUF (sh t)).

Hypothesis Hi : (i < nb)%nat.
Hypothesis Ht : (t < nb)%nat.
Hypothesis Hit : i <> t.
Hypothesis Hsplit : sh i = l1 ++ k :: l2.
Hypothesis Hring : forall j, (j < nb)%nat ->
  path N P (BUCKET j) (map BUF (sh j)) (BUCKET j).
Hypothesis Hnodup : forall j, (j < nb)%nat -> NoDup (sh j).
Hypothesis Hapart : forall j j' x, (j < nb)%nat -> (j' < nb)%nat ->
  x ∈ sh j -> x ∈ sh j' -> j = j'.
Hypothesis HN3 : forall q,
  N3 q = if decide (q = h) then Some b
         else if decide (q = b) then Some f
         else if decide (q = pr) then Some nx
         else N q.
Hypothesis HP3 : forall q,
  P3 q = if decide (q = b) then Some h
         else if decide (q = f) then Some b
         else if decide (q = nx) then Some pr
         else P q.

Lemma move_k_in : k ∈ sh i.
Proof. rewrite Hsplit. list_mem. Qed.

Lemma move_k_out : (k ∉ l1) /\ (k ∉ l2) /\ NoDup (l1 ++ l2).
Proof.
  pose proof (Hnodup i Hi) as Hnd. rewrite Hsplit in Hnd.
  apply NoDup_app in Hnd as (Hn1 & Hdis & Hn2).
  apply NoDup_cons in Hn2 as [Hk2 Hn2].
  split; [|split].
  - intros Hin. apply (Hdis k Hin). list_mem.
  - exact Hk2.
  - apply NoDup_app. split; [exact Hn1|]. split; [|exact Hn2].
    intros x Hx1 Hx2. apply (Hdis x Hx1). list_mem.
Qed.

Lemma moved_elem j x :
  (j < nb)%nat ->
  x ∈ moved sh i t k l1 l2 j <-> (x = k /\ j = t) \/ (x <> k /\ x ∈ sh j).
Proof.
  intros Hj. destruct move_k_out as (Hk1 & Hk2 & _).
  pose proof move_k_in as Hki. unfold moved.
  destruct (decide (j = i)) as [->|Hji].
  - rewrite Hsplit. split.
    + intros Hx. right. split; [intros ->|]; list_mem.
    + intros [[-> E] | [Hne Hx]]; [congruence|]. list_mem.
  - destruct (decide (j = t)) as [->|Hjt].
    + split.
      * intros Hx. apply elem_of_cons in Hx as [-> | Hx]; [left; auto|].
        right. split; [|exact Hx]. intros ->.
        apply Hit. apply (Hapart i t k Hi Ht Hki Hx).
      * intros [[-> _] | [_ Hx]]; list_mem.
    + split.
      * intros Hx. right. split; [|exact Hx]. intros ->.
        apply Hji. apply (Hapart j i k Hj Hi Hx Hki).
      * intros [[_ E] | [_ Hx]]; [contradiction | exact Hx].
Qed.

Lemma moved_NoDup j : (j < nb)%nat -> NoDup (moved sh i t k l1 l2 j).
Proof.
  intros Hj. destruct move_k_out as (_ & _ & Hnd). unfold moved.
  destruct (decide (j = i)); [exact Hnd|].
  destruct (decide (j = t)) as [->|]; [|apply Hnodup, Hj].
  apply NoDup_cons. split; [|apply Hnodup, Ht].
  intros Hin. apply Hit. apply (Hapart i t k Hi Ht move_k_in Hin).
Qed.

(** The nodes of two different shards are different. *)
Lemma nodes_apart j j' x :
  (j < nb)%nat -> (j' < nb)%nat -> j <> j' ->
  x ∈ BUCKET j :: map BUF (sh j) -> x ∈ BUCKET j' :: map BUF (sh j') -> False.
Proof.
  intros Hj Hj' Hne H1 H2.
  apply elem_of_cons in H1 as [-> | H1].
  - apply elem_of_cons in H2 as [[= E] | H2]; [contradiction|].
    apply list_elem_of_fmap in H2 as (y & E & _). discriminate E.
  - apply list_elem_of_fmap in H1 as (y & -> & Hy).
    apply elem_of_cons in H2 as [E | H2]; [discriminate E|].
    apply list_elem_of_fmap in H2 as (y' & [= <-] & Hy').
    apply Hne. apply (Hapart j j' y Hj Hj' Hy Hy').
Qed.

Lemma move_pr_in : pr ∈ BUCKET i :: map BUF (sh i).
Proof.
  pose proof (last_elem (map BUF l1) (BUCKET i)) as H. fold pr in H.
  rewrite Hsplit, map_app. list_mem.
Qed.

Lemma move_nx_in : nx ∈ BUCKET i :: map BUF (sh i).
Proof.
  pose proof (hd_elem (map BUF l2) (BUCKET i)) as H. fold nx in H.
  rewrite Hsplit, map_app. simpl. list_mem.
Qed.

Lemma move_f_in : f ∈ BUCKET t :: map BUF (sh t).
Proof.
  pose proof (hd_elem (map BUF (sh t)) (BUCKET t)) as H. fold f in H. list_mem.
Qed.

Lemma move_b_in : b ∈ BUCKET i :: map BUF (sh i).
Proof.
  apply elem_of_cons. right. apply list_elem_of_fmap. exists k.
  split; [reflexivity | apply move_k_in].
Qed.

Lemma move_h_in : h ∈ BUCKET t :: map BUF (sh t).
Proof. apply elem_of_cons. left. reflexivity. Qed.

Lemma move_b_not l : k ∉ l -> b ∉ map BUF l.
Proof.
  intros Hk Hin. apply list_elem_of_fmap in Hin as (y & [= <-] & Hy).
  contradiction.
Qed.

(** The rings after the move. *)
Lemma moved_ring j :
  (j < nb)%nat ->
  path N3 P3 (BUCKET j) (map BUF (moved sh i t k l1 l2 j)) (BUCKET j).
Proof.
  intros Hj. destruct move_k_out as (Hk1 & Hk2 & Hnd12).
  pose proof move_pr_in as Hpr. pose proof move_nx_in as Hnx.
  pose proof move_f_in as Hf. pose proof move_b_in as Hb.
  pose proof move_h_in as Hh.
  set (N2 := fun q => if decide (q = pr) then Some nx else N q).
  set (P2 := fun q => if decide (q = nx) then Some pr else P q).
  assert (Hpath_i : path N2 P2 (BUCKET i) (map BUF (l1 ++ l2)) (BUCKET i)).
  { rewrite map_app.
    apply (path_unlink N P N2 P2 b (BUCKET i) (map BUF l2) (map BUF l1)).
    - change (b :: map BUF l2) with (map BUF (k :: l2)).
      rewrite <- map_app, <- Hsplit. apply NoDup_ring_nodes, Hnodup, Hi.
    - change (b :: map BUF l2 ++ [BUCKET i])
        with ((b :: map BUF l2) ++ [BUCKET i]).
      rewrite app_assoc.
      change (b :: map BUF l2) with (map BUF (k :: l2)).
      rewrite <- map_app, <- Hsplit.
      apply NoDup_app. split; [|split].
      + apply NoDup_fmap_2; [|apply Hnodup, Hi].
        intros x y E. injection E as ->. reflexivity.
      + intros x Hx Hx'. apply list_elem_of_fmap in Hx as (y & -> & _).
        apply elem_of_cons in Hx' as [E | Hx']; [discriminate E|].
        apply elem_of_nil in Hx'. contradiction.
      + apply NoDup_singleton.
    - unfold N2. fold pr nx. rewrite decide_True by reflexivity. reflexivity.
    - intros q Hq. unfold N2. fold pr in Hq.
      rewrite decide_False by exact Hq. reflexivity.
    - unfold P2. fold pr nx. rewrite decide_True by reflexivity. reflexivity.
    - intros q Hq. unfold P2. fold nx in Hq.
      rewrite decide_False by exact Hq. reflexivity.
    - change (b :: map BUF l2) with (map BUF (k :: l2)).
      rewrite <- map_app, <- Hsplit. apply Hring, Hi. }
  assert (Hother : forall j', (j' < nb)%nat -> j' <> i ->
            path N2 P2 (BUCKET j') (map BUF (sh j')) (BUCKET j')).
  { intros j' Hj' Hne.
    apply (path_ext N P); [| |apply Hring, Hj'].
    - intros x Hx. unfold N2. rewrite decide_False; [reflexivity|].
      intros ->. apply (nodes_apart j' i pr Hj' Hi Hne Hx Hpr).
    - intros x Hx. unfold P2. rewrite decide_False; [reflexivity|].
      intros ->. apply (nodes_apart j' i nx Hj' Hi Hne); [|exact Hnx].
      list_mem. }
  unfold moved. destruct (decide (j = i)) as [->|Hji].
  - apply (path_ext N2 P2); [| |exact Hpath_i].
    + intros x Hx. rewrite HN3.
      assert (Hxi : x ∈ BUCKET i :: map BUF (sh i)).
      { rewrite Hsplit, map_app. rewrite map_app in Hx. simpl. list_mem. }
      rewrite decide_False
        by (intros ->; apply (nodes_apart i t h Hi Ht Hit Hxi Hh)).
      rewrite decide_False.
      * reflexivity.
      * intros ->. apply elem_of_cons in Hx as [E | Hx]; [discriminate E|].
        apply (move_b_not (l1 ++ l2)); [|exact Hx].
        intros Hin. apply elem_of_app in Hin as [?|?]; contradiction.
    + intros x Hx. rewrite HP3.
      assert (Hxi : x ∈ BUCKET i :: map BUF (sh i)).
      { rewrite Hsplit, map_app. rewrite map_app in Hx. simpl. list_mem. }
      rewrite decide_False.
      * rewrite decide_False
          by (intros ->; apply (nodes_apart i t f Hi Ht Hit Hxi Hf)).
        reflexivity.
      * intros ->. apply elem_of_app in Hx as [Hx | Hx].
        -- apply (move_b_not (l1 ++ l2)); [|exact Hx].
           intros Hin. apply elem_of_app in Hin as [?|?]; contradiction.
        -- apply elem_of_cons in Hx as [E | Hx]; [discriminate E|].
           apply elem_of_nil in Hx. contradiction.
  - destruct (decide (j = t)) as [->|Hjt].
    + cbn [map].
      apply (path_link_first N2 P2); [| | | | | | | |apply Hother; auto].
      * intros Hin. apply (nodes_apart i t b Hi Ht Hit Hb Hin).
      * apply NoDup_ring_nodes, Hnodup, Ht.
      * rewrite HN3. fold h. rewrite decide_True by reflexivity. reflexivity.
      * rewrite HN3. fold b h f.
        rewrite decide_False by discriminate.
        rewrite decide_True by reflexivity. reflexivity.
      * intros q Hq1 Hq2. rewrite HN3. fold b h in Hq1, Hq2.
        rewrite decide_False by exact Hq1.
        rewrite decide_False by exact Hq2. reflexivity.
      * rewrite HP3. fold b h. rewrite decide_True by reflexivity. reflexivity.
      * rewrite HP3. fold b f.
        rewrite decide_False
          by (intros E; apply (nodes_apart i t b Hi Ht Hit Hb);
              rewrite <- E; exact Hf).
        rewrite decide_True by reflexivity. reflexivity.
      * intros q Hq1 Hq2. rewrite HP3. fold b f in Hq1, Hq2.
        rewrite decide_False by exact Hq1.
        rewrite decide_False by exact Hq2. reflexivity.
    + apply (path_ext N2 P2); [| |apply Hother; auto].
      * intros x Hx. rewrite HN3.
        rewrite decide_False
          by (intros ->; apply (nodes_apart j t h Hj Ht Hjt Hx Hh)).
        rewrite decide_False
          by (intros ->; apply (nodes_apart j i b Hj Hi Hji Hx Hb)).
        reflexivity.
      * intros x Hx. rewrite HP3.
        assert (Hxj : x ∈ BUCKET j :: map BUF (sh j)) by list_mem.
        rewrite decide_False
          by (intros ->; apply (nodes_apart j i b Hj Hi Hji Hxj Hb)).
        rewrite decide_False
          by (intros ->; apply (nodes_apart j t f Hj Ht Hjt Hxj Hf)).
        reflexivity.
Qed.

End Move.

(** ** The miss path of [bget] on well-formed shards *)

Lemma rebind_ok d bn now b s bb :
  get s b = Some bb ->
  rebind d bn now b s = Ret tt (put s b (rebound d bn now bb)).
Proof.
  intros Hb. unfold rebind, bind, upd. rewrite Hb.
  rewrite (get_put_eq s b _ bb Hb).
  rewrite (get_put_eq _ b _ _ (get_put_eq s b _ bb Hb)).
  rewrite (get_put_eq _ b _ _ (get_put_eq _ b _ _ (get_put_eq s b _ bb Hb))).
  rewrite (get_put_eq _ b _ _
             (get_put_eq _ b _ _ (get_put_eq _ b _ _ (get_put_eq s b _ bb Hb)))).
  rewrite !put_put. reflexivity.
Qed.

Lemma payload_defined s s' q z :
  payload <$> get s' q = payload <$> get s q -> get s q = Some z ->
  exists z', get s' q = Some z' /\ payload z' = payload z.
Proof.
  intros H Hq. rewrite Hq in H. simpl in H.
  destruct (fmap_Some_get payload s' q _ H) as (z' & Hz' & Hp). eauto.
Qed.

Lemma wf_get s sh i k :
  wf s sh -> (i < Z.to_nat NBUCKETS)%nat -> k ∈ sh i ->
  exists bb, get s (BUF k) = Some bb.
Proof.
  intros Hwf Hi Hk. apply lookup_lt_is_Some.
  apply (wf_inside s sh Hwf i k Hi Hk).
Qed.

(** The victim changes its block number within its shard. *)
Lemma wf_rebind s sh i k bb bb' :
  wf s sh -> (i < Z.to_nat NBUCKETS)%nat -> k ∈ sh i ->
  get s (BUF k) = Some bb ->
  next bb' = next bb -> prev bb' = prev bb ->
  haskBlock (blockno bb') = Z.of_nat i ->
  wf (put s (BUF k) bb') sh.
Proof.
  intros Hwf Hi Hk Hb Hn Hp Hh.
  pose proof Hwf as [W1 W2 W3 W4 W5 W6 W7]. constructor.
  - rewrite length_buckets_put. exact W1.
  - intros j Hj. apply (path_ext (next_of s) (prev_of s)); [| |apply W2, Hj].
    + intros x _. apply (fmap_get_put_same next s _ bb' bb x Hb Hn).
    + intros x _. apply (fmap_get_put_same prev s _ bb' bb x Hb Hp).
  - exact W3.
  - exact W4.
  - intros j x Hj Hx. rewrite length_bufs_put. apply (W5 j x Hj Hx).
  - intros x Hx. rewrite length_bufs_put in Hx. apply (W6 x Hx).
  - intros j x b0 Hj Hx Hget.
    rewrite (get_put_if s _ bb' bb _ Hb) in Hget.
    destruct (decide (BUF k = BUF x)) as [[= <-]|Hne].
    + injection Hget as <-. rewrite Hh. f_equal.
      apply (W4 i j k Hi Hj Hk Hx).
    + apply (W7 j x b0 Hj Hx Hget).
Qed.

(** The victim moves from shard [i] to the front of shard [t]. *)
Lemma relink_wf s sh i t k bb bb1 :
  wf s sh -> (i < Z.to_nat NBUCKETS)%nat -> (t < Z.to_nat NBUCKETS)%nat ->
  i <> t -> k ∈ sh i -> get s (BUF k) = Some bb ->
  next bb1 = next bb -> prev bb1 = prev bb ->
  haskBlock (blockno bb1) = Z.of_nat t ->
  exists s2 s3 sh',
    unlink (BUF k) (put s (BUF k) bb1) = Ret tt s2 /\
    link_first (BUCKET t) (BUF k) s2 = Ret tt s3 /\
    same_payload (put s (BUF k) bb1) s3 /\ wf s3 sh'.
Proof.
  intros Hwf Hi Ht Hit Hk Hb Hn Hp Hh.
  pose proof Hwf as [W1 W2 W3 W4 W5 W6 W7].
  set (b := BUF k) in *. set (h := BUCKET t) in *.
  set (s1 := put s b bb1).
  destruct (list_elem_of_split _ _ Hk) as (l1 & l2 & Hsplit).
  set (pr := List.last (map BUF l1) (BUCKET i)).
  set (nx := List.hd (BUCKET i) (map BUF l2)).
  set (f := List.hd (BUCKET t) (map BUF (sh t))).
  pose proof (W2 i Hi) as Hri. unfold ring in Hri.
  rewrite Hsplit, map_app in Hri. cbn [map] in Hri.
  destruct (path_ends _ _ _ _ _ _ _ Hri) as (Npr & Pb & Nb & Pnx).
  fold pr nx b in Npr, Pb, Nb, Pnx.
  assert (HN1 : forall q, next_of s1 q = next_of s q)
    by (intros q; exact (fmap_get_put_same next s b bb1 bb q Hb Hn)).
  assert (HP1 : forall q, prev_of s1 q = prev_of s q)
    by (intros q; exact (fmap_get_put_same prev s b bb1 bb q Hb Hp)).
  pose proof (get_put_eq s b bb1 bb Hb) as Hb1. fold s1 in Hb1.
  assert (Hprev1 : prev bb1 = pr).
  { unfold prev_of in Pb. rewrite Hb in Pb. simpl in Pb. congruence. }
  assert (Hnext1 : next bb1 = nx).
  { unfold next_of in Nb. rewrite Hb in Nb. simpl in Nb. congruence. }
  assert (Hx : exists x, get s1 pr = Some x).
  { pose proof (HN1 pr) as E. rewrite Npr in E.
    destruct (fmap_Some_get next s1 pr _ E) as (x & Hx & _). eauto. }
  assert (Hy : exists y, get s1 nx = Some y).
  { pose proof (HP1 nx) as E. rewrite Pnx in E.
    destruct (fmap_Some_get prev s1 nx _ E) as (y & Hy & _). eauto. }
  destruct Hx as [x Hx]. destruct Hy as [y Hy].
  destruct (move_k_out sh i k l1 l2 Hi Hsplit W3) as (Hk1 & Hk2 & _).
  pose proof (move_pr_in sh i k l1 l2 Hsplit) as Hpr_in. fold pr in Hpr_in.
  pose proof (move_nx_in sh i k l1 l2 Hsplit) as Hnx_in. fold nx in Hnx_in.
  pose proof (move_f_in sh t) as Hf_in. fold f in Hf_in.
  assert (Hprb : pr <> b).
  { intros E. pose proof (last_elem (map BUF l1) (BUCKET i)) as Hin.
    fold pr in Hin. rewrite E in Hin.
    apply elem_of_cons in Hin as [Hin | Hin]; [discriminate Hin|].
    apply (move_b_not k l1 Hk1 Hin). }
  rewrite <- Hprev1 in Hx. rewrite <- Hnext1 in Hy.
  destruct (unlink_effect s1 b bb1 x y Hb1 Hx Hy
              ltac:(rewrite Hprev1; exact Hprb))
    as (s2 & E2 & HN2 & HP2 & Hpay2).
  rewrite Hprev1, Hnext1 in HN2, HP2.
  assert (Hhpr : h <> pr).
  { intros E. apply (nodes_apart sh W4 t i h Ht Hi); [congruence| |].
    - apply elem_of_cons. left. reflexivity.
    - rewrite E. exact Hpr_in. }
  pose proof (path_first _ _ _ _ _ (W2 t Ht)) as Nh. fold h f in Nh.
  assert (Nh2 : next_of s2 h = Some f).
  { rewrite HN2. rewrite decide_False by exact Hhpr. rewrite HN1. exact Nh. }
  destruct (fmap_Some_get next s2 h _ Nh2) as (hd2 & Hhd2 & Hnhd2).
  destruct Hpay2 as (L1 & L2 & L3 & L4 & Hpay2).
  destruct (payload_defined s1 s2 b bb1 (Hpay2 b) Hb1) as (bb2 & Hb2 & _).
  assert (Hf2 : exists y2, get s2 f = Some y2).
  { assert (Pf : exists v, prev_of s f = Some v).
    { pose proof (W2 t Ht) as Hrt. unfold ring in Hrt. fold h f in Hrt.
      destruct (map BUF (sh t)) as [|z lt] eqn:El; simpl in *.
      - destruct Hrt as [_ Hl]. unfold f. eauto.
      - destruct Hrt as [[_ Hl] _]. unfold f. eauto. }
    destruct Pf as [v Pf].
    assert (E : exists v', prev_of s2 f = Some v').
    { rewrite HP2. destruct (decide (f = nx)); [eauto|].
      rewrite HP1. eauto. }
    destruct E as [v' E].
    destruct (fmap_Some_get prev s2 f _ E) as (y2 & Hy2 & _). eauto. }
  destruct Hf2 as [y2 Hy2]. rewrite <- Hnhd2 in Hy2.
  destruct (link_first_effect s2 h b hd2 bb2 y2 Hhd2 Hb2 Hy2
              ltac:(discriminate))
    as (s3 & E3 & HN3 & HP3 & Hpay3).
  rewrite Hnhd2 in HN3, HP3.
  exists s2, s3, (moved sh i t k l1 l2).
  split; [exact E2|]. split; [exact E3|].
  assert (Hpay : same_payload s1 s3).
  { apply (same_payload_trans _ s2); [|exact Hpay3].
    split; [exact L1|]. split; [exact L2|]. split; [exact L3|].
    split; [exact L4 | exact Hpay2]. }
  split; [exact Hpay|].
  destruct Hpay as (M1 & M2 & _ & _ & Hpay).
  assert (Hlen : length (bufs s3) = length (bufs s))
    by (rewrite M1; apply length_bufs_put).
  constructor.
  - rewrite M2. unfold s1. rewrite length_buckets_put. exact W1.
  - intros j Hj. unfold ring.
    apply (moved_ring (next_of s) (prev_of s) (next_of s3) (prev_of s3)
             sh i t k l1 l2 Hi Ht Hit Hsplit W2 W3 W4); [| |exact Hj].
    + intros q. rewrite HN3, HN2, HN1. reflexivity.
    + intros q. rewrite HP3, HP2, HP1. reflexivity.
  - intros j Hj. apply (moved_NoDup sh i t k l1 l2 Hi Ht Hit Hsplit W3 W4 j Hj).
  - intros j j' z Hj Hj' Hz Hz'.
    apply (moved_elem sh i t k l1 l2 Hi Ht Hit Hsplit W3 W4 j z Hj) in Hz.
    apply (moved_elem sh i t k l1 l2 Hi Ht Hit Hsplit W3 W4 j' z Hj') in Hz'.
    destruct Hz as [[-> ->] | [Hne Hz]], Hz' as [[E ->] | [Hne' Hz']];
      try congruence.
    apply (W4 j j' z Hj Hj' Hz Hz').
  - intros j z Hj Hz. rewrite Hlen.
    apply (moved_elem sh i t k l1 l2 Hi Ht Hit Hsplit W3 W4 j z Hj) in Hz.
    destruct Hz as [[-> _] | [_ Hz]].
    + apply (W5 i k Hi Hk).
    + apply (W5 j z Hj Hz).
  - intros z Hz. rewrite Hlen in Hz.
    destruct (decide (z = k)) as [->|Hne].
    + exists t. split; [exact Ht|].
      apply (moved_elem sh i t k l1 l2 Hi Ht Hit Hsplit W3 W4 t k Ht).
      left. split; reflexivity.
    + destruct (W6 z Hz) as (j & Hj & Hzj). exists j. split; [exact Hj|].
      apply (moved_elem sh i t k l1 l2 Hi Ht Hit Hsplit W3 W4 j z Hj).
      right. split; assumption.
  - intros j z b3 Hj Hz Hget.
    apply (moved_elem sh i t k l1 l2 Hi Ht Hit Hsplit W3 W4 j z Hj) in Hz.
    pose proof (Hpay (BUF z)) as Hpz. rewrite Hget in Hpz.
    change (Some (payload b3) = payload <$> get s1 (BUF z)) in Hpz.
    symmetry in Hpz.
    destruct (fmap_Some_get payload s1 _ _ Hpz) as (b1 & Hb1z & Hp1).
    assert (Hbn : blockno b3 = blockno b1)
      by (unfold payload in Hp1; congruence).
    rewrite Hbn.
    destruct Hz as [[-> ->] | [Hne Hz]].
    + fold b in Hb1z. rewrite Hb1 in Hb1z. injection Hb1z as <-. exact Hh.
    + unfold s1 in Hb1z.
      rewrite get_put_ne in Hb1z by (unfold b; intros [= E]; congruence).
      apply (W7 j z b1 Hj Hz Hb1z).
Qed.

Lemma acquiresleep_free pid b s bb :
  get s b = Some bb -> lock bb = None ->
  acquiresleep pid b s = Ret tt (put s b (set_lock (Some pid) bb)).
Proof. intros Hb Hl. unfold acquiresleep. rewrite Hb, Hl. reflexivity. Qed.

Lemma acquiresleep_held pid b s bb :
  get s b = Some bb -> lock bb <> None -> acquiresleep pid b s = Asleep s.
Proof.
  intros Hb Hl. unfold acquiresleep. rewrite Hb.
  destruct (lock bb); [reflexivity | contradiction].
Qed.

(** The last step of [bget]: the sleep-lock of the chosen buffer. *)
Lemma bget_take pid b s1 sX shX bb1 :
  get s1 b = Some bb1 -> same_payload s1 sX -> wf sX shX ->
  exists s' bb',
    taken pid ((do! acquiresleep pid b in ret b)%kern sX) b s' bb1 bb' /\
    get s' b = Some bb' /\
    valid bb' = valid bb1 /\ dev bb' = dev bb1 /\ blockno bb' = blockno bb1 /\
    refcnt bb' = refcnt bb1 /\ ticks bb' = ticks bb1 /\ data bb' = data bb1 /\
    (forall q, q <> b -> payload <$> get s' q = payload <$> get s1 q) /\
    disk s' = disk s1 /\ iolog s' = iolog s1 /\
    length (bufs s') = length (bufs s1) /\ wf s' shX.
Proof.
  intros Hb1 (L1 & L2 & L3 & L4 & Hpay) Hwf.
  destruct (payload_defined s1 sX b bb1 (Hpay b) Hb1) as (bbX & HbX & HpX).
  unfold payload in HpX.
  assert (Hv : valid bbX = valid bb1) by congruence.
  assert (Hd : dev bbX = dev bb1) by congruence.
  assert (Hn : blockno bbX = blockno bb1) by congruence.
  assert (Hl : lock bbX = lock bb1) by congruence.
  assert (Hr : refcnt bbX = refcnt bb1) by congruence.
  assert (Ht : ticks bbX = ticks bb1) by congruence.
  assert (Hda : data bbX = data bb1) by congruence.
  clear HpX. unfold bind, taken. destruct (lock bb1) as [q|] eqn:Hlock.
  - exists sX, bbX.
    split.
    { right. split; [discriminate|].
      rewrite (acquiresleep_held pid b sX bbX HbX) by (rewrite Hl; discriminate).
      split; [reflexivity | exact Hl]. }
    split; [exact HbX|]. do 6 (split; [assumption|]).
    split; [intros q' _; apply Hpay|].
    do 3 (split; [assumption|]). exact Hwf.
  - exists (put sX b (set_lock (Some pid) bbX)), (set_lock (Some pid) bbX).
    split.
    { left. split; [reflexivity|].
      rewrite (acquiresleep_free pid b sX bbX HbX Hl).
      split; reflexivity. }
    split; [apply (get_put_eq sX b _ bbX HbX)|].
    do 6 (split; [assumption|]).
    split.
    { intros q' Hq'. rewrite get_put_ne by congruence. apply Hpay. }
    split; [rewrite disk_put; exact L3|].
    split; [rewrite iolog_put; exact L4|].
    split; [rewrite length_bufs_put; exact L1|].
    apply (wf_put sX shX b _ bbX Hwf HbX); reflexivity.
Qed.

(** What the miss path does on well-formed shards. *)
Lemma bget_miss_outcome pid d bn now s sh :
  wf s sh -> 0 <= haskBlock bn < NBUCKETS ->
  bget_miss pid d bn now (nodes s) (haskBlock bn)
            (BUCKET (Z.to_nat (haskBlock bn))) s
  = Panic "bget: no buffers" \/
  exists k bb s' bb',
    (k < length (bufs s))%nat /\ get s (BUF k) = Some bb /\ refcnt bb = 0 /\
    taken pid (bget_miss pid d bn now (nodes s) (haskBlock bn)
                         (BUCKET (Z.to_nat (haskBlock bn))) s)
          (BUF k) s' bb bb' /\
    get s' (BUF k) = Some bb' /\
    valid bb' = 0 /\ dev bb' = d /\ blockno bb' = bn /\ refcnt bb' = 1 /\
    ticks bb' = now /\ data bb' = data bb /\
    (forall q, q <> BUF k -> payload <$> get s' q = payload <$> get s q) /\
    disk s' = disk s /\ iolog s' = iolog s /\
    length (bufs s') = length (bufs s) /\ exists sh', wf s' sh'.
Proof.
  intros Hwf Hh.
  destruct (wf_pool s sh Hwf) as (L & HL & Hmem).
  destruct (find_victim_pool s L HL) as (st & Hfind & Hb & _ & Hid).
  destruct (fold_consider_unreferenced s L no_victim (or_introl eq_refl))
    as [_ Hun].
  destruct (fold_consider_origin s L no_victim) as [[Hnull _] | (i & Hin & Hi)].
  { left. apply (bget_miss_panic pid d bn now _ _ _ s st Hfind).
    rewrite Hb, Hnull. reflexivity. }
  right. rewrite <- Hb in Hin, Hun. rewrite <- Hid in Hi.
  apply Hmem in Hin as (Hi13 & k & Hk & Hki).
  rewrite Hk in Hun. destruct Hun as [E | (bb & Hbb & Hr0)]; [discriminate E|].
  set (t := Z.to_nat (haskBlock bn)).
  assert (Ht13 : (t < Z.to_nat NBUCKETS)%nat) by (unfold t; lia).
  set (bb1 := rebound d bn now bb).
  set (s1 := put s (BUF k) bb1).
  pose proof (get_put_eq s (BUF k) bb1 bb Hbb) as Hb1. fold s1 in Hb1.
  assert (Hrest : exists sX shX,
            bget_miss pid d bn now (nodes s) (haskBlock bn) (BUCKET t) s
            = (do! acquiresleep pid (BUF k) in ret (BUF k))%kern sX /\
            same_payload s1 sX /\ wf sX shX).
  { unfold bget_miss. unfold bind at 1. rewrite Hfind.
    rewrite decide_False by (rewrite Hk; discriminate).
    rewrite Hk. unfold bind at 1. rewrite (rebind_ok d bn now (BUF k) s bb Hbb).
    fold bb1. fold s1. rewrite Hi.
    destruct (Z.eqb_spec (Z.of_nat i) (haskBlock bn)) as [Heq|Hne]; cbn [negb].
    - exists s1, sh. split; [reflexivity|].
      split; [apply same_payload_refl|].
      apply (wf_rebind s sh i k bb bb1 Hwf Hi13 Hki Hbb); try reflexivity.
      symmetry. exact Heq.
    - assert (Hit : i <> t) by (unfold t; lia).
      destruct (relink_wf s sh i t k bb bb1 Hwf Hi13 Ht13 Hit Hki Hbb
                  eq_refl eq_refl)
        as (s2 & s3 & sh' & E2 & E3 & Hpay & Hwf3).
      { unfold t. cbn [blockno bb1 rebound]. lia. }
      fold s1 in E2, Hpay.
      exists s3, sh'. split; [|split; assumption].
      unfold bind at 1. rewrite E2. unfold bind at 1. rewrite E3.
      reflexivity. }
  destruct Hrest as (sX & shX & Eo & Hpay & HwfX).
  destruct (bget_take pid (BUF k) s1 sX shX bb1 Hb1 Hpay HwfX)
    as (s' & bb' & Htk & Hb' & Hv & Hd & Hn & Hr & Ht & Hda & Hfr & Hdk & Hlg
        & Hlen & Hwf').
  exists k, bb, s', bb'.
  split; [apply (lookup_lt_Some (bufs s) k bb Hbb)|].
  split; [exact Hbb|]. split; [exact Hr0|].
  split; [fold t; rewrite Eo; exact Htk|].
  split; [exact Hb'|].
  do 6 (split; [assumption|]).
  split.
  { intros q Hq. rewrite (Hfr q Hq). unfold s1.
    rewrite get_put_ne by congruence. reflexivity. }
  split; [rewrite Hdk; apply disk_put|].
  split; [rewrite Hlg; apply iolog_put|].
  split; [rewrite Hlen; apply length_bufs_put|].
  exists shX. exact Hwf'.
Qed.

(** ** [bget] on well-formed shards *)

Lemma bget_bad_hash pid d bn now s :
  ~ (0 <= haskBlock bn < NBUCKETS) -> bget pid d bn now s = Undef.
Proof.
  intros H. unfold bget, bind, gets, bucket_ptr.
  destruct (Z.leb_spec 0 (haskBlock bn)); [|reflexivity].
  destruct (Z.ltb_spec (haskBlock bn) NBUCKETS); [lia | reflexivity].
Qed.

Lemma bget_outcome pid d bn now s sh :
  wf s sh -> 0 <= haskBlock bn < NBUCKETS ->
  (bget pid d bn now s = Panic "bget: no buffers" /\
   forall k2 b2, get s (BUF k2) = Some b2 ->
                 ~ (dev b2 = d /\ blockno b2 = bn)) \/
  exists k bb s' bb',
    (k < length (bufs s))%nat /\ get s (BUF k) = Some bb /\
    taken pid (bget pid d bn now s) (BUF k) s' bb bb' /\
    get s' (BUF k) = Some bb' /\ dev bb' = d /\ blockno bb' = bn /\
    refcnt bb' = to_uint (refcnt bb + 1) /\ data bb' = data bb /\
    ((dev bb = d /\ blockno bb = bn /\ valid bb' = valid bb /\
      ticks bb' = ticks bb) \/
     (refcnt bb = 0 /\ valid bb' = 0 /\ ticks bb' = now /\
      forall k2 b2, get s (BUF k2) = Some b2 ->
                    ~ (dev b2 = d /\ blockno b2 = bn))) /\
    (forall q, q <> BUF k -> payload <$> get s' q = payload <$> get s q) /\
    disk s' = disk s /\ iolog s' = iolog s /\
    length (bufs s') = length (bufs s) /\ exists sh', wf s' sh'.
Proof.
  intros Hwf Hh.
  set (t := Z.to_nat (haskBlock bn)).
  assert (Ht13 : (t < Z.to_nat NBUCKETS)%nat) by (unfold t; lia).
  pose proof (ring_shard s t (sh t) (wf_ring s sh Hwf t Ht13)) as Hshard.
  pose proof (bucket_ptr_hash s _ Hh) as Hptr. fold t in Hptr.
  pose proof (lookup_shard s t d bn _ Hshard) as Hlook.
  destruct (find (caches s d bn) (map BUF (sh t))) as [b|] eqn:Hfind.
  - right.
    destruct (find_caches s d bn _ b Hfind) as (Hin & bb & Hbb & Hd & Hn).
    apply list_elem_of_fmap in Hin as (k & -> & Hk).
    set (bb1 := set_refcnt (to_uint (refcnt bb + 1)) bb).
    set (s1 := put s (BUF k) bb1).
    pose proof (get_put_eq s (BUF k) bb1 bb Hbb) as Hb1. fold s1 in Hb1.
    assert (Hwf1 : wf s1 sh)
      by (apply (wf_put s sh (BUF k) bb1 bb Hwf Hbb); reflexivity).
    assert (Eo : bget pid d bn now s
                 = (do! acquiresleep pid (BUF k) in ret (BUF k))%kern s1).
    { rewrite (bget_on_hit pid d bn now s _ (BUF k) Hptr Hlook).
      unfold bget_hit. unfold bind at 1.
      rewrite (upd_ok s (BUF k) (fun x => set_refcnt _ x) bb Hbb).
      reflexivity. }
    destruct (bget_take pid (BUF k) s1 s1 sh bb1 Hb1 (same_payload_refl s1)
                Hwf1)
      as (s' & bb' & Htk & Hb' & Hv & Hd' & Hn' & Hr & Htt & Hda & Hfr & Hdk
          & Hlg & Hlen & Hwf').
    exists k, bb, s', bb'.
    split; [apply (lookup_lt_Some (bufs s) k bb Hbb)|].
    split; [exact Hbb|]. split; [rewrite Eo; exact Htk|].
    split; [exact Hb'|]. split; [rewrite Hd'; exact Hd|].
    split; [rewrite Hn'; exact Hn|]. split; [exact Hr|].
    split; [exact Hda|].
    split; [left; repeat split; assumption|].
    split.
    { intros q Hq. rewrite (Hfr q Hq). unfold s1.
      rewrite get_put_ne by congruence. reflexivity. }
    split; [rewrite Hdk; apply disk_put|].
    split; [rewrite Hlg; apply iolog_put|].
    split; [rewrite Hlen; apply length_bufs_put|].
    exists sh. exact Hwf'.
  - assert (Eo : bget pid d bn now s
                 = bget_miss pid d bn now (nodes s) (haskBlock bn)
                             (BUCKET t) s).
    { unfold bget, bind, gets. rewrite Hptr, Hlook, Hlook. reflexivity. }
    assert (Hnone : forall k2 b2, get s (BUF k2) = Some b2 ->
                      ~ (dev b2 = d /\ blockno b2 = bn)).
    { intros k2 b2 Hb2 [Hd2 Hn2].
      destruct (wf_cover s sh Hwf k2 (lookup_lt_Some _ _ _ Hb2))
        as (j & Hj & Hk2).
      pose proof (wf_hash s sh Hwf j k2 b2 Hj Hk2 Hb2) as Hj2.
      rewrite Hn2 in Hj2.
      assert (j = t) as -> by (unfold t; lia).
      assert (Hc : caches s d bn (BUF k2) = false).
      { apply (find_none _ _ Hfind). apply list_elem_of_In.
        apply list_elem_of_fmap. eauto. }
      unfold caches in Hc. rewrite Hb2, Hd2, Hn2, !Z.eqb_refl in Hc.
      discriminate Hc. }
    rewrite Eo.
    destruct (bget_miss_outcome pid d bn now s sh Hwf Hh)
      as [E | (k & bb & s' & bb' & Hk & Hbb & Hr0 & Htk & Hb' & Hv & Hd & Hn
               & Hr & Htt & Hda & Hfr & Hdk & Hlg & Hlen & Hwf')].
    + left. split; [exact E | exact Hnone].
    + right. exists k, bb, s', bb'.
      split; [exact Hk|]. split; [exact Hbb|]. split; [exact Htk|].
      split; [exact Hb'|]. split; [exact Hd|]. split; [exact Hn|].
      split; [rewrite Hr, Hr0; reflexivity|]. split; [exact Hda|].
      split.
      { right. split; [exact Hr0|]. split; [exact Hv|]. split; [exact Htt|].
        exact Hnone. }
      do 4 (split; [assumption|]). exact Hwf'.
Qed.

(** ** The shape of the shards in use *)

Lemma keeps_wf_refl s : keeps_wf s s.
Proof. intros H. split; [reflexivity | exact H]. Qed.

Lemma keeps_wf_trans a b c : keeps_wf a b -> keeps_wf b c -> keeps_wf a c.
Proof.
  intros Hab Hbc Ha. destruct (Hab Ha) as [L1 Hb].
  destruct (Hbc Hb) as [L2 Hc]. split; [congruence | exact Hc].
Qed.

Lemma keeps_wf_put s p b f :
  (forall x, next (f x) = next x /\ prev (f x) = prev x /\
             blockno (f x) = blockno x) ->
  get s p = Some b -> keeps_wf s (put s p (f b)).
Proof.
  intros Hf Hp [sh Hwf]. destruct (Hf b) as (Hn & Hv & Hbn).
  split; [apply length_bufs_put|]. exists sh.
  apply (wf_put s sh p (f b) b Hwf Hp Hn Hv Hbn).
Qed.

Lemma keeps_wf_driver s dk lg :
  keeps_wf s (mkCache (bufs s) (head s) (buckets s) dk lg).
Proof.
  intros [sh Hwf]. split; [reflexivity|]. exists sh.
  apply (wf_same_links s); [exact Hwf | | | reflexivity | reflexivity |];
    intros q; unfold next_of, prev_of; rewrite get_logged; reflexivity.
Qed.

Lemma bget_keeps_wf pid d bn now : preserves keeps_wf (bget pid d bn now).
Proof.
  intros s0.
  destruct (decide (0 <= haskBlock bn < NBUCKETS)) as [Hh|Hh];
    [|rewrite (bget_bad_hash pid d bn now s0 Hh); exact I].
  destruct (bget pid d bn now s0) as [b s1|msg|s1| |] eqn:E; try exact I.
  - intros [sh Hwf].
    destruct (bget_outcome pid d bn now s0 sh Hwf Hh)
      as [[Ep _] | (k & bb & s' & bb' & _ & _ & Htk & Hrest)];
      [rewrite E in Ep; discriminate Ep|].
    rewrite E in Htk. destruct Htk as [(_ & Eq & _) | (_ & Eq & _)];
      [|discriminate Eq].
    injection Eq as _ ->.
    destruct Hrest as (_ & _ & _ & _ & _ & _ & _ & _ & _ & Hlen & Hwf').
    split; assumption.
  - intros [sh Hwf].
    destruct (bget_outcome pid d bn now s0 sh Hwf Hh)
      as [[Ep _] | (k & bb & s' & bb' & _ & _ & Htk & Hrest)];
      [rewrite E in Ep; discriminate Ep|].
    rewrite E in Htk. destruct Htk as [(_ & Eq & _) | (_ & Eq & _)];
      [discriminate Eq|].
    injection Eq as ->.
    destruct Hrest as (_ & _ & _ & _ & _ & _ & _ & _ & _ & Hlen & Hwf').
    split; assumption.
Qed.

Ltac keeps_links := intros; repeat split.

Lemma bread_keeps_wf pid d bn now : preserves keeps_wf (bread pid d bn now).
Proof.
  unfold bread.
  apply (pres_bind keeps_wf keeps_wf_trans); [apply bget_keeps_wf|].
  intros b. apply (pres_bind keeps_wf keeps_wf_trans);
    [apply (pres_deref keeps_wf keeps_wf_refl)|].
  intros bb. apply (pres_bind keeps_wf keeps_wf_trans);
    [|intros _; apply (pres_ret keeps_wf keeps_wf_refl)].
  destruct (valid bb =? 0); [|apply (pres_ret keeps_wf keeps_wf_refl)].
  apply (pres_bind keeps_wf keeps_wf_trans).
  - apply (pres_virtio_disk_rw keeps_wf keeps_wf_trans _ keeps_wf_put);
      [keeps_links | apply keeps_wf_driver].
  - intros _. apply (pres_upd keeps_wf _ keeps_wf_put). keeps_links.
Qed.

Lemma step_keeps_wf o s s' : step o s = Some s' -> keeps_wf s s'.
Proof.
  assert (Hleft : forall A (m : bcache -> outcome bcache A),
            preserves keeps_wf m -> left_by (m s) = Some s' -> keeps_wf s s').
  { intros A m Hm E. specialize (Hm s).
    destruct (m s); simpl in E; try discriminate; injection E as <-; exact Hm. }
  destruct o as [pid d bn now|pid d bn now|pid b|pid b now|b|b]; simpl;
    apply Hleft.
  - apply bget_keeps_wf.
  - apply bread_keeps_wf.
  - apply (pres_bwrite keeps_wf keeps_wf_refl keeps_wf_trans _ keeps_wf_put);
      [keeps_links | apply keeps_wf_driver].
  - apply (pres_brelse keeps_wf keeps_wf_refl keeps_wf_trans _ keeps_wf_put);
      keeps_links.
  - apply (pres_bpin keeps_wf keeps_wf_refl keeps_wf_trans _ keeps_wf_put);
      keeps_links.
  - apply (pres_bunpin keeps_wf keeps_wf_refl keeps_wf_trans _ keeps_wf_put);
      keeps_links.
Qed.

Lemma run_keeps_wf ops : forall s s', run ops s = Some s' -> keeps_wf s s'.
Proof.
  induction ops as [|o ops IH]; intros s s' E; simpl in E.
  - injection E as <-. apply keeps_wf_refl.
  - destruct (step o s) as [s1|] eqn:Hstep; [|discriminate].
    apply (keeps_wf_trans s s1 s'); [apply (step_keeps_wf o), Hstep|].
    apply IH, E.
Qed.

Lemma reachable_wf s : reachable s -> exists sh, wf s sh.
Proof.
  intros (n & now & ops & s0 & Hinit & Hrun).
  destruct (binit_wf now n) as (s0' & E & _ & Hwf0).
  rewrite E in Hinit. injection Hinit as ->.
  destruct (run_keeps_wf ops s0 s Hrun) as [_ H]; [eauto | exact H].
Qed.

Lemma brelse_holding_hash pid b now s bb :
  get s b = Some bb -> lock bb = Some pid ->
  0 <= haskBlock (blockno bb) < NBUCKETS ->
  brelse pid b now s = Ret tt (put s b (released now bb)).
Proof.
  intros Hb Hl Hbn. unfold brelse, bind. rewrite (deref_ok s b bb Hb).
  unfold holdingsleep. rewrite bool_decide_eq_true_2 by exact Hl. simpl.
  unfold releasesleep. rewrite (upd_ok s b _ bb Hb).
  set (s1 := put s b (set_lock None bb)).
  assert (H1 : get s1 b = Some (set_lock None bb))
    by (apply (get_put_eq s b _ bb Hb)).
  rewrite (deref_ok s1 b _ H1).
  rewrite (bucket_ptr_hash s1 (haskBlock (blockno (set_lock None bb))) Hbn).
  rewrite (upd_ok s1 b _ _ H1).
  set (b2 := set_refcnt _ _).
  set (s2 := put s1 b b2).
  assert (H2 : get s2 b = Some b2) by (apply (get_put_eq s1 b _ _ H1)).
  rewrite (deref_ok s2 b _ H2).
  unfold released. subst b2. simpl.
  destruct (to_uint (refcnt bb - 1) =? 0).
  - rewrite (upd_ok s2 b _ _ H2). subst s2 s1.
    rewrite !put_put. reflexivity.
  - unfold ret. subst s2 s1. rewrite !put_put. reflexivity.
Qed.

(** X13: The shards stay rings that share out the pool: in every state the
    cache is in after [binit] and any calls, each of the 13 shards is a
    list that leads from its bucket head through buffers of the pool
    back to the head, with [prev] the inverse of [next]; every buffer
    of the pool is in exactly one shard, and this is the shard of its
    block number. *)
Theorem shards_partition_pool (s : bcache) :
  reachable s ->
  exists sh, wf s sh /\
    forall i, (i < Z.to_nat NBUCKETS)%nat -> shard s i = Some (map BUF (sh i)).
Proof.
  intros Hr. destruct (reachable_wf s Hr) as [sh Hwf].
  exists sh. split; [exact Hwf|]. intros i Hi.
  apply ring_shard, (wf_ring s sh Hwf i Hi).
Qed.

(** X14: In use [bget], and [bread] with it, never follow a null link, never
    index outside the pool and never search without end: they return a
    buffer of the pool, put the caller to sleep on its lock, or panic
    for want of a buffer. *)
Theorem bget_never_faults (s : bcache) (pid d bn now : Z) :
  reachable s -> 0 <= haskBlock bn < NBUCKETS ->
  (bget pid d bn now s = Panic "bget: no buffers" /\
   bread pid d bn now s = Panic "bget: no buffers") \/
  exists k s1, (k < length (bufs s))%nat /\
    ((bget pid d bn now s = Ret (BUF k) s1 /\
      exists s2, bread pid d bn now s = Ret (BUF k) s2) \/
     (bget pid d bn now s = Asleep s1 /\ bread pid d bn now s = Asleep s1)).
Proof.
  intros Hr Hh. destruct (reachable_wf s Hr) as [sh Hwf].
  destruct (bget_outcome pid d bn now s sh Hwf Hh)
    as [[Ep _] | (k & bb & s' & bb' & Hk & _ & Htk & Hb' & _)].
  - left. split; [exact Ep|]. unfold bread, bind. rewrite Ep. reflexivity.
  - right. exists k, s'. split; [exact Hk|].
    destruct Htk as [(_ & E & _) | (_ & E & _)].
    + left. split; [exact E|].
      destruct (Z.eq_dec (valid bb') 0) as [Hv|Hv].
      * destruct (bread_invalid pid d bn now s _ s' bb' E Hb' Hv)
          as (s2 & _ & E2 & _). eauto.
      * exists s'. apply (bread_valid pid d bn now s _ s' bb' E Hb' Hv).
    + right. split; [exact E|]. unfold bread, bind. rewrite E. reflexivity.
Qed.

(** X15: What [bget] returns: a buffer of the pool whose sleep-lock was free
    and is now held by the caller, carrying the identity of the
    requested block, with one reference more than before; every other
    buffer keeps its contents, identity, count and lock, and the device
    is not touched. *)
Theorem bget_returns_locked (s s' : bcache) (pid d bn now : Z) (b : ptr) :
  reachable s -> bget pid d bn now s = Ret b s' ->
  exists k bb bb',
    b = BUF k /\ (k < length (bufs s))%nat /\
    get s b = Some bb /\ lock bb = None /\
    get s' b = Some bb' /\ lock bb' = Some pid /\
    dev bb' = d /\ blockno bb' = bn /\
    refcnt bb' = to_uint (refcnt bb + 1) /\ data bb' = data bb /\
    (forall q, q <> b -> payload <$> get s' q = payload <$> get s q) /\
    disk s' = disk s /\ iolog s' = iolog s.
Proof.
  intros Hr E. destruct (reachable_wf s Hr) as [sh Hwf].
  destruct (decide (0 <= haskBlock bn < NBUCKETS)) as [Hh|Hh];
    [|rewrite (bget_bad_hash pid d bn now s Hh) in E; discriminate E].
  destruct (bget_outcome pid d bn now s sh Hwf Hh)
    as [[Ep _] | (k & bb & s1 & bb' & Hk & Hbb & Htk & Hb' & Hd & Hn & Hrc
                  & Hda & _ & Hfr & Hdk & Hlg & _)];
    [rewrite E in Ep; discriminate Ep|].
  rewrite E in Htk.
  destruct Htk as [(Hfree & Eq & Hheld) | (_ & Eq & _)]; [|discriminate Eq].
  injection Eq as -> ->.
  exists k, bb, bb'. repeat (split; [assumption || reflexivity|]). exact Hlg.
Qed.

(** X16: A request for a block that is cached is a hit: when some buffer of
    the pool carries the identity of the block, [bget] does not panic
    and recycles nothing; it takes a buffer that already carried this
    identity, and leaves its validity flag, timestamp and data as they
    were. *)
Theorem bget_finds_cached_block (s : bcache) (pid d bn now : Z)
        (k2 : nat) (b2 : buf) :
  reachable s ->
  get s (BUF k2) = Some b2 -> dev b2 = d -> blockno b2 = bn ->
  exists k bb s' bb',
    get s (BUF k) = Some bb /\ dev bb = d /\ blockno bb = bn /\
    taken pid (bget pid d bn now s) (BUF k) s' bb bb' /\
    get s' (BUF k) = Some bb' /\
    valid bb' = valid bb /\ ticks bb' = ticks bb /\ data bb' = data bb /\
    refcnt bb' = to_uint (refcnt bb + 1) /\
    (forall q, q <> BUF k -> payload <$> get s' q = payload <$> get s q).
Proof.
  intros Hr Hb2 Hd2 Hn2. destruct (reachable_wf s Hr) as [sh Hwf].
  assert (Hh : 0 <= haskBlock bn < NBUCKETS).
  { destruct (wf_cover s sh Hwf k2 (lookup_lt_Some _ _ _ Hb2))
      as (j & Hj & Hk2).
    pose proof (wf_hash s sh Hwf j k2 b2 Hj Hk2 Hb2) as Hj2.
    rewrite Hn2 in Hj2. rewrite Hj2. unfold NBUCKETS in *. lia. }
  destruct (bget_outcome pid d bn now s sh Hwf Hh)
    as [[_ Hnone] | (k & bb & s' & bb' & _ & Hbb & Htk & Hb' & _ & _ & Hrc
                     & Hda & Hcase & Hfr & _)].
  { exfalso. apply (Hnone k2 b2 Hb2). split; assumption. }
  destruct Hcase as [(Hd & Hn & Hv & Ht) | (_ & _ & _ & Hnone)].
  - exists k, bb, s', bb'. repeat (split; [assumption|]). exact Hfr.
  - exfalso. apply (Hnone k2 b2 Hb2). split; assumption.
Qed.

(** X17: In use the block number of every buffer of the pool hashes to one
    of the 13 buckets, so [bpin], [bunpin] and [brelse] by the holder
    always find their bucket and return. *)
Theorem pool_buffer_calls_return (s : bcache) (k : nat) (bb : buf) :
  reachable s -> get s (BUF k) = Some bb ->
  0 <= haskBlock (blockno bb) < NBUCKETS /\
  bpin (BUF k) s
  = Ret tt (put s (BUF k) (set_refcnt (to_uint (refcnt bb + 1)) bb)) /\
  bunpin (BUF k) s
  = Ret tt (put s (BUF k) (set_refcnt (to_uint (refcnt bb - 1)) bb)) /\
  (forall pid now, lock bb = Some pid ->
     brelse pid (BUF k) now s = Ret tt (put s (BUF k) (released now bb))).
Proof.
  intros Hr Hb. destruct (reachable_wf s Hr) as [sh Hwf].
  assert (Hh : 0 <= haskBlock (blockno bb) < NBUCKETS).
  { destruct (wf_cover s sh Hwf k (lookup_lt_Some _ _ _ Hb)) as (j & Hj & Hk).
    rewrite (wf_hash s sh Hwf j k bb Hj Hk Hb). unfold NBUCKETS in *. lia. }
  split; [exact Hh|]. split; [apply (bpin_ok s _ bb Hb Hh)|].
  split; [apply (bunpin_ok s _ bb Hb Hh)|].
  intros pid now Hl. apply (brelse_holding_hash pid _ now s bb Hb Hl Hh).
Qed.

(** ** The theorems on the pool of three buffers *)

Lemma bpin_bunpin_round_trip_witness :
  let bb := default zero_buf (get ex_pool (BUF 0)) in
  get ex_pool (BUF 0) = Some bb /\
  bind (bpin (BUF 0)) (fun _ => bunpin (BUF 0)) ex_pool = Ret tt ex_pool /\
  bind (bunpin (BUF 0)) (fun _ => bpin (BUF 0)) ex_pool = Ret tt ex_pool /\
  exists s1 bb1, bunpin (BUF 0) ex_pool = Ret tt s1 /\
                 get s1 (BUF 0) = Some bb1 /\ refcnt bb1 = 2 ^ 32 - 1.
Proof.
  intros bb.
  assert (Hb : get ex_pool (BUF 0) = Some bb) by (vm_compute; reflexivity).
  destruct (bpin_bunpin_round_trip ex_pool (BUF 0) bb Hb)
    as (H1 & H2 & H3).
  - vm_compute. split; [intros E; discriminate E | reflexivity].
  - vm_compute. split; [intros E; discriminate E | reflexivity].
  - split; [exact Hb|]. split; [exact H1|]. split; [exact H2|].
    apply H3. vm_compute. reflexivity.
Defined.

Lemma bget_cached_witness :
  let bb := default zero_buf (get ex_read (BUF 2)) in
  shard ex_read (Z.to_nat (haskBlock 1)) = Some [BUF 2] /\
  find (caches ex_read 1 1) [BUF 2] = Some (BUF 2) /\
  get ex_read (BUF 2) = Some bb /\ lock bb = Some 7 /\
  bget 8 1 1 6 ex_read
  = Asleep (put ex_read (BUF 2) (set_refcnt (to_uint (refcnt bb + 1)) bb)).
Proof.
  intros bb.
  assert (Hl : shard ex_read (Z.to_nat (haskBlock 1)) = Some [BUF 2])
    by (vm_compute; reflexivity).
  assert (Hf : find (caches ex_read 1 1) [BUF 2] = Some (BUF 2))
    by (vm_compute; reflexivity).
  assert (Hb : get ex_read (BUF 2) = Some bb) by (vm_compute; reflexivity).
  assert (Hk : lock bb = Some 7) by (vm_compute; reflexivity).
  split; [exact Hl|]. split; [exact Hf|]. split; [exact Hb|].
  split; [exact Hk|].
  destruct (bget_cached 8 1 1 6 ex_read [BUF 2] (BUF 2) bb)
    as (_ & _ & _ & Hheld); try assumption.
  - vm_compute. split; [intros E; discriminate E | reflexivity].
  - apply (Hheld 7 Hk).
Defined.

Lemma brelse_then_bget_witness :
  let bb := default zero_buf (get ex_read (BUF 2)) in
  shard ex_read (Z.to_nat (haskBlock 1)) = Some [BUF 2] /\
  get ex_read (BUF 2) = Some bb /\ lock bb = Some 7 /\ valid bb = 1 /\
  exists s1 s2,
    brelse 7 (BUF 2) 9 ex_read = Ret tt s1 /\
    bread 8 1 1 12 s1 = Ret (BUF 2) s2 /\ iolog s2 = iolog ex_read.
Proof.
  intros bb.
  assert (Hl : shard ex_read (Z.to_nat (haskBlock 1)) = Some [BUF 2])
    by (vm_compute; reflexivity).
  assert (Hf : find (caches ex_read 1 1) [BUF 2] = Some (BUF 2))
    by (vm_compute; reflexivity).
  assert (Hb : get ex_read (BUF 2) = Some bb) by (vm_compute; reflexivity).
  assert (Hk : lock bb = Some 7) by (vm_compute; reflexivity).
  assert (Hv : valid bb = 1) by (vm_compute; reflexivity).
  split; [exact Hl|]. split; [exact Hb|]. split; [exact Hk|].
  split; [exact Hv|].
  destruct (brelse_then_bget 7 8 1 1 9 12 ex_read [BUF 2] (BUF 2) bb)
    as (s1 & s2 & bb2 & Erel & _ & _ & _ & _ & _ & _ & Hlog & Hread);
    try assumption.
  - lia.
  - vm_compute. split; [intros E; discriminate E | reflexivity].
  - exists s1, s2. split; [exact Erel|]. split; [|exact Hlog].
    apply Hread. rewrite Hv. discriminate.
Defined.

(** ** Reference counts and the references held *)

Lemma pins_app a b p : pins (a ++ b) p = pins a p + pins b p.
Proof. induction a as [|o a IH]; simpl; [reflexivity | rewrite IH; lia]. Qed.

Lemma locked_range b : 0 <= locked b <= 1.
Proof. unfold locked. destruct (lock b); lia. Qed.

(** [binit] leaves every count at 0 and every sleep-lock free. *)
Lemma binit_unheld now n s0 :
  binit now (boot n) = Ret tt s0 ->
  forall q b, get s0 q = Some b -> refcnt b = 0 /\ lock b = None.
Proof.
  set (P := fun s : bcache =>
              forall q b, get s q = Some b -> refcnt b = 0 /\ lock b = None).
  set (R := fun s s' : bcache => P s -> P s').
  set (good := fun f : buf -> buf =>
                 forall b, refcnt (f b) = refcnt b /\
                           (lock b = None -> lock (f b) = None)).
  assert (Rrefl : forall s, R s s) by (intros s H; exact H).
  assert (Rtrans : forall a b c, R a b -> R b c -> R a c)
    by (intros a b c H1 H2 H; apply H2, H1, H).
  assert (Rput : forall s p b f, good f -> get s p = Some b ->
                                 R s (put s p (f b))).
  { intros s p b f Hf Hb HP q x Hx.
    rewrite (get_put_if s p (f b) b q Hb) in Hx.
    destruct (decide (p = q)) as [<-|Hne]; [|exact (HP q x Hx)].
    injection Hx as <-. destruct (Hf b) as [Hr Hl], (HP p b Hb) as [H0 HN].
    split; [congruence | apply Hl, HN]. }
  assert (Hupd : forall p f, good f -> preserves R (upd p f))
    by (intros p f Hf; apply (pres_upd R good Rput p f Hf)).
  assert (Gnext : forall v, good (set_next v))
    by (intros v b; split; [reflexivity | intros H; exact H]).
  assert (Gprev : forall v, good (set_prev v))
    by (intros v b; split; [reflexivity | intros H; exact H]).
  assert (Gticks : forall v, good (set_ticks v))
    by (intros v b; split; [reflexivity | intros H; exact H]).
  assert (Glock : good (set_lock None))
    by (intros b; split; [reflexivity | intros _; reflexivity]).
  assert (Hbuckets : forall ids, preserves R (binit_buckets ids)).
  { induction ids as [|i ids IH]; simpl; [apply (pres_ret R Rrefl)|].
    apply (pres_bind R Rtrans); [apply Hupd, Gprev|]. intros _.
    apply (pres_bind R Rtrans); [apply Hupd, Gnext|]. intros _. exact IH. }
  assert (Hbuf : forall i, preserves R (binit_buf now i)).
  { intros i. unfold binit_buf.
    apply (pres_bind R Rtrans); [apply (pres_deref R Rrefl)|]. intros bb.
    apply (pres_bind R Rtrans); [apply (pres_bucket_ptr R Rrefl)|]. intros h.
    apply (pres_bind R Rtrans); [apply (pres_deref R Rrefl)|]. intros hd.
    apply (pres_bind R Rtrans); [apply Hupd, Gnext|]. intros _.
    apply (pres_bind R Rtrans); [apply Hupd, Gprev|]. intros _.
    apply (pres_bind R Rtrans); [apply Hupd, Glock|]. intros _.
    apply (pres_bind R Rtrans); [apply (pres_deref R Rrefl)|]. intros hd'.
    apply (pres_bind R Rtrans); [apply Hupd, Gprev|]. intros _.
    apply (pres_bind R Rtrans); [apply Hupd, Gnext|]. intros _.
    apply Hupd, Gticks. }
  assert (Hbufs : forall ids, preserves R (binit_bufs now ids)).
  { induction ids as [|i ids IH]; simpl; [apply (pres_ret R Rrefl)|].
    apply (pres_bind R Rtrans); [apply Hbuf|]. intros _. exact IH. }
  intros Hinit.
  assert (H : preserves R (binit now)).
  { intros s. unfold binit.
    apply (pres_bind R Rtrans (binit_buckets (seq 0 (Z.to_nat NBUCKETS)))
                     (fun _ => binit_bufs now (seq 0 (length (bufs s))))).
    - apply Hbuckets.
    - intros _. apply Hbufs. }
  specialize (H (boot n)). rewrite Hinit in H. apply H.
  intros q b Hq. apply boot_get in Hq as ->. split; reflexivity.
Qed.

(** What the calls that return do to the counts and the sleep-locks. *)
Lemma bpin_inv b s s' :
  left_by (bpin b s) = Some s' ->
  exists bb, get s b = Some bb /\
             s' = put s b (set_refcnt (to_uint (refcnt bb + 1)) bb).
Proof.
  unfold bpin, bind, deref, gets_opt, bucket_ptr, upd.
  destruct (get s b) as [bb|] eqn:Hb; [|discriminate].
  destruct ((0 <=? haskBlock (blockno bb))
            && (haskBlock (blockno bb) <? NBUCKETS)); [|discriminate].
  rewrite Hb. intros [= <-]. exists bb. split; reflexivity.
Qed.

Lemma bunpin_inv b s s' :
  left_by (bunpin b s) = Some s' ->
  exists bb, get s b = Some bb /\
             s' = put s b (set_refcnt (to_uint (refcnt bb - 1)) bb).
Proof.
  unfold bunpin, bind, deref, gets_opt, bucket_ptr, upd.
  destruct (get s b) as [bb|] eqn:Hb; [|discriminate].
  destruct ((0 <=? haskBlock (blockno bb))
            && (haskBlock (blockno bb) <? NBUCKETS)); [|discriminate].
  rewrite Hb. intros [= <-]. exists bb. split; reflexivity.
Qed.

Lemma bwrite_inv pid b s s' :
  left_by (bwrite pid b s) = Some s' -> forall q, get s' q = get s q.
Proof.
  unfold bwrite, bind, deref, gets_opt, virtio_disk_rw.
  destruct (get s b) as [bb|] eqn:Hb; [|discriminate].
  destruct (negb (holdingsleep pid bb)); [discriminate|].
  rewrite Hb. intros [= <-] q. apply get_logged.
Qed.

Lemma brelse_inv pid b now s s' :
  left_by (brelse pid b now s) = Some s' ->
  exists bb, get s b = Some bb /\ lock bb = Some pid /\
             s' = put s b (released now bb).
Proof.
  intros E. destruct (get s b) as [bb|] eqn:Hb.
  2:{ unfold brelse, bind, deref, gets_opt in E. rewrite Hb in E.
      discriminate E. }
  destruct (decide (lock bb = Some pid)) as [Hl|Hl].
  2:{ unfold brelse, bind in E. rewrite (deref_ok s b bb Hb) in E.
      unfold holdingsleep in E.
      rewrite bool_decide_eq_false_2 in E by exact Hl. discriminate E. }
  destruct (decide (0 <= haskBlock (blockno bb) < NBUCKETS)) as [Hh|Hh].
  - rewrite (brelse_holding_hash pid b now s bb Hb Hl Hh) in E.
    injection E as <-. exists bb. split; [reflexivity|]. split; [exact Hl|].
    reflexivity.
  - exfalso. unfold brelse, bind in E. rewrite (deref_ok s b bb Hb) in E.
    unfold holdingsleep in E. rewrite bool_decide_eq_true_2 in E by exact Hl.
    cbn [negb] in E. unfold releasesleep in E.
    rewrite (upd_ok s b _ bb Hb) in E.
    rewrite (deref_ok _ b _ (get_put_eq s b (set_lock None bb) bb Hb)) in E.
    unfold bucket_ptr in E. cbn [blockno set_lock] in E.
    destruct (Z.leb_spec 0 (haskBlock (blockno bb)));
      [|discriminate E].
    destruct (Z.ltb_spec (haskBlock (blockno bb)) NBUCKETS);
      [lia | discriminate E].
Qed.

Lemma payload_holders s s' q :
  payload <$> get s' q = payload <$> get s q ->
  refcnt <$> get s' q = refcnt <$> get s q /\
  lock <$> get s' q = lock <$> get s q.
Proof.
  destruct (get s' q) as [x|], (get s q) as [y|]; simpl;
    try discriminate; [|split; reflexivity].
  unfold payload. intros [= _ _ _ Hl Hr _ _]. rewrite Hl, Hr.
  split; reflexivity.
Qed.

(** [bget] takes one reference to one buffer of the pool, and the
    sleep-lock with it when the lock is free. *)
Lemma bget_holders pid d bn now s s' sh :
  wf s sh -> left_by (bget pid d bn now s) = Some s' ->
  exists k bb bb',
    get s (BUF k) = Some bb /\ get s' (BUF k) = Some bb' /\
    refcnt bb' = to_uint (refcnt bb + 1) /\
    (lock bb = None \/ lock bb' = lock bb) /\
    same_holders_but (BUF k) s s'.
Proof.
  intros Hwf E.
  destruct (decide (0 <= haskBlock bn < NBUCKETS)) as [Hh|Hh];
    [|rewrite (bget_bad_hash pid d bn now s Hh) in E; discriminate E].
  destruct (bget_outcome pid d bn now s sh Hwf Hh)
    as [[Ep _] | (k & bb & s1 & bb' & _ & Hb & Htk & Hb' & _ & _ & Hr & _ & _
                  & Hoth & _)];
    [rewrite Ep in E; discriminate E|].
  assert (Hs : s' = s1 /\ (lock bb = None \/ lock bb' = lock bb)).
  { destruct Htk as [(Hfree & Eo & _) | (_ & Eo & Hsame)];
      rewrite Eo in E; injection E as <-; split; auto. }
  destruct Hs as [-> Hlock].
  exists k, bb, bb'. split; [exact Hb|]. split; [exact Hb'|].
  split; [exact Hr|]. split; [exact Hlock|].
  intros q Hq. apply payload_holders, Hoth, Hq.
Qed.

(** What [bread] does once [bget] has returned changes neither a count
    nor a sleep-lock. *)
Lemma bread_rest_holders (b : ptr) :
  preserves (fun s s' => forall q,
               refcnt <$> get s' q = refcnt <$> get s q /\
               lock <$> get s' q = lock <$> get s q)
    (let! bb := deref b in
     do! (if valid bb =? 0 then
            do! virtio_disk_rw b false in
            upd b (set_valid 1)
          else ret tt) in
     ret b)%kern.
Proof.
  set (R := fun s s' : bcache => forall q,
              refcnt <$> get s' q = refcnt <$> get s q /\
              lock <$> get s' q = lock <$> get s q).
  set (good := fun f : buf -> buf =>
                 forall x, refcnt (f x) = refcnt x /\ lock (f x) = lock x).
  assert (Rrefl : forall s, R s s) by (intros s q; split; reflexivity).
  assert (Rtrans : forall a b c, R a b -> R b c -> R a c).
  { intros x y z H1 H2 q. destruct (H1 q) as [A1 B1], (H2 q) as [A2 B2].
    split; congruence. }
  assert (Rput : forall s p x f, good f -> get s p = Some x ->
                                 R s (put s p (f x))).
  { intros s p x f Hf Hp q. destruct (Hf x) as [Hr Hl]. split.
    - apply (fmap_get_put_same refcnt s p (f x) x q Hp Hr).
    - apply (fmap_get_put_same lock s p (f x) x q Hp Hl). }
  assert (Rdriver : forall s dk lg,
            R s (mkCache (bufs s) (head s) (buckets s) dk lg))
    by (intros s dk lg q; rewrite get_logged; split; reflexivity).
  apply (pres_bind R Rtrans); [apply (pres_deref R Rrefl)|]. intros bb.
  apply (pres_bind R Rtrans); [|intros _; apply (pres_ret R Rrefl)].
  destruct (valid bb =? 0); [|apply (pres_ret R Rrefl)].
  apply (pres_bind R Rtrans).
  - apply (pres_virtio_disk_rw R Rtrans good Rput);
      [intros v x; split; reflexivity | exact Rdriver].
  - intros _. apply (pres_upd R good Rput). intros x. split; reflexivity.
Qed.

Lemma bread_holders pid d bn now s s' sh :
  wf s sh -> left_by (bread pid d bn now s) = Some s' ->
  exists k bb bb',
    get s (BUF k) = Some bb /\ get s' (BUF k) = Some bb' /\
    refcnt bb' = to_uint (refcnt bb + 1) /\
    (lock bb = None \/ lock bb' = lock bb) /\
    same_holders_but (BUF k) s s'.
Proof.
  intros Hwf E. unfold bread in E. unfold bind at 1 in E.
  destruct (bget pid d bn now s) as [b s1| |s1| |] eqn:Eg;
    try discriminate E.
  - assert (Eg' : left_by (bget pid d bn now s) = Some s1)
      by (rewrite Eg; reflexivity).
    destruct (bget_holders pid d bn now s s1 sh Hwf Eg')
      as (k & bb & bb1 & Hb & Hb1 & Hr & Hl & Hoth).
    pose proof (bread_rest_holders b s1) as Hrest. cbv beta in Hrest.
    assert (Hsame : forall q,
              refcnt <$> get s' q = refcnt <$> get s1 q /\
              lock <$> get s' q = lock <$> get s1 q).
    { revert E Hrest.
      match goal with |- left_by ?o = _ -> _ => destruct o end;
        simpl; intros E Hrest; try discriminate E;
        injection E as <-; exact Hrest. }
    destruct (Hsame (BUF k)) as [Hr' Hl']. rewrite Hb1 in Hr', Hl'.
    destruct (get s' (BUF k)) as [bb'|] eqn:Hb'; [|discriminate Hr'].
    simpl in Hr', Hl'. injection Hr' as Hr'. injection Hl' as Hl'.
    exists k, bb, bb'. split; [exact Hb|]. split; [exact Hb'|].
    split; [congruence|]. split; [destruct Hl; [left | right]; congruence|].
    intros q Hq. destruct (Hoth q Hq) as [A1 B1], (Hsame q) as [A2 B2].
    split; congruence.
  - injection E as <-.
    assert (Eg' : left_by (bget pid d bn now s) = Some s1)
      by (rewrite Eg; reflexivity).
    apply (bget_holders pid d bn now s s1 sh Hwf Eg').
Qed.

(** One call more: the counts are accounted for when the object [p] the
    call worked on is, the others being as they were. *)
Lemma accounted_step pre o s s' p :
  accounted pre s -> same_holders_but p s s' ->
  (forall q, q <> p -> pin_delta o q = 0) ->
  (forall b', get s' p = Some b' ->
     pins pre p + pin_delta o p + locked b' <= refcnt b'
     <= Z.of_nat (length pre) + 1) ->
  accounted (pre ++ [o]) s'.
Proof.
  intros Ha Hoth Hd Hp q b' Hq. rewrite pins_app, length_app. simpl.
  destruct (decide (q = p)) as [->|Hne].
  - specialize (Hp b' Hq). lia.
  - destruct (Hoth q Hne) as [Hr Hl]. rewrite Hq in Hr, Hl.
    destruct (get s q) as [b|] eqn:Hb; [|discriminate Hr].
    simpl in Hr, Hl. injection Hr as Hr. injection Hl as Hl.
    specialize (Ha q b Hb). rewrite (Hd q Hne).
    unfold locked in *. rewrite Hl, Hr. lia.
Qed.

Lemma same_holders_put s p bb x :
  get s p = Some bb -> same_holders_but p s (put s p x).
Proof.
  intros Hb q Hq. rewrite get_put_ne by congruence. split; reflexivity.
Qed.

Lemma step_accounted pre o s s' sh :
  wf s sh -> accounted pre s ->
  (forall p, 0 <= pins pre p) -> (forall p, 0 <= pins (pre ++ [o]) p) ->
  Z.of_nat (length pre) + 1 < 2 ^ 32 ->
  step o s = Some s' -> accounted (pre ++ [o]) s'.
Proof.
  intros Hwf Ha Hpre Hnew Hlen E.
  assert (Htake : forall k bb bb',
            get s (BUF k) = Some bb -> get s' (BUF k) = Some bb' ->
            refcnt bb' = to_uint (refcnt bb + 1) ->
            (lock bb = None \/ lock bb' = lock bb) ->
            same_holders_but (BUF k) s s' ->
            (forall q, pin_delta o q = 0) ->
            accounted (pre ++ [o]) s').
  { intros k bb bb' Hb Hb' Hr Hl Hoth Hd.
    apply (accounted_step pre o s s' (BUF k) Ha Hoth); [intros q _; apply Hd|].
    intros x Hx. rewrite Hb' in Hx. injection Hx as <-.
    specialize (Ha (BUF k) bb Hb). specialize (Hpre (BUF k)).
    pose proof (locked_range bb) as Hlb. rewrite Hd, Hr.
    rewrite to_uint_id by lia.
    assert (locked bb' <= locked bb + 1).
    { unfold locked in *. destruct Hl as [Hl | Hl]; rewrite Hl;
        [destruct (lock bb') | destruct (lock bb)]; lia. }
    lia. }
  destruct o as [pid d bn now|pid d bn now|pid b|pid b now|b|b];
    cbn [step] in E.
  - destruct (bget_holders pid d bn now s s' sh Hwf E)
      as (k & bb & bb' & Hb & Hb' & Hr & Hl & Hoth).
    apply (Htake k bb bb' Hb Hb' Hr Hl Hoth). intros q. reflexivity.
  - destruct (bread_holders pid d bn now s s' sh Hwf E)
      as (k & bb & bb' & Hb & Hb' & Hr & Hl & Hoth).
    apply (Htake k bb bb' Hb Hb' Hr Hl Hoth). intros q. reflexivity.
  - pose proof (bwrite_inv pid b s s' E) as Hsame.
    apply (accounted_step pre _ s s' NULL Ha).
    + intros q _. rewrite Hsame. split; reflexivity.
    + intros q _. reflexivity.
    + intros x Hx. discriminate Hx.
  - destruct (brelse_inv pid b now s s' E) as (bb & Hb & Hl & ->).
    apply (accounted_step pre _ s _ b Ha (same_holders_put s b bb _ Hb)).
    + intros q _. reflexivity.
    + intros x Hx. rewrite (get_put_eq s b _ bb Hb) in Hx. injection Hx as <-.
      specialize (Ha b bb Hb). specialize (Hpre b).
      unfold locked in *. rewrite Hl in Ha.
      cbn [released refcnt lock pin_delta]. rewrite to_uint_id by lia. lia.
  - destruct (bpin_inv b s s' E) as (bb & Hb & ->).
    apply (accounted_step pre _ s _ b Ha (same_holders_put s b bb _ Hb)).
    + intros q Hq. cbn [pin_delta]. rewrite decide_False by congruence.
      reflexivity.
    + intros x Hx. rewrite (get_put_eq s b _ bb Hb) in Hx. injection Hx as <-.
      specialize (Ha b bb Hb). specialize (Hpre b).
      pose proof (locked_range bb) as Hlb.
      cbn [pin_delta]. rewrite decide_True by reflexivity.
      unfold locked in *. cbn [set_refcnt refcnt lock].
      rewrite to_uint_id by lia. lia.
  - destruct (bunpin_inv b s s' E) as (bb & Hb & ->).
    apply (accounted_step pre _ s _ b Ha (same_holders_put s b bb _ Hb)).
    + intros q Hq. cbn [pin_delta]. rewrite decide_False by congruence.
      reflexivity.
    + intros x Hx. rewrite (get_put_eq s b _ bb Hb) in Hx. injection Hx as <-.
      specialize (Ha b bb Hb). specialize (Hnew b).
      rewrite pins_app in Hnew. cbn [pins pin_delta] in Hnew.
      rewrite decide_True in Hnew by reflexivity.
      pose proof (locked_range bb) as Hlb.
      cbn [pin_delta]. rewrite decide_True by reflexivity.
      unfold locked in *. cbn [set_refcnt refcnt lock].
      rewrite to_uint_id by lia. lia.
Qed.

Lemma run_accounted ops : forall pre s s',
  (exists sh, wf s sh) -> accounted pre s ->
  (forall n p, 0 <= pins (pre ++ take n ops) p) ->
  Z.of_nat (length (pre ++ ops)) < 2 ^ 32 ->
  run ops s = Some s' -> accounted (pre ++ ops) s'.
Proof.
  induction ops as [|o ops IH]; intros pre s s' Hwf Ha Hm Hlen E; simpl in E.
  - injection E as <-. rewrite app_nil_r. exact Ha.
  - destruct (step o s) as [s1|] eqn:Hstep; [|discriminate E].
    assert (Hcons : pre ++ o :: ops = (pre ++ [o]) ++ ops)
      by (rewrite <- app_assoc; reflexivity).
    rewrite Hcons in Hlen |- *. destruct Hwf as [sh Hwf].
    apply (IH (pre ++ [o]) s1 s').
    + destruct (step_keeps_wf o s s1 Hstep) as [_ H]; [eauto | exact H].
    + apply (step_accounted pre o s s1 sh Hwf Ha).
      * intros p. specialize (Hm 0%nat p). rewrite app_nil_r in Hm. exact Hm.
      * intros p. apply (Hm 1%nat p).
      * rewrite !length_app in Hlen. simpl in Hlen. lia.
      * exact Hstep.
    + intros n p. specialize (Hm (S n) p). simpl in Hm.
      rewrite <- app_assoc. exact Hm.
    + exact Hlen.
    + exact E.
Qed.

(** C7: in a run of fewer than [2^31] calls of [bget], [bread], [bwrite],
    [brelse], [bpin] and [bunpin] after [binit] in which every [bunpin]
    undoes an earlier [bpin] of the same buffer, the reference count of
    every buffer stays at or above 0 and never wraps around: it is at
    least the number of pins the buffer has outstanding, plus one while
    its sleep-lock is held, and at most the number of calls made. *)
Theorem refcnt_counts_references (nbuf : nat) (now : Z) (ops : list op)
        (s0 s : bcache) (p : ptr) (b : buf) :
  binit now (boot nbuf) = Ret tt s0 ->
  run ops s0 = Some s ->
  matched ops ->
  Z.of_nat (length ops) < 2 ^ 31 ->
  get s p = Some b ->
  0 <= count_of b /\ count_of b = refcnt b /\
  pins ops p + locked b <= refcnt b <= Z.of_nat (length ops).
Proof.
  intros Hinit Hrun Hm Hlen Hb.
  destruct (binit_wf now nbuf) as (s0' & E0 & _ & Hwf0).
  rewrite E0 in Hinit. injection Hinit as ->.
  assert (Ha0 : accounted [] s0).
  { intros q x Hx. destruct (binit_unheld now nbuf s0 E0 q x Hx) as [H0 HN].
    unfold locked. rewrite H0, HN. simpl. lia. }
  assert (Ha : accounted ([] ++ ops) s).
  { apply (run_accounted ops [] s0 s); [eauto | exact Ha0 | | | exact Hrun].
    - intros n q. apply (Hm n q).
    - simpl. lia. }
  simpl in Ha. specialize (Ha p b Hb).
  assert (Hp : 0 <= pins ops p).
  { specialize (Hm (length ops) p). rewrite take_ge in Hm by lia. exact Hm. }
  pose proof (locked_range b) as Hl.
  assert (Hc : count_of b = refcnt b)
    by (unfold count_of; apply to_int_id; lia).
  rewrite Hc. split; [lia|]. split; [reflexivity | exact Ha].
Qed.

(** ** The victim is the least recently used buffer *)

Lemma ticks_okb_sound s : ticks_okb s = true -> ticks_ok s.
Proof.
  unfold ticks_okb. rewrite forallb_forall. intros H p b Hp.
  assert (Hin : In b (bufs s ++ buckets s ++ [head s])).
  { apply list_elem_of_In. destruct p as [|i|i|]; simpl in Hp.
    - discriminate Hp.
    - apply elem_of_app. left. apply (list_elem_of_lookup_2 _ i), Hp.
    - apply elem_of_app. right. apply elem_of_app. left.
      apply (list_elem_of_lookup_2 _ i), Hp.
    - injection Hp as <-. apply elem_of_app. right. apply elem_of_app.
      right. apply elem_of_cons. left. reflexivity. }
  specialize (H b Hin). apply andb_true_iff in H as [H1 H2]. lia.
Qed.

(** X18: The buffer [bget] recycles is the least recently used one: in use,
    with timestamps that are [uint] values, the buffer returned after a
    miss was unreferenced, and no unreferenced buffer of the pool had a
    smaller timestamp. *)
Theorem bget_recycles_lru (s s' : bcache) (pid d bn now : Z) (b : ptr) :
  reachable s -> ticks_ok s -> miss d bn s ->
  bget pid d bn now s = Ret b s' ->
  unreferenced s b /\
  forall k bk, get s (BUF k) = Some bk -> refcnt bk = 0 ->
               stamp s b <= ticks bk.
Proof.
  intros Hr Hticks Hmiss E. destruct (reachable_wf s Hr) as [sh Hwf].
  destruct (wf_pool s sh Hwf) as (L & HL & Hmem).
  destruct (bget_victim_lru pid d bn now s L Hticks Hmiss HL) as [Hlru _].
  destruct (Hlru b s' E) as (i & (La & Lb & HLeq & Hun & Hbefore & Hafter) & _).
  split; [exact Hun|]. intros k bk Hk H0.
  assert (Hunk : unreferenced s (BUF k)) by (exists bk; split; assumption).
  assert (Hst : stamp s (BUF k) = ticks bk) by (apply stamp_get, Hk).
  destruct (wf_cover s sh Hwf k (lookup_lt_Some _ _ _ Hk)) as (j & Hj & Hkj).
  assert (Hin : (j, BUF k) ∈ L) by (apply Hmem; eauto).
  rewrite <- Hst. rewrite HLeq in Hin.
  apply elem_of_app in Hin as [Hin | Hin].
  - specialize (Hbefore j (BUF k) Hin Hunk). lia.
  - apply elem_of_cons in Hin as [[= _ <-] | Hin]; [lia|].
    apply (Hafter j (BUF k) Hin Hunk).
Qed.

(** ** Writing a block and reading it again *)

Lemma bread_miss_data pid d bn now s b s1 bb :
  bget pid d bn now s = Ret b s1 -> get s1 b = Some bb -> valid bb = 0 ->
  exists s2 bb2,
    bread pid d bn now s = Ret b s2 /\ get s2 b = Some bb2 /\
    valid bb2 = 1 /\ dev bb2 = dev bb /\ blockno bb2 = blockno bb /\
    data bb2 = default (replicate BSIZE 0) (disk s1 !! (dev bb, blockno bb)) /\
    lock bb2 = lock bb /\
    iolog s2 = iolog s1 ++ [DiskRead (dev bb) (blockno bb)].
Proof.
  intros E Hb Hv. unfold bread, bind. rewrite E, (deref_ok s1 b bb Hb), Hv.
  cbn [Z.eqb]. unfold virtio_disk_rw. rewrite Hb.
  set (dat := default (replicate BSIZE 0) (disk s1 !! (dev bb, blockno bb))).
  set (s2 := put s1 b (set_data dat bb)).
  assert (H2 : get (mkCache (bufs s2) (head s2) (buckets s2) (disk s2)
                            (iolog s2 ++ [DiskRead (dev bb) (blockno bb)])) b
               = Some (set_data dat bb)).
  { rewrite get_logged. apply (get_put_eq s1 b _ bb Hb). }
  rewrite (upd_ok _ b _ _ H2).
  eexists. eexists. split; [reflexivity|].
  split; [apply (get_put_eq _ b _ _ H2)|].
  do 5 (split; [reflexivity|]).
  rewrite iolog_put. cbn [iolog]. unfold s2. rewrite iolog_put. reflexivity.
Qed.

(** X19: What [bwrite] has written is what a later [bread] brings back: the
    data of the buffer are on the device under the buffer's block, and
    a [bread] that misses the block takes a buffer and fills it with
    the data the device holds for the block. *)
Theorem bwrite_then_bread (pid : Z) (b : ptr) (s : bcache) (bb : buf) :
  get s b = Some bb -> lock bb = Some pid ->
  exists s1,
    bwrite pid b s = Ret tt s1 /\
    disk s1 !! (dev bb, blockno bb) = Some (data bb) /\
    forall s2 pid2 now b2 s3,
      disk s2 !! (dev bb, blockno bb) = Some (data bb) ->
      miss (dev bb) (blockno bb) s2 ->
      bread pid2 (dev bb) (blockno bb) now s2 = Ret b2 s3 ->
      exists bb3, get s3 b2 = Some bb3 /\ valid bb3 = 1 /\
                  dev bb3 = dev bb /\ blockno bb3 = blockno bb /\
                  data bb3 = data bb.
Proof.
  intros Hb Hl. exists (written s bb).
  split; [apply (bwrite_holding pid b s bb Hb Hl)|].
  split; [apply lookup_insert_eq|].
  intros s2 pid2 now b2 s3 Hdisk Hmiss E.
  destruct (bget pid2 (dev bb) (blockno bb) now s2) as [b' s2a| | | |] eqn:Eg;
    try (unfold bread, bind in E; rewrite Eg in E; discriminate E).
  destruct (bget_on_miss pid2 (dev bb) (blockno bb) now s2 Hmiss) as [h Eh].
  rewrite Eh in Eg.
  destruct (bget_miss_result _ _ _ _ _ _ _ _ _ _ Eg)
    as (st & b0 & bb' & _ & _ & _ & _ & Hb' & Hv & Hd & Hn & _).
  rewrite <- Eh in Eg.
  destruct (bread_miss_data pid2 _ _ now s2 b' s2a bb' Eg Hb' Hv)
    as (s3' & bb3 & E' & Hb3 & Hv3 & Hd3 & Hn3 & Hdat & _).
  rewrite E' in E. injection E as <- <-.
  exists bb3. split; [exact Hb3|]. split; [exact Hv3|].
  split; [congruence|]. split; [congruence|].
  rewrite Hdat, Hd, Hn.
  pose proof (bget_same_device pid2 (dev bb) (blockno bb) now s2) as Hsame.
  rewrite Eg in Hsame. destruct Hsame as [_ Hdk].
  rewrite Hdk, Hdisk. reflexivity.
Qed.

(** X20: What [bread] returns: a buffer of the pool, locked by the caller,
    that carries the identity of the requested block and is valid;
    either the device was not asked, or the buffer has just been filled
    with what the device holds for the block, by one read request. *)
Theorem bread_returns_valid (s s' : bcache) (pid d bn now : Z) (b : ptr) :
  reachable s -> bread pid d bn now s = Ret b s' ->
  exists k bb',
    b = BUF k /\ (k < length (bufs s))%nat /\
    get s' b = Some bb' /\ valid bb' <> 0 /\ lock bb' = Some pid /\
    dev bb' = d /\ blockno bb' = bn /\
    (iolog s' = iolog s \/
     (iolog s' = iolog s ++ [DiskRead d bn] /\
      data bb' = default (replicate BSIZE 0) (disk s !! (d, bn)))).
Proof.
  intros Hr E. destruct (reachable_wf s Hr) as [sh Hwf].
  destruct (bget pid d bn now s) as [b1 s1| | | |] eqn:Eg;
    try (unfold bread, bind in E; rewrite Eg in E; discriminate E).
  destruct (decide (0 <= haskBlock bn < NBUCKETS)) as [Hh|Hh];
    [|rewrite (bget_bad_hash pid d bn now s Hh) in Eg; discriminate Eg].
  destruct (bget_outcome pid d bn now s sh Hwf Hh)
    as [[Ep _] | (k & bb & s1' & bb1 & Hk & _ & Htk & Hb1 & Hd & Hn & _ & _
                  & _ & _ & Hdk & Hlg & _)];
    [rewrite Eg in Ep; discriminate Ep|].
  rewrite Eg in Htk.
  destruct Htk as [(_ & Eq & Hheld) | (_ & Eq & _)]; [|discriminate Eq].
  injection Eq as Eb Es. subst b1 s1'.
  destruct (Z.eq_dec (valid bb1) 0) as [Hv|Hv].
  - destruct (bread_miss_data pid d bn now s _ s1 bb1 Eg Hb1 Hv)
      as (s2 & bb2 & E2 & Hb2 & Hv2 & Hd2 & Hn2 & Hdat & Hl2 & Hlog2).
    rewrite E2 in E. injection E as <- <-.
    exists k, bb2. split; [reflexivity|]. split; [exact Hk|].
    split; [exact Hb2|]. split; [rewrite Hv2; discriminate|].
    split; [congruence|]. split; [congruence|]. split; [congruence|].
    right. rewrite Hlog2, Hlg, Hd, Hn, Hdat, Hdk, Hd, Hn. split; reflexivity.
  - rewrite (bread_valid pid d bn now s _ s1 bb1 Eg Hb1 Hv) in E.
    injection E as <- <-.
    exists k, bb1. split; [reflexivity|]. split; [exact Hk|].
    split; [exact Hb1|]. split; [exact Hv|]. split; [exact Hheld|].
    split; [exact Hd|]. split; [exact Hn|]. left. exact Hlg.
Qed.

(** X21: Using a cached block leaves no trace but the timestamp: [bread] of
    a block that is cached, valid and not held, followed by [brelse],
    puts the cache back into the state it was in, except that a buffer
    no one else refers to gets the time of the release as its
    timestamp. *)
Theorem use_cached_block (pid d bn now later : Z) (s : bcache)
        (l : list ptr) (b : ptr) (bb : buf) :
  0 <= haskBlock bn < NBUCKETS ->
  shard s (Z.to_nat (haskBlock bn)) = Some l ->
  find (caches s d bn) l = Some b ->
  get s b = Some bb -> lock bb = None -> valid bb <> 0 ->
  0 <= refcnt bb < 2 ^ 32 ->
  use_block pid d bn now later s
  = Ret tt (if refcnt bb =? 0 then put s b (set_ticks later bb) else s).
Proof.
  intros Hh Hl Hfind Hb Hfree Hv Hr.
  destruct (find_caches s d bn l b Hfind) as (_ & bb0 & Hb0 & Hd & Hn).
  rewrite Hb in Hb0. injection Hb0 as <-.
  pose proof (bucket_ptr_hash s _ Hh) as Hptr.
  pose proof (lookup_shard s _ d bn l Hl) as Hlook. rewrite Hfind in Hlook.
  pose proof (bget_on_hit pid d bn now s _ b Hptr Hlook) as Eg.
  rewrite (bget_hit_free pid b s bb Hb Hfree) in Eg.
  set (bb1 := set_lock (Some pid) (set_refcnt (to_uint (refcnt bb + 1)) bb))
    in *.
  set (s1 := put s b bb1) in *.
  pose proof (get_put_eq s b bb1 bb Hb) as Hb1. fold s1 in Hb1.
  unfold use_block, bind.
  rewrite (bread_valid pid d bn now s b s1 bb1 Eg Hb1 Hv).
  rewrite (brelse_holding_hash pid b later s1 bb1 Hb1 eq_refl)
    by (cbn [blockno bb1 set_lock set_refcnt]; rewrite Hn; exact Hh).
  f_equal. unfold s1. rewrite put_put.
  assert (Hrel : released later bb1
                 = if refcnt bb =? 0 then set_ticks later bb else bb).
  { unfold released. cbn [refcnt valid dev blockno prev next ticks data bb1
                          set_lock set_refcnt].
    rewrite to_uint_incr_decr, (to_uint_id _ Hr).
    destruct (refcnt bb =? 0); destruct bb; simpl in *; subst; reflexivity. }
  rewrite Hrel. destruct (refcnt bb =? 0); [reflexivity|].
  apply put_same, Hb.
Qed.

(** ** The per-shard variant ([kernel/bio.c]) *)

Lemma pres_eq_any {A} (R : bcache -> bcache -> Prop)
      (m : bcache -> outcome bcache A) :
  (forall s, R s s) -> preserves eq m -> preserves R m.
Proof.
  intros Hr Hm s. specialize (Hm s).
  destruct (m s); try exact I; subst; apply Hr.
Qed.

Lemma local_scan_bucket_eq fuel stop i : forall p st,
  preserves eq (BioLocal.scan_bucket fuel stop i p st).
Proof.
  induction fuel as [|fuel IH]; intros p st s; simpl.
  - destruct (decide (p = stop)); [reflexivity | exact I].
  - destruct (decide (p = stop)); [reflexivity|].
    destruct (get s p) as [b|]; [|exact I].
    destruct (get s (bMin st)) as [m|]; [|exact I].
    apply IH.
Qed.

Lemma local_scan_buckets_eq fuel ids : forall st,
  preserves eq (BioLocal.scan_buckets fuel ids st).
Proof.
  induction ids as [|i ids IH]; intros st; simpl.
  - intros s. reflexivity.
  - apply (pres_bind eq (@eq_trans bcache)).
    + apply (pres_deref eq (@eq_refl bcache)).
    + intros hd. apply (pres_bind eq (@eq_trans bcache));
        [apply local_scan_bucket_eq | intros st'; apply IH].
Qed.

Lemma same_links_refl s : same_links s s.
Proof. split; [reflexivity|]. intros q. split; reflexivity. Qed.

Lemma same_links_trans a b c :
  same_links a b -> same_links b c -> same_links a c.
Proof.
  intros [A1 A2] [B1 B2]. split; [congruence|]. intros q.
  destruct (A2 q) as [A3 A4], (B2 q) as [B3 B4]. split; congruence.
Qed.

Lemma same_links_put s p b f :
  (forall x, next (f x) = next x /\ prev (f x) = prev x) ->
  get s p = Some b -> same_links s (put s p (f b)).
Proof.
  intros Hf Hp. destruct (Hf b) as [Hn Hv].
  split; [apply nodes_put|]. intros q. split.
  - apply (fmap_get_put_same next s p (f b) b q Hp Hn).
  - apply (fmap_get_put_same prev s p (f b) b q Hp Hv).
Qed.

Lemma shard_same_links s s' i : same_links s s' -> shard s' i = shard s i.
Proof.
  intros [Hnodes Hl]. unfold shard. rewrite Hnodes.
  destruct (Hl (BUCKET i)) as [Hhd _]. unfold next_of in Hhd.
  destruct (get s' (BUCKET i)) as [x|], (get s (BUCKET i)) as [y|];
    simpl in Hhd; try discriminate; [|reflexivity].
  injection Hhd as ->.
  apply (chain_same_next s s'). intros q. apply (Hl q).
Qed.

Lemma local_bget_same_links pid d bn now :
  preserves same_links (BioLocal.bget pid d bn now).
Proof.
  unfold BioLocal.bget.
  apply (pres_bind same_links same_links_trans);
    [apply (pres_gets same_links same_links_refl)|].
  intros fuel. apply (pres_bind same_links same_links_trans);
    [apply (pres_bucket_ptr same_links same_links_refl)|].
  intros h. apply (pres_bind same_links same_links_trans);
    [apply (pres_lookup same_links same_links_refl same_links_trans)|].
  intros [b|].
  - apply (pres_bget_hit same_links same_links_refl same_links_trans _
             same_links_put); keeps_links.
  - apply (pres_bind same_links same_links_trans).
    + apply (pres_eq_any same_links _ same_links_refl).
      apply local_scan_buckets_eq.
    + intros st. destruct (found st =? 0);
        [apply (pres_panic same_links)|].
      apply (pres_bind same_links same_links_trans).
      * apply (pres_rebind same_links same_links_trans _ same_links_put);
          keeps_links.
      * intros _. apply (pres_bind same_links same_links_trans).
        -- apply (pres_acquiresleep same_links same_links_refl _
                    same_links_put); keeps_links.
        -- intros _. apply (pres_ret same_links same_links_refl).
Qed.

(** X22: [bget] of [kernel/bio.c] moves nothing: no link changes, so every
    shard holds the buffers it held, also the recycled one.  A buffer
    recycled from another shard than the block's is therefore not met
    by the next look through the block's shard, which misses again
    although the block now has a buffer. *)
Theorem local_bget_moves_nothing (pid d bn now : Z) (s : bcache) :
  (forall s', left_by (BioLocal.bget pid d bn now s) = Some s' ->
     same_links s s' /\ forall i, shard s' i = shard s i) /\
  (forall b s' l,
     BioLocal.bget pid d bn now s = Ret b s' ->
     0 <= haskBlock bn < NBUCKETS ->
     shard s (Z.to_nat (haskBlock bn)) = Some l ->
     find (caches s d bn) l = None -> b ∉ l ->
     (exists bb', get s' b = Some bb' /\ dev bb' = d /\ blockno bb' = bn) /\
     lookup (nodes s') (BUCKET (Z.to_nat (haskBlock bn))) d bn s'
     = Ret None s').
Proof.
  assert (Hlinks : forall s', left_by (BioLocal.bget pid d bn now s) = Some s' ->
                              same_links s s').
  { intros s' E. pose proof (local_bget_same_links pid d bn now s) as H.
    destruct (BioLocal.bget pid d bn now s); simpl in E; try discriminate;
      injection E as <-; exact H. }
  split.
  { intros s' E. split; [apply Hlinks, E|].
    intros i. apply shard_same_links, Hlinks, E. }
  intros b s' l E Hh Hl Hfind Hb.
  assert (Hsl : same_links s s') by (apply Hlinks; rewrite E; reflexivity).
  pose proof (lookup_shard s _ d bn l Hl) as Hlook. rewrite Hfind in Hlook.
  pose proof (bucket_ptr_hash s _ Hh) as Hptr.
  unfold BioLocal.bget, bind at 1, gets in E. unfold bind at 1 in E.
  rewrite Hptr in E. unfold bind at 1 in E. rewrite Hlook in E.
  apply bind_Ret_inv in E as (st & s0 & Hscan & E).
  pose proof (same_state _ _ _ _ (local_scan_buckets_eq _ _ _) Hscan) as ->.
  destruct (found st =? 0); [discriminate E|].
  apply bind_Ret_inv in E as ([] & s1 & Hre & E).
  apply rebind_inv in Hre as (bb & Hbb & ->).
  apply bind_Ret_inv in E as ([] & s2 & Hacq & E).
  injection E as Eb Es. rewrite Eb in Hbb, Hacq. subst s'. clear Eb.
  set (bb1 := rebound d bn now bb) in *.
  pose proof (get_put_eq s b bb1 bb Hbb) as Hb1.
  unfold acquiresleep in Hacq. rewrite Hb1 in Hacq.
  destruct (lock bb1); [discriminate Hacq|]. injection Hacq as <-.
  rewrite put_put.
  set (bb2 := set_lock (Some pid) bb1).
  split.
  { exists bb2. split; [apply (get_put_eq s b bb2 bb Hbb)|].
    split; reflexivity. }
  rewrite (lookup_shard (put s b bb2) _ d bn l).
  - f_equal. rewrite <- Hfind. apply find_ext_in. intros x Hx.
    unfold caches. rewrite get_put_ne; [reflexivity|].
    intros ->. contradiction.
  - rewrite (shard_put_same_next s b bb bb2 _ Hbb eq_refl). exact Hl.
Qed.

Lemma local_bget_moves_nothing_witness :
  let s' := after (BioLocal.bget 7 1 1 5) ex_pool in
  BioLocal.bget 7 1 1 5 ex_pool = Ret (BUF 0) s' /\
  shard ex_pool (Z.to_nat (haskBlock 1)) = Some [] /\
  shard s' 0 = Some [BUF 2; BUF 1; BUF 0] /\
  (exists bb', get s' (BUF 0) = Some bb' /\ dev bb' = 1 /\ blockno bb' = 1) /\
  lookup (nodes s') (BUCKET (Z.to_nat (haskBlock 1))) 1 1 s' = Ret None s'.
Proof.
  intros s'.
  assert (E : BioLocal.bget 7 1 1 5 ex_pool = Ret (BUF 0) s')
    by (apply value_state; vm_compute; reflexivity).
  assert (Hl : shard ex_pool (Z.to_nat (haskBlock 1)) = Some [])
    by (vm_compute; reflexivity).
  destruct (local_bget_moves_nothing 7 1 1 5 ex_pool) as [Hsame Hmiss].
  split; [exact E|]. split; [exact Hl|].
  split.
  { destruct (Hsame s') as [_ Hsh]; [rewrite E; reflexivity|].
    rewrite Hsh. vm_compute. reflexivity. }
  apply (Hmiss (BUF 0) s' [] E).
  - vm_compute. split; [intros H; discriminate H | reflexivity].
  - exact Hl.
  - reflexivity.
  - intros H. apply elem_of_nil in H. exact H.
Defined.

(** The candidate of the victim search of [kernel/bio.c] is never
    younger than the one before it. *)
Lemma local_scan_bucket_inv fuel stop i : forall p st s st' s',
  BioLocal.scan_bucket fuel stop i p st s = Ret st' s' ->
  ((bMin st' = bMin st /\ found st' = found st) \/
   (found st' = 1 /\ unreferenced s (bMin st'))) /\
  stamp s (bMin st') <= stamp s (bMin st).
Proof.
  induction fuel as [|fuel IH]; intros p st s st' s'; simpl.
  - destruct (decide (p = stop)); [|discriminate].
    intros [= <- _]. split; [left; split; reflexivity | lia].
  - destruct (decide (p = stop)).
    { intros [= <- _]. split; [left; split; reflexivity | lia]. }
    destruct (get s p) as [b|] eqn:Hb; [|discriminate].
    destruct (get s (bMin st)) as [m|] eqn:Hm; [|discriminate].
    intros E. apply IH in E as [Hwho Hle].
    destruct (Z.eqb_spec (refcnt b) 0) as [H0|]; cbn [andb] in *;
      [|split; assumption].
    destruct (Z.leb_spec (ticks b) (ticks m)) as [Hbm|]; [|split; assumption].
    cbn [bMin found] in *.
    assert (Hun : unreferenced s p) by (exists b; split; assumption).
    split.
    + right. destruct Hwho as [[-> Hf] | Hwho]; [|exact Hwho].
      split; [exact Hf | exact Hun].
    + unfold stamp in *. rewrite Hb in Hle. rewrite Hm. lia.
Qed.

Lemma local_scan_buckets_inv fuel ids : forall st s st' s',
  BioLocal.scan_buckets fuel ids st s = Ret st' s' ->
  ((bMin st' = bMin st /\ found st' = found st) \/
   (found st' = 1 /\ unreferenced s (bMin st'))) /\
  stamp s (bMin st') <= stamp s (bMin st).
Proof.
  induction ids as [|i ids IH]; intros st s st' s' E; simpl in E.
  - injection E as <- _. split; [left; split; reflexivity | lia].
  - apply bind_Ret_inv in E as (hd & s0 & Hd & E).
    pose proof (same_state _ _ _ _ (pres_deref eq (@eq_refl bcache) _) Hd)
      as ->.
    apply bind_Ret_inv in E as (st1 & s1 & H1 & E).
    pose proof (same_state _ _ _ _ (local_scan_bucket_eq _ _ _ _ _) H1) as ->.
    apply local_scan_bucket_inv in H1 as [Hwho1 Hle1].
    apply IH in E as [Hwho Hle]. split; [|lia].
    destruct Hwho as [[Hb Hf] | Hwho]; [|right; exact Hwho].
    rewrite Hb, Hf. exact Hwho1.
Qed.

(** A bucket whose unreferenced members all bear a timestamp above the
    candidate's leaves the candidate as it is. *)
Lemma local_scan_bucket_skip fuel stop i : forall p st s l m,
  chain fuel stop p s = Some l -> get s (bMin st) = Some m ->
  (forall q, q ∈ l -> unreferenced s q -> ticks m < stamp s q) ->
  BioLocal.scan_bucket fuel stop i p st s = Ret st s.
Proof.
  induction fuel as [|fuel IH]; intros p st s l m; simpl.
  - destruct (decide (p = stop)); [reflexivity | discriminate].
  - destruct (decide (p = stop)); [reflexivity|].
    destruct (get s p) as [b|] eqn:Hb; [|discriminate].
    destruct (chain fuel stop (next b) s) as [l'|] eqn:Hc; [|discriminate].
    intros [= <-] Hm Hall. rewrite Hm.
    assert (Hno : (refcnt b =? 0) && (ticks b <=? ticks m) = false).
    { destruct (Z.eqb_spec (refcnt b) 0) as [H0|]; [|reflexivity].
      assert (Hun : unreferenced s p) by (exists b; split; assumption).
      assert (Hin : p ∈ p :: l') by (apply elem_of_cons; left; reflexivity).
      specialize (Hall p Hin Hun). unfold stamp in Hall. rewrite Hb in Hall.
      destruct (Z.leb_spec (ticks b) (ticks m)); [lia | reflexivity]. }
    rewrite Hno. apply (IH (next b) st s l' m Hc Hm).
    intros q Hq. apply Hall, elem_of_cons. right. exact Hq.
Qed.

Lemma local_scan_buckets_skip ids : forall st s L m,
  pool_of s ids = Some L -> get s (bMin st) = Some m ->
  (forall j q, (j, q) ∈ L -> unreferenced s q -> ticks m < stamp s q) ->
  BioLocal.scan_buckets (nodes s) ids st s = Ret st s.
Proof.
  induction ids as [|i ids IH]; intros st s L m; simpl; [reflexivity|].
  destruct (shard s i) as [l|] eqn:Hsh; [|discriminate].
  destruct (pool_of s ids) as [r|] eqn:Hr; [|discriminate].
  intros [= <-] Hm Hall. unfold shard in Hsh.
  destruct (get s (BUCKET i)) as [hd|] eqn:Hhd; [|discriminate].
  unfold bind. rewrite (deref_ok s (BUCKET i) hd Hhd).
  rewrite (local_scan_bucket_skip _ _ _ _ st s l m Hsh Hm).
  - apply (IH st s r m Hr Hm). intros j q Hq.
    apply (Hall j q), elem_of_app. right. exact Hq.
  - intros q Hq. apply (Hall i q), elem_of_app. left.
    apply list_elem_of_fmap. exists q. split; [reflexivity | exact Hq].
Qed.

(** X23: The victim search of [kernel/bio.c] starts from the bucket head
    of the block's shard as its candidate and takes a buffer only when
    its timestamp is not greater than the candidate's: the buffer that
    [bget] recycles is an unreferenced buffer whose timestamp is at most
    that of the bucket head, and when every unreferenced buffer on the
    lists of the shards has a greater timestamp [bget] panics with
    "bget: no buffers", however many buffers are free and however long
    ago they were last used. *)
Theorem local_bget_recycles_stale_only (pid d bn now : Z) (s : bcache) :
  0 <= haskBlock bn < NBUCKETS ->
  lookup (nodes s) (BUCKET (Z.to_nat (haskBlock bn))) d bn s = Ret None s ->
  (forall b s', BioLocal.bget pid d bn now s = Ret b s' ->
     unreferenced s b /\
     stamp s b <= stamp s (BUCKET (Z.to_nat (haskBlock bn)))) /\
  (forall L, pool s = Some L ->
     (forall j q, (j, q) ∈ L -> unreferenced s q ->
        stamp s (BUCKET (Z.to_nat (haskBlock bn))) < stamp s q) ->
     BioLocal.bget pid d bn now s = Panic "bget: no buffers").
Proof.
  intros Hh Hlook.
  pose proof (bucket_ptr_hash s _ Hh) as Hptr.
  set (h := BUCKET (Z.to_nat (haskBlock bn))) in *.
  assert (Eo : BioLocal.bget pid d bn now s
     = (let! st := BioLocal.scan_buckets (nodes s) (seq 0 (Z.to_nat NBUCKETS))
                                         (mkSearch h 0 0 0) in
        if found st =? 0 then panic "bget: no buffers"
        else do! rebind d bn now (bMin st) in
             do! acquiresleep pid (bMin st) in
             ret (bMin st))%kern s).
  { unfold BioLocal.bget, bind at 1, gets. unfold bind at 1. rewrite Hptr.
    unfold bind at 1. rewrite Hlook. reflexivity. }
  split.
  - intros b s' E. rewrite Eo in E.
    apply bind_Ret_inv in E as (st & s0 & Hsc & E).
    pose proof (same_state _ _ _ _ (local_scan_buckets_eq _ _ _) Hsc) as ->.
    apply local_scan_buckets_inv in Hsc as [[[_ Hf] | [_ Hun]] Hle].
    + cbn [found] in Hf. rewrite Hf in E. discriminate E.
    + destruct (found st =? 0); [discriminate E|].
      apply bind_Ret_inv in E as ([] & s1 & _ & E).
      apply bind_Ret_inv in E as ([] & s2 & _ & E).
      injection E as <- _. split; [exact Hun | exact Hle].
  - intros L HL Hall. rewrite Eo. unfold bind at 1.
    assert (Hm : exists m, get s h = Some m).
    { unfold lookup, bind, deref, gets_opt in Hlook.
      destruct (get s h) as [m|]; [eauto | discriminate Hlook]. }
    destruct Hm as [m Hm].
    rewrite (local_scan_buckets_skip _ (mkSearch h 0 0 0) s L m HL Hm).
    + reflexivity.
    + intros j q Hq Hun. specialize (Hall j q Hq Hun).
      unfold stamp in Hall at 1. rewrite Hm in Hall. exact Hall.
Qed.

Lemma local_bget_recycles_stale_only_witness :
  let s' := after (BioLocal.bget 7 1 1 5) ex_pool in
  let s3 := after (binit 3) (boot 3) in
  lookup (nodes ex_pool) (BUCKET (Z.to_nat (haskBlock 1))) 1 1 ex_pool
  = Ret None ex_pool /\
  BioLocal.bget 7 1 1 5 ex_pool = Ret (BUF 0) s' /\
  unreferenced ex_pool (BUF 0) /\
  stamp ex_pool (BUF 0) <= stamp ex_pool (BUCKET (Z.to_nat (haskBlock 1))) /\
  binit 3 (boot 3) = Ret tt s3 /\
  pool s3 = Some [(0, BUF 2); (0, BUF 1); (0, BUF 0)]%nat /\
  unreferenced s3 (BUF 2) /\ stamp s3 (BUF 2) = 3 /\
  BioLocal.bget 7 1 1 5 s3 = Panic "bget: no buffers".
Proof.
  intros s' s3.
  assert (Hh : 0 <= haskBlock 1 < NBUCKETS)
    by (vm_compute; split; [intros E; discriminate E | reflexivity]).
  assert (Hlook : lookup (nodes ex_pool) (BUCKET (Z.to_nat (haskBlock 1)))
                         1 1 ex_pool = Ret None ex_pool)
    by (vm_compute; reflexivity).
  assert (E : BioLocal.bget 7 1 1 5 ex_pool = Ret (BUF 0) s')
    by (apply value_state; vm_compute; reflexivity).
  destruct (local_bget_recycles_stale_only 7 1 1 5 ex_pool Hh Hlook)
    as [Hvic _].
  destruct (Hvic (BUF 0) s' E) as [Hun Hle].
  split; [exact Hlook|]. split; [exact E|]. split; [exact Hun|].
  split; [exact Hle|].
  assert (Hlook3 : lookup (nodes s3) (BUCKET (Z.to_nat (haskBlock 1)))
                          1 1 s3 = Ret None s3)
    by (vm_compute; reflexivity).
  assert (HL : pool s3 = Some [(0, BUF 2); (0, BUF 1); (0, BUF 0)]%nat)
    by (vm_compute; reflexivity).
  split; [apply returned_state; vm_compute; reflexivity|].
  split; [exact HL|].
  split; [exists (default zero_buf (get s3 (BUF 2))); split;
          vm_compute; reflexivity|].
  split; [vm_compute; reflexivity|].
  destruct (local_bget_recycles_stale_only 7 1 1 5 s3 Hh Hlook3) as [_ Hno].
  apply (Hno _ HL). intros j q Hq _.
  repeat (apply elem_of_cons in Hq as [[= -> ->] | Hq];
          [vm_compute; reflexivity|]).
  apply elem_of_nil in Hq. contradiction.
Defined.

Lemma local_brelse_same_ticks pid b :
  preserves (fun s s' => forall q, ticks <$> get s' q = ticks <$> get s q)
            (BioLocal.brelse pid b).
Proof.
  set (R := fun s s' : bcache =>
              forall q, ticks <$> get s' q = ticks <$> get s q).
  assert (Rrefl : forall s, R s s) by (intros s q; reflexivity).
  assert (Rtrans : forall a b c, R a b -> R b c -> R a c)
    by (intros x y z H1 H2 q; rewrite H2; apply H1).
  assert (Rput : forall s p x f, (forall y, ticks (f y) = ticks y) ->
                   get s p = Some x -> R s (put s p (f x))).
  { intros s p x f Hf Hp q.
    apply (fmap_get_put_same ticks s p (f x) x q Hp (Hf x)). }
  assert (Hupd : forall p f, (forall y, ticks (f y) = ticks y) ->
                             preserves R (upd p f))
    by (intros p f Hf; apply (pres_upd R _ Rput p f Hf)).
  unfold BioLocal.brelse.
  apply (pres_bind R Rtrans); [apply (pres_deref R Rrefl)|]. intros bb.
  destruct (negb (holdingsleep pid bb)); [apply (pres_panic R)|].
  apply (pres_bind R Rtrans);
    [apply Hupd; intros y; reflexivity|]. intros _.
  apply (pres_bind R Rtrans); [apply (pres_deref R Rrefl)|]. intros bb1.
  apply (pres_bind R Rtrans); [apply (pres_bucket_ptr R Rrefl)|]. intros h.
  apply (pres_bind R Rtrans);
    [apply Hupd; intros y; reflexivity|]. intros _.
  apply (pres_bind R Rtrans); [apply (pres_deref R Rrefl)|]. intros bb2.
  destruct (refcnt bb2 =? 0); [|apply (pres_ret R Rrefl)].
  apply (pres_bind R Rtrans);
    [apply Hupd; intros y; reflexivity|]. intros _.
  apply (pres_bind R Rtrans); [apply (pres_deref R Rrefl)|]. intros bb3.
  apply (pres_bind R Rtrans);
    [apply Hupd; intros y; reflexivity|]. intros _.
  apply (pres_bind R Rtrans); [apply (pres_deref R Rrefl)|]. intros hd0.
  apply (pres_bind R Rtrans);
    [apply Hupd; intros y; reflexivity|]. intros _.
  apply (pres_bind R Rtrans);
    [apply Hupd; intros y; reflexivity|]. intros _.
  apply (pres_bind R Rtrans); [apply (pres_deref R Rrefl)|]. intros hd.
  apply (pres_bind R Rtrans);
    [apply Hupd; intros y; reflexivity|]. intros _.
  apply Hupd. intros y. reflexivity.
Qed.

(** X24: [brelse] of [kernel/bio.c] does not record the time of the
    release: whatever it does to the links, every timestamp is after
    the call what it was before. *)
Theorem local_brelse_keeps_ticks (pid : Z) (b : ptr) (s s' : bcache) :
  left_by (BioLocal.brelse pid b s) = Some s' ->
  forall q, ticks <$> get s' q = ticks <$> get s q.
Proof.
  intros E. pose proof (local_brelse_same_ticks pid b s) as H.
  destruct (BioLocal.brelse pid b s); simpl in E; try discriminate;
    injection E as <-; exact H.
Qed.

Lemma local_brelse_keeps_ticks_witness :
  let s' := after (BioLocal.brelse 7 (BUF 2)) ex_read in
  left_by (BioLocal.brelse 7 (BUF 2) ex_read) = Some s' /\
  refcnt <$> get s' (BUF 2) = Some 0 /\
  ticks <$> get s' (BUF 2) = Some 5.
Proof.
  intros s'.
  assert (E : left_by (BioLocal.brelse 7 (BUF 2) ex_read) = Some s')
    by (vm_compute; reflexivity).
  split; [exact E|]. split; [vm_compute; reflexivity|].
  rewrite (local_brelse_keeps_ticks 7 (BUF 2) ex_read s' E (BUF 2)).
  vm_compute. reflexivity.
Defined.

Lemma upd_get s p f x :
  get s p = Some x ->
  exists s', upd p f s = Ret tt s' /\ nodes s' = nodes s /\
    forall q, get s' q = if decide (q = p) then Some (f x) else get s q.
Proof.
  intros Hp. exists (put s p (f x)).
  split; [apply (upd_ok s p f x Hp)|]. split; [apply nodes_put|].
  intros q. rewrite (get_put_if s p (f x) x q Hp).
  destruct (decide (p = q)) as [->|Hne].
  - rewrite decide_True by reflexivity. reflexivity.
  - rewrite decide_False by congruence. reflexivity.
Qed.

Lemma get_defined_step s s' p (v : buf) :
  (forall q, get s' q = if decide (q = p) then Some v else get s q) ->
  forall q, is_Some (get s q) -> is_Some (get s' q).
Proof.
  intros G q Hq. rewrite G. destruct (decide (q = p)); [eauto | exact Hq].
Qed.

Lemma path_sources_defined s c : forall l a x,
  path (next_of s) (prev_of s) a l c -> x ∈ a :: l -> is_Some (get s x).
Proof.
  induction l as [|y l IH]; intros a x Hp Hx.
  - destruct Hp as [H _]. apply elem_of_cons in Hx as [-> | Hx];
      [|apply elem_of_nil in Hx; contradiction].
    destruct (fmap_Some_get next s a _ H) as (z & Hz & _). eauto.
  - destruct Hp as [[H _] Hp]. apply elem_of_cons in Hx as [-> | Hx].
    + destruct (fmap_Some_get next s a _ H) as (z & Hz & _). eauto.
    + apply (IH y x Hp Hx).
Qed.

(** X25: [brelse] of [kernel/bio.c] takes the buffer out of the list it
    sits on (that of shard [j], whichever it is: [bget] leaves a
    recycled buffer where it found it) when the last reference goes, and
    links it to the bucket head of its block number (shard [i]) through
    [bcache.head], which [binit] never set up: the buffer's [next]
    becomes null and its [prev] points to [bcache.head], while the
    bucket head of shard [i] points to the buffer.  The list of shard
    [i] then ends in a null pointer instead of coming back to its head,
    and the next [bget] that looks through this shard for another block
    follows the null pointer. *)
Theorem local_brelse_cuts_shard (pid : Z) (i j k : nat) (ks ki : list nat)
        (s : bcache) (bb : buf) :
  get s (BUF k) = Some bb -> lock bb = Some pid -> refcnt bb = 1 ->
  haskBlock (blockno bb) = Z.of_nat i -> (i < Z.to_nat NBUCKETS)%nat ->
  ring s j ks -> NoDup ks -> k ∈ ks ->
  ring s i ki -> (i <> j -> k ∉ ki) ->
  next (head s) = NULL ->
  exists s',
    BioLocal.brelse pid (BUF k) s = Ret tt s' /\
    next_of s' (BUF k) = Some NULL /\ prev_of s' (BUF k) = Some HEAD /\
    next_of s' (BUCKET i) = Some (BUF k) /\
    shard s' i = None /\
    forall pid2 d bn now,
      haskBlock bn = Z.of_nat i -> ~ (dev bb = d /\ blockno bb = bn) ->
      BioLocal.bget pid2 d bn now s' = Undef.
Proof.
  intros Hb Hlock Hcnt Hh Hi Hring Hnd Hk Hringi Hki Hhead.
  set (b := BUF k) in *. set (h := BUCKET i) in *. set (hj := BUCKET j) in *.
  destruct (list_elem_of_split _ _ Hk) as (l1 & l2 & Hsplit).
  set (pr := List.last (map BUF l1) hj).
  set (nx := List.hd hj (map BUF l2)).
  pose proof Hring as Hri. unfold ring in Hri. fold hj in Hri.
  rewrite Hsplit, map_app in Hri. cbn [map] in Hri. fold b in Hri.
  destruct (path_ends _ _ _ _ _ _ _ Hri) as (Npr & Pb & Nb & Pnx).
  fold pr nx in Npr, Pb, Nb, Pnx.
  assert (Hprev : prev bb = pr).
  { unfold prev_of in Pb. rewrite Hb in Pb. simpl in Pb. congruence. }
  assert (Hnext : next bb = nx).
  { unfold next_of in Nb. rewrite Hb in Nb. simpl in Nb. congruence. }
  assert (Hnodes : forall x, x ∈ hj :: map BUF ks -> is_Some (get s x)).
  { intros x Hx. apply (path_sources_defined s hj (map BUF ks) hj x Hring Hx). }
  assert (Hnodesi : forall x, x ∈ h :: map BUF ki -> is_Some (get s x)).
  { intros x Hx. apply (path_sources_defined s h (map BUF ki) h x Hringi Hx). }
  assert (Hh_in : is_Some (get s h))
    by (apply Hnodesi, elem_of_cons; left; reflexivity).
  assert (Hk12 : (k ∉ l1) /\ (k ∉ l2)).
  { rewrite Hsplit in Hnd. apply NoDup_app in Hnd as (_ & Hdis & Hn2).
    apply NoDup_cons in Hn2 as [Hk2 _]. split; [|exact Hk2].
    intros Hin. apply (Hdis k Hin). apply elem_of_cons. left. reflexivity. }
  destruct Hk12 as [Hk1 Hk2].
  assert (Hpr_in : pr ∈ hj :: map BUF ks).
  { pose proof (last_elem (map BUF l1) hj) as H. fold pr in H.
    rewrite Hsplit, map_app. list_mem. }
  assert (Hnx_in : nx ∈ hj :: map BUF ks).
  { pose proof (hd_elem (map BUF l2) hj) as H. fold nx in H.
    rewrite Hsplit, map_app. cbn [map]. list_mem. }
  assert (Hprb : pr <> b).
  { intros E. pose proof (last_elem (map BUF l1) hj) as Hin.
    fold pr in Hin. rewrite E in Hin.
    apply elem_of_cons in Hin as [Hin | Hin]; [discriminate Hin|].
    apply (move_b_not k l1 Hk1 Hin). }
  assert (Hnxb : nx <> b).
  { intros E. pose proof (hd_elem (map BUF l2) hj) as Hin.
    fold nx in Hin. rewrite E in Hin.
    apply elem_of_app in Hin as [Hin | Hin].
    - apply (move_b_not k l2 Hk2 Hin).
    - apply elem_of_cons in Hin as [Hin | Hin]; [discriminate Hin|].
      apply elem_of_nil in Hin. exact Hin. }
  assert (Hnot_head : forall x, x ∈ hj :: map BUF ks -> x <> HEAD).
  { intros x Hx ->. apply elem_of_cons in Hx as [Hx | Hx]; [discriminate Hx|].
    apply list_elem_of_fmap in Hx as (y & E & _). discriminate E. }
  (* the count goes to 0 *)
  set (bb2 := set_refcnt (to_uint (refcnt (set_lock None bb) - 1))
                         (set_lock None bb)).
  set (s2 := put s b bb2).
  assert (Hb2 : get s2 b = Some bb2) by (apply (get_put_eq s b bb2 bb Hb)).
  assert (G2 : forall q, q <> b -> get s2 q = get s q)
    by (intros q Hq; unfold s2; apply get_put_ne; congruence).
  assert (Estart : BioLocal.brelse pid b s
            = (do! upd nx (set_prev pr) in
               let! bb := deref b in
               do! upd (prev bb) (set_next (next bb)) in
               let! hd0 := deref HEAD in
               do! upd b (set_next (next hd0)) in
               do! upd b (set_prev HEAD) in
               let! hd := deref h in
               do! upd (next hd) (set_prev b) in
               upd h (set_next b))%kern s2).
  { unfold BioLocal.brelse. unfold bind at 1. rewrite (deref_ok s b bb Hb).
    unfold holdingsleep. rewrite bool_decide_eq_true_2 by exact Hlock.
    cbn [negb]. unfold releasesleep. unfold bind at 1.
    rewrite (upd_ok s b _ bb Hb).
    pose proof (get_put_eq s b (set_lock None bb) bb Hb) as H1.
    unfold bind at 1. rewrite (deref_ok _ b _ H1).
    unfold bind at 1.
    rewrite (bucket_ptr_hash _ (haskBlock (blockno (set_lock None bb))))
      by (cbn [blockno set_lock]; rewrite Hh; unfold NBUCKETS in *; lia).
    unfold bind at 1.
    rewrite (upd_ok _ b (fun x => set_refcnt (to_uint (refcnt x - 1)) x) _ H1).
    rewrite put_put. fold bb2. fold s2.
    unfold bind at 1. rewrite (deref_ok s2 b bb2 Hb2).
    assert (Hz : (refcnt bb2 =? 0) = true)
      by (cbn [refcnt bb2 set_refcnt set_lock]; rewrite Hcnt; reflexivity).
    rewrite Hz.
    cbn [blockno bb2 set_refcnt set_lock next prev]. rewrite Hh, Hnext, Hprev.
    rewrite Nat2Z.id. reflexivity. }
  destruct (Hnodes nx Hnx_in) as [x0 Hx0].
  assert (Hx2 : get s2 nx = Some x0) by (rewrite G2 by exact Hnxb; exact Hx0).
  destruct (upd_get s2 nx (set_prev pr) x0 Hx2) as (s3 & E3 & Hn3 & G3).
  assert (Hb3 : get s3 b = Some bb2).
  { rewrite G3. rewrite decide_False by congruence. exact Hb2. }
  assert (D3 : forall q, is_Some (get s q) -> is_Some (get s3 q)).
  { intros q Hq. apply (get_defined_step s2 s3 nx _ G3).
    unfold s2. destruct Hq as [z Hz].
    destruct (put_defined s b bb2 bb q z Hb Hz) as [z' Hz']. eauto. }
  destruct (D3 pr (Hnodes pr Hpr_in)) as [y3 Hy3].
  destruct (upd_get s3 pr (set_next nx) y3 Hy3) as (s4 & E4 & Hn4 & G4).
  assert (Hhd4 : get s4 HEAD = Some (head s)).
  { rewrite G4, decide_False by (symmetry; apply Hnot_head, Hpr_in).
    rewrite G3, decide_False by (symmetry; apply Hnot_head, Hnx_in).
    rewrite G2 by discriminate. reflexivity. }
  assert (Hb4 : get s4 b = Some bb2).
  { rewrite G4. rewrite decide_False by congruence. exact Hb3. }
  destruct (upd_get s4 b (set_next NULL) bb2 Hb4) as (s5 & E5 & Hn5 & G5).
  assert (Hb5 : get s5 b = Some (set_next NULL bb2)).
  { rewrite G5. rewrite decide_True by reflexivity. reflexivity. }
  destruct (upd_get s5 b (set_prev HEAD) _ Hb5) as (s6 & E6 & Hn6 & G6).
  set (bb6 := set_prev HEAD (set_next NULL bb2)) in *.
  assert (D6 : forall q, is_Some (get s q) -> is_Some (get s6 q)).
  { intros q Hq. apply (get_defined_step s5 s6 b _ G6).
    apply (get_defined_step s4 s5 b _ G5).
    apply (get_defined_step s3 s4 pr _ G4). apply D3, Hq. }
  destruct (D6 h Hh_in) as [hd6 Hhd6].
  (* the node after the bucket head, once [b] is out *)
  assert (Hf6 : next hd6 <> b /\ is_Some (get s6 (next hd6))).
  { pose proof Hhd6 as Hg. rewrite G6, decide_False in Hg by discriminate.
    rewrite G5, decide_False in Hg by discriminate. rewrite G4 in Hg.
    destruct (decide (i = j)) as [Eij|Nij].
    - (* the buffer sits in the shard of its block number *)
      assert (Ehj : hj = h) by (unfold h, hj; rewrite Eij; reflexivity).
      destruct (decide (h = pr)) as [Ehp|Nhp].
      + injection Hg as <-. cbn [next set_next].
        split; [exact Hnxb | apply D6, Hnodes, Hnx_in].
      + rewrite G3 in Hg.
        pose proof (path_first _ _ _ _ _ Hring) as Nh. fold hj in Nh.
        rewrite Ehj in Nh.
        assert (Hfirst : List.hd h (map BUF ks) <> b).
        { intros E. rewrite Hsplit, map_app in E.
          destruct l1 as [|z l1]; simpl in E.
          - apply Nhp. unfold pr. simpl. symmetry. exact Ehj.
          - injection E as ->. apply Hk1. list_mem. }
        assert (Hdef : is_Some (get s6 (List.hd h (map BUF ks)))).
        { apply D6, Hnodes. rewrite Ehj.
          pose proof (hd_elem (map BUF ks) h). list_mem. }
        destruct (decide (h = nx)) as [Ehn|Nhn].
        * injection Hg as <-. cbn [next set_prev].
          unfold next_of in Nh. rewrite <- Ehn in Hx0. rewrite Hx0 in Nh.
          injection Nh as ->. split; assumption.
        * rewrite G2 in Hg by discriminate.
          unfold next_of in Nh. rewrite Hg in Nh. injection Nh as ->.
          split; assumption.
    - (* the buffer sits in another shard: its neighbours are not [h] *)
      assert (Hout : forall x, x ∈ hj :: map BUF ks -> h <> x).
      { intros x Hx E. rewrite <- E in Hx.
        apply elem_of_cons in Hx as [Hx | Hx].
        - unfold h, hj in Hx. injection Hx as Hx. apply Nij, Hx.
        - apply list_elem_of_fmap in Hx as (y & Hy & _). discriminate Hy. }
      rewrite decide_False in Hg by (apply Hout, Hpr_in).
      rewrite G3, decide_False in Hg by (apply Hout, Hnx_in).
      rewrite G2 in Hg by discriminate.
      pose proof (path_first _ _ _ _ _ Hringi) as Nh. fold h in Nh.
      unfold next_of in Nh. rewrite Hg in Nh. injection Nh as ->.
      pose proof (hd_elem (map BUF ki) h) as Hin. split.
      + intros E. rewrite E in Hin.
        apply elem_of_app in Hin as [Hin | Hin].
        * apply list_elem_of_fmap in Hin as (y & Hy & Hyin).
          injection Hy as <-. apply (Hki Nij Hyin).
        * apply elem_of_cons in Hin as [Hin | Hin]; [discriminate Hin|].
          apply elem_of_nil in Hin. exact Hin.
      + apply D6, Hnodesi. list_mem. }
  destruct Hf6 as [Hf6b [y6 Hy6]].
  destruct (upd_get s6 (next hd6) (set_prev b) y6 Hy6) as (s7 & E7 & Hn7 & G7).
  destruct (get_defined_step s6 s7 _ _ G7 h (ex_intro _ hd6 Hhd6)) as [hd7 Hhd7].
  destruct (upd_get s7 h (set_next b) hd7 Hhd7) as (s8 & E8 & Hn8 & G8).
  assert (Hb8 : get s8 b = Some bb6).
  { rewrite G8, decide_False by discriminate.
    rewrite G7, decide_False by congruence.
    rewrite G6, decide_True by reflexivity. reflexivity. }
  assert (Hh8 : get s8 h = Some (set_next b hd7)).
  { rewrite G8, decide_True by reflexivity. reflexivity. }
  assert (Hnull8 : get s8 NULL = None) by reflexivity.
  assert (Hnodes8 : exists fuel, nodes s8 = S (S (S fuel))).
  { rewrite Hn8, Hn7, Hn6, Hn5, Hn4, Hn3. unfold s2. rewrite nodes_put.
    unfold nodes.
    pose proof (lookup_lt_Some (bufs s) k bb Hb) as Hlt.
    destruct Hh_in as [z Hz].
    pose proof (lookup_lt_Some (buckets s) i z Hz) as Hlt2.
    exists (length (bufs s) + length (buckets s) - 2)%nat. lia. }
  destruct Hnodes8 as [fuel Hfuel].
  exists s8. split.
  { rewrite Estart. unfold bind at 1. rewrite E3.
    unfold bind at 1. rewrite (deref_ok s3 b bb2 Hb3).
    cbn [prev next bb2 set_refcnt set_lock]. rewrite Hprev, Hnext.
    unfold bind at 1. rewrite E4.
    unfold bind at 1. rewrite (deref_ok s4 HEAD _ Hhd4), Hhead.
    unfold bind at 1. rewrite E5. unfold bind at 1. rewrite E6.
    unfold bind at 1. rewrite (deref_ok s6 h hd6 Hhd6).
    unfold bind at 1. rewrite E7. exact E8. }
  split; [unfold next_of; rewrite Hb8; reflexivity|].
  split; [unfold prev_of; rewrite Hb8; reflexivity|].
  split; [unfold next_of; rewrite Hh8; reflexivity|].
  split.
  { unfold shard. fold h. rewrite Hh8, Hfuel. cbn [next set_next chain].
    rewrite decide_False by discriminate. fold b. rewrite Hb8.
    cbn [next bb6 set_prev set_next]. rewrite decide_False by discriminate.
    rewrite Hnull8. reflexivity. }
  intros pid2 d bn now Hbn Hother.
  unfold BioLocal.bget, bind at 1, gets. unfold bind at 1.
  rewrite (bucket_ptr_hash s8 (haskBlock bn))
    by (rewrite Hbn; unfold NBUCKETS in *; lia).
  rewrite Hbn, Nat2Z.id. fold h.
  assert (Elook : lookup (nodes s8) h d bn s8 = Undef).
  { unfold lookup, bind. rewrite (deref_ok s8 h _ Hh8), Hfuel.
    cbn [next set_next scan_cached].
    rewrite decide_False by discriminate. rewrite Hb8.
    assert (Hno : (dev bb6 =? d) && (blockno bb6 =? bn) = false).
    { cbn [dev blockno bb6 bb2 set_prev set_next set_refcnt set_lock].
      destruct (Z.eqb_spec (dev bb) d) as [Ed|]; [|reflexivity].
      destruct (Z.eqb_spec (blockno bb) bn) as [En|]; [|reflexivity].
      exfalso. apply Hother. split; assumption. }
    rewrite Hno. cbn [next bb6 set_prev set_next].
    rewrite decide_False by discriminate. rewrite Hnull8. reflexivity. }
  unfold bind at 1. rewrite Elook. reflexivity.
Qed.

Lemma local_brelse_cuts_shard_witness :
  let s := after (BioLocal.bget 7 1 1 5) ex_pool in
  let bb := default zero_buf (get s (BUF 0)) in
  BioLocal.bget 7 1 1 5 ex_pool = Ret (BUF 0) s /\
  get s (BUF 0) = Some bb /\ lock bb = Some 7 /\ refcnt bb = 1 /\
  haskBlock (blockno bb) = 1 /\
  ring s 0 [2; 1; 0]%nat /\ ring s 1 [] /\ next (head s) = NULL /\
  exists s', BioLocal.brelse 7 (BUF 0) s = Ret tt s' /\
             shard s' 1 = None /\ BioLocal.bget 8 1 14 12 s' = Undef.
Proof.
  intros s bb.
  assert (Hb : get s (BUF 0) = Some bb) by (vm_compute; reflexivity).
  assert (Hl : lock bb = Some 7) by (vm_compute; reflexivity).
  assert (Hc : refcnt bb = 1) by (vm_compute; reflexivity).
  assert (Hh : haskBlock (blockno bb) = 1) by (vm_compute; reflexivity).
  assert (Hr : ring s 0 [2; 1; 0]%nat)
    by (repeat split; vm_compute; reflexivity).
  assert (Hr1 : ring s 1 [])
    by (split; vm_compute; reflexivity).
  assert (Hhd : next (head s) = NULL) by (vm_compute; reflexivity).
  split; [apply value_state; vm_compute; reflexivity|].
  split; [exact Hb|]. split; [exact Hl|]. split; [exact Hc|].
  split; [exact Hh|]. split; [exact Hr|]. split; [exact Hr1|].
  split; [exact Hhd|].
  destruct (local_brelse_cuts_shard 7 1 0 0 [2; 1; 0]%nat [] s bb Hb Hl Hc Hh)
    as (s' & E & _ & _ & _ & Hsh & Hget).
  - unfold NBUCKETS. lia.
  - exact Hr.
  - apply NoDup_ListNoDup. repeat constructor; simpl; intuition lia.
  - apply elem_of_cons. right. apply elem_of_cons. right.
    apply elem_of_cons. left. reflexivity.
  - exact Hr1.
  - intros _ H. apply elem_of_nil in H. exact H.
  - exact Hhd.
  - exists s'. split; [exact E|]. split; [exact Hsh|].
    apply Hget; [vm_compute; reflexivity|].
    intros [_ H]. vm_compute in H. discriminate H.
Defined.

Lemma ex_pool_reachable (ops : list op) (s : bcache) :
  run ops ex_pool = Some s -> reachable s.
Proof.
  intros H. exists 3%nat, 0, ops, ex_pool.
  split; [exact ex_binit | exact H].
Defined.

Lemma shards_partition_pool_witness :
  reachable ex_read /\
  exists sh, wf ex_read sh /\ shard ex_read 1 = Some (map BUF (sh 1%nat)).
Proof.
  assert (Hr : reachable ex_read)
    by (apply (ex_pool_reachable [ReadThrough 7 1 1 5]);
        vm_compute; reflexivity).
  split; [exact Hr|].
  destruct (shards_partition_pool ex_read Hr) as (sh & Hwf & Hsh).
  exists sh. split; [exact Hwf|]. apply Hsh. unfold NBUCKETS. lia.
Defined.

Lemma bget_never_faults_witness :
  reachable ex_held /\
  bget 8 1 4 6 ex_held = Panic "bget: no buffers" /\
  bread 8 1 4 6 ex_held = Panic "bget: no buffers".
Proof.
  assert (Hr : reachable ex_held).
  { apply (ex_pool_reachable [ReadThrough 7 1 1 5; ReadThrough 7 1 2 5;
                         ReadThrough 7 1 3 5]).
    vm_compute. reflexivity. }
  split; [exact Hr|].
  destruct (bget_never_faults ex_held 8 1 4 6 Hr)
    as [H | (k & s1 & _ & [[E _] | [E _]])].
  - vm_compute. split; [intros E; discriminate E | reflexivity].
  - exact H.
  - exfalso. assert (Hv : value_of (bget 8 1 4 6 ex_held) = None)
      by (vm_compute; reflexivity).
    rewrite E in Hv. discriminate Hv.
  - exfalso. assert (Hv : returned (bget 8 1 4 6 ex_held) = false)
      by (vm_compute; reflexivity).
    assert (Hp : bget 8 1 4 6 ex_held = Panic "bget: no buffers")
      by (vm_compute; reflexivity).
    rewrite E in Hp. discriminate Hp.
Defined.

Lemma bget_returns_locked_witness :
  let s' := after (bget 7 1 1 5) ex_pool in
  reachable ex_pool /\ bget 7 1 1 5 ex_pool = Ret (BUF 2) s' /\
  exists bb', get s' (BUF 2) = Some bb' /\ lock bb' = Some 7 /\
              dev bb' = 1 /\ blockno bb' = 1.
Proof.
  intros s'.
  assert (Hr : reachable ex_pool) by (apply (ex_pool_reachable []); reflexivity).
  assert (E : bget 7 1 1 5 ex_pool = Ret (BUF 2) s')
    by (apply value_state; vm_compute; reflexivity).
  split; [exact Hr|]. split; [exact E|].
  destruct (bget_returns_locked ex_pool s' 7 1 1 5 (BUF 2) Hr E)
    as (k & bb & bb' & _ & _ & _ & _ & Hb' & Hl & Hd & Hn & _).
  exists bb'. repeat split; assumption.
Defined.

Lemma bget_finds_cached_block_witness :
  let b2 := default zero_buf (get ex_released (BUF 2)) in
  reachable ex_released /\
  get ex_released (BUF 2) = Some b2 /\ dev b2 = 1 /\ blockno b2 = 1 /\
  exists k bb s' bb',
    get ex_released (BUF k) = Some bb /\
    taken 8 (bget 8 1 1 12 ex_released) (BUF k) s' bb bb' /\
    valid bb' = valid bb.
Proof.
  intros b2.
  assert (Hr : reachable ex_released).
  { apply (ex_pool_reachable [ReadThrough 7 1 1 5; Release 7 (BUF 2) 9]).
    vm_compute. reflexivity. }
  assert (Hb : get ex_released (BUF 2) = Some b2) by (vm_compute; reflexivity).
  assert (Hd : dev b2 = 1) by (vm_compute; reflexivity).
  assert (Hn : blockno b2 = 1) by (vm_compute; reflexivity).
  split; [exact Hr|]. split; [exact Hb|]. split; [exact Hd|].
  split; [exact Hn|].
  destruct (bget_finds_cached_block ex_released 8 1 1 12 2 b2 Hr Hb Hd Hn)
    as (k & bb & s' & bb' & Hbb & _ & _ & Htk & _ & Hv & _).
  exists k, bb, s', bb'. repeat split; assumption.
Defined.

Lemma pool_buffer_calls_return_witness :
  let bb := default zero_buf (get ex_read (BUF 2)) in
  reachable ex_read /\ get ex_read (BUF 2) = Some bb /\ lock bb = Some 7 /\
  bpin (BUF 2) ex_read
  = Ret tt (put ex_read (BUF 2) (set_refcnt (to_uint (refcnt bb + 1)) bb)) /\
  brelse 7 (BUF 2) 9 ex_read = Ret tt (put ex_read (BUF 2) (released 9 bb)).
Proof.
  intros bb.
  assert (Hr : reachable ex_read)
    by (apply (ex_pool_reachable [ReadThrough 7 1 1 5]);
        vm_compute; reflexivity).
  assert (Hb : get ex_read (BUF 2) = Some bb) by (vm_compute; reflexivity).
  assert (Hl : lock bb = Some 7) by (vm_compute; reflexivity).
  split; [exact Hr|]. split; [exact Hb|]. split; [exact Hl|].
  destruct (pool_buffer_calls_return ex_read 2 bb Hr Hb)
    as (_ & Hpin & _ & Hrel).
  split; [exact Hpin | exact (Hrel 7 9 Hl)].
Defined.

Lemma bwrite_then_bread_witness :
  let bb := default zero_buf (get ex_read (BUF 2)) in
  let s2 := default ex_pool
              (run [WriteBack 7 (BUF 2); Release 7 (BUF 2) 9;
                    ReadThrough 7 1 2 10; ReadThrough 7 1 3 11;
                    ReadThrough 7 1 4 12; Release 7 (BUF 2) 13] ex_read) in
  let s3 := after (bread 8 1 1 14) s2 in
  get ex_read (BUF 2) = Some bb /\ lock bb = Some 7 /\
  disk s2 !! (1, 1) = Some (data bb) /\ miss 1 1 s2 /\
  bread 8 1 1 14 s2 = Ret (BUF 2) s3 /\
  exists bb3, get s3 (BUF 2) = Some bb3 /\ data bb3 = data bb.
Proof.
  intros bb s2 s3.
  assert (Hb : get ex_read (BUF 2) = Some bb) by (vm_compute; reflexivity).
  assert (Hl : lock bb = Some 7) by (vm_compute; reflexivity).
  assert (Hd : dev bb = 1) by (vm_compute; reflexivity).
  assert (Hn : blockno bb = 1) by (vm_compute; reflexivity).
  assert (Hdisk : disk s2 !! (1, 1) = Some (data bb))
    by (vm_compute; reflexivity).
  assert (Hmiss : miss 1 1 s2)
    by (exists (BUCKET 1); split; vm_compute; reflexivity).
  assert (E : bread 8 1 1 14 s2 = Ret (BUF 2) s3)
    by (apply value_state; vm_compute; reflexivity).
  split; [exact Hb|]. split; [exact Hl|]. split; [exact Hdisk|].
  split; [exact Hmiss|]. split; [exact E|].
  destruct (bwrite_then_bread 7 (BUF 2) ex_read bb Hb Hl) as (s1 & _ & _ & H).
  specialize (H s2 8 14 (BUF 2) s3). rewrite Hd, Hn in H.
  destruct (H Hdisk Hmiss E) as (bb3 & Hb3 & _ & _ & _ & Hdat).
  exists bb3. split; [exact Hb3 | exact Hdat].
Defined.

Lemma bread_returns_valid_witness :
  let s' := after (bread 7 1 1 5) ex_pool in
  reachable ex_pool /\ bread 7 1 1 5 ex_pool = Ret (BUF 2) s' /\
  exists bb', get s' (BUF 2) = Some bb' /\ valid bb' <> 0 /\
              lock bb' = Some 7.
Proof.
  intros s'.
  assert (Hr : reachable ex_pool)
    by (apply (ex_pool_reachable []); reflexivity).
  assert (E : bread 7 1 1 5 ex_pool = Ret (BUF 2) s')
    by (apply value_state; vm_compute; reflexivity).
  split; [exact Hr|]. split; [exact E|].
  destruct (bread_returns_valid ex_pool s' 7 1 1 5 (BUF 2) Hr E)
    as (k & bb' & _ & _ & Hb' & Hv & Hl & _).
  exists bb'. repeat split; assumption.
Defined.

Lemma use_cached_block_witness :
  let bb := default zero_buf (get ex_released (BUF 2)) in
  shard ex_released (Z.to_nat (haskBlock 1)) = Some [BUF 2] /\
  get ex_released (BUF 2) = Some bb /\ lock bb = None /\ valid bb = 1 /\
  refcnt bb = 0 /\
  use_block 8 1 1 12 20 ex_released
  = Ret tt (put ex_released (BUF 2) (set_ticks 20 bb)).
Proof.
  intros bb.
  assert (Hl : shard ex_released (Z.to_nat (haskBlock 1)) = Some [BUF 2])
    by (vm_compute; reflexivity).
  assert (Hf : find (caches ex_released 1 1) [BUF 2] = Some (BUF 2))
    by (vm_compute; reflexivity).
  assert (Hb : get ex_released (BUF 2) = Some bb) by (vm_compute; reflexivity).
  assert (Hk : lock bb = None) by (vm_compute; reflexivity).
  assert (Hv : valid bb = 1) by (vm_compute; reflexivity).
  assert (H0 : refcnt bb = 0) by (vm_compute; reflexivity).
  split; [exact Hl|]. split; [exact Hb|]. split; [exact Hk|].
  split; [exact Hv|]. split; [exact H0|].
  rewrite (use_cached_block 8 1 1 12 20 ex_released [BUF 2] (BUF 2) bb);
    try assumption.
  - rewrite H0. reflexivity.
  - vm_compute. split; [intros E; discriminate E | reflexivity].
  - rewrite Hv. discriminate.
  - rewrite H0. lia.
Defined.

Lemma bget_recycles_lru_witness :
  let s' := after (bget 8 1 2 12) ex_released in
  reachable ex_released /\ ticks_ok ex_released /\ miss 1 2 ex_released /\
  bget 8 1 2 12 ex_released = Ret (BUF 1) s' /\
  stamp ex_released (BUF 1) = 0 /\ stamp ex_released (BUF 2) = 9 /\
  unreferenced ex_released (BUF 1).
Proof.
  intros s'.
  assert (Hr : reachable ex_released).
  { apply (ex_pool_reachable [ReadThrough 7 1 1 5; Release 7 (BUF 2) 9]).
    vm_compute. reflexivity. }
  assert (Ht : ticks_ok ex_released)
    by (apply ticks_okb_sound; vm_compute; reflexivity).
  assert (Hm : miss 1 2 ex_released)
    by (exists (BUCKET 2); split; vm_compute; reflexivity).
  assert (E : bget 8 1 2 12 ex_released = Ret (BUF 1) s')
    by (apply value_state; vm_compute; reflexivity).
  split; [exact Hr|]. split; [exact Ht|]. split; [exact Hm|].
  split; [exact E|]. split; [vm_compute; reflexivity|].
  split; [vm_compute; reflexivity|].
  apply (bget_recycles_lru ex_released s' 8 1 2 12 (BUF 1) Hr Ht Hm E).
Defined.

(** Pins add up, and the sum wraps around. *)
Lemma run_pins b n : forall s bb,
  get s b = Some bb -> 0 <= haskBlock (blockno bb) < NBUCKETS ->
  0 <= refcnt bb < 2 ^ 32 ->
  exists s' bb', run (replicate n (Pin b)) s = Some s' /\
                 get s' b = Some bb' /\
                 refcnt bb' = to_uint (refcnt bb + Z.of_nat n).
Proof.
  induction n as [|n IH]; intros s bb Hb Hh Hr.
  - exists s, bb. split; [reflexivity|]. split; [exact Hb|].
    rewrite Z.add_0_r, to_uint_id by exact Hr. reflexivity.
  - cbn [replicate run step]. rewrite (bpin_ok s b bb Hb Hh). cbn [left_by].
    set (bb1 := set_refcnt (to_uint (refcnt bb + 1)) bb).
    destruct (IH (put s b bb1) bb1 (get_put_eq s b bb1 bb Hb) Hh
                 (to_uint_range _))
      as (s' & bb' & Hrun & Hb' & Hc).
    exists s', bb'. split; [exact Hrun|]. split; [exact Hb'|].
    rewrite Hc. cbn [bb1 refcnt set_refcnt]. unfold to_uint.
    rewrite Zplus_mod_idemp_l. f_equal. lia.
Qed.

Lemma pins_replicate_pin b n p : 0 <= pins (replicate n (Pin b)) p.
Proof.
  induction n as [|n IH]; simpl; [lia|]. destruct (decide (b = p)); lia.
Qed.

(** The bound on the length of the run is needed as well: [2^31] pins
    of one buffer, none of them undone, take its count to [2^31], which
    is negative as a signed number. *)
Example pins_beyond_int_range :
  let ops := replicate (Z.to_nat (2 ^ 31)) (Pin (BUF 0)) in
  matched ops /\
  exists s b, run ops ex_pool = Some s /\ get s (BUF 0) = Some b /\
              refcnt b = 2 ^ 31 /\ count_of b = - 2 ^ 31.
Proof.
  intros ops. unfold ops. clear ops.
  remember (Z.to_nat (2 ^ 31)) as n eqn:En.
  assert (Hn : Z.of_nat n = 2 ^ 31) by (subst n; apply Z2Nat.id; lia).
  clear En. split.
  - intros k p. rewrite take_replicate. apply pins_replicate_pin.
  - assert (Hb : get ex_pool (BUF 0)
                 = Some (default zero_buf (get ex_pool (BUF 0))))
      by (vm_compute; reflexivity).
    destruct (run_pins (BUF 0) n ex_pool _ Hb) as (s & b & Hrun & Hg & Hc).
    + vm_compute. split; [intros E; discriminate E | reflexivity].
    + vm_compute. split; [intros E; discriminate E | reflexivity].
    + exists s, b. split; [exact Hrun|]. split; [exact Hg|].
      assert (Hr : refcnt b = 2 ^ 31).
      { rewrite Hc, Hn. vm_compute. reflexivity. }
      split; [exact Hr|]. unfold count_of. rewrite Hr. vm_compute.
      reflexivity.
Qed.

Lemma refcnt_counts_references_witness :
  let ops := [ReadThrough 7 1 1 5; Pin (BUF 2); Release 7 (BUF 2) 9] in
  let s := default ex_pool (run ops ex_pool) in
  let b := default zero_buf (get s (BUF 2)) in
  binit 0 (boot 3) = Ret tt ex_pool /\
  run ops ex_pool = Some s /\ matched ops /\
  get s (BUF 2) = Some b /\
  pins ops (BUF 2) = 1 /\ locked b = 0 /\ refcnt b = 1 /\
  0 <= count_of b.
Proof.
  intros ops s b.
  assert (Hrun : run ops ex_pool = Some s) by (vm_compute; reflexivity).
  assert (Hm : matched ops).
  { intros n p.
    do 3 (destruct n as [|n];
          [simpl; unfold pin_delta; repeat case_decide; lia|]).
    simpl. rewrite take_nil. simpl. unfold pin_delta.
    repeat case_decide; lia. }
  assert (Hlen : Z.of_nat (length ops) < 2 ^ 31) by (simpl; lia).
  assert (Hb : get s (BUF 2) = Some b) by (vm_compute; reflexivity).
  split; [exact ex_binit|]. split; [exact Hrun|]. split; [exact Hm|].
  split; [exact Hb|]. split; [vm_compute; reflexivity|].
  split; [vm_compute; reflexivity|]. split; [vm_compute; reflexivity|].
  apply (refcnt_counts_references 3 0 ops ex_pool s (BUF 2) b
           ex_binit Hrun Hm Hlen Hb).
Defined.

(** C7, as stated, fails: one [bunpin] of a buffer that nobody holds
    takes its count from 0 to [2^32 - 1], which is -1 as a number of
    references. *)
Lemma unmatched_unpin_underflows :
  let s := after (bunpin (BUF 0)) ex_pool in
  binit 0 (boot 3) = Ret tt ex_pool /\
  run [Unpin (BUF 0)] ex_pool = Some s /\
  refcnt <$> get ex_pool (BUF 0) = Some 0 /\
  refcnt <$> get s (BUF 0) = Some (2 ^ 32 - 1) /\
  count_of <$> get s (BUF 0) = Some (-1) /\
  ~ (forall ops s' p b, run ops ex_pool = Some s' -> get s' p = Some b ->
                        0 <= count_of b).
Proof.
  intros s.
  assert (Hrun : run [Unpin (BUF 0)] ex_pool = Some s)
    by (vm_compute; reflexivity).
  split; [exact ex_binit|]. split; [exact Hrun|].
  split; [vm_compute; reflexivity|]. split; [vm_compute; reflexivity|].
  split; [vm_compute; reflexivity|].
  intros H.
  assert (Hb : get s (BUF 0) = Some (default zero_buf (get s (BUF 0))))
    by (vm_compute; reflexivity).
  specialize (H _ s (BUF 0) _ Hrun Hb). vm_compute in H.
  apply H. reflexivity.
Qed.

End BioExtProofs.
